(** * A shallow embedding of the Cambridge-pseudocode tree-walking interpreter

    The development follows [pkg/interpreter]: [object.go] (runtime values),
    [environment.go] (scope chain) and [interpreter.go] (the evaluator), over
    the syntax tree of [pkg/ast].

    Go pointers to mutable structures (environments, instances, arrays and
    records) are addresses into append-only stores, so that aliasing is
    kept.  A class is never written after [evalClassStatement] has built
    it, and classes are never compared by address, so a class is embedded as
    an immutable value.  The host stack is replaced by a fuel counter. *)

From Stdlib Require Import ZArith String Ascii List Bool Lia.
From Stdlib Require Import Floats.SpecFloat.
From stdpp Require Import base option list gmap strings pretty.

#[local] Open Scope string_scope.
#[local] Open Scope list_scope.
#[local] Open Scope Z_scope.
#[local] Set Warnings "-register-all".

(** ** Machine numbers *)

(** [float64]: IEEE 754 binary64, round to nearest even. *)
Definition float64 : Type := spec_float.
Definition prec64 : Z := 53.
Definition emax64 : Z := 1024.

(** [float64(v)] for an [int64] [v]. *)
Definition float64_of_int64 (v : Z) : float64 :=
  binary_normalize prec64 emax64 v 0 false.
Definition f64_add : float64 -> float64 -> float64 := SFadd prec64 emax64.
Definition f64_sub : float64 -> float64 -> float64 := SFsub prec64 emax64.
Definition f64_mul : float64 -> float64 -> float64 := SFmul prec64 emax64.
Definition f64_div : float64 -> float64 -> float64 := SFdiv prec64 emax64.
Definition f64_neg : float64 -> float64 := SFopp.
Definition f64_eqb : float64 -> float64 -> bool := SFeqb.
Definition f64_ltb : float64 -> float64 -> bool := SFltb.
Definition f64_leb : float64 -> float64 -> bool := SFleb.
Definition f64_zero : float64 := S754_zero false.

(** The rational number a finite [float64] denotes, in lowest terms. *)
Definition f64_to_Q (x : float64) : option (Z * Z) :=
  match x with
  | S754_zero _ => Some (0, 1)%Z
  | S754_finite s m e =>
      let n := if s then Z.neg m else Z.pos m in
      let '(a, b) := if (0 <=? e)%Z then (n * 2 ^ e, 1)%Z else (n, 2 ^ (- e))%Z in
      let g := Z.gcd a b in
      Some (a / g, b / g)%Z
  | _ => None
  end.

(** Two's-complement wrap-around of [int64] arithmetic. *)
Definition wrap64 (z : Z) : Z := ((z + 2 ^ 63) mod 2 ^ 64 - 2 ^ 63)%Z.

(** ** Syntax tree ([pkg/ast])

    The [Token] of a node and the [Access] modifier of a member are never
    read by the interpreter and are left out.  A Go field that may be [nil]
    ([IfStatement.Alternative], [CaseStatement.Otherwise],
    [ForStatement.Step], [ReturnStatement.Value]) is an [option]. *)

Module ast.

Record ArrayDimension := { Lower : Z; Upper : Z }.

Inductive DataType :=
| PrimitiveType (Name : string)
| ArrayType (Dimensions : list ArrayDimension) (ElementType : DataType)
| RecordType (Fields : list (string * DataType))
| EnumType (Values : list string)
| PointerType (TargetType : DataType)
| CustomType (Name : string).

(** [ast.Parameter]. *)
Record Param := { Name : string; ParamType : DataType; ByRef : bool }.

Inductive Expression :=
| Identifier (Value : string)
| IntegerLiteral (Value : Z)
| RealLiteral (Value : float64)
| StringLiteral (Value : string)
| CharLiteral (Value : string)
| BooleanLiteral (Value : bool)
| PrefixExpression (Operator : string) (Right : Expression)
| InfixExpression (Left : Expression) (Operator : string) (Right : Expression)
| ArrayAccess (Array : Expression) (Indices : list Expression)
| MemberAccess (Obj : Expression) (Member : string)
| CallExpression (Fn : Expression) (Arguments : list Expression)
| NewExpression (ClassName : string) (Arguments : list Expression)
| SuperExpression
| RangeExpression (Start Stop : Expression).

Inductive Statement :=
| DeclareStatement (Name : string) (Ty : DataType)
| ConstantStatement (Name : string) (Value : Expression)
| AssignmentStatement (Name : Expression) (Value : Expression)
| IfStatement (Condition : Expression) (Consequence : list Statement)
    (Alternative : option (list Statement))
| CaseStatement (Expr : Expression) (Cases : list CaseClause)
    (Otherwise : option (list Statement))
| ForStatement (Var : string) (Start Stop : Expression)
    (Step : option Expression) (Body : list Statement)
| WhileStatement (Condition : Expression) (Body : list Statement)
| RepeatStatement (Body : list Statement) (Condition : Expression)
| ProcedureStatement (Name : string) (Params : list Param)
    (Body : list Statement)
| FunctionStatement (Name : string) (Params : list Param)
    (ReturnType : DataType) (Body : list Statement)
| CallStatement (Name : Expression) (Arguments : list Expression)
| ReturnStatement (Value : option Expression)
| InputStatement (Var : Expression)
| OutputStatement (Values : list Expression)
| OpenFileStatement (Filename : Expression) (Mode : string)
| CloseFileStatement (Filename : Expression)
| ReadFileStatement (Filename : Expression) (Var : Expression)
| WriteFileStatement (Filename : Expression) (Data : Expression)
| TypeStatement (Name : string) (Definition_ : DataType)
| ClassStatement (Name : string) (Parent : string) (Members : list Statement)
| ExpressionStatement (Expr : Expression)
with CaseClause :=
| MkCaseClause (Values : list Expression) (Body : list Statement).

Record Program := { Statements : list Statement }.

End ast.

(** ** Runtime values ([object.go]) *)

(** An address in one of the interpreter's stores. *)
Abbreviation loc := nat.

Definition ObjectType : Type := string.
Definition INTEGER_OBJ : ObjectType := "INTEGER".
Definition REAL_OBJ : ObjectType := "REAL".
Definition STRING_OBJ : ObjectType := "STRING".
Definition CHAR_OBJ : ObjectType := "CHAR".
Definition BOOLEAN_OBJ : ObjectType := "BOOLEAN".
Definition NULL_OBJ : ObjectType := "NULL".
Definition RETURN_VALUE_OBJ : ObjectType := "RETURN_VALUE".
Definition ERROR_OBJ : ObjectType := "ERROR".
Definition FUNCTION_OBJ : ObjectType := "FUNCTION".
Definition PROCEDURE_OBJ : ObjectType := "PROCEDURE".
Definition BUILTIN_OBJ : ObjectType := "BUILTIN".
Definition ARRAY_OBJ : ObjectType := "ARRAY".
Definition RECORD_OBJ : ObjectType := "RECORD".
Definition CLASS_OBJ : ObjectType := "CLASS".
Definition INSTANCE_OBJ : ObjectType := "INSTANCE".
Definition FILE_OBJ : ObjectType := "FILE".
Definition BOUND_METHOD_OBJ : ObjectType := "BOUND_METHOD".
Definition SUPER_OBJ : ObjectType := "SUPER".

#[local] Unset Elimination Schemes.

(** The [Object] interface.  [NilObj] is Go's nil interface value, which
    [evalStatements] returns for an empty list.  [ErrorObj] keeps the
    message only: the interpreter never sets [Line] and [Column].
    [BuiltinObj] names its entry of the registry. *)
Inductive Object :=
| NilObj
| IntegerObj (Value : Z)
| RealObj (Value : float64)
| StringObj (Value : string)
| CharObj (Value : Z)
| BooleanObj (Value : bool)
| NullObj
| ReturnValueObj (Value : Object)
| ErrorObj (Message : string)
| FunctionObj (Name : string) (Params : list ast.Param)
    (ReturnType : ast.DataType) (Body : list ast.Statement) (Env : loc)
| ProcedureObj (Name : string) (Params : list ast.Param)
    (Body : list ast.Statement) (Env : loc)
| BuiltinObj (Name : string)
| ArrayObj (ptr : loc)
| RecordObj (ptr : loc)
| ClassObj (c : Class)
| InstanceObj (ptr : loc)
| BoundMethodObj (Instance : loc) (Method : Object)
| SuperObj (Instance : loc) (Cls : option Class)
| DateObj (Day Month Year : Z)
with Class :=
| MkClass (Name : string) (Parent : option Class)
    (Methods : gmap string Object) (Fields : gmap string ast.DataType).

#[local] Set Elimination Schemes.

Definition Class_Name (c : Class) : string :=
  match c with MkClass n _ _ _ => n end.
Definition Class_Parent (c : Class) : option Class :=
  match c with MkClass _ p _ _ => p end.
Definition Class_Methods (c : Class) : gmap string Object :=
  match c with MkClass _ _ m _ => m end.
Definition Class_Fields (c : Class) : gmap string ast.DataType :=
  match c with MkClass _ _ _ f => f end.

Record Instance := {
  inst_Class : Class;
  inst_Fields : gmap string Object
}.

Record RecordVal := {
  rec_TypeName : string;
  rec_Fields : gmap string Object
}.

Record ArrayVal := {
  arr_Elements : gmap string Object;
  arr_Dimensions : list ast.ArrayDimension
}.

(** ** Scopes ([environment.go]) *)

Record Environment := {
  store : gmap string Object;
  constants : gmap string bool;
  outer : option loc;
  types : gmap string Object;
  instance : option loc
}.

(** ** Interpreter state

    [builtins], [files], [input] and [output] are the fields of the Go
    [Interpreter]; [env] is the address of the global scope.  The remaining
    fields are the stores the pointers refer to, and [disk] the contents of
    the files the operating system holds. *)

Definition BuiltinFunction : Type := list Object -> Object.

(** A [bufio.Scanner] over a file: the text it can still deliver, and
    whether it has given up reading the file (after a token that did not
    fit its buffer). *)
Record Scanner := {
  unread : string;
  stopped : bool
}.

(** The [scanner] of a file that is not opened for reading is [nil]. *)
Record fileState := {
  file : option string;
  mode : string;
  scanner : option Scanner;
  atEOF : bool
}.

(** What successive [Read] calls on the input deliver, then the error that
    follows the last chunk ([None] is [io.EOF]). *)
Record Reader := {
  chunks : list string;
  failure : option string
}.

Record Interpreter := {
  env : loc;
  builtins : gmap string BuiltinFunction;
  files : gmap string fileState;
  input : Reader;
  output : list string;
  envs : list Environment;
  instances : list Instance;
  records : list RecordVal;
  arrays : list ArrayVal;
  disk : gmap string string
}.

Definition set_envs (h : list Environment) (i : Interpreter) : Interpreter :=
  {| env := env i; builtins := builtins i; files := files i; input := input i;
     output := output i; envs := h; instances := instances i;
     records := records i; arrays := arrays i; disk := disk i |}.
Definition set_instances (h : list Instance) (i : Interpreter) : Interpreter :=
  {| env := env i; builtins := builtins i; files := files i; input := input i;
     output := output i; envs := envs i; instances := h;
     records := records i; arrays := arrays i; disk := disk i |}.
Definition set_records (h : list RecordVal) (i : Interpreter) : Interpreter :=
  {| env := env i; builtins := builtins i; files := files i; input := input i;
     output := output i; envs := envs i; instances := instances i;
     records := h; arrays := arrays i; disk := disk i |}.
Definition set_arrays (h : list ArrayVal) (i : Interpreter) : Interpreter :=
  {| env := env i; builtins := builtins i; files := files i; input := input i;
     output := output i; envs := envs i; instances := instances i;
     records := records i; arrays := h; disk := disk i |}.
Definition set_files (f : gmap string fileState) (i : Interpreter) : Interpreter :=
  {| env := env i; builtins := builtins i; files := f; input := input i;
     output := output i; envs := envs i; instances := instances i;
     records := records i; arrays := arrays i; disk := disk i |}.
Definition set_disk (d : gmap string string) (i : Interpreter) : Interpreter :=
  {| env := env i; builtins := builtins i; files := files i; input := input i;
     output := output i; envs := envs i; instances := instances i;
     records := records i; arrays := arrays i; disk := d |}.
Definition set_input (r : Reader) (i : Interpreter) : Interpreter :=
  {| env := env i; builtins := builtins i; files := files i; input := r;
     output := output i; envs := envs i; instances := instances i;
     records := records i; arrays := arrays i; disk := disk i |}.
Definition set_output (o : list string) (i : Interpreter) : Interpreter :=
  {| env := env i; builtins := builtins i; files := files i; input := input i;
     output := o; envs := envs i; instances := instances i;
     records := records i; arrays := arrays i; disk := disk i |}.

(** ** Outcomes

    A call returns a value and the state it leaves, panics (a nil
    dereference or a failed type assertion), or has used up its fuel. *)

Inductive Outcome (A : Type) :=
| Returns (a : A) (i : Interpreter)
| Panics (msg : string)
| OutOfFuel.
Arguments Returns {A} a i.
Arguments Panics {A} msg.
Arguments OutOfFuel {A}.

Definition M (A : Type) : Type := Interpreter -> Outcome A.

Definition ret {A} (a : A) : M A := fun i => Returns a i.
Definition bind {A B} (c : M A) (k : A -> M B) : M B :=
  fun i => match c i with
           | Returns a i' => k a i'
           | Panics msg => Panics msg
           | OutOfFuel => OutOfFuel
           end.
Definition panic {A} (msg : string) : M A := fun _ => Panics msg.
Definition get_state : M Interpreter := fun i => Returns i i.
Definition modify (f : Interpreter -> Interpreter) : M unit :=
  fun i => Returns tt (f i).

Notation "'do' x <~ c ;> k" := (bind c (fun x => k))
  (at level 10, x name, c at level 100, k at level 200).
Notation "'run' c ;> k" := (bind c (fun _ => k))
  (at level 10, c at level 100, k at level 200).

Definition nil_dereference : string :=
  "invalid memory address or nil pointer dereference".

(** ** Strings of the Go runtime *)

Definition byte_of_Z (z : Z) : ascii := ascii_of_N (Z.to_N z).

(** [string(r)] for a rune [r]: its UTF-8 encoding, U+FFFD when [r] is not
    a valid code point. *)
Definition string_of_rune (r : Z) : string :=
  let b := byte_of_Z in
  if ((r <? 0) || (1114111 <? r) || ((55296 <=? r) && (r <=? 57343)))%Z
  then String (b 239) (String (b 191) (String (b 189) EmptyString))
  else if (r <? 128)%Z then String (b r) EmptyString
  else if (r <? 2048)%Z then
    String (b (192 + r / 64)) (String (b (128 + r mod 64)) EmptyString)
  else if (r <? 65536)%Z then
    String (b (224 + r / 4096))
      (String (b (128 + (r / 64) mod 64))
         (String (b (128 + r mod 64)) EmptyString))
  else
    String (b (240 + r / 262144))
      (String (b (128 + (r / 4096) mod 64))
         (String (b (128 + (r / 64) mod 64))
            (String (b (128 + r mod 64)) EmptyString))).

(** [rune(s[0])], the first byte of a non-empty string. *)
Definition first_byte (s : string) : option Z :=
  match s with
  | EmptyString => None
  | String a _ => Some (Z.of_N (N_of_ascii a))
  end.

(** [strings.Join]. *)
Fixpoint Join (parts : list string) (sep : string) : string :=
  match parts with
  | [] => ""
  | [p] => p
  | p :: rest => p +:+ sep +:+ Join rest sep
  end.

Definition LF : ascii := ascii_of_nat 10.
Definition CR : ascii := ascii_of_nat 13.

Fixpoint string_rev_onto (s acc : string) : string :=
  match s with
  | EmptyString => acc
  | String a s' => string_rev_onto s' (String a acc)
  end.

Fixpoint drop_leading (cutset : list ascii) (s : string) : string :=
  match s with
  | EmptyString => EmptyString
  | String a s' =>
      if bool_decide (a ∈ cutset) then drop_leading cutset s' else s
  end.

(** [strings.TrimRight(s, cutset)]: [s] without its trailing bytes that
    belong to [cutset]. *)
Definition TrimRight (s : string) (cutset : list ascii) : string :=
  string_rev_onto (drop_leading cutset (string_rev_onto s "")) "".

(** Splits [s] after its first line feed: the text up to and including it,
    and what follows. *)
Fixpoint split_line (s : string) : option (string * string) :=
  match s with
  | EmptyString => None
  | String a s' =>
      if Ascii.eqb a LF then Some (String a EmptyString, s')
      else match split_line s' with
           | Some (l, r) => Some (String a l, r)
           | None => None
           end
  end.

(** [bufio.NewReader(r).ReadString('\n')] on a fresh buffered reader: the
    reader fills its buffer chunk by chunk until a line feed arrives, and
    returns the text up to and including it.  What the buffer holds after
    the line feed goes with the reader, which is dropped.  The result is the
    line, the error ([None] is [nil], [Some None] is [io.EOF]), and the
    input left. *)
Fixpoint ReadString (cs : list string) (fail : option string) (acc : string)
  : string * option (option string) * Reader :=
  match cs with
  | [] => (acc, Some fail, {| chunks := []; failure := fail |})
  | c :: cs' =>
      match split_line c with
      | Some (l, _) => (acc +:+ l, None, {| chunks := cs'; failure := fail |})
      | None => ReadString cs' fail (acc +:+ c)
      end
  end.

(** [dropCR] of [bufio]: the text without one trailing carriage return. *)
Definition dropCR (data : string) : string :=
  match string_rev_onto data "" with
  | String a r => if Ascii.eqb a CR then string_rev_onto r "" else data
  | EmptyString => data
  end.

(** [bufio.MaxScanTokenSize], the size the buffer of a [Scanner] grows
    to. *)
Definition MaxScanTokenSize : nat := 64 * 1024.

(** [Scan] of a [bufio.Scanner] with [ScanLines], and the token [Text]
    then returns: the next line without its line feed and without one
    carriage return before it, or what is left of the file when no line
    feed follows.  The token is looked for in the buffer, which holds at
    most [MaxScanTokenSize] bytes from the start of the token: when these
    hold no line feed and the file goes on, [Scan] fails with [ErrTooLong]
    and the scanner reads no further; the next [Scan] delivers the buffer
    as a token and the ones after it fail. *)
Definition Scan (s : Scanner) : option string * Scanner :=
  match unread s with
  | EmptyString => (None, s)
  | data =>
      match split_line data with
      | Some (l, r) =>
          if stopped s || (String.length l <=? MaxScanTokenSize)%nat
          then (Some (dropCR (TrimRight l [LF])),
                {| unread := r; stopped := stopped s |})
          else (None, {| unread := substring 0 MaxScanTokenSize data;
                         stopped := true |})
      | None =>
          if stopped s || (String.length data <? MaxScanTokenSize)%nat
          then (Some (dropCR data), {| unread := ""; stopped := stopped s |})
          else (None, {| unread := substring 0 MaxScanTokenSize data;
                         stopped := true |})
      end
  end.

(** ** Methods of the runtime values *)

(** The [Date] struct is declared outside the files at hand; its tag is
    taken to be a tag of its own. *)
Definition DATE_OBJ : ObjectType := "DATE".

(** [obj.Type()]; [None] stands for the panic on a nil receiver. *)
Definition Type_ (obj : Object) : option ObjectType :=
  match obj with
  | NilObj => None
  | IntegerObj _ => Some INTEGER_OBJ
  | RealObj _ => Some REAL_OBJ
  | StringObj _ => Some STRING_OBJ
  | CharObj _ => Some CHAR_OBJ
  | BooleanObj _ => Some BOOLEAN_OBJ
  | NullObj => Some NULL_OBJ
  | ReturnValueObj _ => Some RETURN_VALUE_OBJ
  | ErrorObj _ => Some ERROR_OBJ
  | FunctionObj _ _ _ _ _ => Some FUNCTION_OBJ
  | ProcedureObj _ _ _ _ => Some PROCEDURE_OBJ
  | BuiltinObj _ => Some BUILTIN_OBJ
  | ArrayObj _ => Some ARRAY_OBJ
  | RecordObj _ => Some RECORD_OBJ
  | ClassObj _ => Some CLASS_OBJ
  | InstanceObj _ => Some INSTANCE_OBJ
  | BoundMethodObj _ _ => Some BOUND_METHOD_OBJ
  | SuperObj _ _ => Some SUPER_OBJ
  | DateObj _ _ _ => Some DATE_OBJ
  end.

Definition TypeOf (obj : Object) : M ObjectType :=
  match Type_ obj with
  | Some t => ret t
  | None => panic nil_dereference
  end.

Definition has_type (obj : Object) (t : ObjectType) : bool :=
  match Type_ obj with
  | Some t' => String.eqb t' t
  | None => false
  end.

(** [isError]. *)
Definition isError (obj : Object) : bool := has_type obj ERROR_OBJ.

(** [isTruthy]. *)
Definition isTruthy (obj : Object) : bool :=
  match obj with
  | NullObj => false
  | BooleanObj v => v
  | _ => true
  end.

(** The test of [evalStatements] and of the loops: a [ReturnValue] or an
    [Error]. *)
Definition isSignal (obj : Object) : bool :=
  has_type obj RETURN_VALUE_OBJ || has_type obj ERROR_OBJ.

(** [unwrapReturnValue]. *)
Definition unwrapReturnValue (obj : Object) : Object :=
  match obj with
  | ReturnValueObj v => v
  | _ => obj
  end.

(** The [GetIndex] method of [Array]. *)
Definition GetIndex (indices : list Z) : string :=
  Join (map (fun idx : Z => pretty idx) indices) ",".

Section GoRuntime.

(** [fmt.Sprintf("%g", x)] of the Go library, and the [Inspect] method of
    the [Date] struct, which lies outside the files at hand. *)
Variable fmt_g : float64 -> string.
Variable Date_Inspect : Z -> Z -> Z -> string.

Definition param_names (ps : list ast.Param) : list string :=
  map ast.Name ps.

(** [obj.Inspect()]; [None] stands for the panic on a nil receiver. *)
Fixpoint Inspect (i : Interpreter) (obj : Object) : option string :=
  match obj with
  | NilObj => None
  | IntegerObj v => Some (pretty v)
  | RealObj v => Some (fmt_g v)
  | StringObj v => Some v
  | CharObj v => Some (string_of_rune v)
  | BooleanObj v => Some (if v then "TRUE" else "FALSE")
  | NullObj => Some "NULL"
  | ReturnValueObj v => Inspect i v
  | ErrorObj m => Some ("ERROR: " +:+ m)
  | FunctionObj n ps _ _ _ =>
      Some ("FUNCTION " +:+ n +:+ "(" +:+ Join (param_names ps) ", " +:+ ")")
  | ProcedureObj n ps _ _ =>
      Some ("PROCEDURE " +:+ n +:+ "(" +:+ Join (param_names ps) ", " +:+ ")")
  | BuiltinObj n => Some ("builtin function: " +:+ n)
  | ArrayObj p =>
      a ← arrays i !! p;
      Some ("ARRAY[" +:+ pretty (size (arr_Elements a)) +:+ " elements]")
  | RecordObj p => r ← records i !! p; Some ("RECORD " +:+ rec_TypeName r)
  | ClassObj c => Some ("CLASS " +:+ Class_Name c)
  | InstanceObj p =>
      o ← instances i !! p;
      Some ("<" +:+ Class_Name (inst_Class o) +:+ " instance>")
  | BoundMethodObj p _ =>
      o ← instances i !! p;
      Some ("<bound method of " +:+ Class_Name (inst_Class o) +:+ ">")
  | SuperObj _ _ => Some "SUPER"
  | DateObj d m y => Some (Date_Inspect d m y)
  end.

Definition InspectOf (obj : Object) : M string :=
  fun i => match Inspect i obj with
           | Some s => Returns s i
           | None => Panics nil_dereference
           end.

End GoRuntime.

(** ** Operations on scopes ([environment.go])

    The receiver [e] is the address of the scope.  A walk along the [outer]
    links is given [S e] steps: [NewEnclosedEnvironment] is the only place
    that sets [outer], to a scope that exists already, so every link leads
    to a smaller address (see [wf_envs]). *)

Definition with_store (s : gmap string Object) (E : Environment) : Environment :=
  {| store := s; constants := constants E; outer := outer E;
     types := types E; instance := instance E |}.
Definition with_constants (c : gmap string bool) (E : Environment) : Environment :=
  {| store := store E; constants := c; outer := outer E;
     types := types E; instance := instance E |}.
Definition with_outer (o : option loc) (E : Environment) : Environment :=
  {| store := store E; constants := constants E; outer := o;
     types := types E; instance := instance E |}.
Definition with_types (t : gmap string Object) (E : Environment) : Environment :=
  {| store := store E; constants := constants E; outer := outer E;
     types := t; instance := instance E |}.
Definition with_instance (p : option loc) (E : Environment) : Environment :=
  {| store := store E; constants := constants E; outer := outer E;
     types := types E; instance := p |}.
Definition with_Fields (f : gmap string Object) (o : Instance) : Instance :=
  {| inst_Class := inst_Class o; inst_Fields := f |}.

Definition update_env (e : loc) (f : Environment -> Environment) : M unit :=
  fun i => match envs i !! e with
           | Some E => Returns tt (set_envs (<[e := f E]> (envs i)) i)
           | None => Panics nil_dereference
           end.

Definition update_instance (p : loc) (f : Instance -> Instance) : M unit :=
  fun i => match instances i !! p with
           | Some o => Returns tt (set_instances (<[p := f o]> (instances i)) i)
           | None => Panics nil_dereference
           end.

Definition read_instance (p : loc) : M Instance :=
  fun i => match instances i !! p with
           | Some o => Returns o i
           | None => Panics nil_dereference
           end.

(** [NewEnvironment]. *)
Definition NewEnvironment : M loc :=
  fun i =>
    Returns (length (envs i))
      (set_envs (envs i ++ [ {| store := ∅; constants := ∅; outer := None;
                                types := ∅; instance := None |} ]) i).

(** [NewEnclosedEnvironment]. *)
Definition NewEnclosedEnvironment (outer_ : loc) : M loc :=
  do e <~ NewEnvironment ;>
  run update_env e (with_outer (Some outer_)) ;>
  ret e.

(** [e.instance.Fields[name]] when [e.instance] is not nil. *)
Definition instance_field (i : Interpreter) (E : Environment) (name : string)
  : option Object :=
  p ← instance E; o ← instances i !! p; inst_Fields o !! name.

(** [Get]: the pair [(obj, ok)] of the source is [Some obj] when [ok]. *)
Fixpoint Get_from (n : nat) (i : Interpreter) (e : loc) (name : string)
  : option Object :=
  match n with
  | O => None
  | S n' =>
      match envs i !! e with
      | None => None
      | Some E =>
          match store E !! name with
          | Some obj => Some obj
          | None =>
              match instance_field i E name with
              | Some val => Some val
              | None =>
                  match outer E with
                  | Some o => Get_from n' i o name
                  | None => None
                  end
              end
          end
      end
  end.

Definition Get (i : Interpreter) (e : loc) (name : string) : option Object :=
  Get_from (S e) i e name.

(** [isConstant]. *)
Fixpoint isConstant_from (n : nat) (i : Interpreter) (e : loc) (name : string)
  : bool :=
  match n with
  | O => false
  | S n' =>
      match envs i !! e with
      | None => false
      | Some E =>
          if default false (constants E !! name) then true
          else match outer E with
               | Some o => isConstant_from n' i o name
               | None => false
               end
      end
  end.

Definition isConstant (i : Interpreter) (e : loc) (name : string) : bool :=
  isConstant_from (S e) i e name.

Definition cannot_modify (name : string) : Object :=
  ErrorObj ("cannot modify constant: " +:+ name).

(** [Declare_]. *)
Definition Declare_ (e : loc) (name : string) (val : Object) : M Object :=
  run update_env e (fun E => with_store (<[name := val]> (store E)) E) ;>
  ret val.

(** [Set]. *)
Definition Set_ (e : loc) (name : string) (val : Object) : M Object :=
  do i <~ get_state ;>
  if isConstant i e name then ret (cannot_modify name)
  else Declare_ e name val.

(** [DeclareConstant]. *)
Definition DeclareConstant (e : loc) (name : string) (val : Object) : M Object :=
  run update_env e (fun E => with_store (<[name := val]> (store E)) E) ;>
  run update_env e (fun E => with_constants (<[name := true]> (constants E)) E) ;>
  ret val.

(** [SetInPlace]. *)
Fixpoint SetInPlace_from (n : nat) (e : loc) (name : string) (val : Object)
  : M Object :=
  fun i =>
    match n with
    | O => OutOfFuel
    | S n' =>
        match envs i !! e with
        | None => Panics nil_dereference
        | Some E =>
            match store E !! name with
            | Some _ =>
                if default false (constants E !! name)
                then Returns (cannot_modify name) i
                else Declare_ e name val i
            | None =>
                match instance_field i E name, instance E with
                | Some _, Some p =>
                    (run update_instance p
                           (fun o => with_Fields (<[name := val]> (inst_Fields o)) o) ;>
                     ret val) i
                | _, _ =>
                    match outer E with
                    | Some o => SetInPlace_from n' o name val i
                    | None => Declare_ e name val i
                    end
                end
            end
        end
    end.

Definition SetInPlace (e : loc) (name : string) (val : Object) : M Object :=
  SetInPlace_from (S e) e name val.

(** [DefineType]. *)
Definition DefineType (e : loc) (name : string) (typ : Object) : M unit :=
  update_env e (fun E => with_types (<[name := typ]> (types E)) E).

(** [GetType]. *)
Fixpoint GetType_from (n : nat) (i : Interpreter) (e : loc) (name : string)
  : option Object :=
  match n with
  | O => None
  | S n' =>
      match envs i !! e with
      | None => None
      | Some E =>
          match types E !! name with
          | Some typ => Some typ
          | None =>
              match outer E with
              | Some o => GetType_from n' i o name
              | None => None
              end
          end
      end
  end.

Definition GetType (i : Interpreter) (e : loc) (name : string) : option Object :=
  GetType_from (S e) i e name.

(** Every [outer] link leads to a scope allocated earlier. *)
Definition wf_envs (i : Interpreter) : Prop :=
  forall (e : loc) (E : Environment) (o : loc),
    envs i !! e = Some E -> outer E = Some o -> (o < e)%nat.

(** ** The evaluator ([interpreter.go]): operators *)

Definition streq (a b : string) : bool := String.eqb a b.

Definition error (msg : string) : M Object := ret (ErrorObj msg).

(** [objectsEqual]. *)
Definition objectsEqual (a b : Object) : bool :=
  match a, b with
  | IntegerObj av, IntegerObj bv => (av =? bv)%Z
  | RealObj av, RealObj bv => f64_eqb av bv
  | StringObj av, StringObj bv => streq av bv
  | CharObj av, CharObj bv => (av =? bv)%Z
  | BooleanObj av, BooleanObj bv => Bool.eqb av bv
  | _, _ => false
  end.

(** [valueInRange]. *)
Definition valueInRange (value start stop : Object) : bool :=
  match value, start, stop with
  | IntegerObj v, IntegerObj s, IntegerObj e => (s <=? v)%Z && (v <=? e)%Z
  | CharObj v, CharObj s, CharObj e => (s <=? v)%Z && (v <=? e)%Z
  | _, _, _ => false
  end.

Definition unknown_operator (op : string) (left right : Object) : M Object :=
  do lt <~ TypeOf left ;>
  do rt <~ TypeOf right ;>
  error ("unknown operator: " +:+ lt +:+ " " +:+ op +:+ " " +:+ rt).

Definition division_by_zero : Object := ErrorObj "division by zero".

(** [evalIntegerInfixExpression]. *)
Definition evalIntegerInfixExpression (op : string) (left right : Object)
  : M Object :=
  match left, right with
  | IntegerObj leftVal, IntegerObj rightVal =>
      if streq op "+" then ret (IntegerObj (wrap64 (leftVal + rightVal)))
      else if streq op "-" then ret (IntegerObj (wrap64 (leftVal - rightVal)))
      else if streq op "*" then ret (IntegerObj (wrap64 (leftVal * rightVal)))
      else if streq op "/" then
        if (rightVal =? 0)%Z then ret division_by_zero
        else ret (RealObj (f64_div (float64_of_int64 leftVal)
                                   (float64_of_int64 rightVal)))
      else if streq op "DIV" then
        if (rightVal =? 0)%Z then ret division_by_zero
        else ret (IntegerObj (wrap64 (Z.quot leftVal rightVal)))
      else if streq op "MOD" then
        if (rightVal =? 0)%Z then ret division_by_zero
        else ret (IntegerObj (Z.rem leftVal rightVal))
      else if streq op "<" then ret (BooleanObj (leftVal <? rightVal)%Z)
      else if streq op ">" then ret (BooleanObj (rightVal <? leftVal)%Z)
      else if streq op "<=" then ret (BooleanObj (leftVal <=? rightVal)%Z)
      else if streq op ">=" then ret (BooleanObj (rightVal <=? leftVal)%Z)
      else if streq op "=" then ret (BooleanObj (leftVal =? rightVal)%Z)
      else if streq op "<>" then ret (BooleanObj (negb (leftVal =? rightVal)%Z))
      else unknown_operator op left right
  | _, _ => panic "interface conversion: Object is not *Integer"
  end.

(** The operand of [evalRealInfixExpression] as a [float64]: the zero value
    when it is neither a [Real] nor an [Integer]. *)
Definition real_operand (obj : Object) : float64 :=
  match obj with
  | RealObj v => v
  | IntegerObj v => float64_of_int64 v
  | _ => f64_zero
  end.

(** [evalRealInfixExpression]. *)
Definition evalRealInfixExpression (op : string) (left right : Object)
  : M Object :=
  let leftVal := real_operand left in
  let rightVal := real_operand right in
  if streq op "+" then ret (RealObj (f64_add leftVal rightVal))
  else if streq op "-" then ret (RealObj (f64_sub leftVal rightVal))
  else if streq op "*" then ret (RealObj (f64_mul leftVal rightVal))
  else if streq op "/" then
    if f64_eqb rightVal f64_zero then ret division_by_zero
    else ret (RealObj (f64_div leftVal rightVal))
  else if streq op "<" then ret (BooleanObj (f64_ltb leftVal rightVal))
  else if streq op ">" then ret (BooleanObj (f64_ltb rightVal leftVal))
  else if streq op "<=" then ret (BooleanObj (f64_leb leftVal rightVal))
  else if streq op ">=" then ret (BooleanObj (f64_leb rightVal leftVal))
  else if streq op "=" then ret (BooleanObj (f64_eqb leftVal rightVal))
  else if streq op "<>" then ret (BooleanObj (negb (f64_eqb leftVal rightVal)))
  else unknown_operator op left right.

(** [evalStringInfixExpression]. *)
Definition evalStringInfixExpression (op : string) (left right : Object)
  : M Object :=
  match left, right with
  | StringObj leftVal, StringObj rightVal =>
      if streq op "&" then ret (StringObj (leftVal +:+ rightVal))
      else if streq op "=" then ret (BooleanObj (streq leftVal rightVal))
      else if streq op "<>" then ret (BooleanObj (negb (streq leftVal rightVal)))
      else if streq op "<" then ret (BooleanObj (String.ltb leftVal rightVal))
      else if streq op ">" then ret (BooleanObj (String.ltb rightVal leftVal))
      else if streq op "<=" then ret (BooleanObj (String.leb leftVal rightVal))
      else if streq op ">=" then ret (BooleanObj (String.leb rightVal leftVal))
      else unknown_operator op left right
  | _, _ => panic "interface conversion: Object is not *String"
  end.

(** [evalBooleanInfixExpression]. *)
Definition evalBooleanInfixExpression (op : string) (left right : Object)
  : M Object :=
  match left, right with
  | BooleanObj leftVal, BooleanObj rightVal =>
      if streq op "AND" then ret (BooleanObj (leftVal && rightVal))
      else if streq op "OR" then ret (BooleanObj (leftVal || rightVal))
      else if streq op "=" then ret (BooleanObj (Bool.eqb leftVal rightVal))
      else if streq op "<>" then ret (BooleanObj (negb (Bool.eqb leftVal rightVal)))
      else unknown_operator op left right
  | _, _ => panic "interface conversion: Object is not *Boolean"
  end.

(** [evalMinusPrefixOperator]. *)
Definition evalMinusPrefixOperator (right : Object) : M Object :=
  match right with
  | IntegerObj v => ret (IntegerObj (wrap64 (- v)))
  | RealObj v => ret (RealObj (f64_neg v))
  | _ => do rt <~ TypeOf right ;> error ("unknown operator: -" +:+ rt)
  end.

(** [evalNotOperator]. *)
Definition evalNotOperator (right : Object) : M Object :=
  match right with
  | BooleanObj v => ret (BooleanObj (negb v))
  | _ => do rt <~ TypeOf right ;> error ("unknown operator: NOT " +:+ rt)
  end.

(** [lookupMethod]. *)
Fixpoint lookupMethod (class : Class) (name : string) : option Object :=
  match class with
  | MkClass _ parent methods _ =>
      match methods !! name with
      | Some method => Some method
      | None =>
          match parent with
          | Some c => lookupMethod c name
          | None => None
          end
      end
  end.

(** [initializeInstanceFields]: the fields of the parent first, then those
    of the class. *)
Fixpoint initializeInstanceFields (class : Class) (fields : gmap string Object)
  : gmap string Object :=
  match class with
  | MkClass _ parent _ declared =>
      let fields' := match parent with
                     | Some c => initializeInstanceFields c fields
                     | None => fields
                     end in
      ((fun _ => NullObj) <$> declared) ∪ fields'
  end.

(** The second loop of [createMethodEnv]: a method of an ancestor is bound
    unless the name is bound already. *)
Fixpoint bindInherited (inst : loc) (parent : Class) (s : gmap string Object)
  : gmap string Object :=
  match parent with
  | MkClass _ grandparent methods _ =>
      let s' := s ∪ (BoundMethodObj inst <$> methods) in
      match grandparent with
      | Some c => bindInherited inst c s'
      | None => s'
      end
  end.

(** ** The evaluator: stores and method environments *)

Definition newline : string := String LF EmptyString.

Definition with_Elements (m : gmap string Object) (a : ArrayVal) : ArrayVal :=
  {| arr_Elements := m; arr_Dimensions := arr_Dimensions a |}.
Definition with_rec_Fields (m : gmap string Object) (r : RecordVal) : RecordVal :=
  {| rec_TypeName := rec_TypeName r; rec_Fields := m |}.

Definition alloc_array (a : ArrayVal) : M loc :=
  fun i => Returns (length (arrays i)) (set_arrays (arrays i ++ [a]) i).
Definition alloc_record (r : RecordVal) : M loc :=
  fun i => Returns (length (records i)) (set_records (records i ++ [r]) i).
Definition alloc_instance (o : Instance) : M loc :=
  fun i => Returns (length (instances i)) (set_instances (instances i ++ [o]) i).

Definition read_array (p : loc) : M ArrayVal :=
  fun i => match arrays i !! p with
           | Some a => Returns a i
           | None => Panics nil_dereference
           end.
Definition read_record (p : loc) : M RecordVal :=
  fun i => match records i !! p with
           | Some r => Returns r i
           | None => Panics nil_dereference
           end.
Definition update_array (p : loc) (f : ArrayVal -> ArrayVal) : M unit :=
  fun i => match arrays i !! p with
           | Some a => Returns tt (set_arrays (<[p := f a]> (arrays i)) i)
           | None => Panics nil_dereference
           end.
Definition update_record (p : loc) (f : RecordVal -> RecordVal) : M unit :=
  fun i => match records i !! p with
           | Some r => Returns tt (set_records (<[p := f r]> (records i)) i)
           | None => Panics nil_dereference
           end.

(** [createMethodEnv]. *)
Definition createMethodEnv (inst : loc) (callerEnv : loc) : M loc :=
  do env_ <~ NewEnclosedEnvironment callerEnv ;>
  run update_env env_ (with_instance (Some inst)) ;>
  run Declare_ env_ "this" (InstanceObj inst) ;>
  do o <~ read_instance inst ;>
  let class := inst_Class o in
  run match Class_Parent class with
      | Some parent => Declare_ env_ "SUPER" (SuperObj inst (Some parent))
      | None => ret NilObj
      end ;>
  run update_env env_
        (fun E => with_store
                    ((BoundMethodObj inst <$> Class_Methods class) ∪ store E) E) ;>
  run update_env env_
        (fun E => with_store
                    match Class_Parent class with
                    | Some parent => bindInherited inst parent (store E)
                    | None => store E
                    end E) ;>
  ret env_.

(** The parameter loop of [extendFunctionEnv], from position [idx]. *)
Fixpoint bindParameters (env_ : loc) (args : list Object) (idx : nat)
  (params : list ast.Param) : M unit :=
  match params with
  | [] => ret tt
  | param :: rest =>
      run match args !! idx with
          | Some arg =>
              if ast.ByRef param
              then Declare_ env_ (ast.Name param) arg
              else Declare_ env_ (ast.Name param) arg
          | None => ret NilObj
          end ;>
      bindParameters env_ args (S idx) rest
  end.

(** [extendFunctionEnv]; [fnEnv] is [fn.Env]. *)
Definition extendFunctionEnv (fnEnv : loc) (args : list Object)
  (params : list ast.Param) (callerEnv : loc) : M loc :=
  do env_ <~ NewEnclosedEnvironment fnEnv ;>
  run bindParameters env_ args 0 params ;>
  ret env_.

(** The parameter loop of [applyBoundMethod] and [evalNewExpression]. *)
Fixpoint bindMethodParameters (env_ : loc) (args : list Object) (idx : nat)
  (params : list ast.Param) : M unit :=
  match params with
  | [] => ret tt
  | param :: rest =>
      run match args !! idx with
          | Some arg => Declare_ env_ (ast.Name param) arg
          | None => ret NilObj
          end ;>
      bindMethodParameters env_ args (S idx) rest
  end.

(** [len(args) == 1 && isError(args[0])]. *)
Definition single_error (args : list Object) : option Object :=
  match args with
  | [a] => if isError a then Some a else None
  | _ => None
  end.

(** [evalIdentifier]. *)
Definition evalIdentifier (name : string) (env_ : loc) : M Object :=
  do i <~ get_state ;>
  match Get i env_ name with
  | Some val => ret val
  | None =>
      match builtins i !! name with
      | Some _ => ret (BuiltinObj name)
      | None => error ("identifier not found: " +:+ name)
      end
  end.

(** [evalSuperExpression]. *)
Definition evalSuperExpression (env_ : loc) : M Object :=
  do i <~ get_state ;>
  match Get i env_ "SUPER" with
  | Some superObj => ret superObj
  | None => error "SUPER can only be used within a class method"
  end.

(** The members loop of [evalClassStatement]. *)
Fixpoint classMembers (members : list ast.Statement) (classEnv : loc)
  (methods : gmap string Object) (fields : gmap string ast.DataType)
  : gmap string Object * gmap string ast.DataType :=
  match members with
  | [] => (methods, fields)
  | ast.DeclareStatement n dt :: rest =>
      classMembers rest classEnv methods (<[n := dt]> fields)
  | ast.ProcedureStatement n ps body :: rest =>
      classMembers rest classEnv
        (<[n := ProcedureObj n ps body classEnv]> methods) fields
  | ast.FunctionStatement n ps rt body :: rest =>
      classMembers rest classEnv
        (<[n := FunctionObj n ps rt body classEnv]> methods) fields
  | _ :: rest => classMembers rest classEnv methods fields
  end.

(** [evalClassStatement]. *)
Definition evalClassStatement (name parent : string)
  (members : list ast.Statement) (env_ : loc) : M Object :=
  do i <~ get_state ;>
  let parentClass :=
    if streq parent "" then None
    else match Get i env_ parent with
         | Some (ClassObj c) => Some c
         | _ => None
         end in
  do classEnv <~ NewEnclosedEnvironment env_ ;>
  let '(methods, fields) := classMembers members classEnv ∅ ∅ in
  Declare_ env_ name (ClassObj (MkClass name parentClass methods fields)).

(** The enumeration loop of [evalTypeStatement]. *)
Fixpoint declareEnum (env_ : loc) (idx : Z) (values : list string) : M unit :=
  match values with
  | [] => ret tt
  | val :: rest =>
      run Declare_ env_ val (IntegerObj idx) ;>
      declareEnum env_ (idx + 1) rest
  end.

(** [evalTypeStatement]. *)
Definition evalTypeStatement (name : string) (def : ast.DataType) (env_ : loc)
  : M Object :=
  run match def with
      | ast.RecordType fields =>
          do rec <~ alloc_record
                      {| rec_TypeName := name;
                         rec_Fields := list_to_map
                                         (map (fun f => (f.1, NullObj)) fields) |} ;>
          DefineType env_ name (RecordObj rec)
      | ast.EnumType values => declareEnum env_ 0 values
      | _ => ret tt
      end ;>
  ret NullObj.

(** [evalDeclareStatement]. *)
Definition evalDeclareStatement (name : string) (dt : ast.DataType) (env_ : loc)
  : M Object :=
  do value <~
     match dt with
     | ast.PrimitiveType n =>
         if streq n "INTEGER" then ret (IntegerObj 0)
         else if streq n "REAL" then ret (RealObj f64_zero)
         else if streq n "STRING" then ret (StringObj "")
         else if streq n "CHAR" then ret (CharObj 32)
         else if streq n "BOOLEAN" then ret (BooleanObj false)
         else if streq n "DATE" then ret (DateObj 1 1 1970)
         else ret NullObj
     | ast.ArrayType dims _ =>
         do arr <~ alloc_array {| arr_Elements := ∅; arr_Dimensions := dims |} ;>
         ret (ArrayObj arr)
     | ast.CustomType n =>
         do i <~ get_state ;>
         match GetType i env_ n with
         | Some (RecordObj t) =>
             do typ <~ read_record t ;>
             do rec <~ alloc_record
                         {| rec_TypeName := n;
                            rec_Fields := (fun _ => NullObj) <$> rec_Fields typ |} ;>
             ret (RecordObj rec)
         | _ => ret NullObj
         end
     | _ => ret NullObj
     end ;>
  Declare_ env_ name value.

(** ** The evaluator: statements and expressions *)

Section Evaluator.

Variable fmt_g : float64 -> string.
Variable Date_Inspect : Z -> Z -> Z -> string.

(** [objectToString]. *)
Definition objectToString (obj : Object) : M string :=
  match obj with
  | StringObj v => ret v
  | CharObj v => ret (string_of_rune v)
  | IntegerObj v => ret (pretty v)
  | RealObj v => ret (fmt_g v)
  | BooleanObj v => ret (if v then "TRUE" else "FALSE")
  | _ => InspectOf fmt_g Date_Inspect obj
  end.

(** [evalConcatenation]. *)
Definition evalConcatenation (left right : Object) : M Object :=
  do leftStr <~ objectToString left ;>
  do rightStr <~ objectToString right ;>
  ret (StringObj (leftStr +:+ rightStr)).

(** The cases of the switch of [evalInfixExpression] below the numeric
    ones; [lt] and [rt] are the tags of the operands. *)
Definition evalOtherInfix (op : string) (left right : Object)
  (lt rt : ObjectType) : M Object :=
  if streq lt STRING_OBJ && streq rt STRING_OBJ
  then evalStringInfixExpression op left right
  else if streq lt BOOLEAN_OBJ && streq rt BOOLEAN_OBJ
  then evalBooleanInfixExpression op left right
  else if streq op "&" then evalConcatenation left right
  else if streq op "=" then ret (BooleanObj (objectsEqual left right))
  else if streq op "<>" then ret (BooleanObj (negb (objectsEqual left right)))
  else error ("type mismatch: " +:+ lt +:+ " " +:+ op +:+ " " +:+ rt).

(** The switch of [evalInfixExpression] on the evaluated operands.  Its
    conditions call [Type] on the operands from left to right and only as
    far as needed, which matters when an operand is nil. *)
Definition infixSwitch (op : string) (left right : Object) : M Object :=
  do lt <~ TypeOf left ;>
  if streq lt INTEGER_OBJ then
    do rt <~ TypeOf right ;>
    if streq rt INTEGER_OBJ then evalIntegerInfixExpression op left right
    else if streq rt REAL_OBJ then evalRealInfixExpression op left right
    else evalOtherInfix op left right lt rt
  else if streq lt REAL_OBJ then evalRealInfixExpression op left right
  else
    do rt <~ TypeOf right ;>
    if streq rt REAL_OBJ then evalRealInfixExpression op left right
    else evalOtherInfix op left right lt rt.

Section Knot.

(** The two functions every other one calls back into, and the number of
    iterations a loop may take. *)
Variable evalStatement : ast.Statement -> loc -> M Object.
Variable evalExpression : ast.Expression -> loc -> M Object.
Variable budget : nat.

(** The loop of [evalStatements]; [result] is the variable of that name. *)
Fixpoint evalStatements_from (result : Object) (stmts : list ast.Statement)
  (env_ : loc) : M Object :=
  match stmts with
  | [] => ret result
  | stmt :: rest =>
      do r <~ evalStatement stmt env_ ;>
      if isSignal r then ret r else evalStatements_from r rest env_
  end.

(** [evalStatements]. *)
Definition evalStatements (stmts : list ast.Statement) (env_ : loc) : M Object :=
  evalStatements_from NilObj stmts env_.

(** [evalExpressions]. *)
Fixpoint evalExpressions_from (result : list Object)
  (exprs : list ast.Expression) (env_ : loc) : M (list Object) :=
  match exprs with
  | [] => ret result
  | e :: rest =>
      do evaluated <~ evalExpression e env_ ;>
      if isError evaluated then ret [evaluated]
      else evalExpressions_from (result ++ [evaluated]) rest env_
  end.

Definition evalExpressions (exprs : list ast.Expression) (env_ : loc)
  : M (list Object) :=
  evalExpressions_from [] exprs env_.

(** The index loop of [evalArrayAssignment] and [evalArrayAccess]: the
    object returned early, or the indices. *)
Fixpoint evalIndices (indices : list Z) (exprs : list ast.Expression)
  (env_ : loc) : M (Object + list Z) :=
  match exprs with
  | [] => ret (inr indices)
  | idx :: rest =>
      do idxVal <~ evalExpression idx env_ ;>
      if isError idxVal then ret (inl idxVal)
      else match idxVal with
           | IntegerObj v => evalIndices (indices ++ [v]) rest env_
           | _ => ret (inl (ErrorObj "array index must be an integer"))
           end
  end.

(** [evalArrayAssignment]. *)
Definition evalArrayAssignment (array : ast.Expression)
  (indices : list ast.Expression) (value : Object) (env_ : loc) : M Object :=
  do arr <~ evalExpression array env_ ;>
  if isError arr then ret arr
  else match arr with
       | ArrayObj p =>
           do r <~ evalIndices [] indices env_ ;>
           match r with
           | inl early => ret early
           | inr ixs =>
               run update_array p
                     (fun a => with_Elements
                                 (<[GetIndex ixs := value]> (arr_Elements a)) a) ;>
               ret value
           end
       | _ => error "not an array"
       end.

(** [evalMemberAssignment]. *)
Definition evalMemberAssignment (object : ast.Expression) (member : string)
  (value : Object) (env_ : loc) : M Object :=
  do obj <~ evalExpression object env_ ;>
  if isError obj then ret obj
  else match obj with
       | RecordObj p =>
           run update_record p
                 (fun r => with_rec_Fields (<[member := value]> (rec_Fields r)) r) ;>
           ret value
       | InstanceObj p =>
           run update_instance p
                 (fun o => with_Fields (<[member := value]> (inst_Fields o)) o) ;>
           ret value
       | _ => error "cannot access member of non-record/instance"
       end.

(** [evalConstantStatement]. *)
Definition evalConstantStatement (name : string) (value : ast.Expression)
  (env_ : loc) : M Object :=
  do v <~ evalExpression value env_ ;>
  if isError v then ret v else DeclareConstant env_ name v.

(** [evalAssignmentStatement]. *)
Definition evalAssignmentStatement (target value : ast.Expression) (env_ : loc)
  : M Object :=
  do v <~ evalExpression value env_ ;>
  if isError v then ret v
  else match target with
       | ast.Identifier name => SetInPlace env_ name v
       | ast.ArrayAccess array indices => evalArrayAssignment array indices v env_
       | ast.MemberAccess object member => evalMemberAssignment object member v env_
       | _ => error "invalid assignment target"
       end.

(** [evalIfStatement]. *)
Definition evalIfStatement (cond : ast.Expression)
  (consequence : list ast.Statement) (alternative : option (list ast.Statement))
  (env_ : loc) : M Object :=
  do condition <~ evalExpression cond env_ ;>
  if isError condition then ret condition
  else if isTruthy condition then evalStatements consequence env_
  else match alternative with
       | Some alt => evalStatements alt env_
       | None => ret NullObj
       end.

(** [matchesCaseValue]. *)
Definition matchesCaseValue (value : Object) (caseValue : ast.Expression)
  (env_ : loc) : M bool :=
  match caseValue with
  | ast.RangeExpression s e =>
      do start <~ evalExpression s env_ ;>
      do stop <~ evalExpression e env_ ;>
      ret (valueInRange value start stop)
  | _ =>
      do evalValue <~ evalExpression caseValue env_ ;>
      ret (objectsEqual value evalValue)
  end.

(** The inner loop of [evalCaseStatement]: does a value of the clause
    match? *)
Fixpoint matchesClause (value : Object) (caseValues : list ast.Expression)
  (env_ : loc) : M bool :=
  match caseValues with
  | [] => ret false
  | caseValue :: rest =>
      do m <~ matchesCaseValue value caseValue env_ ;>
      if m then ret true else matchesClause value rest env_
  end.

(** The outer loop of [evalCaseStatement] and what follows it. *)
Fixpoint evalCases (value : Object) (cases : list ast.CaseClause)
  (otherwise : option (list ast.Statement)) (env_ : loc) : M Object :=
  match cases with
  | [] =>
      match otherwise with
      | Some body => evalStatements body env_
      | None => ret NullObj
      end
  | ast.MkCaseClause caseValues body :: rest =>
      do m <~ matchesClause value caseValues env_ ;>
      if m then evalStatements body env_
      else evalCases value rest otherwise env_
  end.

(** [evalCaseStatement]. *)
Definition evalCaseStatement (expr : ast.Expression)
  (cases : list ast.CaseClause) (otherwise : option (list ast.Statement))
  (env_ : loc) : M Object :=
  do value <~ evalExpression expr env_ ;>
  if isError value then ret value
  else evalCases value cases otherwise env_.

(** The loop of [evalForStatement]: [current] and [result] are the
    variables of those names. *)
Fixpoint forLoop (n : nat) (var : string) (step stop : Z)
  (body : list ast.Statement) (loopEnv : loc) (current : Z) (result : Object)
  : M Object :=
  match n with
  | O => fun _ => OutOfFuel
  | S n' =>
      if (0 <? step) && (stop <? current) then ret result
      else if (step <? 0) && (current <? stop) then ret result
      else
        run SetInPlace loopEnv var (IntegerObj current) ;>
        do r <~ evalStatements body loopEnv ;>
        if isError r then ret r
        else if has_type r RETURN_VALUE_OBJ then ret r
        else forLoop n' var step stop body loopEnv (wrap64 (current + step)) r
  end.

(** The step of [evalForStatement]: the error returned early, or the
    step. *)
Definition evalStep (step : option ast.Expression) (env_ : loc)
  : M (Object + Z) :=
  match step with
  | None => ret (inr 1)
  | Some e =>
      do stepVal <~ evalExpression e env_ ;>
      if isError stepVal then ret (inl stepVal)
      else match stepVal with
           | IntegerObj s => ret (inr s)
           | _ => ret (inr 1)
           end
  end.

(** [evalForStatement]. *)
Definition evalForStatement (var : string) (start stop : ast.Expression)
  (step : option ast.Expression) (body : list ast.Statement) (env_ : loc)
  : M Object :=
  do startVal <~ evalExpression start env_ ;>
  if isError startVal then ret startVal else
  do endVal <~ evalExpression stop env_ ;>
  if isError endVal then ret endVal else
  do st <~ evalStep step env_ ;>
  match st with
  | inl early => ret early
  | inr stepInt =>
      match startVal with
      | IntegerObj startInt =>
          match endVal with
          | IntegerObj endInt =>
              do loopEnv <~ NewEnclosedEnvironment env_ ;>
              run Declare_ loopEnv var (IntegerObj startInt) ;>
              forLoop budget var stepInt endInt body loopEnv startInt NilObj
          | _ => error "FOR loop end must be an integer"
          end
      | _ => error "FOR loop start must be an integer"
      end
  end.

(** The loop of [evalWhileStatement]. *)
Fixpoint whileLoop (n : nat) (cond : ast.Expression)
  (body : list ast.Statement) (env_ : loc) (result : Object) : M Object :=
  match n with
  | O => fun _ => OutOfFuel
  | S n' =>
      do condition <~ evalExpression cond env_ ;>
      if isError condition then ret condition
      else if negb (isTruthy condition) then ret result
      else
        do r <~ evalStatements body env_ ;>
        if isError r then ret r
        else if has_type r RETURN_VALUE_OBJ then ret r
        else whileLoop n' cond body env_ r
  end.

(** [evalWhileStatement]. *)
Definition evalWhileStatement (cond : ast.Expression)
  (body : list ast.Statement) (env_ : loc) : M Object :=
  whileLoop budget cond body env_ NilObj.

(** The loop of [evalRepeatStatement]. *)
Fixpoint repeatLoop (n : nat) (body : list ast.Statement)
  (cond : ast.Expression) (env_ : loc) : M Object :=
  match n with
  | O => fun _ => OutOfFuel
  | S n' =>
      do r <~ evalStatements body env_ ;>
      if isError r then ret r
      else if has_type r RETURN_VALUE_OBJ then ret r
      else
        do condition <~ evalExpression cond env_ ;>
        if isError condition then ret condition
        else if isTruthy condition then ret r
        else repeatLoop n' body cond env_
  end.

(** [evalRepeatStatement]. *)
Definition evalRepeatStatement (body : list ast.Statement)
  (cond : ast.Expression) (env_ : loc) : M Object :=
  repeatLoop budget body cond env_.

(** [evalProcedureStatement]. *)
Definition evalProcedureStatement (name : string) (params : list ast.Param)
  (body : list ast.Statement) (env_ : loc) : M Object :=
  Declare_ env_ name (ProcedureObj name params body env_).

(** [evalFunctionStatement]. *)
Definition evalFunctionStatement (name : string) (params : list ast.Param)
  (returnType : ast.DataType) (body : list ast.Statement) (env_ : loc)
  : M Object :=
  Declare_ env_ name (FunctionObj name params returnType body env_).

(** [evalReturnStatement]. *)
Definition evalReturnStatement (value : option ast.Expression) (env_ : loc)
  : M Object :=
  match value with
  | None => ret (ReturnValueObj NullObj)
  | Some e =>
      do v <~ evalExpression e env_ ;>
      if isError v then ret v else ret (ReturnValueObj v)
  end.

(** What [evalInputStatement] and [evalReadFileStatement] do with the line
    read: the [switch] on the target. *)
Definition storeLine (target : ast.Expression) (line : string) (env_ : loc)
  : M Object :=
  match target with
  | ast.Identifier name =>
      run SetInPlace env_ name (StringObj line) ;>
      ret NullObj
  | ast.ArrayAccess array indices =>
      evalArrayAssignment array indices (StringObj line) env_
  | _ => ret NullObj
  end.

(** [evalInputStatement]. *)
Definition evalInputStatement (target : ast.Expression) (env_ : loc) : M Object :=
  do i <~ get_state ;>
  let '(line, err, rest) := ReadString (chunks (input i)) (failure (input i)) "" in
  run modify (set_input rest) ;>
  match err with
  | Some (Some msg) => error ("input error: " +:+ msg)
  | _ => storeLine target (TrimRight line [CR; LF]) env_
  end.

(** The loop of [evalOutputStatement]: the error returned early, or the
    parts. *)
Fixpoint outputParts (parts : list string) (values : list ast.Expression)
  (env_ : loc) : M (Object + list string) :=
  match values with
  | [] => ret (inr parts)
  | expr :: rest =>
      do value <~ evalExpression expr env_ ;>
      if isError value then ret (inl value)
      else
        do s <~ InspectOf fmt_g Date_Inspect value ;>
        outputParts (parts ++ [s]) rest env_
  end.

(** [evalOutputStatement]. *)
Definition evalOutputStatement (values : list ast.Expression) (env_ : loc)
  : M Object :=
  do r <~ outputParts [] values env_ ;>
  match r with
  | inl early => ret early
  | inr parts =>
      run modify (fun i => set_output (output i ++ [Join parts "" +:+ newline]) i) ;>
      ret NullObj
  end.

Definition open_file (name : string) (fs : fileState) : M Object :=
  run modify (fun i => set_files (<[name := fs]> (files i)) i) ;>
  ret NullObj.

(** [evalOpenFileStatement].  [os.Open] fails on a file the disk does not
    hold; [os.Create] empties the file; the scanner of a file opened for
    reading works on the contents at that moment, and a file opened
    otherwise has none. *)
Definition evalOpenFileStatement (filename : ast.Expression) (mode_ : string)
  (env_ : loc) : M Object :=
  do fname <~ evalExpression filename env_ ;>
  if isError fname then ret fname
  else match fname with
       | StringObj name =>
           do i <~ get_state ;>
           if streq mode_ "READ" then
             match disk i !! name with
             | Some contents =>
                 open_file name {| file := Some name; mode := mode_;
                                   scanner := Some {| unread := contents;
                                                      stopped := false |};
                                   atEOF := false |}
             | None =>
                 error ("cannot open file: open " +:+ name
                        +:+ ": no such file or directory")
             end
           else if streq mode_ "WRITE" then
             run modify (set_disk (<[name := ""]> (disk i))) ;>
             open_file name {| file := Some name; mode := mode_;
                               scanner := None; atEOF := false |}
           else if streq mode_ "APPEND" then
             run modify (set_disk (<[name := default "" (disk i !! name)]> (disk i))) ;>
             open_file name {| file := Some name; mode := mode_;
                               scanner := None; atEOF := false |}
           else
             open_file name {| file := None; mode := mode_;
                               scanner := None; atEOF := false |}
       | _ => error "filename must be a string"
       end.

(** [evalCloseFileStatement]. *)
Definition evalCloseFileStatement (filename : ast.Expression) (env_ : loc)
  : M Object :=
  do fname <~ evalExpression filename env_ ;>
  if isError fname then ret fname
  else match fname with
       | StringObj name =>
           do i <~ get_state ;>
           match files i !! name with
           | Some _ =>
               run modify (fun i => set_files (delete name (files i)) i) ;>
               ret NullObj
           | None => error "file not open"
           end
       | _ => error "filename must be a string"
       end.

(** [evalReadFileStatement]. *)
Definition evalReadFileStatement (filename target : ast.Expression) (env_ : loc)
  : M Object :=
  do fname <~ evalExpression filename env_ ;>
  if isError fname then ret fname
  else match fname with
       | StringObj name =>
           do i <~ get_state ;>
           match files i !! name with
           | Some fs =>
               if negb (streq (mode fs) "READ")
               then error "file not open for reading"
               else match scanner fs with
                    | None => panic nil_dereference
                    | Some sc =>
                        let '(token, sc') := Scan sc in
                        match token with
                        | Some line =>
                            run modify (fun i =>
                                  set_files (<[name := {| file := file fs;
                                                          mode := mode fs;
                                                          scanner := Some sc';
                                                          atEOF := atEOF fs |}]>
                                               (files i)) i) ;>
                            storeLine target line env_
                        | None =>
                            run modify (fun i =>
                                  set_files (<[name := {| file := file fs;
                                                          mode := mode fs;
                                                          scanner := Some sc';
                                                          atEOF := true |}]>
                                               (files i)) i) ;>
                            ret NullObj
                        end
                    end
           | None => error "file not open"
           end
       | _ => error "filename must be a string"
       end.

(** [evalWriteFileStatement]. *)
Definition evalWriteFileStatement (filename data : ast.Expression) (env_ : loc)
  : M Object :=
  do fname <~ evalExpression filename env_ ;>
  if isError fname then ret fname
  else match fname with
       | StringObj name =>
           do i <~ get_state ;>
           match files i !! name with
           | Some fs =>
               if negb (streq (mode fs) "WRITE") && negb (streq (mode fs) "APPEND")
               then error "file not open for writing"
               else
                 do d <~ evalExpression data env_ ;>
                 if isError d then ret d
                 else
                   do text <~ InspectOf fmt_g Date_Inspect d ;>
                   match file fs with
                   | Some path =>
                       run modify (fun i =>
                             set_disk (<[path := default "" (disk i !! path)
                                                 +:+ text +:+ newline]> (disk i)) i) ;>
                       ret NullObj
                   | None => error "write error: invalid argument"
                   end
           | None => error "file not open"
           end
       | _ => error "filename must be a string"
       end.

(** [evalPrefixExpression]. *)
Definition evalPrefixExpression (op : string) (right : ast.Expression)
  (env_ : loc) : M Object :=
  do r <~ evalExpression right env_ ;>
  if isError r then ret r
  else if streq op "-" then evalMinusPrefixOperator r
  else if streq op "NOT" then evalNotOperator r
  else error ("unknown operator: " +:+ op).

(** [evalInfixExpression]. *)
Definition evalInfixExpression (left : ast.Expression) (op : string)
  (right : ast.Expression) (env_ : loc) : M Object :=
  do l <~ evalExpression left env_ ;>
  if isError l then ret l else
  do r <~ evalExpression right env_ ;>
  if isError r then ret r else
  infixSwitch op l r.

(** [evalArrayAccess]. *)
Definition evalArrayAccess (array : ast.Expression)
  (indices : list ast.Expression) (env_ : loc) : M Object :=
  do arr <~ evalExpression array env_ ;>
  if isError arr then ret arr
  else match arr with
       | ArrayObj p =>
           do r <~ evalIndices [] indices env_ ;>
           match r with
           | inl early => ret early
           | inr ixs =>
               do a <~ read_array p ;>
               ret (default NullObj (arr_Elements a !! GetIndex ixs))
           end
       | _ => error "not an array"
       end.

(** [evalMemberAccess]. *)
Definition evalMemberAccess (object : ast.Expression) (member : string)
  (env_ : loc) : M Object :=
  do obj <~ evalExpression object env_ ;>
  if isError obj then ret obj
  else match obj with
       | RecordObj p =>
           do r <~ read_record p ;>
           match rec_Fields r !! member with
           | Some val => ret val
           | None => error ("field not found: " +:+ member)
           end
       | InstanceObj p =>
           do o <~ read_instance p ;>
           match inst_Fields o !! member with
           | Some val => ret val
           | None =>
               match lookupMethod (inst_Class o) member with
               | Some method => ret (BoundMethodObj p method)
               | None => error ("member not found: " +:+ member)
               end
           end
       | SuperObj p None => error "no parent class"
       | SuperObj p (Some class) =>
           match lookupMethod class member with
           | Some method => ret (BoundMethodObj p method)
           | None => error ("method not found in parent class: " +:+ member)
           end
       | _ => error "cannot access member of non-record/instance"
       end.

(** [applyBoundMethod]. *)
Definition applyBoundMethod (inst : loc) (method : Object) (args : list Object)
  (callerEnv : loc) : M Object :=
  do methodEnv <~ createMethodEnv inst callerEnv ;>
  match method with
  | FunctionObj _ params _ body _ =>
      run bindMethodParameters methodEnv args 0 params ;>
      do evaluated <~ evalStatements body methodEnv ;>
      ret (unwrapReturnValue evaluated)
  | ProcedureObj _ params body _ =>
      run bindMethodParameters methodEnv args 0 params ;>
      do evaluated <~ evalStatements body methodEnv ;>
      ret (unwrapReturnValue evaluated)
  | _ => error "invalid method type"
  end.

(** [applyFunction]. *)
Definition applyFunction (fn : Object) (args : list Object) (callerEnv : loc)
  : M Object :=
  match fn with
  | FunctionObj _ params _ body fnEnv =>
      do extendedEnv <~ extendFunctionEnv fnEnv args params callerEnv ;>
      do evaluated <~ evalStatements body extendedEnv ;>
      ret (unwrapReturnValue evaluated)
  | ProcedureObj _ params body fnEnv =>
      do extendedEnv <~ extendFunctionEnv fnEnv args params callerEnv ;>
      do evaluated <~ evalStatements body extendedEnv ;>
      ret (unwrapReturnValue evaluated)
  | BoundMethodObj inst method => applyBoundMethod inst method args callerEnv
  | BuiltinObj name =>
      do i <~ get_state ;>
      match builtins i !! name with
      | Some Fn => ret (Fn args)
      | None => panic nil_dereference
      end
  | _ => do t <~ TypeOf fn ;> error ("not a function: " +:+ t)
  end.

(** [evalCallExpression]. *)
Definition evalCallExpression (function : ast.Expression)
  (arguments : list ast.Expression) (env_ : loc) : M Object :=
  do fn <~ evalExpression function env_ ;>
  if isError fn then ret fn else
  do args <~ evalExpressions arguments env_ ;>
  match single_error args with
  | Some err => ret err
  | None => applyFunction fn args env_
  end.

(** [evalCallStatement]. *)
Definition evalCallStatement (name : ast.Expression)
  (arguments : list ast.Expression) (env_ : loc) : M Object :=
  evalCallExpression name arguments env_.

(** [evalNewExpression]. *)
Definition evalNewExpression (className : string)
  (arguments : list ast.Expression) (env_ : loc) : M Object :=
  do i <~ get_state ;>
  match Get i env_ className with
  | None => error ("class not found: " +:+ className)
  | Some (ClassObj class) =>
      do inst <~ alloc_instance {| inst_Class := class; inst_Fields := ∅ |} ;>
      run update_instance inst
            (fun o => with_Fields
                        (initializeInstanceFields class (inst_Fields o)) o) ;>
      match Class_Methods class !! "NEW" with
      | Some constructor =>
          do args <~ evalExpressions arguments env_ ;>
          match single_error args with
          | Some err => ret err
          | None =>
              do ctorEnv <~ createMethodEnv inst env_ ;>
              match constructor with
              | ProcedureObj _ params body _ =>
                  run bindMethodParameters ctorEnv args 0 params ;>
                  run evalStatements body ctorEnv ;>
                  ret (InstanceObj inst)
              | _ => ret (InstanceObj inst)
              end
          end
      | None => ret (InstanceObj inst)
      end
  | Some _ => error (className +:+ " is not a class")
  end.

(** The body of [evalStatement]. *)
Definition evalStatement_body (stmt : ast.Statement) (env_ : loc) : M Object :=
  match stmt with
  | ast.DeclareStatement name dt => evalDeclareStatement name dt env_
  | ast.ConstantStatement name value => evalConstantStatement name value env_
  | ast.AssignmentStatement target value =>
      evalAssignmentStatement target value env_
  | ast.IfStatement cond consequence alternative =>
      evalIfStatement cond consequence alternative env_
  | ast.CaseStatement expr cases otherwise =>
      evalCaseStatement expr cases otherwise env_
  | ast.ForStatement var start stop step body =>
      evalForStatement var start stop step body env_
  | ast.WhileStatement cond body => evalWhileStatement cond body env_
  | ast.RepeatStatement body cond => evalRepeatStatement body cond env_
  | ast.ProcedureStatement name params body =>
      evalProcedureStatement name params body env_
  | ast.FunctionStatement name params returnType body =>
      evalFunctionStatement name params returnType body env_
  | ast.CallStatement name arguments => evalCallStatement name arguments env_
  | ast.ReturnStatement value => evalReturnStatement value env_
  | ast.InputStatement target => evalInputStatement target env_
  | ast.OutputStatement values => evalOutputStatement values env_
  | ast.OpenFileStatement filename mode_ =>
      evalOpenFileStatement filename mode_ env_
  | ast.CloseFileStatement filename => evalCloseFileStatement filename env_
  | ast.ReadFileStatement filename target =>
      evalReadFileStatement filename target env_
  | ast.WriteFileStatement filename data =>
      evalWriteFileStatement filename data env_
  | ast.TypeStatement name def => evalTypeStatement name def env_
  | ast.ClassStatement name parent members =>
      evalClassStatement name parent members env_
  | ast.ExpressionStatement expr => evalExpression expr env_
  end.

(** The body of [evalExpression].  A [RangeExpression] is an expression the
    switch has no case for. *)
Definition evalExpression_body (expr : ast.Expression) (env_ : loc) : M Object :=
  match expr with
  | ast.IntegerLiteral v => ret (IntegerObj v)
  | ast.RealLiteral v => ret (RealObj v)
  | ast.StringLiteral v => ret (StringObj v)
  | ast.CharLiteral v => ret (CharObj (default 32 (first_byte v)))
  | ast.BooleanLiteral v => ret (BooleanObj v)
  | ast.Identifier name => evalIdentifier name env_
  | ast.PrefixExpression op rhs => evalPrefixExpression op rhs env_
  | ast.InfixExpression lhs op rhs => evalInfixExpression lhs op rhs env_
  | ast.ArrayAccess array indices => evalArrayAccess array indices env_
  | ast.MemberAccess object member => evalMemberAccess object member env_
  | ast.CallExpression function arguments =>
      evalCallExpression function arguments env_
  | ast.NewExpression className arguments =>
      evalNewExpression className arguments env_
  | ast.SuperExpression => evalSuperExpression env_
  | ast.RangeExpression _ _ =>
      error "unknown expression type: *ast.RangeExpression"
  end.

(** The loop of [Eval]. *)
Fixpoint Eval_from (result : Object) (stmts : list ast.Statement) : M Object :=
  match stmts with
  | [] => ret result
  | stmt :: rest =>
      do i <~ get_state ;>
      do r <~ evalStatement stmt (env i) ;>
      match r with
      | ReturnValueObj v => ret v
      | ErrorObj _ => ret r
      | _ => Eval_from r rest
      end
  end.

End Knot.

(** [evalStatement] and [evalExpression], [fuel] calls deep. *)
Fixpoint evalStatement (fuel : nat) : ast.Statement -> loc -> M Object :=
  match fuel with
  | O => fun _ _ _ => OutOfFuel
  | S n =>
      evalStatement_body (fun stmt env_ => evalStatement n stmt env_)
        (fun expr env_ => evalExpression n expr env_) n
  end
with evalExpression (fuel : nat) : ast.Expression -> loc -> M Object :=
  match fuel with
  | O => fun _ _ _ => OutOfFuel
  | S n =>
      evalExpression_body (fun stmt env_ => evalStatement n stmt env_)
        (fun expr env_ => evalExpression n expr env_)
  end.

(** [Eval]. *)
Definition Eval (fuel : nat) (program : ast.Program) : M Object :=
  Eval_from (evalStatement fuel) NilObj (ast.Statements program).

End Evaluator.

(** [New]: an interpreter with an empty global scope, reading [stdin]. *)
Definition New (stdin : Reader) : Interpreter :=
  {| env := 0%nat; builtins := ∅; files := ∅; input := stdin; output := [];
     envs := [ {| store := ∅; constants := ∅; outer := None;
                  types := ∅; instance := None |} ];
     instances := []; records := []; arrays := []; disk := ∅ |}.

(** ** Where a name resolves

    [Resolves i name e t]: walking outwards from scope [e] as [Get] and
    [SetInPlace] do, [name] is first found in the store of scope [s]
    ([TStore s]), or among the fields of the instance [p] a scope aliases
    ([TField p]), or nowhere, the walk ending in the outermost scope [r]
    ([TRoot r]). *)

Inductive Target :=
| TStore (s : loc)
| TField (p : loc)
| TRoot (r : loc).

Inductive Resolves (i : Interpreter) (name : string) : loc -> Target -> Prop :=
| Resolves_store e E :
    envs i !! e = Some E ->
    is_Some (store E !! name) ->
    Resolves i name e (TStore e)
| Resolves_field e E p :
    envs i !! e = Some E ->
    store E !! name = None ->
    instance E = Some p ->
    is_Some (instance_field i E name) ->
    Resolves i name e (TField p)
| Resolves_outer e E o t :
    envs i !! e = Some E ->
    store E !! name = None ->
    instance_field i E name = None ->
    outer E = Some o ->
    (o < e)%nat ->
    Resolves i name o t ->
    Resolves i name e t
| Resolves_root e E :
    envs i !! e = Some E ->
    store E !! name = None ->
    instance_field i E name = None ->
    outer E = None ->
    Resolves i name e (TRoot e).

(** The scopes of the chain that starts at [e], innermost first. *)
Fixpoint chain_from (n : nat) (i : Interpreter) (e : loc) : list loc :=
  match n with
  | O => []
  | S n' =>
      match envs i !! e with
      | None => []
      | Some E =>
          e :: match outer E with
               | Some o => chain_from n' i o
               | None => []
               end
      end
  end.

Definition chain (i : Interpreter) (e : loc) : list loc := chain_from (S e) i e.

(** ** What a walk along the chain finds and writes *)

(** What [SetInPlace] answers once the target of the name is known. *)
Definition SetInPlace_result (i : Interpreter) (name : string) (v : Object)
  (t : Target) : Outcome Object :=
  match t with
  | TStore s =>
      match envs i !! s with
      | Some E =>
          if default false (constants E !! name)
          then Returns (cannot_modify name) i
          else Returns v
                 (set_envs (<[s := with_store (<[name := v]> (store E)) E]> (envs i)) i)
      | None => Panics nil_dereference
      end
  | TField p =>
      match instances i !! p with
      | Some o =>
          Returns v
            (set_instances
               (<[p := with_Fields (<[name := v]> (inst_Fields o)) o]> (instances i)) i)
      | None => Panics nil_dereference
      end
  | TRoot r =>
      match envs i !! r with
      | Some E =>
          Returns v
            (set_envs (<[r := with_store (<[name := v]> (store E)) E]> (envs i)) i)
      | None => Panics nil_dereference
      end
  end.

(** What [Get] answers once the target of the name is known. *)
Definition Get_result (i : Interpreter) (name : string) (t : Target)
  : option Object :=
  match t with
  | TStore s => E ← envs i !! s; store E !! name
  | TField p => o ← instances i !! p; inst_Fields o !! name
  | TRoot _ => None
  end.

(** The state after a write to the store of scope [s], and after a write
    to a field of instance [p]. *)
Definition write_store (i : Interpreter) (s : loc) (name : string) (v : Object)
  : Interpreter :=
  match envs i !! s with
  | Some E => set_envs (<[s := with_store (<[name := v]> (store E)) E]> (envs i)) i
  | None => i
  end.

Definition write_field (i : Interpreter) (p : loc) (name : string) (v : Object)
  : Interpreter :=
  match instances i !! p with
  | Some o =>
      set_instances
        (<[p := with_Fields (<[name := v]> (inst_Fields o)) o]> (instances i)) i
  | None => i
  end.

Definition SetInPlace_state (i : Interpreter) (name : string) (v : Object)
  (t : Target) : Interpreter :=
  match t with
  | TStore s => write_store i s name v
  | TField p => write_field i p name v
  | TRoot r => write_store i r name v
  end.

(** The target is not a binding marked constant. *)
Definition writable (i : Interpreter) (name : string) (t : Target) : Prop :=
  match t with
  | TStore s =>
      exists E, envs i !! s = Some E /\ default false (constants E !! name) = false
  | _ => True
  end.

(** ** Sample host functions and programs *)

(** Stand-ins for the formatting of [Real] and [Date] values, for sample
    programs that print neither. *)
Definition sample_fmt_g (x : float64) : string := "<real>".
Definition sample_Date_Inspect (d m y : Z) : string := "<date>".

Definition no_input : Reader := {| chunks := []; failure := None |}.

Definition INTEGER : ast.DataType := ast.PrimitiveType "INTEGER".
Definition STRING : ast.DataType := ast.PrimitiveType "STRING".

Definition byval (name : string) (t : ast.DataType) : ast.Param :=
  {| ast.Name := name; ast.ParamType := t; ast.ByRef := false |}.
Definition byref (name : string) (t : ast.DataType) : ast.Param :=
  {| ast.Name := name; ast.ParamType := t; ast.ByRef := true |}.

(** [TestFunctionWithRecursion] of the interpreter's tests. *)
Definition Factorial_program : ast.Program :=
  {| ast.Statements :=
       [ ast.FunctionStatement "Factorial" [byval "n" INTEGER] INTEGER
           [ ast.IfStatement
               (ast.InfixExpression (ast.Identifier "n") "<=" (ast.IntegerLiteral 1))
               [ ast.ReturnStatement (Some (ast.IntegerLiteral 1)) ] None;
             ast.ReturnStatement
               (Some (ast.InfixExpression (ast.Identifier "n") "*"
                        (ast.CallExpression (ast.Identifier "Factorial")
                           [ ast.InfixExpression (ast.Identifier "n") "-"
                               (ast.IntegerLiteral 1) ]))) ];
         ast.DeclareStatement "result" INTEGER;
         ast.AssignmentStatement (ast.Identifier "result")
           (ast.CallExpression (ast.Identifier "Factorial") [ ast.IntegerLiteral 5 ]) ] |}.

(** [TestEarlyReturnInLoop] of the interpreter's tests. *)
Definition FindFirst_program : ast.Program :=
  {| ast.Statements :=
       [ ast.FunctionStatement "FindFirst" [] INTEGER
           [ ast.ForStatement "i" (ast.IntegerLiteral 1) (ast.IntegerLiteral 10) None
               [ ast.IfStatement
                   (ast.InfixExpression (ast.Identifier "i") "=" (ast.IntegerLiteral 5))
                   [ ast.ReturnStatement (Some (ast.Identifier "i")) ] None ];
             ast.ReturnStatement (Some (ast.IntegerLiteral 0)) ];
         ast.DeclareStatement "result" INTEGER;
         ast.AssignmentStatement (ast.Identifier "result")
           (ast.CallExpression (ast.Identifier "FindFirst") []) ] |}.

(** What a run of a sample program shows: the result of [Eval] and the
    text written. *)
Definition observe (fuel : nat) (program : ast.Program) (stdin : Reader)
  : option (Object * list string) :=
  match Eval sample_fmt_g sample_Date_Inspect fuel program (New stdin) with
  | Returns r i => Some (r, output i)
  | _ => None
  end.

(** The state a sample program leaves. *)
Definition final_state (fuel : nat) (program : ast.Program) (stdin : Reader)
  : option Interpreter :=
  match Eval sample_fmt_g sample_Date_Inspect fuel program (New stdin) with
  | Returns _ i => Some i
  | _ => None
  end.

(** The [float64] values 0.0, 2.0, 2.5, 3.5, 5.0 and 8.5. *)
Definition f64_0_0 : float64 := S754_zero false.
Definition f64_2_0 : float64 := S754_finite false 4503599627370496 (-51).
Definition f64_2_5 : float64 := S754_finite false 5629499534213120 (-51).
Definition f64_3_5 : float64 := S754_finite false 7881299347898368 (-51).
Definition f64_5_0 : float64 := S754_finite false 5629499534213120 (-50).
Definition f64_8_5 : float64 := S754_finite false 4785074604081152 (-49).

(** The state of a run, or the state it started from when it does not
    return. *)
Definition state_after {A : Type} (c : M A) (i : Interpreter) : Interpreter :=
  match c i with
  | Returns _ i' => i'
  | _ => i
  end.

(** A procedure whose body returns a value, and a program that calls it in
    an expression. *)
Definition Seven_body : list ast.Statement :=
  [ ast.ReturnStatement (Some (ast.IntegerLiteral 7)) ].

Definition Seven_procedure : Object := ProcedureObj "Seven" [] Seven_body 0%nat.

Definition Seven_program : ast.Program :=
  {| ast.Statements :=
       [ ast.ProcedureStatement "Seven" [] Seven_body;
         ast.DeclareStatement "result" INTEGER;
         ast.AssignmentStatement (ast.Identifier "result")
           (ast.CallExpression (ast.Identifier "Seven") []);
         ast.OutputStatement [ ast.Identifier "result" ] ] |}.

(** A FOR loop whose STEP is a String, and one whose start is a Real. *)
Definition For_string_step : ast.Statement :=
  ast.ForStatement "i" (ast.IntegerLiteral 1) (ast.IntegerLiteral 3)
    (Some (ast.StringLiteral "x")) [ ast.OutputStatement [ ast.Identifier "i" ] ].

Definition For_real_start : ast.Statement :=
  ast.ForStatement "i" (ast.RealLiteral f64_2_5) (ast.IntegerLiteral 3)
    None [ ast.OutputStatement [ ast.Identifier "i" ] ].

(** The same parameter, passed by value. *)
Definition byval_of (p : ast.Param) : ast.Param :=
  {| ast.Name := ast.Name p; ast.ParamType := ast.ParamType p; ast.ByRef := false |}.

(** A scope as [NewEnclosedEnvironment] makes it. *)
Definition fresh_scope (outer_ : loc) : Environment :=
  {| store := ∅; constants := ∅; outer := Some outer_; types := ∅; instance := None |}.

(** The state after the store of scope [e] has received the bindings of
    [l], one after the other. *)
Definition write_all (i : Interpreter) (e : loc) (l : list (string * Object))
  : Interpreter :=
  foldl (fun st p => write_store st e p.1 p.2) i l.

(** A store after it has received the bindings of [l], one after the
    other. *)
Definition insert_all (s : gmap string Object) (l : list (string * Object))
  : gmap string Object :=
  foldl (fun m p => <[p.1 := p.2]> m) s l.

(** The [Swap] procedure of the README, called on two variables. *)
Definition Swap_params : list ast.Param := [ byref "A" INTEGER; byref "B" INTEGER ].

Definition Swap_program : ast.Program :=
  {| ast.Statements :=
       [ ast.DeclareStatement "x" INTEGER;
         ast.DeclareStatement "y" INTEGER;
         ast.AssignmentStatement (ast.Identifier "x") (ast.IntegerLiteral 1);
         ast.AssignmentStatement (ast.Identifier "y") (ast.IntegerLiteral 2);
         ast.ProcedureStatement "Swap" Swap_params
           [ ast.DeclareStatement "Temp" INTEGER;
             ast.AssignmentStatement (ast.Identifier "Temp") (ast.Identifier "A");
             ast.AssignmentStatement (ast.Identifier "A") (ast.Identifier "B");
             ast.AssignmentStatement (ast.Identifier "B") (ast.Identifier "Temp");
             ast.OutputStatement [ ast.Identifier "A"; ast.Identifier "B" ] ];
         ast.CallStatement (ast.Identifier "Swap")
           [ ast.Identifier "x"; ast.Identifier "y" ];
         ast.OutputStatement [ ast.Identifier "x"; ast.Identifier "y" ] ] |}.

(** Scope [s] binds [name] neither in its store nor through the instance
    it aliases. *)
Definition unbound_at (i : Interpreter) (name : string) (s : loc) : Prop :=
  exists E, envs i !! s = Some E /\ store E !! name = None
            /\ instance_field i E name = None.

(** The global scope and one child scope of it. *)
Definition two_scopes : Interpreter :=
  state_after (NewEnclosedEnvironment 0%nat) (New no_input).

(** A procedure that assigns to a name declared nowhere, and a program that
    reads the name after the call. *)
Definition Init_program : ast.Program :=
  {| ast.Statements :=
       [ ast.ProcedureStatement "Init" []
           [ ast.AssignmentStatement (ast.Identifier "counter") (ast.IntegerLiteral 5) ];
         ast.CallStatement (ast.Identifier "Init") [];
         ast.OutputStatement [ ast.Identifier "counter" ] ] |}.

(** The binding of [name] in the store of scope [s]. *)
Definition binding (i : Interpreter) (s : loc) (name : string) : option Object :=
  E ← envs i !! s; store E !! name.

(** A constant, and a procedure with a parameter of the same name that
    assigns to it. *)
Definition Shadow_program : ast.Program :=
  {| ast.Statements :=
       [ ast.ConstantStatement "LIMIT" (ast.IntegerLiteral 5);
         ast.ProcedureStatement "Raise" [ byval "LIMIT" INTEGER ]
           [ ast.AssignmentStatement (ast.Identifier "LIMIT") (ast.IntegerLiteral 10);
             ast.OutputStatement [ ast.Identifier "LIMIT" ] ];
         ast.CallStatement (ast.Identifier "Raise") [ ast.IntegerLiteral 1 ];
         ast.OutputStatement [ ast.Identifier "LIMIT" ] ] |}.

(** The state in which the body of [Raise] starts: the constant in the
    global scope 0, the parameter in the scope 1 of the call. *)
Definition Shadow_state : Interpreter :=
  state_after
    (run DeclareConstant 0%nat "LIMIT" (IntegerObj 5) ;>
     extendFunctionEnv 0%nat [ IntegerObj 1 ] [ byval "LIMIT" INTEGER ] 0%nat)
    (New no_input).

(** A constant in the global scope 0, seen from a child scope 1. *)
Definition Constant_state : Interpreter :=
  state_after
    (run DeclareConstant 0%nat "PI" (IntegerObj 3) ;> NewEnclosedEnvironment 0%nat)
    (New no_input).

(** [TestInputStatement] of the interpreter's tests, with a target declared
    INTEGER and a line that ends in CR LF. *)
Definition Input_program : ast.Program :=
  {| ast.Statements :=
       [ ast.DeclareStatement "age" INTEGER;
         ast.InputStatement (ast.Identifier "age");
         ast.OutputStatement [ ast.Identifier "age" ] ] |}.

Definition Input_line : string := "42" +:+ String CR (String LF EmptyString).

Definition Input_state : Interpreter :=
  state_after (evalDeclareStatement "age" INTEGER 0%nat)
    (New {| chunks := [ Input_line ]; failure := None |}).

(** The store [createMethodEnv] builds for instance [inst] of [class]:
    [this], then [SUPER] when there is a parent, then the methods of the
    class over them, then the methods of the ancestors under them. *)
Definition method_store (inst : loc) (class : Class) : gmap string Object :=
  let this := <["this" := InstanceObj inst]> (∅ : gmap string Object) in
  let base := match Class_Parent class with
              | Some parent => <["SUPER" := SuperObj inst (Some parent)]> this
              | None => this
              end in
  let own := (BoundMethodObj inst <$> Class_Methods class) ∪ base in
  match Class_Parent class with
  | Some parent => bindInherited inst parent own
  | None => own
  end.

(** The scope [createMethodEnv] builds. *)
Definition method_scope (inst : loc) (class : Class) (callerEnv : loc)
  : Environment :=
  {| store := method_store inst class; constants := ∅; outer := Some callerEnv;
     types := ∅; instance := Some inst |}.

(** A method that reads a name which only its caller binds. *)
Definition Peek_body : list ast.Statement :=
  [ ast.ReturnStatement (Some (ast.Identifier "secret")) ].

Definition Peek_program : ast.Program :=
  {| ast.Statements :=
       [ ast.ClassStatement "Vault" ""
           [ ast.FunctionStatement "Peek" [] INTEGER Peek_body ];
         ast.FunctionStatement "Caller" [] INTEGER
           [ ast.DeclareStatement "secret" INTEGER;
             ast.AssignmentStatement (ast.Identifier "secret") (ast.IntegerLiteral 42);
             ast.AssignmentStatement (ast.Identifier "v") (ast.NewExpression "Vault" []);
             ast.ReturnStatement
               (Some (ast.CallExpression
                        (ast.MemberAccess (ast.Identifier "v") "Peek") [])) ];
         ast.OutputStatement [ ast.CallExpression (ast.Identifier "Caller") [] ];
         ast.OutputStatement
           [ ast.CallExpression (ast.MemberAccess (ast.Identifier "v") "Peek") [] ] ] |}.

(** The class [Vault] as [Peek_program] declares it: the closure of its
    method is scope 1, the scope [evalClassStatement] made. *)
Definition Vault_class : Class :=
  MkClass "Vault" None
    (<["Peek" := FunctionObj "Peek" [] INTEGER Peek_body 1%nat]> ∅) ∅.

(** The state in which [Caller] calls [v.Peek()]: scope 0 is global, scope 1
    the closure of the class, scope 2 the scope of the call of [Caller]. *)
Definition Peek_state : Interpreter :=
  state_after
    (run evalClassStatement "Vault" "" [ ast.FunctionStatement "Peek" [] INTEGER Peek_body ]
           0%nat ;>
     do callerEnv <~ extendFunctionEnv 0%nat [] [] 0%nat ;>
     run Declare_ callerEnv "secret" (IntegerObj 42) ;>
     alloc_instance {| inst_Class := Vault_class; inst_Fields := ∅ |})
    (New no_input).

(** The classes of the README: [Animal] declares the constructor, [Dog]
    inherits from [Animal] and declares none. *)
Definition Animal_members : list ast.Statement :=
  [ ast.DeclareStatement "Name" STRING;
    ast.ProcedureStatement "NEW" [ byval "GivenName" STRING ]
      [ ast.AssignmentStatement (ast.Identifier "Name") (ast.Identifier "GivenName") ];
    ast.FunctionStatement "GetName" [] STRING
      [ ast.ReturnStatement (Some (ast.Identifier "Name")) ] ].

Definition Dog_members : list ast.Statement :=
  [ ast.ProcedureStatement "Speak" []
      [ ast.OutputStatement
          [ ast.CallExpression (ast.Identifier "GetName") [];
            ast.StringLiteral " says Woof!" ] ] ].

Definition Dog_program : ast.Program :=
  {| ast.Statements :=
       [ ast.ClassStatement "Animal" "" Animal_members;
         ast.ClassStatement "Dog" "Animal" Dog_members;
         ast.DeclareStatement "MyDog" (ast.CustomType "Dog");
         ast.AssignmentStatement (ast.Identifier "MyDog")
           (ast.NewExpression "Dog" [ ast.StringLiteral "Buddy" ]);
         ast.CallStatement (ast.MemberAccess (ast.Identifier "MyDog") "Speak") [] ] |}.

(** The same program with an instance of [Animal] itself. *)
Definition Animal_program : ast.Program :=
  {| ast.Statements :=
       [ ast.ClassStatement "Animal" "" Animal_members;
         ast.AssignmentStatement (ast.Identifier "Pet")
           (ast.NewExpression "Animal" [ ast.StringLiteral "Buddy" ]);
         ast.OutputStatement
           [ ast.CallExpression (ast.MemberAccess (ast.Identifier "Pet") "GetName") [] ] ] |}.

(** The field of an instance in the state a program leaves. *)
Definition final_field (fuel : nat) (program : ast.Program) (inst : loc)
  (name : string) : option Object :=
  i ← final_state fuel program no_input;
  o ← instances i !! inst;
  inst_Fields o !! name.

(** The class of an instance in the state a program leaves. *)
Definition final_class (fuel : nat) (program : ast.Program) (inst : loc)
  : option Class :=
  i ← final_state fuel program no_input;
  o ← instances i !! inst;
  Some (inst_Class o).

(** [NoSignal eS envOf stmts r0 i r i']: the statements of [stmts] are
    evaluated one after the other from state [i], each in the scope [envOf]
    gives for the state it starts in, none of them yields a ReturnSignal or
    an Error, the last one yields [r] ([r0] when there is none) and leaves
    state [i']. *)
Inductive NoSignal (eS : ast.Statement -> loc -> M Object)
  (envOf : Interpreter -> loc)
  : list ast.Statement -> Object -> Interpreter -> Object -> Interpreter -> Prop :=
| NoSignal_nil r i : NoSignal eS envOf [] r i r i
| NoSignal_cons stmt rest r0 i r1 i1 r i' :
    eS stmt (envOf i) i = Returns r1 i1 ->
    isSignal r1 = false ->
    NoSignal eS envOf rest r1 i1 r i' ->
    NoSignal eS envOf (stmt :: rest) r0 i r i'.

(** A program whose first statement is a RETURN, and a statement list with
    a RETURN in the middle. *)
Definition Return_program : ast.Program :=
  {| ast.Statements :=
       [ ast.ReturnStatement (Some (ast.IntegerLiteral 5));
         ast.OutputStatement [ ast.StringLiteral "after" ] ] |}.

Definition Output_a : ast.Statement := ast.OutputStatement [ ast.StringLiteral "a" ].
Definition Output_b : ast.Statement := ast.OutputStatement [ ast.StringLiteral "b" ].
Definition Return_5 : ast.Statement :=
  ast.ReturnStatement (Some (ast.IntegerLiteral 5)).

(** INPUT into a field of a record, and INPUT into a constant. *)
Definition Person : ast.DataType := ast.RecordType [ ("name", STRING) ].

Definition Input_field_program : ast.Program :=
  {| ast.Statements :=
       [ ast.TypeStatement "Person" Person;
         ast.DeclareStatement "p" (ast.CustomType "Person");
         ast.AssignmentStatement (ast.MemberAccess (ast.Identifier "p") "name")
           (ast.StringLiteral "old");
         ast.InputStatement (ast.MemberAccess (ast.Identifier "p") "name");
         ast.OutputStatement [ ast.MemberAccess (ast.Identifier "p") "name" ] ] |}.

Definition Input_constant_program : ast.Program :=
  {| ast.Statements :=
       [ ast.ConstantStatement "K" (ast.IntegerLiteral 1);
         ast.InputStatement (ast.Identifier "K");
         ast.OutputStatement [ ast.Identifier "K" ] ] |}.

Definition one_line (s : string) : Reader :=
  {| chunks := [ s +:+ newline ]; failure := None |}.

(** [IsEOF]. *)
Definition IsEOF (i : Interpreter) (filename : string) : bool :=
  match files i !! filename with
  | Some fs => atEOF fs
  | None => true
  end.

(** ** How the stores evolve

    [scope_grows D D']: scope [D'] has the parent and the aliased instance
    of [D], marks constant what [D] marks constant and binds what [D]
    binds.  [extends i i']: every scope and every instance of [i] is still
    there in [i'], grown in that sense, and the global scope is the same. *)

Definition scope_grows (D D' : Environment) : Prop :=
  outer D' = outer D
  /\ instance D' = instance D
  /\ (forall x, constants D !! x = Some true -> constants D' !! x = Some true)
  /\ (forall x, is_Some (store D !! x) -> is_Some (store D' !! x)).

Definition instance_grows (o o' : Instance) : Prop :=
  inst_Class o' = inst_Class o
  /\ (forall f, is_Some (inst_Fields o !! f) -> is_Some (inst_Fields o' !! f)).

Definition extends (i i' : Interpreter) : Prop :=
  env i' = env i
  /\ (forall d D, envs i !! d = Some D ->
      exists D', envs i' !! d = Some D' /\ scope_grows D D')
  /\ (forall p o, instances i !! p = Some o ->
      exists o', instances i' !! p = Some o' /\ instance_grows o o').

(** A computation that, when it returns, leaves a state that extends the
    one it started in. *)
Definition monotone {A : Type} (c : M A) : Prop :=
  forall i a i', c i = Returns a i' -> extends i i'.


(** ** The built-in functions ([builtins.go])

    A built-in receives the evaluated arguments.  [None] stands for a
    run-time panic of the Go code: a method call on a nil argument, or a
    slice expression out of range.  A built-in in which no operation can
    panic returns its [Object] directly.  [int] is taken to be 64 bits
    wide, as on the platforms the interpreter is built for. *)

Fixpoint string_take (n : nat) (s : string) : string :=
  match n, s with
  | S n', String c s' => String c (string_take n' s')
  | _, _ => EmptyString
  end.

Fixpoint string_drop (n : nat) (s : string) : string :=
  match n, s with
  | S n', String _ s' => string_drop n' s'
  | _, _ => s
  end.

(** The slice expression [s[lo:hi]] of Go on a string, which panics unless
    [0 <= lo <= hi <= len(s)]. *)
Definition slice (s : string) (lo hi : Z) : option string :=
  if (0 <=? lo) && (lo <=? hi) && (hi <=? Z.of_nat (String.length s))
  then Some (string_take (Z.to_nat (hi - lo)) (string_drop (Z.to_nat lo) s))
  else None.

(** Two's-complement wrap-around of [int32] arithmetic; [rune] is
    [int32]. *)
Definition wrap32 (z : Z) : Z := ((z + 2 ^ 31) mod 2 ^ 32 - 2 ^ 31)%Z.

(** The value of a decimal digit. *)
Definition digit_of (c : ascii) : option N :=
  let n := N_of_ascii c in
  if ((48 <=? n) && (n <=? 57))%N then Some (n - 48)%N else None.

(** The digit loop of [strconv.ParseUint] in base 10, without its check
    of the range, which [ParseUint] below makes on the result. *)
Fixpoint parse_digits (acc : N) (s : string) : option N :=
  match s with
  | EmptyString => Some acc
  | String c s' =>
      match digit_of c with
      | Some d => parse_digits (10 * acc + d) s'
      | None => None
      end
  end.

(** [strconv.ParseUint(s, 10, 64)]; [None] when the error is not nil. *)
Definition ParseUint (s : string) : option N :=
  match s with
  | EmptyString => None
  | _ =>
      match parse_digits 0 s with
      | Some n => if (n <? 2 ^ 64)%N then Some n else None
      | None => None
      end
  end.

(** [strconv.ParseInt(s, 10, 64)]; [None] when the error is not nil. *)
Definition ParseInt (s : string) : option Z :=
  match s with
  | EmptyString => None
  | String c s' =>
      let neg := Ascii.eqb c "-" in
      let digits := if Ascii.eqb c "+" || neg then s' else s in
      match ParseUint digits with
      | Some un =>
          if negb neg && (2 ^ 63 <=? un)%N then None
          else if neg && (2 ^ 63 <? un)%N then None
          else Some (if neg then - Z.of_N un else Z.of_N un)
      | None => None
      end
  end.

Module builtins.

(** [newError] on a format already filled in. *)
Definition newError (msg : string) : Object := ErrorObj msg.

(** [len(args)] as [%d] prints it. *)
Definition got (args : list Object) : string := pretty (List.length args).

(** [length]: LENGTH(s). *)
Definition length (args : list Object) : option Object :=
  match args with
  | [arg] =>
      match arg with
      | StringObj v => Some (IntegerObj (Z.of_nat (String.length v)))
      | _ =>
          match Type_ arg with
          | Some t =>
              Some (newError ("LENGTH requires STRING argument, got " +:+ t))
          | None => None
          end
      end
  | _ => Some (newError ("LENGTH requires 1 argument, got " +:+ got args))
  end.

(** [left]: LEFT(s, n). *)
Definition left (args : list Object) : option Object :=
  match args with
  | [a0; a1] =>
      match a0 with
      | StringObj str =>
          match a1 with
          | IntegerObj n =>
              if n <? 0 then Some (newError "LEFT: length cannot be negative")
              else if Z.of_nat (String.length str) <=? n
              then Some (StringObj str)
              else StringObj <$> slice str 0 n
          | _ => Some (newError "LEFT requires INTEGER as second argument")
          end
      | _ => Some (newError "LEFT requires STRING as first argument")
      end
  | _ => Some (newError ("LEFT requires 2 arguments, got " +:+ got args))
  end.

(** [right]: RIGHT(s, n). *)
Definition right (args : list Object) : option Object :=
  match args with
  | [a0; a1] =>
      match a0 with
      | StringObj str =>
          match a1 with
          | IntegerObj n =>
              if n <? 0 then Some (newError "RIGHT: length cannot be negative")
              else
                let length := Z.of_nat (String.length str) in
                if length <=? n then Some (StringObj str)
                else StringObj <$> slice str (length - n) length
          | _ => Some (newError "RIGHT requires INTEGER as second argument")
          end
      | _ => Some (newError "RIGHT requires STRING as first argument")
      end
  | _ => Some (newError ("RIGHT requires 2 arguments, got " +:+ got args))
  end.

(** [mid]: MID(s, start, length), positions counted from 1. *)
Definition mid (args : list Object) : option Object :=
  match args with
  | [a0; a1; a2] =>
      match a0 with
      | StringObj str =>
          match a1 with
          | IntegerObj start =>
              match a2 with
              | IntegerObj length =>
                  let startIdx := wrap64 (start - 1) in
                  let startIdx := if startIdx <? 0 then 0 else startIdx in
                  let strLen := Z.of_nat (String.length str) in
                  if strLen <=? startIdx then Some (StringObj "")
                  else
                    let endIdx := wrap64 (startIdx + length) in
                    let endIdx := if strLen <? endIdx then strLen else endIdx in
                    StringObj <$> slice str startIdx endIdx
              | _ => Some (newError "MID requires INTEGER as third argument")
              end
          | _ => Some (newError "MID requires INTEGER as second argument")
          end
      | _ => Some (newError "MID requires STRING as first argument")
      end
  | _ => Some (newError ("MID requires 3 arguments, got " +:+ got args))
  end.

(** [asc]: ASC(c). *)
Definition asc : BuiltinFunction := fun args =>
  match args with
  | [arg] =>
      match arg with
      | CharObj v => IntegerObj v
      | StringObj v =>
          match first_byte v with
          | Some b => IntegerObj b
          | None => newError "ASC: empty string"
          end
      | _ => newError "ASC requires CHAR or STRING argument"
      end
  | _ => newError ("ASC requires 1 argument, got " +:+ got args)
  end.

(** [chr]: CHR(n). *)
Definition chr : BuiltinFunction := fun args =>
  match args with
  | [arg] =>
      match arg with
      | IntegerObj n => CharObj (wrap32 n)
      | _ => newError "CHR requires INTEGER argument"
      end
  | _ => newError ("CHR requires 1 argument, got " +:+ got args)
  end.

(** [abs]: ABS(n). *)
Definition abs : BuiltinFunction := fun args =>
  match args with
  | [arg] =>
      match arg with
      | IntegerObj v => if v <? 0 then IntegerObj (wrap64 (- v)) else arg
      | RealObj v => RealObj (SFabs v)
      | _ => newError "ABS requires numeric argument"
      end
  | _ => newError ("ABS requires 1 argument, got " +:+ got args)
  end.

(** [eof]: EOF(filename). *)
Definition eof : BuiltinFunction := fun args =>
  match args with
  | [_] => BooleanObj true
  | _ => newError ("EOF requires 1 argument, got " +:+ got args)
  end.

Section Conversions.

(** [strconv.FormatFloat(x, 'f', -1, 64)] and [strconv.ParseFloat(s, 64)]
    of the Go library; the latter is [None] when the error is not nil. *)
Variable FormatFloat : float64 -> string.
Variable ParseFloat : string -> option float64.

(** [numToStr]: NUM_TO_STR(n). *)
Definition numToStr : BuiltinFunction := fun args =>
  match args with
  | [arg] =>
      match arg with
      | IntegerObj v => StringObj (pretty v)
      | RealObj v => StringObj (FormatFloat v)
      | _ => newError "NUM_TO_STR requires numeric argument"
      end
  | _ => newError ("NUM_TO_STR requires 1 argument, got " +:+ got args)
  end.

(** [strToNum]: STR_TO_NUM(s). *)
Definition strToNum : BuiltinFunction := fun args =>
  match args with
  | [arg] =>
      match arg with
      | StringObj str =>
          match ParseInt str with
          | Some i => IntegerObj i
          | None =>
              match ParseFloat str with
              | Some f => RealObj f
              | None =>
                  newError ("STR_TO_NUM: cannot convert '" +:+ str
                            +:+ "' to number")
              end
          end
      | _ => newError "STR_TO_NUM requires STRING argument"
      end
  | _ => newError ("STR_TO_NUM requires 1 argument, got " +:+ got args)
  end.

End Conversions.

End builtins.

(** The values of an [int64], of an [int32]. *)
Definition is_int64 (z : Z) : Prop := - 2 ^ 63 <= z < 2 ^ 63.
Definition is_int32 (z : Z) : Prop := - 2 ^ 31 <= z < 2 ^ 31.

(** ** The elementary changes of the state

    [Step i i']: state [i'] is state [i] after one of the writes the
    interpreter makes: a scope is allocated ([NewEnclosedEnvironment],
    [createMethodEnv]); a name is bound in a store ([Declare_]), marked
    constant ([DeclareConstant]) or given a type ([DefineType]); an
    instance, an array or a record is allocated; a field or an element is
    written; a line of input is consumed; a line of output is appended; the
    table of open files or the disk changes. *)
Inductive Step : Interpreter -> Interpreter -> Prop :=
| Step_scope (i : Interpreter) (outer_ : loc) :
    Step i (set_envs (envs i ++ [fresh_scope outer_]) i)
| Step_method_scope (i : Interpreter) (inst : loc) (o : Instance)
    (callerEnv : loc) :
    instances i !! inst = Some o ->
    Step i (set_envs (envs i ++ [method_scope inst (inst_Class o) callerEnv]) i)
| Step_bind (i : Interpreter) (e : loc) (E : Environment) (name : string)
    (v : Object) :
    envs i !! e = Some E ->
    Step i (set_envs (<[e := with_store (<[name := v]> (store E)) E]> (envs i)) i)
| Step_constant (i : Interpreter) (e : loc) (E : Environment) (name : string) :
    envs i !! e = Some E ->
    Step i (set_envs
              (<[e := with_constants (<[name := true]> (constants E)) E]> (envs i)) i)
| Step_type (i : Interpreter) (e : loc) (E : Environment) (name : string)
    (typ : Object) :
    envs i !! e = Some E ->
    Step i (set_envs (<[e := with_types (<[name := typ]> (types E)) E]> (envs i)) i)
| Step_instance (i : Interpreter) (class : Class) :
    Step i (set_instances
              (instances i ++ [ {| inst_Class := class; inst_Fields := ∅ |} ]) i)
| Step_instance_fields (i : Interpreter) (p : loc) (o : Instance) (class : Class) :
    instances i !! p = Some o ->
    Step i (set_instances
              (<[p := with_Fields
                        (initializeInstanceFields class (inst_Fields o)) o]>
                 (instances i)) i)
| Step_field (i : Interpreter) (p : loc) (o : Instance) (name : string)
    (v : Object) :
    instances i !! p = Some o ->
    Step i (set_instances
              (<[p := with_Fields (<[name := v]> (inst_Fields o)) o]>
                 (instances i)) i)
| Step_array (i : Interpreter) (dims : list ast.ArrayDimension) :
    Step i (set_arrays
              (arrays i ++ [ {| arr_Elements := ∅; arr_Dimensions := dims |} ]) i)
| Step_element (i : Interpreter) (p : loc) (a : ArrayVal) (indices : list Z)
    (v : Object) :
    arrays i !! p = Some a ->
    Step i (set_arrays
              (<[p := with_Elements (<[GetIndex indices := v]> (arr_Elements a)) a]>
                 (arrays i)) i)
| Step_record (i : Interpreter) (r : RecordVal) :
    Step i (set_records (records i ++ [r]) i)
| Step_record_field (i : Interpreter) (p : loc) (r : RecordVal)
    (member : string) (v : Object) :
    records i !! p = Some r ->
    Step i (set_records
              (<[p := with_rec_Fields (<[member := v]> (rec_Fields r)) r]>
                 (records i)) i)
| Step_input (i : Interpreter) (rest : Reader) :
    Step i (set_input rest i)
| Step_output (i : Interpreter) (line : string) :
    Step i (set_output (output i ++ [line]) i)
| Step_files (i : Interpreter) (f : gmap string fileState) :
    Step i (set_files f i)
| Step_disk (i : Interpreter) (d : gmap string string) :
    Step i (set_disk d i).

(** A computation that, when it returns, has changed the state by
    elementary steps only. *)
Definition stepwise {A : Type} (c : M A) : Prop :=
  forall i a i', c i = Returns a i' -> rtc Step i i'.

(** What the steps leave alone: the registry of built-ins and the global
    scope are the same, the output has only grown at its end, and every
    array and every record is still there, the array with its
    dimensions, the record with the name of its type. *)
Definition frame (i i' : Interpreter) : Prop :=
  builtins i' = builtins i
  /\ env i' = env i
  /\ output i `prefix_of` output i'
  /\ (forall p a, arrays i !! p = Some a ->
      exists a', arrays i' !! p = Some a'
                 /\ arr_Dimensions a' = arr_Dimensions a)
  /\ (forall p r, records i !! p = Some r ->
      exists r', records i' !! p = Some r'
                 /\ rec_TypeName r' = rec_TypeName r).

(** An interpreter whose registry holds the built-in EOF, with a file open
    for reading of which no line has been read. *)
Definition EOF_state : Interpreter :=
  {| env := 0%nat;
     builtins := {[ "EOF" := builtins.eof ]};
     files := {[ "data.txt" := {| file := Some "data.txt"; mode := "READ";
                                  scanner := Some {| unread := "first line" +:+ newline;
                                                     stopped := false |};
                                  atEOF := false |} ]};
     input := no_input; output := [];
     envs := envs (New no_input);
     instances := []; records := []; arrays := [];
     disk := {[ "data.txt" := "first line" +:+ newline ]} |}.

(** No byte of the string is a comma. *)
Fixpoint comma_free (s : string) : bool :=
  match s with
  | EmptyString => true
  | String c s' => negb (Ascii.eqb c ",") && comma_free s'
  end.

(** The global scope after [DECLARE Grid : ARRAY[1:3, 1:3] OF INTEGER] and
    [DECLARE Copy : ARRAY[1:3, 1:3] OF INTEGER]. *)
Definition Grid_type : ast.DataType :=
  ast.ArrayType [ {| ast.Lower := 1; ast.Upper := 3 |};
                  {| ast.Lower := 1; ast.Upper := 3 |} ] INTEGER.

Definition Grid_state : Interpreter :=
  state_after
    (run evalDeclareStatement "Grid" Grid_type 0%nat ;>
     evalDeclareStatement "Copy" Grid_type 0%nat)
    (New no_input).

(** [Iterates eS var step body loopEnv k current result i r i']: from
    state [i], [k] rounds of a FOR loop run one after the other, the
    counter, set at the start of each round, taking the values [current],
    [current + step], ...; no round yields an Error or a RETURN; [r] is what
    the last round yields ([result] when there is none) and [i'] the state
    it leaves. *)
Inductive Iterates (eS : ast.Statement -> loc -> M Object) (var : string)
  (step : Z) (body : list ast.Statement) (loopEnv : loc)
  : nat -> Z -> Object -> Interpreter -> Object -> Interpreter -> Prop :=
| Iterates_done (current : Z) (result : Object) (i : Interpreter) :
    Iterates eS var step body loopEnv 0 current result i result i
| Iterates_round (k : nat) (current : Z) (result x r1 r' : Object)
    (i i1 i2 i' : Interpreter) :
    SetInPlace loopEnv var (IntegerObj current) i = Returns x i1 ->
    evalStatements eS body loopEnv i1 = Returns r1 i2 ->
    isError r1 = false ->
    has_type r1 RETURN_VALUE_OBJ = false ->
    Iterates eS var step body loopEnv k (wrap64 (current + step)) r1 i2 r' i' ->
    Iterates eS var step body loopEnv (S k) current result i r' i'.

(** The type a class or, failing that, its nearest ancestor declares for
    a field. *)
Fixpoint declaredField (class : Class) (name : string) : option ast.DataType :=
  match class with
  | MkClass _ parent _ fields =>
      match fields !! name with
      | Some dt => Some dt
      | None =>
          match parent with
          | Some c => declaredField c name
          | None => None
          end
      end
  end.

(** The global scope after the classes [Animal] and [Dog] of the README
    have been declared. *)
Definition Dog_state : Interpreter :=
  state_after
    (run evalClassStatement "Animal" "" Animal_members 0%nat ;>
     evalClassStatement "Dog" "Animal" Dog_members 0%nat)
    (New no_input).

(** The kinds of values: the numbers, and the values [objectsEqual]
    compares by their contents. *)
Definition is_number (o : Object) : bool :=
  match o with
  | IntegerObj _ | RealObj _ => true
  | _ => false
  end.

Definition compared_by_value (o : Object) : bool :=
  match o with
  | IntegerObj _ | RealObj _ | StringObj _ | CharObj _ | BooleanObj _ => true
  | _ => false
  end.

(** A value whose tag the files at hand give: not nil, and not a
    [Date]. *)
Definition has_known_type (o : Object) : bool :=
  match o with
  | NilObj | DateObj _ _ _ => false
  | _ => true
  end.

(** The operators of arithmetic and comparison. *)
Definition numeric_operators : list string :=
  [ "+"; "-"; "*"; "/"; "<"; ">"; "<="; ">="; "="; "<>" ].

(** The global scope after [TYPE Point] with the fields [X] and [Y], and
    [DECLARE P : Point]. *)
Definition Point_fields : list (string * ast.DataType) :=
  [ ("X", INTEGER); ("Y", INTEGER) ].

Definition Point_state : Interpreter :=
  state_after
    (run evalTypeStatement "Point" (ast.RecordType Point_fields) 0%nat ;>
     evalDeclareStatement "P" (ast.CustomType "Point") 0%nat)
    (New no_input).

(** [Evaluated eE env_ exprs i vals i']: from state [i] the expressions
    [exprs] are evaluated one after the other, none yields an Error, and
    they yield the values [vals] and leave state [i']. *)
Inductive Evaluated (eE : ast.Expression -> loc -> M Object) (env_ : loc)
  : list ast.Expression -> Interpreter -> list Object -> Interpreter -> Prop :=
| Evaluated_nil (i : Interpreter) : Evaluated eE env_ [] i [] i
| Evaluated_cons (e : ast.Expression) (es : list ast.Expression)
    (i i1 i2 : Interpreter) (v : Object) (vs : list Object) :
    eE e env_ i = Returns v i1 ->
    isError v = false ->
    Evaluated eE env_ es i1 vs i2 ->
    Evaluated eE env_ (e :: es) i (v :: vs) i2.

(** The global scope after [PROCEDURE Nothing()] with an empty body has
    been declared. *)
Definition Nothing_state : Interpreter :=
  state_after (evalProcedureStatement "Nothing" [] [] 0%nat) (New no_input).

(** Whatever [c] returns, [c'] returns too, in the same state. *)
Definition leM {A : Type} (c c' : M A) : Prop :=
  forall i a i', c i = Returns a i' -> c' i = Returns a i'.

(** The operators that compare. *)
Definition comparison_operators : list string :=
  ["<"; ">"; "<="; ">="; "="; "<>"].

(** The global scope after [DECLARE Count : INTEGER]. *)
Definition Count_state : Interpreter :=
  state_after (evalDeclareStatement "Count" INTEGER 0%nat) (New no_input).

(** Three classes in a line: [Base] and [Middle] declare [Describe], the
    one of [Middle] calling [SUPER.Describe()]; [Leaf] declares nothing. *)
Definition Base_Describe : list ast.Statement :=
  [ ast.OutputStatement [ ast.StringLiteral "base" ] ].
Definition Middle_Describe : list ast.Statement :=
  [ ast.CallStatement (ast.MemberAccess ast.SuperExpression "Describe") [] ].

Definition Leaf_program : ast.Program :=
  {| ast.Statements :=
       [ ast.ClassStatement "Base" ""
           [ ast.ProcedureStatement "Describe" [] Base_Describe ];
         ast.ClassStatement "Middle" "Base"
           [ ast.ProcedureStatement "Describe" [] Middle_Describe ];
         ast.ClassStatement "Leaf" "Middle" [];
         ast.DeclareStatement "L" (ast.CustomType "Leaf");
         ast.AssignmentStatement (ast.Identifier "L")
           (ast.NewExpression "Leaf" []) ] |}.

(** The classes as [Leaf_program] declares them; scopes 1, 2 and 3 are the
    closures [evalClassStatement] made. *)
Definition Base_class : Class :=
  MkClass "Base" None
    (<["Describe" := ProcedureObj "Describe" [] Base_Describe 1%nat]> ∅) ∅.
Definition Middle_class : Class :=
  MkClass "Middle" (Some Base_class)
    (<["Describe" := ProcedureObj "Describe" [] Middle_Describe 2%nat]> ∅) ∅.
Definition Leaf_class : Class := MkClass "Leaf" (Some Middle_class) ∅ ∅.

Definition Leaf_state : Interpreter :=
  state_after (Eval sample_fmt_g sample_Date_Inspect 8 Leaf_program)
    (New no_input).

(** The scope of a call whose parameter [LIMIT] hides the constant [LIMIT]
    of the global scope, with a line of input waiting. *)
Definition Shadow_input_state : Interpreter :=
  set_input {| chunks := [ Input_line ]; failure := None |} Shadow_state.

(** [Grid_state] with an Integer variable [K] that holds 2, and index
    expressions that read it. *)
Definition Grid_K_state : Interpreter :=
  state_after (Declare_ 0%nat "K" (IntegerObj 2)) Grid_state.

Definition Grid_K_index : list ast.Expression :=
  [ ast.Identifier "K";
    ast.InfixExpression (ast.Identifier "K") "+" (ast.IntegerLiteral 1) ].

(** A class whose method [NEW] is a function, and an instantiation whose
    argument yields an Error. *)
Definition Function_NEW_program : ast.Program :=
  {| ast.Statements :=
       [ ast.ClassStatement "Box" ""
           [ ast.DeclareStatement "Size" INTEGER;
             ast.FunctionStatement "NEW" [ byval "Given" INTEGER ] INTEGER
               [ ast.AssignmentStatement (ast.Identifier "Size")
                   (ast.Identifier "Given");
                 ast.ReturnStatement (Some (ast.Identifier "Given")) ] ];
         ast.AssignmentStatement (ast.Identifier "B")
           (ast.NewExpression "Box" [ ast.IntegerLiteral 3 ]);
         ast.OutputStatement [ ast.MemberAccess (ast.Identifier "B") "Size" ] ] |}.

Definition Error_argument_program : ast.Program :=
  {| ast.Statements :=
       [ ast.ClassStatement "Animal" "" Animal_members;
         ast.AssignmentStatement (ast.Identifier "Pet")
           (ast.NewExpression "Animal"
              [ ast.InfixExpression (ast.IntegerLiteral 1) "DIV"
                  (ast.IntegerLiteral 0) ]);
         ast.OutputStatement [ ast.StringLiteral "made" ] ] |}.

(** The class [Animal] as [Dog_state] holds it: the closure of its methods
    is scope 1, the scope [evalClassStatement] made. *)
Definition Animal_NEW : Object :=
  ProcedureObj "NEW" [ byval "GivenName" STRING ]
    [ ast.AssignmentStatement (ast.Identifier "Name")
        (ast.Identifier "GivenName") ] 1%nat.

Definition Animal_class : Class :=
  MkClass "Animal" None
    (<["NEW" := Animal_NEW]>
       (<["GetName" := FunctionObj "GetName" [] STRING
                         [ ast.ReturnStatement (Some (ast.Identifier "Name")) ]
                         1%nat]> ∅))
    (<["Name" := STRING]> ∅).
(** * Properties *)

(** ** Basic facts about scopes *)

Lemma Declare_eq (i : Interpreter) (e : loc) (E : Environment) (name : string)
  (v : Object) :
  envs i !! e = Some E ->
  Declare_ e name v i =
  Returns v (set_envs (<[e := with_store (<[name := v]> (store E)) E]> (envs i)) i).
Proof.
  intros HE. unfold Declare_, bind, update_env, ret. now rewrite HE.
Qed.

Lemma instance_field_Some (i : Interpreter) (E : Environment) (name : string) :
  is_Some (instance_field i E name) ->
  exists p o, instance E = Some p /\ instances i !! p = Some o
              /\ is_Some (inst_Fields o !! name).
Proof.
  unfold instance_field. intros [v Hv].
  destruct (instance E) as [p|]; simpl in Hv; [|discriminate].
  destruct (instances i !! p) as [o|] eqn:Ho; simpl in Hv; [|discriminate].
  exists p, o. repeat split; eauto.
Qed.

Lemma SetInPlace_from_Resolves (i : Interpreter) (name : string) (v : Object)
  (e : loc) (t : Target) :
  Resolves i name e t ->
  forall n : nat, (e < n)%nat ->
  SetInPlace_from n e name v i = SetInPlace_result i name v t.
Proof.
  induction 1 as [e E HE [w Hw]|e E p HE Hs Hp Hf|e E o t HE Hs Hf Ho Hlt _ IH
                 |e E HE Hs Hf Ho]; intros n Hn.
  - destruct n as [|n]; [lia|]. cbn [SetInPlace_from]. rewrite HE, Hw.
    cbn [SetInPlace_result]. rewrite HE.
    destruct (default false (constants E !! name)); [reflexivity|].
    now apply Declare_eq.
  - destruct n as [|n]; [lia|]. cbn [SetInPlace_from]. rewrite HE, Hs.
    destruct (instance_field_Some _ _ _ Hf) as (p' & o & Hp' & Hi & _).
    assert (p' = p) by congruence. subst p'.
    destruct Hf as [w Hw]. rewrite Hw, Hp.
    unfold bind, update_instance, ret. cbn [SetInPlace_result]. now rewrite Hi.
  - destruct n as [|n]; [lia|]. cbn [SetInPlace_from]. rewrite HE, Hs, Hf, Ho.
    apply IH. lia.
  - destruct n as [|n]; [lia|]. cbn [SetInPlace_from]. rewrite HE, Hs, Hf, Ho.
    cbn [SetInPlace_result]. rewrite HE. now apply Declare_eq.
Qed.

Lemma SetInPlace_Resolves (i : Interpreter) (name : string) (v : Object)
  (e : loc) (t : Target) :
  Resolves i name e t ->
  SetInPlace e name v i = SetInPlace_result i name v t.
Proof. intros H. apply SetInPlace_from_Resolves with (1 := H). lia. Qed.

Lemma Get_from_Resolves (i : Interpreter) (name : string) (e : loc) (t : Target) :
  Resolves i name e t ->
  forall n : nat, (e < n)%nat -> Get_from n i e name = Get_result i name t.
Proof.
  induction 1 as [e E HE [w Hw]|e E p HE Hs Hp Hf|e E o t HE Hs Hf Ho Hlt _ IH
                 |e E HE Hs Hf Ho]; intros n Hn;
    (destruct n as [|n]; [lia|]); cbn [Get_from Get_result]; rewrite HE.
  - now rewrite Hw.
  - rewrite Hs. destruct Hf as [w Hw]. rewrite Hw. rewrite <- Hw.
    unfold instance_field. now rewrite Hp.
  - rewrite Hs, Hf, Ho. apply IH. lia.
  - now rewrite Hs, Hf, Ho.
Qed.

Lemma Get_Resolves (i : Interpreter) (name : string) (e : loc) (t : Target) :
  Resolves i name e t -> Get i e name = Get_result i name t.
Proof. intros H. apply Get_from_Resolves with (1 := H). lia. Qed.

(** In a well-formed store of scopes every name resolves from every scope. *)
Lemma Resolves_total (i : Interpreter) (name : string) :
  wf_envs i ->
  forall e : loc, (e < length (envs i))%nat -> exists t, Resolves i name e t.
Proof.
  intros Hwf e. induction e as [e IH] using lt_wf_ind. intros He.
  destruct (lookup_lt_is_Some_2 (envs i) e He) as [E HE].
  destruct (store E !! name) as [w|] eqn:Hs.
  { exists (TStore e). eapply Resolves_store; eauto. }
  destruct (instance_field i E name) as [w|] eqn:Hf.
  { destruct (instance_field_Some i E name) as (p & o & Hp & _); [eauto|].
    exists (TField p). eapply Resolves_field; eauto. }
  destruct (outer E) as [o|] eqn:Ho.
  - pose proof (Hwf e E o HE Ho) as Hlt.
    destruct (IH o Hlt) as [t Ht]; [lia|].
    exists t. eapply Resolves_outer; eauto.
  - exists (TRoot e). eapply Resolves_root; eauto.
Qed.

(** The target lies on the chain: it is no younger than the scope the walk
    starts from. *)
Lemma Resolves_TStore_le (i : Interpreter) (name : string) (e s : loc) :
  Resolves i name e (TStore s) -> (s <= e)%nat.
Proof.
  remember (TStore s) as t eqn:Ht. induction 1; inversion Ht; subst; try lia.
  specialize (IHResolves eq_refl). lia.
Qed.

Lemma Resolves_TRoot_le (i : Interpreter) (name : string) (e r : loc) :
  Resolves i name e (TRoot r) -> (r <= e)%nat.
Proof.
  remember (TRoot r) as t eqn:Ht. induction 1; inversion Ht; subst; try lia.
  specialize (IHResolves eq_refl). lia.
Qed.

Lemma Resolves_TStore_bound (i : Interpreter) (name : string) (e s : loc) :
  Resolves i name e (TStore s) ->
  exists E, envs i !! s = Some E /\ is_Some (store E !! name).
Proof.
  remember (TStore s) as t eqn:Ht. induction 1; inversion Ht; subst; eauto.
Qed.

Lemma Resolves_TRoot_unbound (i : Interpreter) (name : string) (e r : loc) :
  Resolves i name e (TRoot r) ->
  exists E, envs i !! r = Some E /\ store E !! name = None /\ outer E = None.
Proof.
  remember (TRoot r) as t eqn:Ht. induction 1; inversion Ht; subst; eauto.
Qed.

Lemma Resolves_TField_bound (i : Interpreter) (name : string) (e p : loc) :
  Resolves i name e (TField p) ->
  exists o, instances i !! p = Some o /\ is_Some (inst_Fields o !! name).
Proof.
  remember (TField p) as t eqn:Ht. induction 1; inversion Ht; subst; eauto.
  destruct (instance_field_Some _ _ _ H2) as (p' & o & Hp' & Hi & Hfl).
  assert (p' = p) by congruence. subst. eauto.
Qed.

(** A name that is a constant nowhere on the chain is not a constant in the
    scope that holds it. *)
Lemma isConstant_from_false (i : Interpreter) (name : string) (e s : loc) :
  Resolves i name e (TStore s) ->
  forall n : nat, (e < n)%nat -> isConstant_from n i e name = false ->
  exists E, envs i !! s = Some E /\ default false (constants E !! name) = false.
Proof.
  remember (TStore s) as t eqn:Ht.
  induction 1 as [e E HE Hw|e E p HE Hs Hp Hf|e E o t HE Hs Hf Ho Hlt _ IH
                 |e E HE Hs Hf Ho]; inversion Ht; subst; intros n Hn Hc;
    (destruct n as [|n]; [lia|]); cbn [isConstant_from] in Hc; rewrite HE in Hc.
  - exists E. split; [assumption|].
    destruct (default false (constants E !! name)); [discriminate|reflexivity].
  - destruct (default false (constants E !! name)); [discriminate|].
    rewrite Ho in Hc. apply (IH eq_refl n); [lia|assumption].
Qed.

Lemma SetInPlace_writes (i : Interpreter) (name : string) (v : Object)
  (e : loc) (t : Target) :
  Resolves i name e t -> writable i name t ->
  SetInPlace e name v i = Returns v (SetInPlace_state i name v t).
Proof.
  intros Hr Hw. rewrite (SetInPlace_Resolves _ _ _ _ _ Hr).
  destruct t as [s|p|r]; cbn [SetInPlace_result SetInPlace_state].
  - destruct Hw as (E & HE & Hc). unfold write_store. now rewrite HE, Hc.
  - destruct (Resolves_TField_bound _ _ _ _ Hr) as (o & Ho & _).
    unfold write_field. now rewrite Ho.
  - destruct (Resolves_TRoot_unbound _ _ _ _ Hr) as (E & HE & _).
    unfold write_store. now rewrite HE.
Qed.

Lemma write_store_lookup_eq (i : Interpreter) (s : loc) (name : string)
  (v : Object) (E : Environment) :
  envs i !! s = Some E ->
  envs (write_store i s name v) !! s
  = Some (with_store (<[name := v]> (store E)) E).
Proof.
  intros HE. unfold write_store. rewrite HE. cbn.
  apply list_lookup_insert_eq. now apply lookup_lt_Some in HE.
Qed.

Lemma write_store_lookup_ne (i : Interpreter) (s e : loc) (name : string)
  (v : Object) :
  s <> e -> envs (write_store i s name v) !! e = envs i !! e.
Proof.
  intros Hne. unfold write_store. destruct (envs i !! s); [|reflexivity].
  cbn. now apply list_lookup_insert_ne.
Qed.

Lemma write_store_instances (i : Interpreter) (s : loc) (name : string)
  (v : Object) :
  instances (write_store i s name v) = instances i.
Proof. unfold write_store. now destruct (envs i !! s). Qed.

Lemma write_field_envs (i : Interpreter) (p : loc) (name : string) (v : Object) :
  envs (write_field i p name v) = envs i.
Proof. unfold write_field. now destruct (instances i !! p). Qed.

Lemma instance_field_write_store (i : Interpreter) (s : loc) (name x : string)
  (v : Object) (E : Environment) :
  instance_field (write_store i s name v) E x = instance_field i E x.
Proof. unfold instance_field. now rewrite write_store_instances. Qed.

Lemma instance_field_write_field_eq (i : Interpreter) (p : loc) (name : string)
  (v : Object) (E : Environment) (o : Instance) :
  instance E = Some p -> instances i !! p = Some o ->
  instance_field (write_field i p name v) E name = Some v.
Proof.
  intros Hp Ho. unfold instance_field, write_field. rewrite Hp, Ho. cbn.
  rewrite list_lookup_insert_eq by now apply lookup_lt_Some in Ho.
  cbn. apply lookup_insert_eq.
Qed.

Lemma instance_field_write_field_ne (i : Interpreter) (p : loc) (name : string)
  (v : Object) (E : Environment) :
  instance E <> Some p ->
  instance_field (write_field i p name v) E name = instance_field i E name.
Proof.
  intros Hp. unfold instance_field, write_field.
  destruct (instance E) as [q|]; [|reflexivity]. cbn.
  destruct (instances i !! p) as [o|]; [|reflexivity]. cbn.
  rewrite list_lookup_insert_ne by congruence. reflexivity.
Qed.

(** After a write through [SetInPlace], [Get] from the same scope reads the
    value written. *)
Lemma Get_from_after_write (i : Interpreter) (name : string) (v : Object)
  (e : loc) (t : Target) :
  Resolves i name e t ->
  forall n : nat, (e < n)%nat ->
  Get_from n (SetInPlace_state i name v t) e name = Some v.
Proof.
  induction 1 as [e E HE Hw|e E p HE Hs Hp Hf|e E o t HE Hs Hf Ho Hlt Hr IH
                 |e E HE Hs Hf Ho]; intros n Hn;
    (destruct n as [|n]; [lia|]); cbn [Get_from SetInPlace_state].
  - rewrite (write_store_lookup_eq _ _ _ _ _ HE). cbn.
    now rewrite lookup_insert_eq.
  - rewrite write_field_envs, HE, Hs.
    destruct (instance_field_Some _ _ _ Hf) as (p' & o & Hp' & Hi & _).
    assert (p' = p) by congruence. subst p'.
    now rewrite (instance_field_write_field_eq _ _ _ _ _ o Hp Hi).
  - specialize (IH n ltac:(lia)).
    destruct t as [s|p|r]; cbn [SetInPlace_state] in *.
    + pose proof (Resolves_TStore_le _ _ _ _ Hr).
      rewrite write_store_lookup_ne by lia.
      now rewrite HE, Hs, instance_field_write_store, Hf, Ho.
    + rewrite write_field_envs, HE, Hs.
      rewrite instance_field_write_field_ne, Hf, Ho; [assumption|].
      intros Hp. destruct (Resolves_TField_bound _ _ _ _ Hr) as (o' & Hi & Hfl).
      unfold instance_field in Hf. rewrite Hp in Hf. cbn in Hf.
      rewrite Hi in Hf. cbn in Hf. rewrite Hf in Hfl. now destruct Hfl.
    + pose proof (Resolves_TRoot_le _ _ _ _ Hr).
      rewrite write_store_lookup_ne by lia.
      now rewrite HE, Hs, instance_field_write_store, Hf, Ho.
  - rewrite (write_store_lookup_eq _ _ _ _ _ HE). cbn.
    now rewrite lookup_insert_eq.
Qed.

(** ** Arithmetic *)

Lemma f64_sample_values :
  f64_to_Q f64_0_0 = Some (0, 1)%Z /\ f64_to_Q f64_2_0 = Some (2, 1)%Z
  /\ f64_to_Q f64_2_5 = Some (5, 2)%Z /\ f64_to_Q f64_3_5 = Some (7, 2)%Z
  /\ f64_to_Q f64_5_0 = Some (5, 1)%Z /\ f64_to_Q f64_8_5 = Some (17, 2)%Z
  /\ float64_of_int64 5 = f64_5_0 /\ float64_of_int64 0 = f64_0_0.
Proof. vm_compute. repeat split. Qed.

Section Arithmetic.

Variable fmt_g : float64 -> string.
Variable Date_Inspect : Z -> Z -> Z -> string.

#[local] Abbreviation ev n := (evalExpression fmt_g Date_Inspect (S (S n))).
#[local] Abbreviation int := ast.IntegerLiteral.
#[local] Abbreviation real := ast.RealLiteral.
#[local] Abbreviation bin := ast.InfixExpression.


End Arithmetic.

(** ** Calls of functions and procedures *)

(** C5, as stated, fails: a call of the procedure [Seven], whose body is
    [RETURN 7], yields Integer 7 to its caller, and the program that assigns
    the call to [result] prints 7. *)
Lemma C5_procedure_value_counterexample :
  applyFunction (evalStatement sample_fmt_g sample_Date_Inspect 3)
    Seven_procedure [] 0%nat (New no_input)
  = Returns (IntegerObj 7)
      (state_after (extendFunctionEnv 0%nat [] [] 0%nat) (New no_input))
  /\ observe 6 Seven_program no_input = Some (NullObj, ["7" +:+ newline]).
Proof. split; vm_compute; reflexivity. Qed.

(** C5, amended: a call of a user-declared Procedure and a call of a
    Function both yield the value of the body unwrapped: the value a
    ReturnSignal carries, and an Error as it is. *)
Theorem C5_call_unwraps_return
  (eS : ast.Statement -> loc -> M Object) (name : string)
  (params : list ast.Param) (returnType : ast.DataType)
  (body : list ast.Statement) (fnEnv callerEnv : loc) (args : list Object)
  (i i1 i2 : Interpreter) (extendedEnv : loc) (r : Object) :
  extendFunctionEnv fnEnv args params callerEnv i = Returns extendedEnv i1 ->
  evalStatements eS body extendedEnv i1 = Returns r i2 ->
  applyFunction eS (ProcedureObj name params body fnEnv) args callerEnv i
  = Returns (unwrapReturnValue r) i2
  /\ applyFunction eS (FunctionObj name params returnType body fnEnv) args callerEnv i
     = Returns (unwrapReturnValue r) i2
  /\ (forall v, r = ReturnValueObj v -> unwrapReturnValue r = v)
  /\ (isError r = true -> unwrapReturnValue r = r).
Proof.
  intros Hext Hbody. unfold applyFunction, bind, ret. rewrite Hext, Hbody.
  repeat split.
  - now intros v ->.
  - destruct r; try discriminate; reflexivity.
Qed.

Lemma C5_call_unwraps_return_witness :
  extendFunctionEnv 0%nat [] [] 0%nat (New no_input)
  = Returns 1%nat (state_after (extendFunctionEnv 0%nat [] [] 0%nat) (New no_input))
  /\ applyFunction (evalStatement sample_fmt_g sample_Date_Inspect 3)
       Seven_procedure [] 0%nat (New no_input)
     = Returns (IntegerObj 7)
         (state_after (extendFunctionEnv 0%nat [] [] 0%nat) (New no_input)).
Proof.
  split; [vm_compute; reflexivity|].
  apply (C5_call_unwraps_return
           (evalStatement sample_fmt_g sample_Date_Inspect 3) "Seven" [] INTEGER
           Seven_body 0%nat 0%nat [] (New no_input)
           (state_after (extendFunctionEnv 0%nat [] [] 0%nat) (New no_input))
           (state_after (extendFunctionEnv 0%nat [] [] 0%nat) (New no_input))
           1%nat (ReturnValueObj (IntegerObj 7)));
    vm_compute; reflexivity.
Defined.

(** ** FOR loops *)

Lemma isError_ErrorObj (r : Object) :
  isError r = true -> exists msg, r = ErrorObj msg.
Proof. destruct r; try discriminate. eauto. Qed.

Section ForLoops.

Variable fmt_g : float64 -> string.
Variable Date_Inspect : Z -> Z -> Z -> string.

#[local] Abbreviation eS n := (evalStatement fmt_g Date_Inspect n).
#[local] Abbreviation eE n := (evalExpression fmt_g Date_Inspect n).

Lemma evalStatement_S (n : nat) (stmt : ast.Statement) (env_ : loc) :
  eS (S n) stmt env_ = evalStatement_body fmt_g Date_Inspect (eS n) (eE n) n stmt env_.
Proof. reflexivity. Qed.

Lemma evalExpression_S (n : nat) (expr : ast.Expression) (env_ : loc) :
  eE (S n) expr env_ = evalExpression_body fmt_g Date_Inspect (eS n) (eE n) expr env_.
Proof. reflexivity. Qed.

End ForLoops.

Example For_string_step_runs :
  evalStatement sample_fmt_g sample_Date_Inspect 6 For_string_step 0%nat
    (New no_input)
  = Returns NullObj
      (state_after
         (evalStatement sample_fmt_g sample_Date_Inspect 6 For_string_step 0%nat)
         (New no_input))
  /\ output (state_after
              (evalStatement sample_fmt_g sample_Date_Inspect 6 For_string_step 0%nat)
              (New no_input))
     = ["1" +:+ newline; "2" +:+ newline; "3" +:+ newline].
Proof. split; vm_compute; reflexivity. Qed.

(** ** The stores only grow *)

(** Closed forms of the allocation of a scope. *)
Lemma NewEnclosedEnvironment_eq (outer_ : loc) (i : Interpreter) :
  NewEnclosedEnvironment outer_ i
  = Returns (length (envs i)) (set_envs (envs i ++ [fresh_scope outer_]) i).
Proof.
  unfold NewEnclosedEnvironment, NewEnvironment, bind, update_env, ret. cbn.
  rewrite lookup_app_r by lia. rewrite Nat.sub_diag. cbn.
  rewrite insert_app_r_alt by lia. rewrite Nat.sub_diag. reflexivity.
Qed.

Lemma update_env_fresh (i : Interpreter) (l : list Environment)
  (x : Environment) (f : Environment -> Environment) :
  update_env (length l) f (set_envs (l ++ [x]) i)
  = Returns tt (set_envs (l ++ [f x]) i).
Proof.
  unfold update_env. cbn. rewrite lookup_app_r by lia.
  rewrite Nat.sub_diag. cbn. rewrite insert_app_r_alt by lia.
  now rewrite Nat.sub_diag.
Qed.

Lemma Declare_fresh (i : Interpreter) (l : list Environment) (x : Environment)
  (name : string) (v : Object) :
  Declare_ (length l) name v (set_envs (l ++ [x]) i)
  = Returns v (set_envs (l ++ [with_store (<[name := v]> (store x)) x]) i).
Proof. unfold Declare_, bind. now rewrite update_env_fresh. Qed.

Lemma bindInherited_lookup (inst : loc) (name : string) :
  forall (parent : Class) (s : gmap string Object),
    bindInherited inst parent s !! name
    = match s !! name with
      | Some v => Some v
      | None => BoundMethodObj inst <$> lookupMethod parent name
      end.
Proof.
  fix IH 1. intros [n [gp|] ms fs] s; cbn [bindInherited lookupMethod].
  - rewrite IH, lookup_union, lookup_fmap.
    destruct (s !! name), (ms !! name); reflexivity.
  - rewrite lookup_union, lookup_fmap.
    destruct (s !! name), (ms !! name); reflexivity.
Qed.

Lemma createMethodEnv_eq (inst callerEnv : loc) (i : Interpreter) (o : Instance) :
  instances i !! inst = Some o ->
  createMethodEnv inst callerEnv i
  = Returns (length (envs i))
      (set_envs (envs i ++ [method_scope inst (inst_Class o) callerEnv]) i).
Proof.
  intros Ho. unfold createMethodEnv, bind.
  rewrite NewEnclosedEnvironment_eq, update_env_fresh, Declare_fresh.
  unfold read_instance. cbn [instances set_envs]. rewrite Ho.
  unfold method_scope, method_store.
  destruct (Class_Parent (inst_Class o)) as [parent|].
  - rewrite Declare_fresh, !update_env_fresh. reflexivity.
  - unfold ret at 1. rewrite !update_env_fresh. reflexivity.
Qed.

Lemma scope_grows_refl (D : Environment) : scope_grows D D.
Proof. repeat split; auto. Qed.

Lemma scope_grows_trans (D1 D2 D3 : Environment) :
  scope_grows D1 D2 -> scope_grows D2 D3 -> scope_grows D1 D3.
Proof.
  intros (A1 & A2 & A3 & A4) (B1 & B2 & B3 & B4).
  repeat split; [congruence|congruence|auto|auto].
Qed.

Lemma instance_grows_refl (o : Instance) : instance_grows o o.
Proof. split; auto. Qed.

Lemma extends_refl (i : Interpreter) : extends i i.
Proof.
  split; [reflexivity|]. split.
  - intros d D HD. exists D. split; [assumption|apply scope_grows_refl].
  - intros p o Ho. exists o. split; [assumption|apply instance_grows_refl].
Qed.

Lemma extends_trans (i1 i2 i3 : Interpreter) :
  extends i1 i2 -> extends i2 i3 -> extends i1 i3.
Proof.
  intros (A1 & A2 & A3) (B1 & B2 & B3). split; [congruence|]. split.
  - intros d D HD. destruct (A2 d D HD) as (D2 & HD2 & G2).
    destruct (B2 d D2 HD2) as (D3 & HD3 & G3).
    exists D3. split; [assumption|]. now apply scope_grows_trans with D2.
  - intros p o Ho. destruct (A3 p o Ho) as (o2 & Ho2 & G2 & G2').
    destruct (B3 p o2 Ho2) as (o3 & Ho3 & G3 & G3').
    exists o3. split; [assumption|]. split; [congruence|auto].
Qed.

(** A state that differs in neither the scopes, the instances nor the
    global scope. *)
Lemma extends_same (i i' : Interpreter) :
  env i' = env i -> envs i' = envs i -> instances i' = instances i ->
  extends i i'.
Proof.
  intros H1 H2 H3. split; [assumption|]. rewrite H2, H3. split.
  - intros d D HD. exists D. split; [assumption|apply scope_grows_refl].
  - intros p o Ho. exists o. split; [assumption|apply instance_grows_refl].
Qed.

Lemma extends_update_scope (i : Interpreter) (d : loc) (D D' : Environment) :
  envs i !! d = Some D -> scope_grows D D' ->
  extends i (set_envs (<[d := D']> (envs i)) i).
Proof.
  intros HD G. split; [reflexivity|]. split.
  - intros e E HE. cbn. destruct (decide (d = e)) as [->|Hne].
    + exists D'. split.
      * apply list_lookup_insert_eq. now apply lookup_lt_Some in HD.
      * assert (E = D) by congruence. now subst.
    + exists E. rewrite list_lookup_insert_ne by assumption.
      split; [assumption|apply scope_grows_refl].
  - intros p o Ho. exists o. split; [assumption|apply instance_grows_refl].
Qed.

Lemma extends_update_instance (i : Interpreter) (p : loc) (o o' : Instance) :
  instances i !! p = Some o -> instance_grows o o' ->
  extends i (set_instances (<[p := o']> (instances i)) i).
Proof.
  intros Ho G. split; [reflexivity|]. split.
  - intros d D HD. exists D. split; [assumption|apply scope_grows_refl].
  - intros q x Hx. cbn. destruct (decide (p = q)) as [->|Hne].
    + exists o'. split.
      * apply list_lookup_insert_eq. now apply lookup_lt_Some in Ho.
      * assert (x = o) by congruence. now subst.
    + exists x. rewrite list_lookup_insert_ne by assumption.
      split; [assumption|apply instance_grows_refl].
Qed.

Lemma extends_push_scope (i : Interpreter) (E : Environment) :
  extends i (set_envs (envs i ++ [E]) i).
Proof.
  split; [reflexivity|]. split.
  - intros d D HD. exists D. cbn.
    rewrite lookup_app_l by now apply lookup_lt_Some in HD.
    split; [assumption|apply scope_grows_refl].
  - intros p o Ho. exists o. split; [assumption|apply instance_grows_refl].
Qed.

Lemma extends_push_instance (i : Interpreter) (o : Instance) :
  extends i (set_instances (instances i ++ [o]) i).
Proof.
  split; [reflexivity|]. split.
  - intros d D HD. exists D. split; [assumption|apply scope_grows_refl].
  - intros p x Hx. exists x. cbn.
    rewrite lookup_app_l by now apply lookup_lt_Some in Hx.
    split; [assumption|apply instance_grows_refl].
Qed.

Lemma scope_grows_store (D : Environment) (name : string) (v : Object) :
  scope_grows D (with_store (<[name := v]> (store D)) D).
Proof.
  repeat split; auto. intros x Hx. cbn.
  destruct (decide (name = x)) as [->|Hne].
  - rewrite lookup_insert_eq. eauto.
  - now rewrite lookup_insert_ne.
Qed.

Lemma extends_write_store (i : Interpreter) (s : loc) (name : string)
  (v : Object) :
  extends i (write_store i s name v).
Proof.
  unfold write_store. destruct (envs i !! s) as [E|] eqn:HE.
  - apply extends_update_scope with E; [assumption|apply scope_grows_store].
  - apply extends_refl.
Qed.

Lemma extends_write_field (i : Interpreter) (p : loc) (name : string)
  (v : Object) :
  extends i (write_field i p name v).
Proof.
  unfold write_field. destruct (instances i !! p) as [o|] eqn:Ho.
  - apply extends_update_instance with o; [assumption|].
    split; [reflexivity|]. intros f Hf. cbn.
    destruct (decide (name = f)) as [->|Hne].
    + rewrite lookup_insert_eq. eauto.
    + now rewrite lookup_insert_ne.
  - apply extends_refl.
Qed.

Lemma monotone_ret {A} (a : A) : monotone (ret a).
Proof. intros i x i' H. injection H as _ H; subst i'. apply extends_refl. Qed.

Lemma monotone_panic {A} (msg : string) : monotone (@panic A msg).
Proof. intros i x i' H. discriminate H. Qed.

Lemma monotone_OutOfFuel {A} : monotone (fun _ : Interpreter => @OutOfFuel A).
Proof. intros i x i' H. discriminate H. Qed.

Lemma monotone_get_state : monotone get_state.
Proof. intros i x i' H. injection H as _ H; subst i'. apply extends_refl. Qed.

Lemma monotone_bind {A B} (c : M A) (k : A -> M B) :
  monotone c -> (forall a, monotone (k a)) -> monotone (bind c k).
Proof.
  intros Hc Hk i b i' H. unfold bind in H.
  destruct (c i) as [a i1| |] eqn:Hci; try discriminate H.
  apply extends_trans with i1; [now apply Hc with a|now apply Hk with a b].
Qed.

Lemma monotone_modify (f : Interpreter -> Interpreter) :
  (forall i, extends i (f i)) -> monotone (modify f).
Proof. intros Hf i x i' H. injection H as H; subst i'. apply Hf. Qed.

Lemma monotone_update_env (e : loc) (f : Environment -> Environment) :
  (forall E, scope_grows E (f E)) -> monotone (update_env e f).
Proof.
  intros Hf i x i' H. unfold update_env in H.
  destruct (envs i !! e) as [E|] eqn:HE; [|discriminate H].
  injection H as H; subst i'. now apply extends_update_scope with E.
Qed.

Lemma monotone_update_instance (p : loc) (f : Instance -> Instance) :
  (forall o, instance_grows o (f o)) -> monotone (update_instance p f).
Proof.
  intros Hf i x i' H. unfold update_instance in H.
  destruct (instances i !! p) as [o|] eqn:Ho; [|discriminate H].
  injection H as H; subst i'. now apply extends_update_instance with o.
Qed.

Lemma monotone_read_instance (p : loc) : monotone (read_instance p).
Proof.
  intros i x i' H. unfold read_instance in H.
  destruct (instances i !! p); [|discriminate H].
  injection H as _ H; subst i'. apply extends_refl.
Qed.

Lemma monotone_read_array (p : loc) : monotone (read_array p).
Proof.
  intros i x i' H. unfold read_array in H.
  destruct (arrays i !! p); [|discriminate H].
  injection H as _ H; subst i'. apply extends_refl.
Qed.

Lemma monotone_read_record (p : loc) : monotone (read_record p).
Proof.
  intros i x i' H. unfold read_record in H.
  destruct (records i !! p); [|discriminate H].
  injection H as _ H; subst i'. apply extends_refl.
Qed.

Lemma monotone_update_array (p : loc) (f : ArrayVal -> ArrayVal) :
  monotone (update_array p f).
Proof.
  intros i x i' H. unfold update_array in H.
  destruct (arrays i !! p); [|discriminate H].
  injection H as H; subst i'. now apply extends_same.
Qed.

Lemma monotone_update_record (p : loc) (f : RecordVal -> RecordVal) :
  monotone (update_record p f).
Proof.
  intros i x i' H. unfold update_record in H.
  destruct (records i !! p); [|discriminate H].
  injection H as H; subst i'. now apply extends_same.
Qed.

Lemma monotone_alloc_array (a : ArrayVal) : monotone (alloc_array a).
Proof. intros i x i' H. injection H as _ H; subst i'. now apply extends_same. Qed.

Lemma monotone_alloc_record (r : RecordVal) : monotone (alloc_record r).
Proof. intros i x i' H. injection H as _ H; subst i'. now apply extends_same. Qed.

Lemma monotone_alloc_instance (o : Instance) : monotone (alloc_instance o).
Proof. intros i x i' H. injection H as _ H; subst i'. apply extends_push_instance. Qed.

Lemma monotone_TypeOf (obj : Object) : monotone (TypeOf obj).
Proof.
  unfold TypeOf. destruct (Type_ obj);
    [apply monotone_ret|apply monotone_panic].
Qed.

Lemma monotone_InspectOf (fmt_g : float64 -> string)
  (Date_Inspect : Z -> Z -> Z -> string) (obj : Object) :
  monotone (InspectOf fmt_g Date_Inspect obj).
Proof.
  intros i x i' H. unfold InspectOf in H.
  destruct (Inspect fmt_g Date_Inspect i obj); [|discriminate H].
  injection H as _ H; subst i'. apply extends_refl.
Qed.

Lemma monotone_NewEnclosedEnvironment (outer_ : loc) :
  monotone (NewEnclosedEnvironment outer_).
Proof.
  intros i x i' H. rewrite NewEnclosedEnvironment_eq in H.
  injection H as _ H; subst i'. apply extends_push_scope.
Qed.

Lemma monotone_Declare_ (e : loc) (name : string) (val : Object) :
  monotone (Declare_ e name val).
Proof.
  unfold Declare_. apply monotone_bind; [|intros _; apply monotone_ret].
  apply monotone_update_env. intros E. apply scope_grows_store.
Qed.

Lemma scope_grows_constants (D : Environment) (name : string) :
  scope_grows D (with_constants (<[name := true]> (constants D)) D).
Proof.
  repeat split; auto. intros x Hx. cbn.
  destruct (decide (name = x)) as [->|Hne].
  - apply lookup_insert_eq.
  - now rewrite lookup_insert_ne.
Qed.

Lemma monotone_DeclareConstant (e : loc) (name : string) (val : Object) :
  monotone (DeclareConstant e name val).
Proof.
  unfold DeclareConstant.
  apply monotone_bind;
    [apply monotone_update_env; intros E; apply scope_grows_store|intros _].
  apply monotone_bind; [|intros _; apply monotone_ret].
  apply monotone_update_env. intros E. apply scope_grows_constants.
Qed.

Lemma monotone_DefineType (e : loc) (name : string) (typ : Object) :
  monotone (DefineType e name typ).
Proof.
  unfold DefineType. apply monotone_update_env. intros E. repeat split; auto.
Qed.

Lemma instance_grows_field (o : Instance) (name : string) (v : Object) :
  instance_grows o (with_Fields (<[name := v]> (inst_Fields o)) o).
Proof.
  split; [reflexivity|]. intros f Hf. cbn.
  destruct (decide (name = f)) as [->|Hne].
  - rewrite lookup_insert_eq. eauto.
  - now rewrite lookup_insert_ne.
Qed.

Lemma monotone_SetInPlace_from (name : string) (val : Object) :
  forall (n : nat) (e : loc), monotone (SetInPlace_from n e name val).
Proof.
  induction n as [|n IH]; intros e i a i' H; [discriminate H|].
  cbn [SetInPlace_from] in H.
  destruct (envs i !! e) as [E|] eqn:HE; [|discriminate H].
  destruct (store E !! name).
  - destruct (default false (constants E !! name)).
    + injection H as _ H; subst i'. apply extends_refl.
    + now apply (monotone_Declare_ e name val i a).
  - assert (Hout : match outer E with
                   | Some o => SetInPlace_from n o name val i
                   | None => Declare_ e name val i
                   end = Returns a i' -> extends i i').
    { destruct (outer E) as [parent|]; intros H'.
      - now apply (IH parent i a).
      - now apply (monotone_Declare_ e name val i a). }
    destruct (instance_field i E name); [|now apply Hout].
    destruct (instance E) as [p|]; [|now apply Hout].
    revert H. apply monotone_bind; [|intros _; apply monotone_ret].
    apply monotone_update_instance. intros x. apply instance_grows_field.
Qed.

Lemma monotone_SetInPlace (e : loc) (name : string) (val : Object) :
  monotone (SetInPlace e name val).
Proof. apply monotone_SetInPlace_from. Qed.

Lemma monotone_createMethodEnv (inst callerEnv : loc) :
  monotone (createMethodEnv inst callerEnv).
Proof.
  intros i a i' H. destruct (instances i !! inst) as [o|] eqn:Ho.
  - rewrite (createMethodEnv_eq _ _ _ _ Ho) in H.
    injection H as _ H; subst i'. apply extends_push_scope.
  - unfold createMethodEnv, bind in H.
    rewrite NewEnclosedEnvironment_eq, update_env_fresh, Declare_fresh in H.
    unfold read_instance in H. cbn [instances set_envs] in H.
    rewrite Ho in H. discriminate H.
Qed.

Lemma initializeInstanceFields_grows (f : string) :
  forall (class : Class) (fields : gmap string Object),
    is_Some (fields !! f) ->
    is_Some (initializeInstanceFields class fields !! f).
Proof.
  fix IH 1. intros [n parent ms declared] fields Hf.
  cbn [initializeInstanceFields].
  rewrite lookup_union, lookup_fmap.
  assert (Hp : is_Some (match parent with
                        | Some c => initializeInstanceFields c fields
                        | None => fields
                        end !! f)).
  { destruct parent as [c|]; [now apply IH|assumption]. }
  destruct Hp as [v ->].
  destruct (declared !! f); cbn; eauto.
Qed.

Create HintDb mono.

#[local] Hint Resolve monotone_ret monotone_panic monotone_get_state
  monotone_OutOfFuel monotone_read_instance monotone_read_array
  monotone_read_record monotone_update_array monotone_update_record
  monotone_alloc_array monotone_alloc_record monotone_alloc_instance
  monotone_TypeOf monotone_InspectOf monotone_NewEnclosedEnvironment
  monotone_Declare_ monotone_DeclareConstant monotone_DefineType
  monotone_SetInPlace monotone_createMethodEnv : mono.

(** One step of a proof that a computation is monotone: through a [bind],
    a [match] or an [if], or by a lemma of the database. *)
Ltac mono_step :=
  cbv beta;
  match goal with
  | |- monotone _ => solve [auto with mono]
  | |- monotone (bind _ _) => apply monotone_bind; [|intros ?]
  | |- monotone (error _) => apply monotone_ret
  | |- monotone (match ?x with _ => _ end) => destruct x
  end.
Ltac mono := repeat mono_step.

Lemma monotone_unknown_operator (op : string) (l r : Object) :
  monotone (unknown_operator op l r).
Proof. unfold unknown_operator. mono. Qed.

Lemma monotone_evalIntegerInfixExpression (op : string) (l r : Object) :
  monotone (evalIntegerInfixExpression op l r).
Proof.
  pose proof (monotone_unknown_operator op l r).
  unfold evalIntegerInfixExpression. mono.
Qed.

Lemma monotone_evalRealInfixExpression (op : string) (l r : Object) :
  monotone (evalRealInfixExpression op l r).
Proof.
  pose proof (monotone_unknown_operator op l r).
  unfold evalRealInfixExpression. cbv zeta. mono.
Qed.

Lemma monotone_evalStringInfixExpression (op : string) (l r : Object) :
  monotone (evalStringInfixExpression op l r).
Proof.
  pose proof (monotone_unknown_operator op l r).
  unfold evalStringInfixExpression. mono.
Qed.

Lemma monotone_evalBooleanInfixExpression (op : string) (l r : Object) :
  monotone (evalBooleanInfixExpression op l r).
Proof.
  pose proof (monotone_unknown_operator op l r).
  unfold evalBooleanInfixExpression. mono.
Qed.

Lemma monotone_evalMinusPrefixOperator (r : Object) :
  monotone (evalMinusPrefixOperator r).
Proof. unfold evalMinusPrefixOperator. mono. Qed.

Lemma monotone_evalNotOperator (r : Object) : monotone (evalNotOperator r).
Proof. unfold evalNotOperator. mono. Qed.

Lemma monotone_bindParameters (env_ : loc) (args : list Object) :
  forall (params : list ast.Param) (idx : nat),
    monotone (bindParameters env_ args idx params).
Proof.
  induction params as [|param rest IH]; intros idx; cbn [bindParameters]; mono.
Qed.

Lemma monotone_extendFunctionEnv (fnEnv : loc) (args : list Object)
  (params : list ast.Param) (callerEnv : loc) :
  monotone (extendFunctionEnv fnEnv args params callerEnv).
Proof.
  unfold extendFunctionEnv. mono. apply monotone_bindParameters.
Qed.

Lemma monotone_bindMethodParameters (env_ : loc) (args : list Object) :
  forall (params : list ast.Param) (idx : nat),
    monotone (bindMethodParameters env_ args idx params).
Proof.
  induction params as [|param rest IH]; intros idx;
    cbn [bindMethodParameters]; mono.
Qed.

Lemma monotone_evalIdentifier (name : string) (env_ : loc) :
  monotone (evalIdentifier name env_).
Proof. unfold evalIdentifier. mono. Qed.

Lemma monotone_evalSuperExpression (env_ : loc) :
  monotone (evalSuperExpression env_).
Proof. unfold evalSuperExpression. mono. Qed.

Lemma monotone_evalClassStatement (name parent : string)
  (members : list ast.Statement) (env_ : loc) :
  monotone (evalClassStatement name parent members env_).
Proof. unfold evalClassStatement. cbv zeta. mono. Qed.

Lemma monotone_declareEnum (env_ : loc) :
  forall (values : list string) (idx : Z),
    monotone (declareEnum env_ idx values).
Proof.
  induction values as [|val rest IH]; intros idx; cbn [declareEnum]; mono.
Qed.

Lemma monotone_evalTypeStatement (name : string) (def : ast.DataType)
  (env_ : loc) :
  monotone (evalTypeStatement name def env_).
Proof.
  unfold evalTypeStatement. mono. apply monotone_declareEnum.
Qed.

Lemma monotone_evalDeclareStatement (name : string) (dt : ast.DataType)
  (env_ : loc) :
  monotone (evalDeclareStatement name dt env_).
Proof. unfold evalDeclareStatement. mono. Qed.

#[local] Hint Resolve monotone_evalIntegerInfixExpression
  monotone_evalRealInfixExpression monotone_evalStringInfixExpression
  monotone_evalBooleanInfixExpression monotone_evalMinusPrefixOperator
  monotone_evalNotOperator monotone_extendFunctionEnv
  monotone_bindMethodParameters monotone_evalIdentifier
  monotone_evalSuperExpression monotone_evalClassStatement
  monotone_evalTypeStatement monotone_evalDeclareStatement : mono.

Section Monotone.

Variable fmt_g : float64 -> string.
Variable Date_Inspect : Z -> Z -> Z -> string.

Lemma monotone_objectToString (obj : Object) :
  monotone (objectToString fmt_g Date_Inspect obj).
Proof. unfold objectToString. mono. Qed.

Lemma monotone_infixSwitch (op : string) (l r : Object) :
  monotone (infixSwitch fmt_g Date_Inspect op l r).
Proof.
  pose proof (monotone_objectToString l).
  pose proof (monotone_objectToString r).
  unfold infixSwitch, evalOtherInfix, evalConcatenation. mono.
Qed.

Variable eS : ast.Statement -> loc -> M Object.
Variable eE : ast.Expression -> loc -> M Object.
Variable budget : nat.
Hypothesis eS_monotone : forall stmt env_, monotone (eS stmt env_).
Hypothesis eE_monotone : forall expr env_, monotone (eE expr env_).

#[local] Hint Resolve eS_monotone eE_monotone monotone_infixSwitch : mono.

Lemma monotone_evalStatements_from (env_ : loc) :
  forall (stmts : list ast.Statement) (result : Object),
    monotone (evalStatements_from eS result stmts env_).
Proof.
  induction stmts as [|stmt rest IH]; intros result;
    cbn [evalStatements_from]; mono.
Qed.

Lemma monotone_evalStatements (stmts : list ast.Statement) (env_ : loc) :
  monotone (evalStatements eS stmts env_).
Proof. apply monotone_evalStatements_from. Qed.

Lemma monotone_evalExpressions_from (env_ : loc) :
  forall (exprs : list ast.Expression) (result : list Object),
    monotone (evalExpressions_from eE result exprs env_).
Proof.
  induction exprs as [|e rest IH]; intros result;
    cbn [evalExpressions_from]; mono.
Qed.

Lemma monotone_evalExpressions (exprs : list ast.Expression) (env_ : loc) :
  monotone (evalExpressions eE exprs env_).
Proof. apply monotone_evalExpressions_from. Qed.

Lemma monotone_evalIndices (env_ : loc) :
  forall (exprs : list ast.Expression) (indices : list Z),
    monotone (evalIndices eE indices exprs env_).
Proof.
  induction exprs as [|e rest IH]; intros indices; cbn [evalIndices]; mono.
Qed.

#[local] Hint Resolve monotone_evalStatements monotone_evalExpressions
  monotone_evalIndices : mono.

Lemma monotone_evalArrayAssignment (array : ast.Expression)
  (indices : list ast.Expression) (value : Object) (env_ : loc) :
  monotone (evalArrayAssignment eE array indices value env_).
Proof. unfold evalArrayAssignment. mono. Qed.

Lemma monotone_evalMemberAssignment (object : ast.Expression) (member : string)
  (value : Object) (env_ : loc) :
  monotone (evalMemberAssignment eE object member value env_).
Proof.
  unfold evalMemberAssignment. mono.
  apply monotone_update_instance. intros o. apply instance_grows_field.
Qed.

#[local] Hint Resolve monotone_evalArrayAssignment
  monotone_evalMemberAssignment : mono.

Lemma monotone_evalConstantStatement (name : string) (value : ast.Expression)
  (env_ : loc) :
  monotone (evalConstantStatement eE name value env_).
Proof. unfold evalConstantStatement. mono. Qed.

Lemma monotone_evalAssignmentStatement (target value : ast.Expression)
  (env_ : loc) :
  monotone (evalAssignmentStatement eE target value env_).
Proof. unfold evalAssignmentStatement. mono. Qed.

Lemma monotone_evalIfStatement (cond : ast.Expression)
  (consequence : list ast.Statement) (alternative : option (list ast.Statement))
  (env_ : loc) :
  monotone (evalIfStatement eS eE cond consequence alternative env_).
Proof. unfold evalIfStatement. mono. Qed.

Lemma monotone_matchesCaseValue (value : Object) (caseValue : ast.Expression)
  (env_ : loc) :
  monotone (matchesCaseValue eE value caseValue env_).
Proof. unfold matchesCaseValue. mono. Qed.

Lemma monotone_matchesClause (value : Object) (env_ : loc) :
  forall caseValues : list ast.Expression,
    monotone (matchesClause eE value caseValues env_).
Proof.
  pose proof monotone_matchesCaseValue.
  induction caseValues as [|caseValue rest IH]; cbn [matchesClause]; mono.
Qed.

Lemma monotone_evalCases (value : Object)
  (otherwise : option (list ast.Statement)) (env_ : loc) :
  forall cases : list ast.CaseClause,
    monotone (evalCases eS eE value cases otherwise env_).
Proof.
  pose proof monotone_matchesClause.
  induction cases as [|[caseValues body] rest IH]; cbn [evalCases]; mono.
Qed.

Lemma monotone_evalCaseStatement (expr : ast.Expression)
  (cases : list ast.CaseClause) (otherwise : option (list ast.Statement))
  (env_ : loc) :
  monotone (evalCaseStatement eS eE expr cases otherwise env_).
Proof.
  pose proof monotone_evalCases. unfold evalCaseStatement. mono.
Qed.

Lemma monotone_forLoop (var : string) (step stop : Z)
  (body : list ast.Statement) (loopEnv : loc) :
  forall (n : nat) (current : Z) (result : Object),
    monotone (forLoop eS n var step stop body loopEnv current result).
Proof.
  induction n as [|n IH]; intros current result; cbn [forLoop]; mono.
Qed.

Lemma monotone_evalStep (step : option ast.Expression) (env_ : loc) :
  monotone (evalStep eE step env_).
Proof. unfold evalStep. mono. Qed.

Lemma monotone_evalForStatement (var : string) (start stop : ast.Expression)
  (step : option ast.Expression) (body : list ast.Statement) (env_ : loc) :
  monotone (evalForStatement eS eE budget var start stop step body env_).
Proof.
  pose proof monotone_forLoop. pose proof monotone_evalStep.
  unfold evalForStatement. mono.
Qed.

Lemma monotone_whileLoop (cond : ast.Expression) (body : list ast.Statement)
  (env_ : loc) :
  forall (n : nat) (result : Object),
    monotone (whileLoop eS eE n cond body env_ result).
Proof.
  induction n as [|n IH]; intros result; cbn [whileLoop]; mono.
Qed.

Lemma monotone_repeatLoop (body : list ast.Statement) (cond : ast.Expression)
  (env_ : loc) :
  forall n : nat, monotone (repeatLoop eS eE n body cond env_).
Proof. induction n as [|n IH]; cbn [repeatLoop]; mono. Qed.

Lemma monotone_evalReturnStatement (value : option ast.Expression)
  (env_ : loc) :
  monotone (evalReturnStatement eE value env_).
Proof. unfold evalReturnStatement. mono. Qed.

Lemma monotone_storeLine (target : ast.Expression) (line : string)
  (env_ : loc) :
  monotone (storeLine eE target line env_).
Proof. unfold storeLine. mono. Qed.

Lemma monotone_modify_same (f : Interpreter -> Interpreter) :
  (forall i, env (f i) = env i) -> (forall i, envs (f i) = envs i) ->
  (forall i, instances (f i) = instances i) ->
  monotone (modify f).
Proof. intros H1 H2 H3. apply monotone_modify. intros i. now apply extends_same. Qed.

Lemma monotone_evalInputStatement (target : ast.Expression) (env_ : loc) :
  monotone (evalInputStatement eE target env_).
Proof.
  pose proof monotone_storeLine.
  unfold evalInputStatement. mono; now apply monotone_modify_same.
Qed.

Lemma monotone_outputParts (env_ : loc) :
  forall (values : list ast.Expression) (parts : list string),
    monotone (outputParts fmt_g Date_Inspect eE parts values env_).
Proof.
  induction values as [|expr rest IH]; intros parts; cbn [outputParts]; mono.
Qed.

Lemma monotone_evalOutputStatement (values : list ast.Expression) (env_ : loc) :
  monotone (evalOutputStatement fmt_g Date_Inspect eE values env_).
Proof.
  pose proof monotone_outputParts.
  unfold evalOutputStatement. mono. now apply monotone_modify_same.
Qed.

Lemma monotone_open_file (name : string) (fs : fileState) :
  monotone (open_file name fs).
Proof. unfold open_file. mono. now apply monotone_modify_same. Qed.

Lemma monotone_evalOpenFileStatement (filename : ast.Expression)
  (mode_ : string) (env_ : loc) :
  monotone (evalOpenFileStatement eE filename mode_ env_).
Proof.
  pose proof monotone_open_file.
  unfold evalOpenFileStatement. mono; now apply monotone_modify_same.
Qed.

Lemma monotone_evalCloseFileStatement (filename : ast.Expression) (env_ : loc) :
  monotone (evalCloseFileStatement eE filename env_).
Proof.
  unfold evalCloseFileStatement. mono; now apply monotone_modify_same.
Qed.

Lemma monotone_evalReadFileStatement (filename target : ast.Expression)
  (env_ : loc) :
  monotone (evalReadFileStatement eE filename target env_).
Proof.
  pose proof monotone_storeLine.
  unfold evalReadFileStatement. mono; now apply monotone_modify_same.
Qed.

Lemma monotone_evalWriteFileStatement (filename data : ast.Expression)
  (env_ : loc) :
  monotone (evalWriteFileStatement fmt_g Date_Inspect eE filename data env_).
Proof.
  unfold evalWriteFileStatement. mono; now apply monotone_modify_same.
Qed.

Lemma monotone_evalPrefixExpression (op : string) (right : ast.Expression)
  (env_ : loc) :
  monotone (evalPrefixExpression eE op right env_).
Proof. unfold evalPrefixExpression. mono. Qed.

Lemma monotone_evalInfixExpression (lhs : ast.Expression) (op : string)
  (rhs : ast.Expression) (env_ : loc) :
  monotone (evalInfixExpression fmt_g Date_Inspect eE lhs op rhs env_).
Proof. unfold evalInfixExpression. mono. Qed.

Lemma monotone_evalArrayAccess (array : ast.Expression)
  (indices : list ast.Expression) (env_ : loc) :
  monotone (evalArrayAccess eE array indices env_).
Proof. unfold evalArrayAccess. mono. Qed.

Lemma monotone_evalMemberAccess (object : ast.Expression) (member : string)
  (env_ : loc) :
  monotone (evalMemberAccess eE object member env_).
Proof. unfold evalMemberAccess. mono. Qed.

Lemma monotone_applyBoundMethod (inst : loc) (method : Object)
  (args : list Object) (callerEnv : loc) :
  monotone (applyBoundMethod eS inst method args callerEnv).
Proof. unfold applyBoundMethod. mono. Qed.

Lemma monotone_applyFunction (fn : Object) (args : list Object)
  (callerEnv : loc) :
  monotone (applyFunction eS fn args callerEnv).
Proof.
  pose proof monotone_applyBoundMethod.
  unfold applyFunction. mono.
Qed.

Lemma monotone_evalCallExpression (function : ast.Expression)
  (arguments : list ast.Expression) (env_ : loc) :
  monotone (evalCallExpression eS eE function arguments env_).
Proof.
  pose proof monotone_applyFunction.
  unfold evalCallExpression. mono.
Qed.

Lemma monotone_evalNewExpression (className : string)
  (arguments : list ast.Expression) (env_ : loc) :
  monotone (evalNewExpression eS eE className arguments env_).
Proof.
  assert (Hinit : forall (class : Class) (inst : loc),
             monotone (update_instance inst
                         (fun o => with_Fields
                            (initializeInstanceFields class (inst_Fields o)) o))).
  { intros class inst. apply monotone_update_instance. intros o.
    split; [reflexivity|]. intros f Hf. cbn.
    now apply initializeInstanceFields_grows. }
  unfold evalNewExpression. mono.
Qed.

Lemma monotone_evalStatement_body (stmt : ast.Statement) (env_ : loc) :
  monotone (evalStatement_body fmt_g Date_Inspect eS eE budget stmt env_).
Proof.
  destruct stmt; cbn [evalStatement_body];
    first [ apply eE_monotone
          | apply monotone_evalDeclareStatement
          | apply monotone_evalConstantStatement
          | apply monotone_evalAssignmentStatement
          | apply monotone_evalIfStatement
          | apply monotone_evalCaseStatement
          | apply monotone_evalForStatement
          | apply monotone_whileLoop
          | apply monotone_repeatLoop
          | apply monotone_Declare_
          | apply monotone_evalCallExpression
          | apply monotone_evalReturnStatement
          | apply monotone_evalInputStatement
          | apply monotone_evalOutputStatement
          | apply monotone_evalOpenFileStatement
          | apply monotone_evalCloseFileStatement
          | apply monotone_evalReadFileStatement
          | apply monotone_evalWriteFileStatement
          | apply monotone_evalTypeStatement
          | apply monotone_evalClassStatement ].
Qed.

Lemma monotone_evalExpression_body (expr : ast.Expression) (env_ : loc) :
  monotone (evalExpression_body fmt_g Date_Inspect eS eE expr env_).
Proof.
  destruct expr; cbn [evalExpression_body];
    first [ apply monotone_ret
          | apply monotone_evalIdentifier
          | apply monotone_evalPrefixExpression
          | apply monotone_evalInfixExpression
          | apply monotone_evalArrayAccess
          | apply monotone_evalMemberAccess
          | apply monotone_evalCallExpression
          | apply monotone_evalNewExpression
          | apply monotone_evalSuperExpression ].
Qed.

Lemma monotone_Eval_from :
  forall (stmts : list ast.Statement) (result : Object),
    monotone (Eval_from eS result stmts).
Proof.
  induction stmts as [|stmt rest IH]; intros result; cbn [Eval_from]; mono.
Qed.

End Monotone.

(** Whatever a statement or an expression does, every scope and every
    instance is still there afterwards, with its parent, its marks of
    constants and its bindings. *)
Lemma evaluator_monotone (fmt_g : float64 -> string)
  (Date_Inspect : Z -> Z -> Z -> string) (fuel : nat) :
  (forall stmt env_, monotone (evalStatement fmt_g Date_Inspect fuel stmt env_))
  /\ (forall expr env_,
         monotone (evalExpression fmt_g Date_Inspect fuel expr env_)).
Proof.
  induction fuel as [|n [IHS IHE]].
  - split; intros x e i a i' H; discriminate H.
  - split; intros x e.
    + rewrite evalStatement_S. now apply monotone_evalStatement_body.
    + rewrite evalExpression_S. now apply monotone_evalExpression_body.
Qed.

(** A name bound in the store of a scope resolves there from that scope,
    in every later state. *)
Lemma extends_bound (i i' : Interpreter) (d : loc) (D : Environment)
  (x : string) :
  extends i i' -> envs i !! d = Some D -> is_Some (store D !! x) ->
  Resolves i' x d (TStore d).
Proof.
  intros (_ & Hs & _) HD Hx. destruct (Hs d D HD) as (D' & HD' & G).
  apply Resolves_store with D'; [assumption|]. now apply G.
Qed.

(** A mark of constant stays in every later state. *)
Lemma extends_constant (i i' : Interpreter) (d : loc) (D : Environment)
  (x : string) :
  extends i i' -> envs i !! d = Some D -> constants D !! x = Some true ->
  exists D', envs i' !! d = Some D' /\ constants D' !! x = Some true.
Proof.
  intros (_ & Hs & _) HD Hx. destruct (Hs d D HD) as (D' & HD' & G).
  exists D'. split; [assumption|]. now apply G.
Qed.

(** The scopes up to [e] keep their parents, so their links lead
    downwards in every later state. *)
Lemma extends_links (i i' : Interpreter) (e : loc) :
  wf_envs i -> extends i i' -> (e < length (envs i))%nat ->
  forall (e' : loc) (E' : Environment) (o : loc),
    (e' <= e)%nat -> envs i' !! e' = Some E' -> outer E' = Some o ->
    (o < e')%nat.
Proof.
  intros Hwf (_ & Hs & _) He e' E' o Hle HE' Ho.
  destruct (lookup_lt_is_Some_2 (envs i) e') as [E HE]; [lia|].
  destruct (Hs e' E HE) as (E2 & HE2 & Hout & _).
  assert (E2 = E') by congruence. subst E2.
  apply (Hwf e' E o HE). congruence.
Qed.

(** [Get] from scope [e] reads the scopes up to [e] and the instances only,
    when the links of those scopes lead downwards. *)
Lemma Get_from_agree_upto (i i' : Interpreter) (x : string) :
  instances i' = instances i ->
  forall (n : nat) (e : loc),
    (forall e' E o, (e' <= e)%nat -> envs i !! e' = Some E ->
                    outer E = Some o -> (o < e')%nat) ->
    (forall e', (e' <= e)%nat -> envs i' !! e' = envs i !! e') ->
    Get_from n i' e x = Get_from n i e x.
Proof.
  intros Hinst n. induction n as [|n IH]; intros e Hwf Hag; [reflexivity|].
  cbn [Get_from]. rewrite (Hag e) by lia.
  destruct (envs i !! e) as [E|] eqn:HE; [|reflexivity].
  destruct (store E !! x); [reflexivity|].
  unfold instance_field. rewrite Hinst.
  destruct (instance E ≫= _); [reflexivity|].
  destruct (outer E) as [o|] eqn:Ho; [|reflexivity].
  pose proof (Hwf e E o (Nat.le_refl e) HE Ho). apply IH.
  - intros e' E' o' He'. apply Hwf. lia.
  - intros e' He'. apply Hag. lia.
Qed.

(** ** Parameter passing *)

Lemma Declare_write_store (i : Interpreter) (e : loc) (E : Environment)
  (name : string) (v : Object) :
  envs i !! e = Some E ->
  Declare_ e name v i = Returns v (write_store i e name v).
Proof.
  intros HE. rewrite (Declare_eq _ _ _ _ _ HE). unfold write_store. now rewrite HE.
Qed.

Lemma write_all_scope (l : list (string * Object)) (i : Interpreter) (e : loc)
  (E : Environment) :
  envs i !! e = Some E ->
  envs (write_all i e l) !! e = Some (with_store (insert_all (store E) l) E)
  /\ (forall e', e' <> e -> envs (write_all i e l) !! e' = envs i !! e')
  /\ length (envs (write_all i e l)) = length (envs i)
  /\ instances (write_all i e l) = instances i.
Proof.
  revert i E. induction l as [|[x v] l IH]; intros i E HE.
  - cbn. repeat split. rewrite HE. now destruct E.
  - cbn [write_all insert_all foldl fst snd].
    pose proof (write_store_lookup_eq i e x v E HE) as HE'.
    destruct (IH _ _ HE') as (H1 & H2 & H3 & H4). unfold write_all in *.
    repeat split.
    + now rewrite H1.
    + intros e' Hne. rewrite H2 by assumption.
      now apply write_store_lookup_ne.
    + rewrite H3. unfold write_store. rewrite HE. cbn.
      apply length_insert.
    + rewrite H4. apply write_store_instances.
Qed.

Lemma bindParameters_eq (params : list ast.Param) (args : list Object)
  (idx : nat) (e : loc) (i : Interpreter) (E : Environment) :
  envs i !! e = Some E ->
  bindParameters e args idx params i
  = Returns tt (write_all i e (zip (map ast.Name params) (drop idx args))).
Proof.
  revert idx i E. induction params as [|p params IH]; intros idx i E HE.
  - reflexivity.
  - cbn [bindParameters map]. unfold bind.
    destruct (args !! idx) as [arg|] eqn:Harg.
    + rewrite (drop_S _ _ _ Harg). cbn [zip zip_with write_all foldl fst snd].
      assert (Hd : Declare_ e (ast.Name p) arg i
                   = Returns arg (write_store i e (ast.Name p) arg))
        by now apply Declare_write_store with E.
      destruct (ast.ByRef p); rewrite Hd;
        apply (IH (S idx) _ _ (write_store_lookup_eq i e _ arg E HE)).
    + unfold ret at 1. rewrite (IH (S idx) _ _ HE).
      apply lookup_ge_None_1 in Harg.
      rewrite !drop_ge by lia. now destruct (map ast.Name params).
Qed.

(** [Get] from scope [e] reads the scopes up to [e] and the instances
    only. *)
Lemma Get_from_agree (i i' : Interpreter) (x : string) :
  wf_envs i -> instances i' = instances i ->
  forall (n : nat) (e : loc),
    (forall e', (e' <= e)%nat -> envs i' !! e' = envs i !! e') ->
    Get_from n i' e x = Get_from n i e x.
Proof.
  intros Hwf Hinst n. induction n as [|n IH]; intros e Hag; [reflexivity|].
  cbn [Get_from]. rewrite (Hag e) by lia.
  destruct (envs i !! e) as [E|] eqn:HE; [|reflexivity].
  destruct (store E !! x); [reflexivity|].
  unfold instance_field. rewrite Hinst.
  destruct (instance E ≫= _); [reflexivity|].
  destruct (outer E) as [o|] eqn:Ho; [|reflexivity].
  pose proof (Hwf e E o HE Ho). apply IH. intros e' He'. apply Hag. lia.
Qed.

Lemma Get_agree (i i' : Interpreter) (x : string) (e : loc) :
  wf_envs i -> instances i' = instances i ->
  (forall e', (e' <= e)%nat -> envs i' !! e' = envs i !! e') ->
  Get i' e x = Get i e x.
Proof. intros. now apply Get_from_agree. Qed.

Lemma insert_all_bound (l : list (string * Object)) (s : gmap string Object)
  (x : string) :
  (is_Some (s !! x) \/ x ∈ l.*1) -> is_Some (insert_all s l !! x).
Proof.
  revert s. induction l as [|[y v] l IH]; intros s [H|H].
  - assumption.
  - cbn in H. now apply elem_of_nil in H.
  - cbn. apply IH. left. destruct (decide (y = x)) as [->|Hne].
    + rewrite lookup_insert_eq. eauto.
    + now rewrite lookup_insert_ne.
  - cbn in *. apply IH. apply elem_of_cons in H as [->|H].
    + left. rewrite lookup_insert_eq. eauto.
    + now right.
Qed.

(** C8: a parameter marked BYREF is bound as a BYVAL one is: the argument
    value is declared under the parameter's name in the fresh scope of the
    callee, which is a child of the closure; an assignment to the parameter
    writes the callee's scope only, so every variable the caller can read
    holds the same value as before the call.  This holds of every later
    assignment as well: in a state that extends the one after the binding,
    as every state the body reaches does, the assignment writes the
    callee's scope, or fails when a constant of that name has been declared
    there meanwhile, and what the caller can read is untouched. *)
Theorem C8_byref_bound_by_value
  (fnEnv callerEnv : loc) (args : list Object) (params : list ast.Param)
  (i : Interpreter) :
  wf_envs i ->
  (fnEnv < length (envs i))%nat ->
  (callerEnv < length (envs i))%nat ->
  let callee := length (envs i) in
  let i1 := write_all (set_envs (envs i ++ [fresh_scope fnEnv]) i) callee
              (zip (map ast.Name params) args) in
  extendFunctionEnv fnEnv args params callerEnv i = Returns callee i1
  /\ extendFunctionEnv fnEnv args (map byval_of params) callerEnv i
     = Returns callee i1
  /\ envs i1 !! callee
     = Some (with_store (insert_all ∅ (zip (map ast.Name params) args))
               (fresh_scope fnEnv))
  /\ (forall x, Get i1 callerEnv x = Get i callerEnv x)
  /\ (forall (idx : nat) (p : ast.Param) (a v : Object),
        params !! idx = Some p -> args !! idx = Some a ->
        SetInPlace callee (ast.Name p) v i1
        = Returns v (write_store i1 callee (ast.Name p) v)
        /\ forall x, Get (write_store i1 callee (ast.Name p) v) callerEnv x
                     = Get i callerEnv x)
  /\ (forall (i2 : Interpreter) (idx : nat) (p : ast.Param) (a v : Object),
        extends i1 i2 ->
        params !! idx = Some p -> args !! idx = Some a ->
        (SetInPlace callee (ast.Name p) v i2
         = Returns (cannot_modify (ast.Name p)) i2
         \/ SetInPlace callee (ast.Name p) v i2
            = Returns v (write_store i2 callee (ast.Name p) v))
        /\ forall x, Get (write_store i2 callee (ast.Name p) v) callerEnv x
                     = Get i2 callerEnv x).
Proof.
  intros Hwf Hfn Hcaller callee i1. subst i1.
  set (i0 := set_envs (envs i ++ [fresh_scope fnEnv]) i).
  assert (H0 : envs i0 !! callee = Some (fresh_scope fnEnv)).
  { unfold i0, callee. cbn. rewrite lookup_app_r by lia.
    now rewrite Nat.sub_diag. }
  destruct (write_all_scope (zip (map ast.Name params) args) i0 callee _ H0)
    as (H1 & H2 & H3 & H4).
  set (i1 := write_all i0 callee (zip (map ast.Name params) args)) in *.
  assert (Hext : forall ps, map ast.Name ps = map ast.Name params ->
                 extendFunctionEnv fnEnv args ps callerEnv i = Returns callee i1).
  { intros ps Hps. unfold extendFunctionEnv, bind.
    rewrite NewEnclosedEnvironment_eq. fold i0. fold callee.
    rewrite (bindParameters_eq ps args 0 callee i0 _ H0).
    rewrite Hps, drop_0. reflexivity. }
  assert (Hold : forall e', (e' < callee)%nat -> envs i1 !! e' = envs i !! e').
  { intros e' He'. rewrite H2 by lia. unfold i0. cbn.
    now rewrite lookup_app_l by (unfold callee in He'; lia). }
  assert (Hinst : instances i1 = instances i) by (rewrite H4; reflexivity).
  split; [now apply Hext|].
  split.
  { apply Hext. rewrite map_map. reflexivity. }
  split; [exact H1|].
  split.
  { intros x. apply Get_agree; try assumption.
    intros e' He'. apply Hold. unfold callee. lia. }
  assert (Hbound : forall (idx : nat) (p : ast.Param) (a : Object),
             params !! idx = Some p -> args !! idx = Some a ->
             is_Some (insert_all ∅ (zip (map ast.Name params) args)
                        !! ast.Name p)).
  { intros idx p a Hp Ha. apply insert_all_bound. right.
    apply list_elem_of_lookup. exists idx. rewrite list_lookup_fmap.
    rewrite lookup_zip_with. rewrite list_lookup_fmap, Hp, Ha. reflexivity. }
  split.
  { intros idx p a v Hp Ha. pose proof (Hbound idx p a Hp Ha) as Hb. split.
    - apply (SetInPlace_writes i1 (ast.Name p) v callee (TStore callee)).
      + eapply Resolves_store; [exact H1|exact Hb].
      + eexists. split; [exact H1|reflexivity].
    - intros x. apply Get_agree; try assumption.
      + now rewrite write_store_instances.
      + intros e' He'. rewrite write_store_lookup_ne by (unfold callee; lia).
        apply Hold. unfold callee. lia. }
  intros i2 idx p a v Hext2 Hp Ha.
  pose proof (Hbound idx p a Hp Ha) as Hb.
  pose proof (extends_bound _ _ _ _ (ast.Name p) Hext2 H1 Hb) as Hres.
  destruct Hext2 as (_ & Hscopes & _).
  split.
  - rewrite (SetInPlace_Resolves _ _ _ _ _ Hres). cbn [SetInPlace_result].
    destruct (Hscopes _ _ H1) as (D2 & HD2 & _).
    unfold write_store. rewrite HD2.
    destruct (default false (constants D2 !! ast.Name p)); [now left|now right].
  - intros x. apply Get_from_agree_upto.
    + apply write_store_instances.
    + intros e' E' o He' HE' Ho.
      destruct (lookup_lt_is_Some_2 (envs i) e') as [E HE]; [lia|].
      assert (HE1 : envs i1 !! e' = Some E).
      { rewrite Hold by (unfold callee; lia). exact HE. }
      destruct (Hscopes _ _ HE1) as (E2 & HE2 & Hout & _).
      assert (E2 = E') by congruence. subst E2.
      apply (Hwf e' E o HE). congruence.
    + intros e' He'. apply write_store_lookup_ne. unfold callee. lia.
Qed.

Lemma wf_envs_New (stdin : Reader) : wf_envs (New stdin).
Proof.
  intros e E o HE Ho. destruct e as [|e]; cbn in HE.
  - injection HE as <-. discriminate.
  - destruct e; discriminate.
Qed.

Lemma C8_byref_bound_by_value_witness :
  wf_envs (New no_input)
  /\ (0 < length (envs (New no_input)))%nat
  /\ extendFunctionEnv 0%nat [IntegerObj 1; IntegerObj 2] Swap_params 0%nat
       (New no_input)
     = extendFunctionEnv 0%nat [IntegerObj 1; IntegerObj 2]
         (map byval_of Swap_params) 0%nat (New no_input)
  /\ forall x,
       Get (state_after
              (do callee <~ extendFunctionEnv 0%nat [IntegerObj 1; IntegerObj 2]
                              Swap_params 0%nat ;>
               SetInPlace callee "A" (IntegerObj 2)) (New no_input)) 0%nat x
       = Get (New no_input) 0%nat x.
Proof.
  assert (Hlt : (0 < length (envs (New no_input)))%nat) by (cbn; lia).
  split; [apply wf_envs_New|]. split; [exact Hlt|].
  destruct (C8_byref_bound_by_value 0%nat 0%nat [IntegerObj 1; IntegerObj 2]
              Swap_params (New no_input) (wf_envs_New no_input) Hlt Hlt)
    as (Ha & Hb & _ & _ & Hw & _).
  split; [now rewrite Ha, Hb|].
  intros x.
  destruct (Hw 0%nat (byref "A" INTEGER) (IntegerObj 1) (IntegerObj 2)
              eq_refl eq_refl) as [Hs Hg].
  unfold state_after, bind. rewrite Ha. cbn [ast.Name byref] in Hs.
  rewrite Hs. apply Hg.
Defined.

(** The procedure [Swap] exchanges its two BYREF parameters and prints them
    exchanged; the caller's variables are as they were. *)
Example Swap_leaves_the_arguments :
  observe 8 Swap_program no_input
  = Some (NullObj, ["21" +:+ newline; "12" +:+ newline]).
Proof. vm_compute. reflexivity. Qed.

(** ** Well-formed stores of scopes stay well formed *)

Lemma wf_envs_push (i : Interpreter) (E : Environment) (o : loc) :
  wf_envs i -> outer E = Some o -> (o < length (envs i))%nat ->
  wf_envs (set_envs (envs i ++ [E]) i).
Proof.
  intros Hwf Ho Hlt e E' o' HE' Ho'. cbn in HE'.
  destruct (decide (e < length (envs i))%nat) as [He|He].
  - rewrite lookup_app_l in HE' by assumption. now apply (Hwf e E' o').
  - rewrite lookup_app_r in HE' by lia.
    destruct (e - length (envs i))%nat as [|k] eqn:Hk; cbn in HE'.
    + injection HE' as <-. assert (o' = o) by congruence. subst. lia.
    + destruct k; discriminate.
Qed.

Lemma wf_envs_write_store (i : Interpreter) (s : loc) (name : string)
  (v : Object) :
  wf_envs i -> wf_envs (write_store i s name v).
Proof.
  intros Hwf e E o HE Ho. destruct (decide (s = e)) as [->|Hne].
  - destruct (envs i !! e) as [E0|] eqn:HE0.
    + rewrite (write_store_lookup_eq _ _ _ _ _ HE0) in HE.
      injection HE as <-. now apply (Hwf e E0 o).
    + unfold write_store in HE. rewrite HE0 in HE. congruence.
  - rewrite write_store_lookup_ne in HE by assumption. now apply (Hwf e E o).
Qed.

Lemma wf_envs_write_field (i : Interpreter) (p : loc) (name : string)
  (v : Object) :
  wf_envs i -> wf_envs (write_field i p name v).
Proof.
  intros Hwf e E o HE Ho. rewrite write_field_envs in HE. now apply (Hwf e E o).
Qed.

(** The scope operations keep the store of scopes well formed. *)
Lemma wf_envs_scope_operations (i : Interpreter) (parent inst : loc)
  (class : Class) (name : string) (v : Object) (t : Target) :
  wf_envs i -> (parent < length (envs i))%nat ->
  wf_envs (set_envs (envs i ++ [fresh_scope parent]) i)
  /\ wf_envs (set_envs (envs i ++ [method_scope inst class parent]) i)
  /\ wf_envs (SetInPlace_state i name v t).
Proof.
  intros Hwf Hlt. split; [|split].
  - now apply wf_envs_push with parent.
  - now apply wf_envs_push with parent.
  - destruct t; cbn; auto using wf_envs_write_store, wf_envs_write_field.
Qed.

(** ** Assignment through the scope chain *)

Lemma chain_from_fuel (i : Interpreter) :
  wf_envs i ->
  forall (n m : nat) (e : loc), (e < n)%nat -> (e < m)%nat ->
  chain_from n i e = chain_from m i e.
Proof.
  intros Hwf n. induction n as [|n IH]; intros m e Hn Hm; [lia|].
  destruct m as [|m]; [lia|]. cbn [chain_from].
  destruct (envs i !! e) as [E|] eqn:HE; [|reflexivity]. f_equal.
  destruct (outer E) as [o|] eqn:Ho; [|reflexivity].
  pose proof (Hwf e E o HE Ho). apply IH; lia.
Qed.

Lemma chain_unfold (i : Interpreter) (e : loc) (E : Environment) :
  wf_envs i -> envs i !! e = Some E ->
  chain i e = e :: match outer E with
                   | Some o => chain i o
                   | None => []
                   end.
Proof.
  intros Hwf HE. unfold chain at 1. cbn [chain_from]. rewrite HE. f_equal.
  destruct (outer E) as [o|] eqn:Ho; [|reflexivity].
  pose proof (Hwf e E o HE Ho). apply chain_from_fuel; [assumption|lia|lia].
Qed.

(** A name that no scope of the chain binds resolves to the last scope of
    the chain, the outermost one. *)
Lemma chain_unbound_root (i : Interpreter) (name : string) :
  wf_envs i ->
  forall e : loc, (e < length (envs i))%nat ->
  Forall (unbound_at i name) (chain i e) ->
  exists r, last (chain i e) = Some r /\ Resolves i name e (TRoot r).
Proof.
  intros Hwf e. induction e as [e IH] using lt_wf_ind. intros He Hall.
  destruct (lookup_lt_is_Some_2 (envs i) e He) as [E HE].
  rewrite (chain_unfold i e E Hwf HE) in *.
  apply Forall_cons in Hall as [(E' & HE' & Hs & Hf) Hall].
  assert (E' = E) by congruence. subst E'.
  destruct (outer E) as [o|] eqn:Ho.
  - pose proof (Hwf e E o HE Ho) as Hlt.
    destruct (IH o Hlt) as (r & Hlast & Hres); [lia|assumption|].
    exists r. split.
    + destruct (chain i o) as [|c cs] eqn:Hc; [discriminate Hlast|].
      exact Hlast.
    + eapply Resolves_outer; eauto.
  - exists e. split; [reflexivity|]. eapply Resolves_root; eauto.
Qed.

(** C4, as stated, fails: an assignment to [x], which no scope binds,
    executed in the child scope 1 of the global scope 0, binds [x] in scope
    0 and leaves scope 1 without a binding; and after a procedure has
    assigned to the undeclared [counter], the main program reads it. *)
Lemma C4_current_scope_counterexample :
  chain two_scopes 1%nat = [1%nat; 0%nat]
  /\ binding two_scopes 1%nat "x" = None
  /\ binding two_scopes 0%nat "x" = None
  /\ SetInPlace 1%nat "x" (IntegerObj 5) two_scopes
     = Returns (IntegerObj 5) (write_store two_scopes 0%nat "x" (IntegerObj 5))
  /\ binding (write_store two_scopes 0%nat "x" (IntegerObj 5)) 1%nat "x" = None
  /\ binding (write_store two_scopes 0%nat "x" (IntegerObj 5)) 0%nat "x"
     = Some (IntegerObj 5)
  /\ observe 6 Init_program no_input = Some (NullObj, ["5" +:+ newline]).
Proof. repeat split; vm_compute; reflexivity. Qed.

(** C4, amended: an assignment to a name that no scope of the chain binds
    (in its store or through an aliased instance) creates the binding in the
    outermost scope of the chain, which is the scope the assignment executes
    in only when that scope has no parent; when the name is found, the store
    of the owning scope, or the field of the owning instance, is written in
    place. *)
Theorem C4_SetInPlace_target
  (i : Interpreter) (name : string) (v : Object) (e : loc) :
  (wf_envs i -> (e < length (envs i))%nat ->
   Forall (unbound_at i name) (chain i e) ->
   exists r, last (chain i e) = Some r
             /\ SetInPlace e name v i = Returns v (write_store i r name v)
             /\ binding (write_store i r name v) r name = Some v)
  /\ (forall s, Resolves i name e (TStore s) -> writable i name (TStore s) ->
      SetInPlace e name v i = Returns v (write_store i s name v)
      /\ binding (write_store i s name v) s name = Some v)
  /\ (forall p, Resolves i name e (TField p) ->
      SetInPlace e name v i = Returns v (write_field i p name v)
      /\ (o ← instances (write_field i p name v) !! p; inst_Fields o !! name)
         = Some v).
Proof.
  split; [|split].
  - intros Hwf He Hall.
    destruct (chain_unbound_root i name Hwf e He Hall) as (r & Hlast & Hres).
    exists r. split; [assumption|]. split.
    + now apply (SetInPlace_writes i name v e (TRoot r)).
    + destruct (Resolves_TRoot_unbound _ _ _ _ Hres) as (R & HR & _).
      unfold binding. rewrite (write_store_lookup_eq _ _ _ _ _ HR). cbn.
      apply lookup_insert_eq.
  - intros s Hres Hw. split.
    + now apply (SetInPlace_writes i name v e (TStore s)).
    + destruct (Resolves_TStore_bound _ _ _ _ Hres) as (S & HS & _).
      unfold binding. rewrite (write_store_lookup_eq _ _ _ _ _ HS). cbn.
      apply lookup_insert_eq.
  - intros p Hres. split.
    + now apply (SetInPlace_writes i name v e (TField p)).
    + destruct (Resolves_TField_bound _ _ _ _ Hres) as (o & Ho & _).
      unfold write_field. rewrite Ho. cbn.
      rewrite list_lookup_insert_eq by now apply lookup_lt_Some in Ho.
      cbn. apply lookup_insert_eq.
Qed.

Lemma wf_envs_two_scopes : wf_envs two_scopes.
Proof.
  intros e E o HE Ho. destruct e as [|[|e]]; cbn in HE.
  - injection HE as <-. discriminate.
  - injection HE as <-. injection Ho as <-. lia.
  - destruct e; discriminate.
Qed.

Lemma C4_SetInPlace_target_witness :
  wf_envs two_scopes
  /\ (1 < length (envs two_scopes))%nat
  /\ Forall (unbound_at two_scopes "x") (chain two_scopes 1%nat)
  /\ SetInPlace 1%nat "x" (IntegerObj 5) two_scopes
     = Returns (IntegerObj 5) (write_store two_scopes 0%nat "x" (IntegerObj 5)).
Proof.
  assert (Hlt : (1 < length (envs two_scopes))%nat) by (cbn; lia).
  assert (Hall : Forall (unbound_at two_scopes "x") (chain two_scopes 1%nat)).
  { repeat constructor; eexists; repeat split; reflexivity. }
  split; [apply wf_envs_two_scopes|]. split; [exact Hlt|]. split; [exact Hall|].
  destruct (proj1 (C4_SetInPlace_target two_scopes "x" (IntegerObj 5) 1%nat)
              wf_envs_two_scopes Hlt Hall) as (r & Hlast & Hset & _).
  injection Hlast as <-. exact Hset.
Defined.

(** ** Constants *)

(** C7, as stated, fails: in the body of [Raise], a child scope of the
    scope that declares the constant [LIMIT], the assignment to the name
    [LIMIT] yields Integer 10 and no error, because the parameter of that
    name is nearer; the program prints 10, then the constant, 5. *)
Lemma C7_shadowed_constant_counterexample :
  isConstant Shadow_state 1%nat "LIMIT" = true
  /\ evalStatement sample_fmt_g sample_Date_Inspect 3
       (ast.AssignmentStatement (ast.Identifier "LIMIT") (ast.IntegerLiteral 10))
       1%nat Shadow_state
     = Returns (IntegerObj 10) (write_store Shadow_state 1%nat "LIMIT" (IntegerObj 10))
  /\ observe 8 Shadow_program no_input
     = Some (NullObj, ["10" +:+ newline; "5" +:+ newline]).
Proof. repeat split; vm_compute; reflexivity. Qed.

Section Constants.

Variable fmt_g : float64 -> string.
Variable Date_Inspect : Z -> Z -> Z -> string.

#[local] Abbreviation eS n := (evalStatement fmt_g Date_Inspect n).
#[local] Abbreviation eE n := (evalExpression fmt_g Date_Inspect n).

(** C7, amended: CONSTANT binds the name in the store of the declaring
    scope and marks it constant there; an assignment to the name, executed
    in the declaring scope or in a nested scope from which the name resolves
    to that binding (no nearer scope binds the name in its store or through
    an aliased instance), yields the error "cannot modify constant" and
    leaves the state as the evaluation of the right-hand side left it.  The
    binding and its mark outlast every statement: whatever statement has run
    in between, an assignment to the name in the declaring scope fails. *)
Theorem C7_constant_assignment_fails (name : string) :
  (forall (i : Interpreter) (d : loc) (D : Environment) (v : Object),
      envs i !! d = Some D ->
      exists i1 D1,
        DeclareConstant d name v i = Returns v i1
        /\ envs i1 !! d = Some D1
        /\ store D1 !! name = Some v
        /\ constants D1 !! name = Some true
        /\ Resolves i1 name d (TStore d))
  /\ (forall (n : nat) (i i1 : Interpreter) (e d : loc) (D : Environment)
        (rhs : ast.Expression) (v : Object),
      eE n rhs e i = Returns v i1 ->
      isError v = false ->
      Resolves i1 name e (TStore d) ->
      envs i1 !! d = Some D ->
      constants D !! name = Some true ->
      eS (S n) (ast.AssignmentStatement (ast.Identifier name) rhs) e i
      = Returns (ErrorObj ("cannot modify constant: " +:+ name)) i1)
  /\ (forall (n m : nat) (i i2 i3 : Interpreter) (e d : loc) (D : Environment)
        (stmt : ast.Statement) (r : Object) (rhs : ast.Expression) (v : Object),
      envs i !! d = Some D ->
      is_Some (store D !! name) ->
      constants D !! name = Some true ->
      eS n stmt e i = Returns r i2 ->
      eE m rhs d i2 = Returns v i3 ->
      isError v = false ->
      eS (S m) (ast.AssignmentStatement (ast.Identifier name) rhs) d i2
      = Returns (ErrorObj ("cannot modify constant: " +:+ name)) i3).
Proof.
  assert (Hfails : forall (n : nat) (i i1 : Interpreter) (e d : loc)
                     (D : Environment) (rhs : ast.Expression) (v : Object),
             eE n rhs e i = Returns v i1 ->
             isError v = false ->
             Resolves i1 name e (TStore d) ->
             envs i1 !! d = Some D ->
             constants D !! name = Some true ->
             eS (S n) (ast.AssignmentStatement (ast.Identifier name) rhs) e i
             = Returns (ErrorObj ("cannot modify constant: " +:+ name)) i1).
  { intros n i i1 e d D rhs v Hrhs Hv Hres HD Hc.
    rewrite evalStatement_S. cbn [evalStatement_body].
    unfold evalAssignmentStatement, bind. rewrite Hrhs, Hv.
    rewrite (SetInPlace_Resolves _ _ _ _ _ Hres). cbn [SetInPlace_result].
    now rewrite HD, Hc. }
  split; [|split; [exact Hfails|]].
  - intros i d D v HD.
    pose proof (lookup_lt_Some _ _ _ HD) as Hlt.
    unfold DeclareConstant, bind, update_env, ret. rewrite HD. cbn.
    rewrite list_lookup_insert_eq by assumption.
    eexists. eexists. split; [reflexivity|]. cbn.
    rewrite list_lookup_insert_eq by (rewrite length_insert; assumption).
    split; [reflexivity|]. cbn.
    split; [apply lookup_insert_eq|]. split; [apply lookup_insert_eq|].
    eapply Resolves_store.
    + cbn. apply list_lookup_insert_eq. rewrite length_insert. assumption.
    + cbn. rewrite lookup_insert_eq. eauto.
  - intros n m i i2 i3 e d D stmt r rhs v HD Hb Hc Hstmt Hrhs Hv.
    assert (Hext : extends i i3).
    { apply extends_trans with i2.
      - exact (proj1 (evaluator_monotone fmt_g Date_Inspect n) _ _ _ _ _ Hstmt).
      - exact (proj2 (evaluator_monotone fmt_g Date_Inspect m) _ _ _ _ _ Hrhs). }
    destruct (extends_constant _ _ _ _ _ Hext HD Hc) as (D3 & HD3 & Hc3).
    apply (Hfails m i2 i3 d d D3 rhs v); try assumption.
    now apply extends_bound with i D.
Qed.

End Constants.

Lemma C7_constant_assignment_fails_witness :
  Resolves Constant_state "PI" 1%nat (TStore 0%nat)
  /\ evalStatement sample_fmt_g sample_Date_Inspect 3
       (ast.AssignmentStatement (ast.Identifier "PI") (ast.IntegerLiteral 4))
       1%nat Constant_state
     = Returns (ErrorObj "cannot modify constant: PI") Constant_state
  /\ evalStatement sample_fmt_g sample_Date_Inspect 3
       (ast.AssignmentStatement (ast.Identifier "PI") (ast.IntegerLiteral 4))
       0%nat Constant_state
     = Returns (ErrorObj "cannot modify constant: PI") Constant_state
  /\ let later :=
       state_after
         (evalStatement sample_fmt_g sample_Date_Inspect 3
            (ast.DeclareStatement "Radius" INTEGER) 1%nat) Constant_state in
     evalStatement sample_fmt_g sample_Date_Inspect 3
       (ast.AssignmentStatement (ast.Identifier "PI") (ast.IntegerLiteral 4))
       0%nat later
     = Returns (ErrorObj "cannot modify constant: PI") later.
Proof.
  assert (H0 : Resolves Constant_state "PI" 0%nat (TStore 0%nat)).
  { eapply Resolves_store; [reflexivity|]. vm_compute. eauto. }
  assert (H1 : Resolves Constant_state "PI" 1%nat (TStore 0%nat)).
  { eapply Resolves_outer; [reflexivity|reflexivity|reflexivity|reflexivity|lia|].
    exact H0. }
  pose proof (C7_constant_assignment_fails sample_fmt_g sample_Date_Inspect "PI")
    as (_ & Hnow & Hlater).
  split; [exact H1|]. split; [|split].
  - eapply (Hnow 2%nat Constant_state Constant_state 1%nat 0%nat);
      [reflexivity|reflexivity|exact H1|reflexivity|reflexivity].
  - eapply (Hnow 2%nat Constant_state Constant_state 0%nat 0%nat);
      [reflexivity|reflexivity|exact H0|reflexivity|reflexivity].
  - intros later.
    eapply (Hlater 3%nat 2%nat Constant_state later later 1%nat 0%nat _
              (ast.DeclareStatement "Radius" INTEGER) (IntegerObj 0)
              (ast.IntegerLiteral 4) (IntegerObj 4));
      [reflexivity|vm_compute; eauto|reflexivity|reflexivity|reflexivity
      |reflexivity].
Defined.

(** ** INPUT *)

(** [TrimRight] removes the trailing bytes of the cutset and nothing
    else. *)
Lemma string_rev_onto_app (s t acc : string) :
  string_rev_onto (s +:+ t) acc = string_rev_onto t (string_rev_onto s acc).
Proof.
  revert acc. induction s as [|a s IH]; intros acc; [reflexivity|].
  cbn. apply IH.
Qed.

Lemma string_rev_onto_involutive (s acc1 acc2 : string) :
  string_rev_onto (string_rev_onto s acc1) acc2
  = string_rev_onto acc1 (s +:+ acc2).
Proof.
  revert acc1 acc2. induction s as [|a s IH]; intros acc1 acc2; [reflexivity|].
  cbn [string_rev_onto]. rewrite IH. reflexivity.
Qed.

Lemma drop_leading_rev_onto (cutset : list ascii) (t x : string) :
  (forall a, a ∈ list_ascii_of_string t -> a ∈ cutset) ->
  drop_leading cutset (string_rev_onto t x) = drop_leading cutset x.
Proof.
  revert x. induction t as [|a t IH]; intros x Hin; [reflexivity|].
  cbn [string_rev_onto]. rewrite IH.
  - cbn [drop_leading]. rewrite bool_decide_eq_true_2; [reflexivity|].
    apply Hin. cbn. apply elem_of_cons. now left.
  - intros b Hb. apply Hin. cbn. apply elem_of_cons. now right.
Qed.

Lemma TrimRight_trailing (s t : string) (cutset : list ascii) :
  (forall a, a ∈ list_ascii_of_string t -> a ∈ cutset) ->
  TrimRight (s +:+ t) cutset = TrimRight s cutset.
Proof.
  intros Hin. unfold TrimRight.
  now rewrite string_rev_onto_app, drop_leading_rev_onto.
Qed.

Lemma TrimRight_kept (s : string) (a : ascii) (cutset : list ascii) :
  a ∉ cutset ->
  TrimRight (s +:+ String a EmptyString) cutset = s +:+ String a EmptyString.
Proof.
  intros Hout. unfold TrimRight. rewrite string_rev_onto_app.
  cbn [string_rev_onto drop_leading].
  rewrite bool_decide_eq_false_2 by assumption.
  cbn [string_rev_onto]. now rewrite string_rev_onto_involutive.
Qed.

Lemma TrimRight_empty (cutset : list ascii) : TrimRight "" cutset = "".
Proof. reflexivity. Qed.

Example TrimRight_Input_line : TrimRight Input_line [CR; LF] = "42".
Proof. reflexivity. Qed.

Lemma SetInPlace_state_input (i : Interpreter) (name : string) (v : Object)
  (t : Target) :
  input (SetInPlace_state i name v t) = input i.
Proof.
  destruct t; cbn; unfold write_store, write_field;
    repeat match goal with |- context [match ?x with _ => _ end] => destruct x end;
    reflexivity.
Qed.

Lemma isConstant_from_envs (i i' : Interpreter) (name : string) :
  envs i' = envs i ->
  forall (n : nat) (e : loc),
    isConstant_from n i' e name = isConstant_from n i e name.
Proof.
  intros Henvs n. induction n as [|n IH]; intros e; [reflexivity|].
  cbn [isConstant_from]. rewrite Henvs.
  destruct (envs i !! e) as [E|]; [|reflexivity].
  destruct (default false (constants E !! name)); [reflexivity|].
  destruct (outer E); [apply IH|reflexivity].
Qed.

(** C9, as stated, fails: INPUT reads the line [new] with success, but the
    target [p.name], a field of a record, keeps the String it held, and the
    target [K], a constant, keeps its Integer; both statements yield Null
    and the programs go on. *)
Lemma C9_unassigned_target_counterexample :
  observe 6 Input_field_program (one_line "new")
  = Some (NullObj, ["old" +:+ newline])
  /\ (i ← final_state 6 Input_field_program (one_line "new"); Some (input i))
     = Some no_input
  /\ observe 6 Input_constant_program (one_line "new")
     = Some (NullObj, ["1" +:+ newline]).
Proof. repeat split; vm_compute; reflexivity. Qed.

Lemma Resolves_set_input (i : Interpreter) (rest : Reader) (name : string)
  (e : loc) (t : Target) :
  Resolves i name e t -> Resolves (set_input rest i) name e t.
Proof.
  induction 1 as [e E HE Hw|e E p HE Hs Hp Hf|e E o t HE Hs Hf Ho Hlt _ IH
                 |e E HE Hs Hf Ho].
  - now apply Resolves_store with E.
  - now apply Resolves_field with E.
  - now apply Resolves_outer with E o.
  - now apply Resolves_root with E.
Qed.

Section Input.

Variable fmt_g : float64 -> string.
Variable Date_Inspect : Z -> Z -> Z -> string.

#[local] Abbreviation eS n := (evalStatement fmt_g Date_Inspect n).
#[local] Abbreviation eE n := (evalExpression fmt_g Date_Inspect n).

(** C9, amended: when INPUT has read a line (the read ended with a line
    feed or with the end of the input) and its target is an identifier
    that does not resolve to a binding marked constant, the target
    variable holds the String made of the line without its trailing
    carriage returns and line feeds, whatever the variable held or was
    declared as, and whatever constant of the same name a scope farther
    out holds; the statement yields Null, not an error.  For a target that
    is an array element that String is the value handed to the array
    assignment. *)
Theorem C9_input_stores_string
  (n : nat) (i : Interpreter) (env_ : loc) (name : string)
  (line : string) (err : option (option string)) (rest : Reader)
  (t : Target) :
  ReadString (chunks (input i)) (failure (input i)) "" = (line, err, rest) ->
  (forall msg, err <> Some (Some msg)) ->
  Resolves i name env_ t ->
  writable i name t ->
  (exists i',
      eS (S n) (ast.InputStatement (ast.Identifier name)) env_ i
      = Returns NullObj i'
      /\ Get i' env_ name = Some (StringObj (TrimRight line [CR; LF]))
      /\ input i' = rest)
  /\ (forall array indices,
        eS (S n) (ast.InputStatement (ast.ArrayAccess array indices)) env_ i
        = evalArrayAssignment (eE n) array indices
            (StringObj (TrimRight line [CR; LF])) env_ (set_input rest i)).
Proof.
  intros Hread Herr Hres Hw.
  assert (Hok : forall target,
             eS (S n) (ast.InputStatement target) env_ i
             = storeLine (eE n) target (TrimRight line [CR; LF]) env_
                 (set_input rest i)).
  { intros target. rewrite evalStatement_S. cbn [evalStatement_body].
    unfold evalInputStatement, bind, get_state. rewrite Hread.
    unfold modify.
    destruct err as [[msg|]|]; [now destruct (Herr msg)|reflexivity|reflexivity]. }
  split; [|intros array indices; apply Hok].
  set (i0 := set_input rest i).
  assert (Ht : Resolves i0 name env_ t) by now apply Resolves_set_input.
  assert (Hw0 : writable i0 name t) by (destruct t; exact Hw).
  exists (SetInPlace_state i0 name (StringObj (TrimRight line [CR; LF])) t).
  split; [|split].
  - rewrite Hok. unfold storeLine, bind. fold i0.
    now rewrite (SetInPlace_writes i0 name _ env_ t Ht Hw0).
  - apply Get_from_after_write; [assumption|lia].
  - now rewrite SetInPlace_state_input.
Qed.

End Input.

Lemma C9_input_stores_string_witness :
  isConstant Shadow_input_state 1%nat "LIMIT" = true
  /\ Get Shadow_input_state 1%nat "LIMIT" = Some (IntegerObj 1)
  /\ Get (state_after
            (evalStatement sample_fmt_g sample_Date_Inspect 3
               (ast.InputStatement (ast.Identifier "LIMIT")) 1%nat)
            Shadow_input_state)
       1%nat "LIMIT"
     = Some (StringObj "42")
  /\ Get (state_after
            (evalStatement sample_fmt_g sample_Date_Inspect 3
               (ast.InputStatement (ast.Identifier "LIMIT")) 1%nat)
            Shadow_input_state)
       0%nat "LIMIT"
     = Some (IntegerObj 5).
Proof.
  split; [reflexivity|]. split; [reflexivity|].
  assert (Hres : Resolves Shadow_input_state "LIMIT" 1%nat (TStore 1%nat)).
  { eapply Resolves_store; [reflexivity|]. vm_compute. eauto. }
  assert (Hw : writable Shadow_input_state "LIMIT" (TStore 1%nat)).
  { eexists. split; reflexivity. }
  destruct (proj1 (C9_input_stores_string sample_fmt_g sample_Date_Inspect 2
                     Shadow_input_state 1%nat "LIMIT" Input_line None
                     {| chunks := []; failure := None |} (TStore 1%nat)
                     eq_refl ltac:(discriminate) Hres Hw))
    as (i' & Hrun & Hget & _).
  unfold state_after. rewrite Hrun. split; [exact Hget|].
  revert Hrun. vm_compute. intros Hrun. injection Hrun as <-. reflexivity.
Defined.

Example Input_program_prints_the_line :
  observe 4 Input_program {| chunks := [ Input_line ]; failure := None |}
  = Some (NullObj, ["42" +:+ newline]).
Proof. vm_compute. reflexivity. Qed.

(** ** Method environments *)

Lemma method_store_lookup (inst : loc) (class : Class) (name : string) :
  method_store inst class !! name
  = match Class_Methods class !! name with
    | Some method => Some (BoundMethodObj inst method)
    | None =>
        if decide (name = "this") then Some (InstanceObj inst)
        else match Class_Parent class with
             | None => None
             | Some parent =>
                 if decide (name = "SUPER")
                 then Some (SuperObj inst (Some parent))
                 else BoundMethodObj inst <$> lookupMethod parent name
             end
    end.
Proof.
  unfold method_store.
  destruct (Class_Parent class) as [parent|].
  - rewrite bindInherited_lookup, lookup_union, lookup_fmap.
    destruct (Class_Methods class !! name) as [m|];
      cbn [fmap option_fmap option_map];
      [now rewrite union_Some_l|rewrite (left_id_L None (∪))].
    destruct (decide (name = "this")) as [->|Hthis].
    + reflexivity.
    + destruct (decide (name = "SUPER")) as [->|Hsuper].
      * reflexivity.
      * rewrite !lookup_insert_ne by congruence. rewrite lookup_empty.
        reflexivity.
  - rewrite lookup_union, lookup_fmap.
    destruct (Class_Methods class !! name) as [m|];
      cbn [fmap option_fmap option_map];
      [now rewrite union_Some_l|rewrite (left_id_L None (∪))].
    destruct (decide (name = "this")) as [->|Hthis].
    + reflexivity.
    + rewrite lookup_insert_ne by congruence. now rewrite lookup_empty.
Qed.

(** C2, as stated, fails: the method [Peek], whose closure is scope 1, is
    called from the body of [Caller], scope 2; its body runs in a scope
    whose parent is scope 2 and reads [secret], which only scope 2 binds.
    The program prints 42 for the call from [Caller], and the call of the
    same method from the main program ends in an error. *)
Lemma C2_caller_scope_counterexample :
  lookupMethod Vault_class "Peek" = Some (FunctionObj "Peek" [] INTEGER Peek_body 1%nat)
  /\ Get Peek_state 1%nat "secret" = None
  /\ Get Peek_state 2%nat "secret" = Some (IntegerObj 42)
  /\ createMethodEnv 0%nat 2%nat Peek_state
     = Returns 3%nat
         (set_envs (envs Peek_state ++ [method_scope 0%nat Vault_class 2%nat])
            Peek_state)
  /\ outer (method_scope 0%nat Vault_class 2%nat) = Some 2%nat
  /\ applyBoundMethod (evalStatement sample_fmt_g sample_Date_Inspect 3) 0%nat
       (FunctionObj "Peek" [] INTEGER Peek_body 1%nat) [] 2%nat Peek_state
     = Returns (IntegerObj 42)
         (set_envs (envs Peek_state ++ [method_scope 0%nat Vault_class 2%nat])
            Peek_state)
  /\ observe 12 Peek_program no_input
     = Some (ErrorObj "identifier not found: secret", ["42" +:+ newline]).
Proof. repeat split; vm_compute; reflexivity. Qed.

(** C2, amended: every invocation of a bound method runs the body in a
    fresh scope whose parent is the scope of the caller, not the closure of
    the declaring class.  The scope aliases the receiving instance, whose
    fields are read and written through it; it binds [this] to the
    instance, [SUPER] only when the class has a parent, and every method of
    the class and of its ancestors as a BoundMethod, a method of the class
    going before [this], [SUPER] and the methods of the ancestors, and a
    method of a nearer ancestor before one of a farther ancestor. *)
Theorem C2_method_environment
  (eS : ast.Statement -> loc -> M Object) (inst callerEnv : loc)
  (args : list Object) (i : Interpreter) (o : Instance) :
  instances i !! inst = Some o ->
  let class := inst_Class o in
  let methodEnv := length (envs i) in
  let E := method_scope inst class callerEnv in
  let i1 := set_envs (envs i ++ [E]) i in
  createMethodEnv inst callerEnv i = Returns methodEnv i1
  /\ envs i !! methodEnv = None
  /\ envs i1 !! methodEnv = Some E
  /\ outer E = Some callerEnv
  /\ instance E = Some inst
  /\ (forall name,
        store E !! name
        = match Class_Methods class !! name with
          | Some method => Some (BoundMethodObj inst method)
          | None =>
              if decide (name = "this") then Some (InstanceObj inst)
              else match Class_Parent class with
                   | None => None
                   | Some parent =>
                       if decide (name = "SUPER")
                       then Some (SuperObj inst (Some parent))
                       else BoundMethodObj inst <$> lookupMethod parent name
                   end
          end)
  /\ (forall name v,
        store E !! name = None -> is_Some (inst_Fields o !! name) ->
        Get i1 methodEnv name = inst_Fields o !! name
        /\ SetInPlace methodEnv name v i1 = Returns v (write_field i1 inst name v))
  /\ (forall name params returnType body closure,
        applyFunction eS
          (BoundMethodObj inst (FunctionObj name params returnType body closure))
          args callerEnv i
        = (run bindMethodParameters methodEnv args 0 params ;>
           do evaluated <~ evalStatements eS body methodEnv ;>
           ret (unwrapReturnValue evaluated)) i1
        /\ applyFunction eS
             (BoundMethodObj inst (ProcedureObj name params body closure))
             args callerEnv i
           = (run bindMethodParameters methodEnv args 0 params ;>
              do evaluated <~ evalStatements eS body methodEnv ;>
              ret (unwrapReturnValue evaluated)) i1).
Proof.
  intros Ho class methodEnv E i1.
  pose proof (createMethodEnv_eq inst callerEnv i o Ho) as Hc.
  assert (HE : envs i1 !! methodEnv = Some E).
  { unfold i1, methodEnv. cbn. rewrite lookup_app_r by lia.
    now rewrite Nat.sub_diag. }
  split; [exact Hc|].
  split; [apply lookup_ge_None_2; unfold methodEnv; lia|].
  split; [exact HE|].
  split; [reflexivity|]. split; [reflexivity|].
  split; [intros name; apply method_store_lookup|].
  split.
  - intros name v Hs Hf.
    assert (Hif : instance_field i1 E name = inst_Fields o !! name).
    { unfold instance_field. cbn. now rewrite Ho. }
    assert (Hres : Resolves i1 name methodEnv (TField inst)).
    { eapply Resolves_field; [exact HE|exact Hs|reflexivity|].
      now rewrite Hif. }
    split.
    + rewrite (Get_Resolves _ _ _ _ Hres). cbn. now rewrite Ho.
    + now apply (SetInPlace_writes i1 name v methodEnv (TField inst)).
  - intros name params returnType body closure.
    cbn [applyFunction]. unfold applyBoundMethod.
    split; (unfold bind at 1; rewrite Hc; reflexivity).
Qed.

Lemma C2_method_environment_witness :
  instances Peek_state !! 0%nat
  = Some {| inst_Class := Vault_class; inst_Fields := ∅ |}
  /\ createMethodEnv 0%nat 2%nat Peek_state
     = Returns 3%nat
         (set_envs (envs Peek_state ++ [method_scope 0%nat Vault_class 2%nat])
            Peek_state).
Proof.
  split; [reflexivity|].
  exact (proj1 (C2_method_environment
                  (evalStatement sample_fmt_g sample_Date_Inspect 3) 0%nat 2%nat []
                  Peek_state {| inst_Class := Vault_class; inst_Fields := ∅ |}
                  eq_refl)).
Defined.

(** ** Instantiation *)

Lemma update_instance_fresh (i : Interpreter) (l : list Instance) (x : Instance)
  (f : Instance -> Instance) :
  update_instance (length l) f (set_instances (l ++ [x]) i)
  = Returns tt (set_instances (l ++ [f x]) i).
Proof.
  unfold update_instance. cbn. rewrite lookup_app_r by lia.
  rewrite Nat.sub_diag. cbn. rewrite insert_app_r_alt by lia.
  now rewrite Nat.sub_diag.
Qed.

(** A class without a method [NEW] of its own is instantiated without any
    constructor call, whatever its ancestors declare: the arguments are not
    evaluated and the fields are all Null. *)
Lemma evalNewExpression_without_own_NEW
  (eS : ast.Statement -> loc -> M Object) (eE : ast.Expression -> loc -> M Object)
  (className : string) (arguments : list ast.Expression) (env_ : loc)
  (i : Interpreter) (class : Class) :
  Get i env_ className = Some (ClassObj class) ->
  Class_Methods class !! "NEW" = None ->
  evalNewExpression eS eE className arguments env_ i
  = Returns (InstanceObj (length (instances i)))
      (set_instances
         (instances i ++ [ {| inst_Class := class;
                              inst_Fields := initializeInstanceFields class ∅ |} ]) i).
Proof.
  intros Hget Hnew. unfold evalNewExpression, bind, get_state.
  rewrite Hget. unfold alloc_instance. rewrite update_instance_fresh.
  now rewrite Hnew.
Qed.


(** ** Statement lists and control signals *)

Lemma isSignal_false_cases (r : Object) :
  isSignal r = false -> isError r = false /\ has_type r RETURN_VALUE_OBJ = false.
Proof. destruct r; try discriminate; split; reflexivity. Qed.

Lemma isSignal_true_cases (r : Object) :
  isSignal r = true -> isError r = true \/ has_type r RETURN_VALUE_OBJ = true.
Proof. destruct r; try discriminate; [right|left]; reflexivity. Qed.

Section Signals.

Variable eS : ast.Statement -> loc -> M Object.
Variable eE : ast.Expression -> loc -> M Object.

Lemma evalStatements_from_NoSignal (e : loc) (pre : list ast.Statement)
  (r0 r : Object) (i i1 : Interpreter) :
  NoSignal eS (fun _ => e) pre r0 i r i1 ->
  forall rest,
    evalStatements_from eS r0 (pre ++ rest) e i = evalStatements_from eS r rest e i1.
Proof.
  induction 1 as [|stmt pre r0 i r1 i1 r i' Hs Hn _ IH]; intros rest;
    [reflexivity|].
  cbn [app evalStatements_from]. unfold bind. rewrite Hs, Hn. apply IH.
Qed.

Lemma Eval_from_NoSignal (pre : list ast.Statement) (r0 r : Object)
  (i i1 : Interpreter) :
  NoSignal eS env pre r0 i r i1 ->
  forall rest, Eval_from eS r0 (pre ++ rest) i = Eval_from eS r rest i1.
Proof.
  induction 1 as [|stmt pre r0 i r1 i1 r i' Hs Hn _ IH]; intros rest;
    [reflexivity|].
  cbn [app Eval_from]. unfold bind, get_state. rewrite Hs.
  destruct r1; try discriminate; apply IH.
Qed.

(** A list stops at the first statement that yields a signal, with that
    signal and in the state that statement left, whatever follows. *)
Lemma evalStatements_stops (e : loc) (pre post : list ast.Statement)
  (stmt : ast.Statement) (r sig : Object) (i i1 i2 : Interpreter) :
  NoSignal eS (fun _ => e) pre NilObj i r i1 ->
  eS stmt e i1 = Returns sig i2 ->
  isSignal sig = true ->
  evalStatements eS (pre ++ stmt :: post) e i = Returns sig i2.
Proof.
  intros Hpre Hs Hsig. unfold evalStatements.
  rewrite (evalStatements_from_NoSignal e pre NilObj r i i1 Hpre).
  cbn [evalStatements_from]. unfold bind. now rewrite Hs, Hsig.
Qed.

(** A list none of whose statements yields a signal yields the value of
    its last statement. *)
Lemma evalStatements_last (e : loc) (stmts : list ast.Statement) (r : Object)
  (i i1 : Interpreter) :
  NoSignal eS (fun _ => e) stmts NilObj i r i1 ->
  evalStatements eS stmts e i = Returns r i1.
Proof.
  intros Hpre. unfold evalStatements.
  rewrite <- (app_nil_r stmts).
  now rewrite (evalStatements_from_NoSignal e stmts NilObj r i i1 Hpre).
Qed.

(** The program body stops at the first statement that yields a signal; its
    result is the Error, or the value the ReturnSignal carries. *)
Lemma Eval_stops (pre post : list ast.Statement) (stmt : ast.Statement)
  (r sig : Object) (i i1 i2 : Interpreter) :
  NoSignal eS env pre NilObj i r i1 ->
  eS stmt (env i1) i1 = Returns sig i2 ->
  isSignal sig = true ->
  Eval_from eS NilObj (pre ++ stmt :: post) i = Returns (unwrapReturnValue sig) i2.
Proof.
  intros Hpre Hs Hsig.
  rewrite (Eval_from_NoSignal pre NilObj r i i1 Hpre).
  cbn [Eval_from]. unfold bind, get_state. rewrite Hs.
  destruct sig; try discriminate; reflexivity.
Qed.

Lemma Eval_last (stmts : list ast.Statement) (r : Object) (i i1 : Interpreter) :
  NoSignal eS env stmts NilObj i r i1 ->
  Eval_from eS NilObj stmts i = Returns r i1.
Proof.
  intros Hpre. rewrite <- (app_nil_r stmts).
  now rewrite (Eval_from_NoSignal stmts NilObj r i i1 Hpre).
Qed.

(** An IF statement yields what the branch it takes yields. *)
Lemma evalIfStatement_branch (cond : ast.Expression)
  (consequence : list ast.Statement) (alternative : option (list ast.Statement))
  (e : loc) (c : Object) (i i1 : Interpreter) :
  eE cond e i = Returns c i1 ->
  isError c = false ->
  evalIfStatement eS eE cond consequence alternative e i
  = if isTruthy c then evalStatements eS consequence e i1
    else match alternative with
         | Some alt => evalStatements eS alt e i1
         | None => Returns NullObj i1
         end.
Proof.
  intros Hc He. unfold evalIfStatement, bind. rewrite Hc, He.
  destruct (isTruthy c); [reflexivity|]. now destruct alternative.
Qed.

(** A CASE statement yields what the body of the first matching clause
    yields, or else what the OTHERWISE body yields. *)
Lemma evalCases_clause (value : Object) (caseValues : list ast.Expression)
  (body : list ast.Statement) (rest : list ast.CaseClause)
  (otherwise : option (list ast.Statement)) (e : loc) (m : bool)
  (i i1 : Interpreter) :
  matchesClause eE value caseValues e i = Returns m i1 ->
  evalCases eS eE value (ast.MkCaseClause caseValues body :: rest) otherwise e i
  = if m then evalStatements eS body e i1
    else evalCases eS eE value rest otherwise e i1.
Proof. intros Hm. cbn [evalCases]. unfold bind. rewrite Hm. now destruct m. Qed.

Lemma evalCases_otherwise (value : Object) (body : list ast.Statement) (e : loc)
  (i : Interpreter) :
  evalCases eS eE value [] (Some body) e i = evalStatements eS body e i.
Proof. reflexivity. Qed.

(** An iteration of a FOR loop whose body yields a signal ends the loop
    with that signal; otherwise the loop goes on with the next value. *)
Lemma forLoop_iteration (n : nat) (var : string) (step stop : Z)
  (body : list ast.Statement) (loopEnv : loc) (current : Z)
  (result w r : Object) (i i1 i2 : Interpreter) :
  ((0 <? step) && (stop <? current) = false)%Z ->
  ((step <? 0) && (current <? stop) = false)%Z ->
  SetInPlace loopEnv var (IntegerObj current) i = Returns w i1 ->
  evalStatements eS body loopEnv i1 = Returns r i2 ->
  forLoop eS (S n) var step stop body loopEnv current result i
  = if isSignal r then Returns r i2
    else forLoop eS n var step stop body loopEnv (wrap64 (current + step)) r i2.
Proof.
  intros H1 H2 Hset Hbody. cbn [forLoop]. rewrite H1, H2. unfold bind.
  rewrite Hset, Hbody. destruct r; reflexivity.
Qed.

(** The same for a WHILE loop. *)
Lemma whileLoop_iteration (n : nat) (cond : ast.Expression)
  (body : list ast.Statement) (e : loc) (result c r : Object)
  (i i1 i2 : Interpreter) :
  eE cond e i = Returns c i1 ->
  isError c = false ->
  isTruthy c = true ->
  evalStatements eS body e i1 = Returns r i2 ->
  whileLoop eS eE (S n) cond body e result i
  = if isSignal r then Returns r i2 else whileLoop eS eE n cond body e r i2.
Proof.
  intros Hc He Ht Hbody. cbn [whileLoop]. unfold bind.
  rewrite Hc, He, Ht. cbn [negb]. rewrite Hbody. destruct r; reflexivity.
Qed.

(** The same for a REPEAT loop: after a body that yields a signal the
    condition is not evaluated. *)
Lemma repeatLoop_iteration (n : nat) (body : list ast.Statement)
  (cond : ast.Expression) (e : loc) (r : Object) (i i1 : Interpreter) :
  evalStatements eS body e i = Returns r i1 ->
  isSignal r = true ->
  repeatLoop eS eE (S n) body cond e i = Returns r i1.
Proof.
  intros Hbody Hsig. cbn [repeatLoop]. unfold bind. rewrite Hbody.
  destruct r; try discriminate; reflexivity.
Qed.

End Signals.

(** C1, as stated, fails for the program body: the first statement of
    [Return_program] yields a ReturnSignal, the second statement is not
    evaluated (nothing is printed), but the result of the whole list is the
    Integer the signal carries, not the signal. *)
Lemma C1_program_body_counterexample :
  evalStatement sample_fmt_g sample_Date_Inspect 3 Return_5 0%nat (New no_input)
  = Returns (ReturnValueObj (IntegerObj 5)) (New no_input)
  /\ Eval sample_fmt_g sample_Date_Inspect 3 Return_program (New no_input)
     = Returns (IntegerObj 5) (New no_input)
  /\ IntegerObj 5 <> ReturnValueObj (IntegerObj 5)
  /\ isSignal (IntegerObj 5) = false.
Proof. repeat split; try (vm_compute; reflexivity). discriminate. Qed.

Section StatementLists.

Variable fmt_g : float64 -> string.
Variable Date_Inspect : Z -> Z -> Z -> string.

#[local] Abbreviation eS n := (evalStatement fmt_g Date_Inspect n).
#[local] Abbreviation eE n := (evalExpression fmt_g Date_Inspect n).

(** C1, amended.  In every statement list that [evalStatements] executes
    (IF branches, loop bodies, CASE clause bodies, function and procedure
    bodies), when the statements before the k-th yield no signal and the
    k-th yields an Error or a ReturnSignal, the list yields that signal in
    the state the k-th statement left, whatever follows it; otherwise the
    list yields the last value produced.  The program body stops in the
    same way, but its result is the value a ReturnSignal carries (an Error
    is the result as it is).  The enclosing statement hands the signal on:
    an IF and a CASE statement yield what the executed branch or clause
    body yields, and an iteration of a FOR, WHILE or REPEAT loop whose body
    yields a signal ends the loop with that signal in the state the body
    left. *)
Theorem C1_signals_stop_statement_lists (n : nat) :
  (forall e pre post stmt r sig i i1 i2,
      NoSignal (eS n) (fun _ => e) pre NilObj i r i1 ->
      eS n stmt e i1 = Returns sig i2 ->
      isSignal sig = true ->
      evalStatements (eS n) (pre ++ stmt :: post) e i = Returns sig i2)
  /\ (forall e stmts r i i1,
        NoSignal (eS n) (fun _ => e) stmts NilObj i r i1 ->
        evalStatements (eS n) stmts e i = Returns r i1)
  /\ (forall pre post stmt r sig i i1 i2,
        NoSignal (eS n) env pre NilObj i r i1 ->
        eS n stmt (env i1) i1 = Returns sig i2 ->
        isSignal sig = true ->
        (Eval fmt_g Date_Inspect n {| ast.Statements := pre ++ stmt :: post |}) i
        = Returns (unwrapReturnValue sig) i2)
  /\ (forall stmts r i i1,
        NoSignal (eS n) env stmts NilObj i r i1 ->
        (Eval fmt_g Date_Inspect n {| ast.Statements := stmts |}) i
        = Returns r i1)
  /\ (forall cond consequence alternative e c i i1,
        eE n cond e i = Returns c i1 ->
        isError c = false ->
        eS (S n) (ast.IfStatement cond consequence alternative) e i
        = if isTruthy c then evalStatements (eS n) consequence e i1
          else match alternative with
               | Some alt => evalStatements (eS n) alt e i1
               | None => Returns NullObj i1
               end)
  /\ (forall expr caseValues body rest otherwise e value m i i1 i2,
        eE n expr e i = Returns value i1 ->
        isError value = false ->
        matchesClause (eE n) value caseValues e i1 = Returns m i2 ->
        eS (S n) (ast.CaseStatement expr (ast.MkCaseClause caseValues body :: rest)
                    otherwise) e i
        = if m then evalStatements (eS n) body e i2
          else evalCases (eS n) (eE n) value rest otherwise e i2)
  /\ (forall m var step stop body loopEnv current result w r i i1 i2,
        ((0 <? step) && (stop <? current) = false)%Z ->
        ((step <? 0) && (current <? stop) = false)%Z ->
        SetInPlace loopEnv var (IntegerObj current) i = Returns w i1 ->
        evalStatements (eS n) body loopEnv i1 = Returns r i2 ->
        forLoop (eS n) (S m) var step stop body loopEnv current result i
        = if isSignal r then Returns r i2
          else forLoop (eS n) m var step stop body loopEnv
                 (wrap64 (current + step)) r i2)
  /\ (forall m cond body e result c r i i1 i2,
        eE n cond e i = Returns c i1 ->
        isError c = false ->
        isTruthy c = true ->
        evalStatements (eS n) body e i1 = Returns r i2 ->
        whileLoop (eS n) (eE n) (S m) cond body e result i
        = if isSignal r then Returns r i2
          else whileLoop (eS n) (eE n) m cond body e r i2)
  /\ (forall m body cond e r i i1,
        evalStatements (eS n) body e i = Returns r i1 ->
        isSignal r = true ->
        repeatLoop (eS n) (eE n) (S m) body cond e i = Returns r i1)
  /\ (forall cond body e i,
        eS (S n) (ast.WhileStatement cond body) e i
        = whileLoop (eS n) (eE n) n cond body e NilObj i)
  /\ (forall cond body e i,
        eS (S n) (ast.RepeatStatement body cond) e i
        = repeatLoop (eS n) (eE n) n body cond e i)
  /\ (forall var start stop step body e a b st i i1 i2 i3,
        eE n start e i = Returns (IntegerObj a) i1 ->
        eE n stop e i1 = Returns (IntegerObj b) i2 ->
        evalStep (eE n) step e i2 = Returns (inr st) i3 ->
        eS (S n) (ast.ForStatement var start stop step body) e i
        = (do loopEnv <~ NewEnclosedEnvironment e ;>
           run Declare_ loopEnv var (IntegerObj a) ;>
           forLoop (eS n) n var st b body loopEnv a NilObj) i3).
Proof.
  repeat match goal with |- _ /\ _ => split end.
  - intros. eapply evalStatements_stops; eauto.
  - intros. now apply evalStatements_last.
  - intros. unfold Eval. cbn [ast.Statements]. eapply Eval_stops; eauto.
  - intros. unfold Eval. cbn [ast.Statements]. now apply Eval_last.
  - intros. rewrite evalStatement_S. cbn [evalStatement_body].
    now apply evalIfStatement_branch.
  - intros expr caseValues body rest otherwise e value m i i1 i2 Hv He Hm.
    rewrite evalStatement_S. cbn [evalStatement_body].
    unfold evalCaseStatement, bind. rewrite Hv, He.
    now apply evalCases_clause.
  - intros. eapply forLoop_iteration; eauto.
  - intros. eapply whileLoop_iteration; eauto.
  - intros. eapply repeatLoop_iteration; eauto.
  - reflexivity.
  - reflexivity.
  - intros var start stop step body e a b st i i1 i2 i3 Hs He Hst.
    rewrite evalStatement_S. cbn [evalStatement_body].
    unfold evalForStatement, bind. rewrite Hs. cbn [isError has_type Type_].
    cbn [ERROR_OBJ INTEGER_OBJ String.eqb Ascii.eqb Bool.eqb].
    rewrite He. cbn [isError has_type Type_].
    cbn [ERROR_OBJ INTEGER_OBJ String.eqb Ascii.eqb Bool.eqb].
    now rewrite Hst.
Qed.

End StatementLists.

Lemma C1_signals_stop_statement_lists_witness :
  NoSignal (evalStatement sample_fmt_g sample_Date_Inspect 3) (fun _ => 0%nat)
    [ Output_a ] NilObj (New no_input) NullObj
    (set_output ["a" +:+ newline] (New no_input))
  /\ evalStatements (evalStatement sample_fmt_g sample_Date_Inspect 3)
       ([ Output_a ] ++ Return_5 :: [ Output_b ]) 0%nat (New no_input)
     = Returns (ReturnValueObj (IntegerObj 5))
         (set_output ["a" +:+ newline] (New no_input)).
Proof.
  assert (Hpre : NoSignal (evalStatement sample_fmt_g sample_Date_Inspect 3)
                   (fun _ => 0%nat) [ Output_a ] NilObj (New no_input) NullObj
                   (set_output ["a" +:+ newline] (New no_input))).
  { eapply NoSignal_cons; [reflexivity|reflexivity|apply NoSignal_nil]. }
  split; [exact Hpre|].
  apply (proj1 (C1_signals_stop_statement_lists sample_fmt_g sample_Date_Inspect 3)
           0%nat [ Output_a ] [ Output_b ] Return_5 NullObj
           (ReturnValueObj (IntegerObj 5)) (New no_input)
           (set_output ["a" +:+ newline] (New no_input))
           (set_output ["a" +:+ newline] (New no_input)) Hpre);
    reflexivity.
Defined.

(** [TestEarlyReturnInLoop] and [TestFunctionWithRecursion]: the RETURN in
    the IF in the FOR loop ends the call with 5, and [Factorial(5)] is
    120. *)
Example FindFirst_returns_5 :
  observe 12 FindFirst_program no_input = Some (IntegerObj 5, []).
Proof. vm_compute. reflexivity. Qed.

Example Factorial_5_is_120 :
  observe 24 Factorial_program no_input = Some (IntegerObj 120, []).
Proof. vm_compute. reflexivity. Qed.

(** * Further properties of the code *)

Lemma bind_Returns {A B} (c : M A) (k : A -> M B) (i i1 : Interpreter) (a : A) :
  c i = Returns a i1 -> bind c k i = k a i1.
Proof. intros H. unfold bind. now rewrite H. Qed.

(** ** Built-in functions on strings *)

Lemma string_take_drop (n : nat) (s : string) :
  string_take n s +:+ string_drop n s = s.
Proof.
  revert s. induction n as [|n IH]; intros [|c s];
    cbn [string_take string_drop]; try reflexivity.
  change (String c (string_take n s +:+ string_drop n s) = String c s).
  now rewrite IH.
Qed.

Lemma string_take_length (n : nat) (s : string) :
  (n <= String.length s)%nat -> String.length (string_take n s) = n.
Proof.
  revert s. induction n as [|n IH]; intros [|c s] Hn; cbn in *;
    try reflexivity; try lia.
  rewrite IH; [reflexivity|lia].
Qed.

Lemma string_drop_length (n : nat) (s : string) :
  String.length (string_drop n s) = (String.length s - n)%nat.
Proof.
  revert s. induction n as [|n IH]; intros [|c s]; cbn; try reflexivity; try lia.
  apply IH.
Qed.

Lemma string_take_all (n : nat) (s : string) :
  (String.length s <= n)%nat -> string_take n s = s.
Proof.
  revert s. induction n as [|n IH]; intros [|c s] Hn; cbn in *;
    try reflexivity; try lia.
  rewrite IH; [reflexivity|lia].
Qed.

Lemma slice_Some (s : string) (lo hi : Z) :
  0 <= lo <= hi -> hi <= Z.of_nat (String.length s) ->
  slice s lo hi
  = Some (string_take (Z.to_nat (hi - lo)) (string_drop (Z.to_nat lo) s)).
Proof.
  intros [H1 H2] H3. unfold slice.
  now rewrite (proj2 (Z.leb_le 0 lo)), (proj2 (Z.leb_le lo hi)),
    (proj2 (Z.leb_le hi _)).
Qed.

Lemma slice_None (s : string) (lo hi : Z) : hi < lo -> slice s lo hi = None.
Proof.
  intros H. unfold slice. rewrite (proj2 (Z.leb_gt lo hi)) by lia.
  now rewrite andb_false_r.
Qed.

(** X1: LEFT and RIGHT never panic, whatever the arguments; a negative
    count is an Error; for a count [n] between 0 and the length of [s],
    LEFT(s, n) has [n] bytes and LEFT(s, n) followed by
    RIGHT(s, LENGTH(s) - n) is [s]; a count beyond the length gives
    [s]. *)
Theorem LEFT_RIGHT_split :
  (forall args, is_Some (builtins.left args) /\ is_Some (builtins.right args))
  /\ (forall (s : string) (n : Z),
        n < 0 ->
        builtins.left [StringObj s; IntegerObj n]
        = Some (ErrorObj "LEFT: length cannot be negative")
        /\ builtins.right [StringObj s; IntegerObj n]
           = Some (ErrorObj "RIGHT: length cannot be negative"))
  /\ (forall (s : string) (n : Z),
        Z.of_nat (String.length s) <= n ->
        builtins.left [StringObj s; IntegerObj n] = Some (StringObj s)
        /\ builtins.right [StringObj s; IntegerObj n] = Some (StringObj s))
  /\ (forall (s : string) (n : Z),
        0 <= n <= Z.of_nat (String.length s) ->
        exists l r : string,
          builtins.left [StringObj s; IntegerObj n] = Some (StringObj l)
          /\ builtins.right
               [StringObj s; IntegerObj (Z.of_nat (String.length s) - n)]
             = Some (StringObj r)
          /\ builtins.length [StringObj l] = Some (IntegerObj n)
          /\ l +:+ r = s).
Proof.
  split; [|split; [|split]].
  - intros args. unfold builtins.left, builtins.right.
    destruct args as [|[] [|[] [|? ?]]]; try (split; eauto; fail).
    cbv zeta.
    match goal with |- context [?n <? 0] => destruct (Z.ltb_spec n 0) end;
      [split; eauto|].
    match goal with
    | |- context [?l <=? ?n] => destruct (Z.leb_spec l n)
    end; [split; eauto|].
    rewrite !slice_Some by lia. split; eauto.
  - intros s n Hn. unfold builtins.left, builtins.right.
    now rewrite (proj2 (Z.ltb_lt n 0) Hn).
  - intros s n Hn. unfold builtins.left, builtins.right. cbv zeta.
    destruct (n <? 0) eqn:Hneg; [apply Z.ltb_lt in Hneg; lia|].
    now rewrite (proj2 (Z.leb_le _ n) Hn).
  - intros s n [H0 Hn].
    set (len := Z.of_nat (String.length s)) in *.
    exists (string_take (Z.to_nat n) s), (string_drop (Z.to_nat n) s).
    assert (Htake : Z.of_nat (String.length (string_take (Z.to_nat n) s)) = n).
    { rewrite string_take_length by (unfold len in Hn; lia). lia. }
    split; [|split; [|split]].
    + unfold builtins.left. rewrite (proj2 (Z.ltb_ge n 0)) by lia. fold len.
      destruct (len <=? n) eqn:Hlen.
      * apply Z.leb_le in Hlen. assert (n = len) by lia. subst n.
        rewrite string_take_all by (unfold len; lia). reflexivity.
      * rewrite slice_Some by (fold len; lia). cbn.
        now rewrite Z.sub_0_r.
    + unfold builtins.right. rewrite (proj2 (Z.ltb_ge (len - n) 0)) by lia.
      cbv zeta. fold len.
      destruct (len <=? len - n) eqn:Hlen.
      * apply Z.leb_le in Hlen. assert (n = 0) by lia. subst n. reflexivity.
      * apply Z.leb_gt in Hlen. rewrite slice_Some by (fold len; lia). cbn.
        replace (len - (len - n)) with n by lia.
        rewrite string_take_all; [reflexivity|].
        rewrite string_drop_length. unfold len. lia.
    + cbn. now rewrite Htake.
    + apply string_take_drop.
Qed.

Lemma LEFT_RIGHT_split_witness :
  exists l r : string,
    builtins.left [StringObj "pseudocode"; IntegerObj 6] = Some (StringObj l)
    /\ builtins.right [StringObj "pseudocode"; IntegerObj 4] = Some (StringObj r)
    /\ l +:+ r = "pseudocode".
Proof.
  destruct (proj2 (proj2 (proj2 LEFT_RIGHT_split)) "pseudocode" 6)
    as (l & r & Hl & Hr & _ & Hs); [cbn; lia|].
  exists l, r. repeat split; assumption.
Defined.

Lemma wrap64_id (z : Z) : is_int64 z -> wrap64 z = z.
Proof.
  intros [H1 H2]. unfold wrap64. rewrite Z.mod_small; lia.
Qed.

Lemma wrap64_is_int64 (z : Z) : is_int64 (wrap64 z).
Proof.
  unfold wrap64, is_int64.
  pose proof (Z.mod_pos_bound (z + 2 ^ 63) (2 ^ 64) ltac:(lia)). lia.
Qed.

(** X2: MID(s, start, length) counts positions from 1 and is the
    substring when it lies within [s]; a start beyond the end gives the
    empty string; MID(s, 1, n) is LEFT(s, n) for every count [n >= 0]; with
    a start within [s] and a negative length the slice expression is out of
    range and the built-in panics. *)
Theorem MID_substring_or_panic (s : string) (start length : Z) :
  Z.of_nat (String.length s) < 2 ^ 63 ->
  is_int64 start -> is_int64 length ->
  (1 <= start -> 0 <= length ->
   start - 1 + length <= Z.of_nat (String.length s) ->
   builtins.mid [StringObj s; IntegerObj start; IntegerObj length]
   = Some (StringObj (string_take (Z.to_nat length)
                        (string_drop (Z.to_nat (start - 1)) s))))
  /\ (Z.of_nat (String.length s) < start ->
      builtins.mid [StringObj s; IntegerObj start; IntegerObj length]
      = Some (StringObj ""))
  /\ (0 <= length ->
      builtins.mid [StringObj s; IntegerObj 1; IntegerObj length]
      = builtins.left [StringObj s; IntegerObj length])
  /\ (1 <= start <= Z.of_nat (String.length s) -> length < 0 ->
      builtins.mid [StringObj s; IntegerObj start; IntegerObj length] = None).
Proof.
  intros Hs Hstart Hlength. unfold is_int64 in *.
  set (len := Z.of_nat (String.length s)) in *.
  assert (Hlen0 : 0 <= len) by (unfold len; lia).
  split; [|split; [|split]].
  - intros H1 H0 Hin. unfold builtins.mid. cbv zeta. fold len.
    rewrite (wrap64_id (start - 1)) by (unfold is_int64; lia).
    destruct (Z.ltb_spec (start - 1) 0); [lia|].
    destruct (Z.leb_spec len (start - 1)).
    + assert (length = 0) by lia. subst length. reflexivity.
    + rewrite wrap64_id by (unfold is_int64; lia).
      destruct (Z.ltb_spec len (start - 1 + length)); [lia|].
      rewrite slice_Some by (fold len; lia). cbn.
      now replace (start - 1 + length - (start - 1)) with length by lia.
  - intros Hlt. unfold builtins.mid. cbv zeta. fold len.
    rewrite (wrap64_id (start - 1)) by (unfold is_int64; lia).
    destruct (Z.ltb_spec (start - 1) 0); [lia|].
    destruct (Z.leb_spec len (start - 1)); [reflexivity|lia].
  - intros H0. unfold builtins.mid, builtins.left. cbv zeta. fold len.
    change (wrap64 (1 - 1)) with 0. cbn [Z.ltb Z.compare].
    destruct (Z.ltb_spec length 0); [lia|].
    rewrite wrap64_id by (unfold is_int64; lia). rewrite Z.add_0_l.
    destruct (Z.leb_spec len 0).
    + assert (Hz : String.length s = 0%nat) by (unfold len in *; lia).
      destruct s; [|discriminate Hz].
      destruct (Z.leb_spec len length); [reflexivity|lia].
    + destruct (Z.ltb_spec len length).
      * destruct (Z.leb_spec len length); [|lia].
        rewrite slice_Some by (fold len; lia). cbn.
        rewrite Z.sub_0_r, string_take_all
          by (rewrite ?string_drop_length; unfold len; lia).
        reflexivity.
      * destruct (Z.leb_spec len length).
        -- assert (length = len) by lia. subst length.
           rewrite slice_Some by (fold len; lia). cbn.
           rewrite Z.sub_0_r, string_take_all
             by (rewrite ?string_drop_length; unfold len; lia).
           reflexivity.
        -- reflexivity.
  - intros [H1 Hin] Hneg. unfold builtins.mid. cbv zeta. fold len.
    rewrite (wrap64_id (start - 1)) by (unfold is_int64; lia).
    destruct (Z.ltb_spec (start - 1) 0); [lia|].
    destruct (Z.leb_spec len (start - 1)); [lia|].
    rewrite wrap64_id by (unfold is_int64; lia).
    destruct (Z.ltb_spec len (start - 1 + length)); [lia|].
    rewrite slice_None by lia. reflexivity.
Qed.

Lemma MID_substring_or_panic_witness :
  builtins.mid [StringObj "pseudocode"; IntegerObj 7; IntegerObj 4]
  = Some (StringObj "code")
  /\ builtins.mid [StringObj "pseudocode"; IntegerObj 7; IntegerObj (-1)] = None.
Proof.
  assert (Hs : Z.of_nat (String.length "pseudocode") < 2 ^ 63) by (cbn; lia).
  split.
  - apply (MID_substring_or_panic "pseudocode" 7 4 Hs);
      unfold is_int64; cbn; lia.
  - apply (MID_substring_or_panic "pseudocode" 7 (-1) Hs);
      unfold is_int64; cbn; lia.
Defined.

(** ** Built-in functions on characters and numbers *)

Lemma wrap32_id (z : Z) : is_int32 z -> wrap32 z = z.
Proof.
  intros [H1 H2]. unfold wrap32. rewrite Z.mod_small; lia.
Qed.

Lemma wrap32_is_int32 (z : Z) : is_int32 (wrap32 z).
Proof.
  unfold wrap32, is_int32.
  pose proof (Z.mod_pos_bound (z + 2 ^ 31) (2 ^ 32) ltac:(lia)). lia.
Qed.

(** X3: CHR accepts every Integer and keeps its low 32 bits, so codes
    2^32 apart give the same character; ASC gives back the code of
    CHR(n) exactly when [n] is a 32-bit value. *)
Theorem ASC_CHR_round_trip (n : Z) :
  builtins.chr [IntegerObj (n + 2 ^ 32)] = builtins.chr [IntegerObj n]
  /\ (builtins.asc [builtins.chr [IntegerObj n]] = IntegerObj n
      <-> is_int32 n).
Proof.
  split.
  - cbn. f_equal. unfold wrap32.
    replace (n + 2 ^ 32 + 2 ^ 31) with (n + 2 ^ 31 + 1 * 2 ^ 32) by lia.
    now rewrite Z.mod_add by lia.
  - cbn. split.
    + intros H. injection H as H. rewrite <- H. apply wrap32_is_int32.
    + intros H. now rewrite wrap32_id.
Qed.

(** X4: ABS of an Integer is its absolute value, which is not negative,
    except for the least Integer, which ABS returns as it is. *)
Theorem ABS_of_Integer (v : Z) :
  is_int64 v ->
  exists r : Z,
    builtins.abs [IntegerObj v] = IntegerObj r
    /\ is_int64 r
    /\ (v <> - 2 ^ 63 -> r = Z.abs v /\ 0 <= r)
    /\ (v = - 2 ^ 63 -> r = v).
Proof.
  intros Hv. unfold builtins.abs. destruct (Z.ltb_spec v 0) as [Hneg|Hpos].
  - exists (wrap64 (- v)). split; [reflexivity|].
    split; [apply wrap64_is_int64|]. unfold is_int64 in Hv. split.
    + intros Hne. rewrite wrap64_id by (unfold is_int64; lia). lia.
    + intros ->. reflexivity.
  - exists v. unfold is_int64 in *. repeat split; try lia.
Qed.

Lemma ABS_of_Integer_witness :
  builtins.abs [IntegerObj (- 2 ^ 63)] = IntegerObj (- 2 ^ 63)
  /\ builtins.abs [IntegerObj (- 7)] = IntegerObj 7.
Proof.
  split.
  - destruct (ABS_of_Integer (- 2 ^ 63)) as (r & Hr & _ & _ & Hmin);
      [unfold is_int64; lia|].
    rewrite Hr. f_equal. now apply Hmin.
  - destruct (ABS_of_Integer (- 7)) as (r & Hr & _ & Habs & _);
      [unfold is_int64; lia|].
    rewrite Hr. f_equal. apply Habs. lia.
Defined.


(** ** Conversions between numbers and strings *)

Lemma digit_of_pretty_N_char (d : N) :
  (d < 10)%N -> digit_of (pretty_N_char d) = Some d.
Proof.
  intros Hd.
  destruct d as [|p]; [reflexivity|].
  do 4 (try destruct p as [p|p|]); try reflexivity; lia.
Qed.

Lemma parse_digits_pretty_N_go (x : N) :
  forall (s : string),
    parse_digits 0 (pretty_N_go x s) = parse_digits x s.
Proof.
  induction x as [x IH] using (well_founded_induction N.lt_wf_0).
  intros s. destruct (decide (x = 0)%N) as [->|Hx].
  - now rewrite pretty_N_go_0.
  - rewrite pretty_N_go_step by lia.
    rewrite IH by (apply N.div_lt; lia).
    cbn [parse_digits].
    rewrite digit_of_pretty_N_char by (apply N.mod_lt; lia).
    f_equal. pose proof (N.div_mod x 10 ltac:(lia)). lia.
Qed.

Lemma pretty_N_go_not_empty (x : N) (s : string) :
  (0 < x)%N -> pretty_N_go x s <> "".
Proof.
  revert s. induction x as [x IH] using (well_founded_induction N.lt_wf_0).
  intros s Hx. rewrite pretty_N_go_step by lia.
  destruct (decide (x `div` 10 = 0)%N) as [->|Hd].
  - now rewrite pretty_N_go_0.
  - apply IH; [apply N.div_lt; lia|].
    now apply N.neq_0_lt_0.
Qed.

Lemma ParseUint_pretty (x : N) :
  (x < 2 ^ 64)%N -> ParseUint (pretty x) = Some x.
Proof.
  intros Hx. unfold pretty, pretty_N.
  destruct (decide (x = 0)%N) as [->|H0]; [reflexivity|].
  unfold ParseUint.
  destruct (pretty_N_go x "") eqn:Hp.
  - now destruct (pretty_N_go_not_empty x "" ltac:(lia)).
  - rewrite <- Hp, parse_digits_pretty_N_go. cbn [parse_digits].
    now rewrite (proj2 (N.ltb_lt x _) Hx).
Qed.

Lemma digit_of_not_sign (c : ascii) (d : N) :
  digit_of c = Some d -> Ascii.eqb c "+" = false /\ Ascii.eqb c "-" = false.
Proof.
  destruct c as [[] [] [] [] [] [] [] []]; cbn; intros H;
    try discriminate H; split; reflexivity.
Qed.

Lemma ParseInt_pretty_N (x : N) :
  (x < 2 ^ 63)%N -> ParseInt (pretty x) = Some (Z.of_N x).
Proof.
  intros Hx. pose proof (ParseUint_pretty x ltac:(lia)) as Hu.
  destruct (pretty x) as [|c s] eqn:Hp; [discriminate Hu|].
  unfold ParseInt.
  assert (Hd : exists d, digit_of c = Some d).
  { unfold ParseUint in Hu. cbn [parse_digits] in Hu.
    destruct (digit_of c) as [d|]; [now exists d|discriminate Hu]. }
  destruct Hd as [d Hd]. destruct (digit_of_not_sign c d Hd) as [-> ->].
  cbn [orb negb andb]. rewrite Hu.
  now rewrite (proj2 (N.leb_gt (2 ^ 63) x)) by lia.
Qed.

Lemma ParseInt_pretty (v : Z) : is_int64 v -> ParseInt (pretty v) = Some v.
Proof.
  intros [Hlo Hhi]. destruct v as [|p|p].
  - reflexivity.
  - change (pretty (Z.pos p)) with (pretty (N.pos p)).
    rewrite ParseInt_pretty_N by lia. reflexivity.
  - change (pretty (Z.neg p)) with (String "-" (pretty (N.pos p))).
    unfold ParseInt. cbn [Ascii.eqb Bool.eqb orb negb andb].
    rewrite ParseUint_pretty by lia. cbn [andb].
    destruct (N.ltb_spec (2 ^ 63) (N.pos p)); [lia|]. reflexivity.
Qed.

(** X7: STR_TO_NUM gives back the Integer that NUM_TO_STR has
    printed. *)
Theorem STR_TO_NUM_of_NUM_TO_STR (FormatFloat : float64 -> string)
  (ParseFloat : string -> option float64) (v : Z) :
  is_int64 v ->
  builtins.strToNum ParseFloat [builtins.numToStr FormatFloat [IntegerObj v]]
  = IntegerObj v.
Proof.
  intros Hv. cbn [builtins.numToStr]. unfold builtins.strToNum.
  now rewrite ParseInt_pretty.
Qed.

Lemma STR_TO_NUM_of_NUM_TO_STR_witness :
  builtins.strToNum (fun _ => None)
    [builtins.numToStr (fun _ => "") [IntegerObj (- 2 ^ 63)]]
  = IntegerObj (- 2 ^ 63).
Proof.
  apply STR_TO_NUM_of_NUM_TO_STR. unfold is_int64. lia.
Defined.

(** ** The state changes by elementary steps only *)

Lemma stepwise_ret {A} (a : A) : stepwise (ret a).
Proof. intros i x i' H. injection H as _ H; subst i'. reflexivity. Qed.

Lemma stepwise_panic {A} (msg : string) : stepwise (@panic A msg).
Proof. intros i x i' H. discriminate H. Qed.

Lemma stepwise_OutOfFuel {A} : stepwise (fun _ : Interpreter => @OutOfFuel A).
Proof. intros i x i' H. discriminate H. Qed.

Lemma stepwise_get_state : stepwise get_state.
Proof. intros i x i' H. injection H as _ H; subst i'. reflexivity. Qed.

Lemma stepwise_bind {A B} (c : M A) (k : A -> M B) :
  stepwise c -> (forall a, stepwise (k a)) -> stepwise (bind c k).
Proof.
  intros Hc Hk i b i' H. unfold bind in H.
  destruct (c i) as [a i1| |] eqn:Hci; try discriminate H.
  transitivity i1; [now apply Hc with a|now apply Hk with a b].
Qed.

Lemma stepwise_modify (f : Interpreter -> Interpreter) :
  (forall i, Step i (f i)) -> stepwise (modify f).
Proof. intros Hf i x i' H. injection H as H; subst i'. apply rtc_once, Hf. Qed.

Lemma stepwise_set_input (rest : Reader) : stepwise (modify (set_input rest)).
Proof. apply stepwise_modify. intros i. constructor. Qed.

Lemma stepwise_output (line : Interpreter -> string) :
  stepwise (modify (fun i => set_output (output i ++ [line i]) i)).
Proof. apply stepwise_modify. intros i. constructor. Qed.

Lemma stepwise_set_files (f : gmap string fileState) :
  stepwise (modify (set_files f)).
Proof. apply stepwise_modify. intros i. constructor. Qed.

Lemma stepwise_files (f : Interpreter -> gmap string fileState) :
  stepwise (modify (fun i => set_files (f i) i)).
Proof. apply stepwise_modify. intros i. constructor. Qed.

Lemma stepwise_set_disk (d : gmap string string) :
  stepwise (modify (set_disk d)).
Proof. apply stepwise_modify. intros i. constructor. Qed.

Lemma stepwise_disk (d : Interpreter -> gmap string string) :
  stepwise (modify (fun i => set_disk (d i) i)).
Proof. apply stepwise_modify. intros i. constructor. Qed.

Lemma stepwise_update_env (e : loc) (f : Environment -> Environment) :
  (forall i E, envs i !! e = Some E ->
               Step i (set_envs (<[e := f E]> (envs i)) i)) ->
  stepwise (update_env e f).
Proof.
  intros Hf i x i' H. unfold update_env in H.
  destruct (envs i !! e) as [E|] eqn:HE; [|discriminate H].
  injection H as H; subst i'. now apply rtc_once, Hf.
Qed.

Lemma stepwise_update_instance (p : loc) (f : Instance -> Instance) :
  (forall i o, instances i !! p = Some o ->
               Step i (set_instances (<[p := f o]> (instances i)) i)) ->
  stepwise (update_instance p f).
Proof.
  intros Hf i x i' H. unfold update_instance in H.
  destruct (instances i !! p) as [o|] eqn:Ho; [|discriminate H].
  injection H as H; subst i'. now apply rtc_once, Hf.
Qed.

Lemma stepwise_field_insert (p : loc) (name : string) (v : Object) :
  stepwise (update_instance p
              (fun o => with_Fields (<[name := v]> (inst_Fields o)) o)).
Proof. apply stepwise_update_instance. intros i o Ho. now constructor. Qed.

Lemma stepwise_fields_init (p : loc) (class : Class) :
  stepwise (update_instance p
              (fun o => with_Fields
                          (initializeInstanceFields class (inst_Fields o)) o)).
Proof. apply stepwise_update_instance. intros i o Ho. now constructor. Qed.

Lemma stepwise_read_instance (p : loc) : stepwise (read_instance p).
Proof.
  intros i x i' H. unfold read_instance in H.
  destruct (instances i !! p); [|discriminate H].
  injection H as _ H; subst i'. reflexivity.
Qed.

Lemma stepwise_read_array (p : loc) : stepwise (read_array p).
Proof.
  intros i x i' H. unfold read_array in H.
  destruct (arrays i !! p); [|discriminate H].
  injection H as _ H; subst i'. reflexivity.
Qed.

Lemma stepwise_read_record (p : loc) : stepwise (read_record p).
Proof.
  intros i x i' H. unfold read_record in H.
  destruct (records i !! p); [|discriminate H].
  injection H as _ H; subst i'. reflexivity.
Qed.

Lemma stepwise_element_insert (p : loc) (indices : list Z) (v : Object) :
  stepwise (update_array p
              (fun a => with_Elements
                          (<[GetIndex indices := v]> (arr_Elements a)) a)).
Proof.
  intros i x i' H. unfold update_array in H.
  destruct (arrays i !! p) as [a|] eqn:Ha; [|discriminate H].
  injection H as H; subst i'. apply rtc_once. now constructor.
Qed.

Lemma stepwise_record_field_insert (p : loc) (member : string) (v : Object) :
  stepwise (update_record p
              (fun r => with_rec_Fields (<[member := v]> (rec_Fields r)) r)).
Proof.
  intros i x i' H. unfold update_record in H.
  destruct (records i !! p) as [r|] eqn:Hr; [|discriminate H].
  injection H as H; subst i'. apply rtc_once. now constructor.
Qed.

Lemma stepwise_alloc_array (dims : list ast.ArrayDimension) :
  stepwise (alloc_array {| arr_Elements := ∅; arr_Dimensions := dims |}).
Proof.
  intros i x i' H. injection H as _ H; subst i'. apply rtc_once. constructor.
Qed.

Lemma stepwise_alloc_record (r : RecordVal) : stepwise (alloc_record r).
Proof.
  intros i x i' H. injection H as _ H; subst i'. apply rtc_once. constructor.
Qed.

Lemma stepwise_alloc_instance (class : Class) :
  stepwise (alloc_instance {| inst_Class := class; inst_Fields := ∅ |}).
Proof.
  intros i x i' H. injection H as _ H; subst i'. apply rtc_once. constructor.
Qed.

Lemma stepwise_TypeOf (obj : Object) : stepwise (TypeOf obj).
Proof.
  unfold TypeOf. destruct (Type_ obj);
    [apply stepwise_ret|apply stepwise_panic].
Qed.

Lemma stepwise_InspectOf (fmt_g : float64 -> string)
  (Date_Inspect : Z -> Z -> Z -> string) (obj : Object) :
  stepwise (InspectOf fmt_g Date_Inspect obj).
Proof.
  intros i x i' H. unfold InspectOf in H.
  destruct (Inspect fmt_g Date_Inspect i obj); [|discriminate H].
  injection H as _ H; subst i'. reflexivity.
Qed.

Lemma stepwise_NewEnclosedEnvironment (outer_ : loc) :
  stepwise (NewEnclosedEnvironment outer_).
Proof.
  intros i x i' H. rewrite NewEnclosedEnvironment_eq in H.
  injection H as _ H; subst i'. apply rtc_once. constructor.
Qed.

Lemma stepwise_Declare_ (e : loc) (name : string) (val : Object) :
  stepwise (Declare_ e name val).
Proof.
  unfold Declare_. apply stepwise_bind; [|intros _; apply stepwise_ret].
  apply stepwise_update_env. intros i E HE. now constructor.
Qed.

Lemma stepwise_DeclareConstant (e : loc) (name : string) (val : Object) :
  stepwise (DeclareConstant e name val).
Proof.
  unfold DeclareConstant.
  apply stepwise_bind;
    [apply stepwise_update_env; intros i E HE; now constructor|intros _].
  apply stepwise_bind; [|intros _; apply stepwise_ret].
  apply stepwise_update_env. intros i E HE. now constructor.
Qed.

Lemma stepwise_DefineType (e : loc) (name : string) (typ : Object) :
  stepwise (DefineType e name typ).
Proof.
  unfold DefineType. apply stepwise_update_env. intros i E HE. now constructor.
Qed.

Lemma stepwise_SetInPlace_from (name : string) (val : Object) :
  forall (n : nat) (e : loc), stepwise (SetInPlace_from n e name val).
Proof.
  induction n as [|n IH]; intros e i a i' H; [discriminate H|].
  cbn [SetInPlace_from] in H.
  destruct (envs i !! e) as [E|] eqn:HE; [|discriminate H].
  destruct (store E !! name).
  - destruct (default false (constants E !! name)).
    + injection H as _ H; subst i'. reflexivity.
    + now apply (stepwise_Declare_ e name val i a).
  - assert (Hout : match outer E with
                   | Some o => SetInPlace_from n o name val i
                   | None => Declare_ e name val i
                   end = Returns a i' -> rtc Step i i').
    { destruct (outer E) as [parent|]; intros H'.
      - now apply (IH parent i a).
      - now apply (stepwise_Declare_ e name val i a). }
    destruct (instance_field i E name); [|now apply Hout].
    destruct (instance E) as [p|]; [|now apply Hout].
    revert H. apply stepwise_bind; [|intros _; apply stepwise_ret].
    apply stepwise_field_insert.
Qed.

Lemma stepwise_SetInPlace (e : loc) (name : string) (val : Object) :
  stepwise (SetInPlace e name val).
Proof. apply stepwise_SetInPlace_from. Qed.

Lemma stepwise_createMethodEnv (inst callerEnv : loc) :
  stepwise (createMethodEnv inst callerEnv).
Proof.
  intros i a i' H. destruct (instances i !! inst) as [o|] eqn:Ho.
  - rewrite (createMethodEnv_eq _ _ _ _ Ho) in H.
    injection H as _ H; subst i'. apply rtc_once. now constructor.
  - unfold createMethodEnv, bind in H.
    rewrite NewEnclosedEnvironment_eq, update_env_fresh, Declare_fresh in H.
    unfold read_instance in H. cbn [instances set_envs] in H.
    rewrite Ho in H. discriminate H.
Qed.

Create HintDb stepw.

#[local] Hint Resolve stepwise_ret stepwise_panic stepwise_get_state
  stepwise_OutOfFuel stepwise_read_instance stepwise_read_array
  stepwise_read_record stepwise_element_insert stepwise_record_field_insert
  stepwise_alloc_array stepwise_alloc_record stepwise_alloc_instance
  stepwise_field_insert stepwise_fields_init
  stepwise_TypeOf stepwise_InspectOf stepwise_NewEnclosedEnvironment
  stepwise_Declare_ stepwise_DeclareConstant stepwise_DefineType
  stepwise_SetInPlace stepwise_createMethodEnv
  stepwise_set_input stepwise_output stepwise_set_files stepwise_set_disk
  stepwise_files stepwise_disk : stepw.

(** One step of a proof that a computation is stepwise: through a [bind],
    a [match] or an [if], or by a lemma of the database. *)
Ltac stepw_step :=
  cbv beta;
  match goal with
  | |- stepwise _ => solve [auto with stepw]
  | |- stepwise (bind _ _) => apply stepwise_bind; [|intros ?]
  | |- stepwise (error _) => apply stepwise_ret
  | |- stepwise (match ?x with _ => _ end) => destruct x
  end.
Ltac stepw := repeat stepw_step.

Lemma stepwise_unknown_operator (op : string) (l r : Object) :
  stepwise (unknown_operator op l r).
Proof. unfold unknown_operator. stepw. Qed.

Lemma stepwise_evalIntegerInfixExpression (op : string) (l r : Object) :
  stepwise (evalIntegerInfixExpression op l r).
Proof.
  pose proof (stepwise_unknown_operator op l r).
  unfold evalIntegerInfixExpression. stepw.
Qed.

Lemma stepwise_evalRealInfixExpression (op : string) (l r : Object) :
  stepwise (evalRealInfixExpression op l r).
Proof.
  pose proof (stepwise_unknown_operator op l r).
  unfold evalRealInfixExpression. cbv zeta. stepw.
Qed.

Lemma stepwise_evalStringInfixExpression (op : string) (l r : Object) :
  stepwise (evalStringInfixExpression op l r).
Proof.
  pose proof (stepwise_unknown_operator op l r).
  unfold evalStringInfixExpression. stepw.
Qed.

Lemma stepwise_evalBooleanInfixExpression (op : string) (l r : Object) :
  stepwise (evalBooleanInfixExpression op l r).
Proof.
  pose proof (stepwise_unknown_operator op l r).
  unfold evalBooleanInfixExpression. stepw.
Qed.

Lemma stepwise_evalMinusPrefixOperator (r : Object) :
  stepwise (evalMinusPrefixOperator r).
Proof. unfold evalMinusPrefixOperator. stepw. Qed.

Lemma stepwise_evalNotOperator (r : Object) : stepwise (evalNotOperator r).
Proof. unfold evalNotOperator. stepw. Qed.

Lemma stepwise_bindParameters (env_ : loc) (args : list Object) :
  forall (params : list ast.Param) (idx : nat),
    stepwise (bindParameters env_ args idx params).
Proof.
  induction params as [|param rest IH]; intros idx; cbn [bindParameters]; stepw.
Qed.

Lemma stepwise_extendFunctionEnv (fnEnv : loc) (args : list Object)
  (params : list ast.Param) (callerEnv : loc) :
  stepwise (extendFunctionEnv fnEnv args params callerEnv).
Proof.
  unfold extendFunctionEnv. stepw. apply stepwise_bindParameters.
Qed.

Lemma stepwise_bindMethodParameters (env_ : loc) (args : list Object) :
  forall (params : list ast.Param) (idx : nat),
    stepwise (bindMethodParameters env_ args idx params).
Proof.
  induction params as [|param rest IH]; intros idx;
    cbn [bindMethodParameters]; stepw.
Qed.

Lemma stepwise_evalIdentifier (name : string) (env_ : loc) :
  stepwise (evalIdentifier name env_).
Proof. unfold evalIdentifier. stepw. Qed.

Lemma stepwise_evalSuperExpression (env_ : loc) :
  stepwise (evalSuperExpression env_).
Proof. unfold evalSuperExpression. stepw. Qed.

Lemma stepwise_evalClassStatement (name parent : string)
  (members : list ast.Statement) (env_ : loc) :
  stepwise (evalClassStatement name parent members env_).
Proof. unfold evalClassStatement. cbv zeta. stepw. Qed.

Lemma stepwise_declareEnum (env_ : loc) :
  forall (values : list string) (idx : Z),
    stepwise (declareEnum env_ idx values).
Proof.
  induction values as [|val rest IH]; intros idx; cbn [declareEnum]; stepw.
Qed.

Lemma stepwise_evalTypeStatement (name : string) (def : ast.DataType)
  (env_ : loc) :
  stepwise (evalTypeStatement name def env_).
Proof.
  unfold evalTypeStatement. stepw. apply stepwise_declareEnum.
Qed.

Lemma stepwise_evalDeclareStatement (name : string) (dt : ast.DataType)
  (env_ : loc) :
  stepwise (evalDeclareStatement name dt env_).
Proof. unfold evalDeclareStatement. stepw. Qed.

#[local] Hint Resolve stepwise_evalIntegerInfixExpression
  stepwise_evalRealInfixExpression stepwise_evalStringInfixExpression
  stepwise_evalBooleanInfixExpression stepwise_evalMinusPrefixOperator
  stepwise_evalNotOperator stepwise_extendFunctionEnv
  stepwise_bindMethodParameters stepwise_evalIdentifier
  stepwise_evalSuperExpression stepwise_evalClassStatement
  stepwise_evalTypeStatement stepwise_evalDeclareStatement : stepw.

Section Stepwise.

Variable fmt_g : float64 -> string.
Variable Date_Inspect : Z -> Z -> Z -> string.

Lemma stepwise_objectToString (obj : Object) :
  stepwise (objectToString fmt_g Date_Inspect obj).
Proof. unfold objectToString. stepw. Qed.

Lemma stepwise_infixSwitch (op : string) (l r : Object) :
  stepwise (infixSwitch fmt_g Date_Inspect op l r).
Proof.
  pose proof (stepwise_objectToString l).
  pose proof (stepwise_objectToString r).
  unfold infixSwitch, evalOtherInfix, evalConcatenation. stepw.
Qed.

Variable eS : ast.Statement -> loc -> M Object.
Variable eE : ast.Expression -> loc -> M Object.
Variable budget : nat.
Hypothesis eS_stepwise : forall stmt env_, stepwise (eS stmt env_).
Hypothesis eE_stepwise : forall expr env_, stepwise (eE expr env_).

#[local] Hint Resolve eS_stepwise eE_stepwise stepwise_infixSwitch : stepw.

Lemma stepwise_evalStatements_from (env_ : loc) :
  forall (stmts : list ast.Statement) (result : Object),
    stepwise (evalStatements_from eS result stmts env_).
Proof.
  induction stmts as [|stmt rest IH]; intros result;
    cbn [evalStatements_from]; stepw.
Qed.

Lemma stepwise_evalStatements (stmts : list ast.Statement) (env_ : loc) :
  stepwise (evalStatements eS stmts env_).
Proof. apply stepwise_evalStatements_from. Qed.

Lemma stepwise_evalExpressions_from (env_ : loc) :
  forall (exprs : list ast.Expression) (result : list Object),
    stepwise (evalExpressions_from eE result exprs env_).
Proof.
  induction exprs as [|e rest IH]; intros result;
    cbn [evalExpressions_from]; stepw.
Qed.

Lemma stepwise_evalExpressions (exprs : list ast.Expression) (env_ : loc) :
  stepwise (evalExpressions eE exprs env_).
Proof. apply stepwise_evalExpressions_from. Qed.

Lemma stepwise_evalIndices (env_ : loc) :
  forall (exprs : list ast.Expression) (indices : list Z),
    stepwise (evalIndices eE indices exprs env_).
Proof.
  induction exprs as [|e rest IH]; intros indices; cbn [evalIndices]; stepw.
Qed.

#[local] Hint Resolve stepwise_evalStatements stepwise_evalExpressions
  stepwise_evalIndices : stepw.

Lemma stepwise_evalArrayAssignment (array : ast.Expression)
  (indices : list ast.Expression) (value : Object) (env_ : loc) :
  stepwise (evalArrayAssignment eE array indices value env_).
Proof. unfold evalArrayAssignment. stepw. Qed.

Lemma stepwise_evalMemberAssignment (object : ast.Expression) (member : string)
  (value : Object) (env_ : loc) :
  stepwise (evalMemberAssignment eE object member value env_).
Proof.
  unfold evalMemberAssignment. stepw.
Qed.

#[local] Hint Resolve stepwise_evalArrayAssignment
  stepwise_evalMemberAssignment : stepw.

Lemma stepwise_evalConstantStatement (name : string) (value : ast.Expression)
  (env_ : loc) :
  stepwise (evalConstantStatement eE name value env_).
Proof. unfold evalConstantStatement. stepw. Qed.

Lemma stepwise_evalAssignmentStatement (target value : ast.Expression)
  (env_ : loc) :
  stepwise (evalAssignmentStatement eE target value env_).
Proof. unfold evalAssignmentStatement. stepw. Qed.

Lemma stepwise_evalIfStatement (cond : ast.Expression)
  (consequence : list ast.Statement) (alternative : option (list ast.Statement))
  (env_ : loc) :
  stepwise (evalIfStatement eS eE cond consequence alternative env_).
Proof. unfold evalIfStatement. stepw. Qed.

Lemma stepwise_matchesCaseValue (value : Object) (caseValue : ast.Expression)
  (env_ : loc) :
  stepwise (matchesCaseValue eE value caseValue env_).
Proof. unfold matchesCaseValue. stepw. Qed.

Lemma stepwise_matchesClause (value : Object) (env_ : loc) :
  forall caseValues : list ast.Expression,
    stepwise (matchesClause eE value caseValues env_).
Proof.
  pose proof stepwise_matchesCaseValue.
  induction caseValues as [|caseValue rest IH]; cbn [matchesClause]; stepw.
Qed.

Lemma stepwise_evalCases (value : Object)
  (otherwise : option (list ast.Statement)) (env_ : loc) :
  forall cases : list ast.CaseClause,
    stepwise (evalCases eS eE value cases otherwise env_).
Proof.
  pose proof stepwise_matchesClause.
  induction cases as [|[caseValues body] rest IH]; cbn [evalCases]; stepw.
Qed.

Lemma stepwise_evalCaseStatement (expr : ast.Expression)
  (cases : list ast.CaseClause) (otherwise : option (list ast.Statement))
  (env_ : loc) :
  stepwise (evalCaseStatement eS eE expr cases otherwise env_).
Proof.
  pose proof stepwise_evalCases. unfold evalCaseStatement. stepw.
Qed.

Lemma stepwise_forLoop (var : string) (step stop : Z)
  (body : list ast.Statement) (loopEnv : loc) :
  forall (n : nat) (current : Z) (result : Object),
    stepwise (forLoop eS n var step stop body loopEnv current result).
Proof.
  induction n as [|n IH]; intros current result; cbn [forLoop]; stepw.
Qed.

Lemma stepwise_evalStep (step : option ast.Expression) (env_ : loc) :
  stepwise (evalStep eE step env_).
Proof. unfold evalStep. stepw. Qed.

Lemma stepwise_evalForStatement (var : string) (start stop : ast.Expression)
  (step : option ast.Expression) (body : list ast.Statement) (env_ : loc) :
  stepwise (evalForStatement eS eE budget var start stop step body env_).
Proof.
  pose proof stepwise_forLoop. pose proof stepwise_evalStep.
  unfold evalForStatement. stepw.
Qed.

Lemma stepwise_whileLoop (cond : ast.Expression) (body : list ast.Statement)
  (env_ : loc) :
  forall (n : nat) (result : Object),
    stepwise (whileLoop eS eE n cond body env_ result).
Proof.
  induction n as [|n IH]; intros result; cbn [whileLoop]; stepw.
Qed.

Lemma stepwise_repeatLoop (body : list ast.Statement) (cond : ast.Expression)
  (env_ : loc) :
  forall n : nat, stepwise (repeatLoop eS eE n body cond env_).
Proof. induction n as [|n IH]; cbn [repeatLoop]; stepw. Qed.

Lemma stepwise_evalReturnStatement (value : option ast.Expression)
  (env_ : loc) :
  stepwise (evalReturnStatement eE value env_).
Proof. unfold evalReturnStatement. stepw. Qed.

Lemma stepwise_storeLine (target : ast.Expression) (line : string)
  (env_ : loc) :
  stepwise (storeLine eE target line env_).
Proof. unfold storeLine. stepw. Qed.

Lemma stepwise_evalInputStatement (target : ast.Expression) (env_ : loc) :
  stepwise (evalInputStatement eE target env_).
Proof.
  pose proof stepwise_storeLine.
  unfold evalInputStatement. stepw.
Qed.

Lemma stepwise_outputParts (env_ : loc) :
  forall (values : list ast.Expression) (parts : list string),
    stepwise (outputParts fmt_g Date_Inspect eE parts values env_).
Proof.
  induction values as [|expr rest IH]; intros parts; cbn [outputParts]; stepw.
Qed.

Lemma stepwise_evalOutputStatement (values : list ast.Expression) (env_ : loc) :
  stepwise (evalOutputStatement fmt_g Date_Inspect eE values env_).
Proof.
  pose proof stepwise_outputParts.
  unfold evalOutputStatement. stepw.
Qed.

Lemma stepwise_open_file (name : string) (fs : fileState) :
  stepwise (open_file name fs).
Proof. unfold open_file. stepw. Qed.

Lemma stepwise_evalOpenFileStatement (filename : ast.Expression)
  (mode_ : string) (env_ : loc) :
  stepwise (evalOpenFileStatement eE filename mode_ env_).
Proof.
  pose proof stepwise_open_file.
  unfold evalOpenFileStatement. stepw.
Qed.

Lemma stepwise_evalCloseFileStatement (filename : ast.Expression) (env_ : loc) :
  stepwise (evalCloseFileStatement eE filename env_).
Proof.
  unfold evalCloseFileStatement. stepw.
Qed.

Lemma stepwise_evalReadFileStatement (filename target : ast.Expression)
  (env_ : loc) :
  stepwise (evalReadFileStatement eE filename target env_).
Proof.
  pose proof stepwise_storeLine.
  unfold evalReadFileStatement. stepw.
Qed.

Lemma stepwise_evalWriteFileStatement (filename data : ast.Expression)
  (env_ : loc) :
  stepwise (evalWriteFileStatement fmt_g Date_Inspect eE filename data env_).
Proof.
  unfold evalWriteFileStatement. stepw.
Qed.

Lemma stepwise_evalPrefixExpression (op : string) (right : ast.Expression)
  (env_ : loc) :
  stepwise (evalPrefixExpression eE op right env_).
Proof. unfold evalPrefixExpression. stepw. Qed.

Lemma stepwise_evalInfixExpression (lhs : ast.Expression) (op : string)
  (rhs : ast.Expression) (env_ : loc) :
  stepwise (evalInfixExpression fmt_g Date_Inspect eE lhs op rhs env_).
Proof. unfold evalInfixExpression. stepw. Qed.

Lemma stepwise_evalArrayAccess (array : ast.Expression)
  (indices : list ast.Expression) (env_ : loc) :
  stepwise (evalArrayAccess eE array indices env_).
Proof. unfold evalArrayAccess. stepw. Qed.

Lemma stepwise_evalMemberAccess (object : ast.Expression) (member : string)
  (env_ : loc) :
  stepwise (evalMemberAccess eE object member env_).
Proof. unfold evalMemberAccess. stepw. Qed.

Lemma stepwise_applyBoundMethod (inst : loc) (method : Object)
  (args : list Object) (callerEnv : loc) :
  stepwise (applyBoundMethod eS inst method args callerEnv).
Proof. unfold applyBoundMethod. stepw. Qed.

Lemma stepwise_applyFunction (fn : Object) (args : list Object)
  (callerEnv : loc) :
  stepwise (applyFunction eS fn args callerEnv).
Proof.
  pose proof stepwise_applyBoundMethod.
  unfold applyFunction. stepw.
Qed.

Lemma stepwise_evalCallExpression (function : ast.Expression)
  (arguments : list ast.Expression) (env_ : loc) :
  stepwise (evalCallExpression eS eE function arguments env_).
Proof.
  pose proof stepwise_applyFunction.
  unfold evalCallExpression. stepw.
Qed.

Lemma stepwise_evalNewExpression (className : string)
  (arguments : list ast.Expression) (env_ : loc) :
  stepwise (evalNewExpression eS eE className arguments env_).
Proof.
  unfold evalNewExpression. stepw.
Qed.

Lemma stepwise_evalStatement_body (stmt : ast.Statement) (env_ : loc) :
  stepwise (evalStatement_body fmt_g Date_Inspect eS eE budget stmt env_).
Proof.
  destruct stmt; cbn [evalStatement_body];
    first [ apply eE_stepwise
          | apply stepwise_evalDeclareStatement
          | apply stepwise_evalConstantStatement
          | apply stepwise_evalAssignmentStatement
          | apply stepwise_evalIfStatement
          | apply stepwise_evalCaseStatement
          | apply stepwise_evalForStatement
          | apply stepwise_whileLoop
          | apply stepwise_repeatLoop
          | apply stepwise_Declare_
          | apply stepwise_evalCallExpression
          | apply stepwise_evalReturnStatement
          | apply stepwise_evalInputStatement
          | apply stepwise_evalOutputStatement
          | apply stepwise_evalOpenFileStatement
          | apply stepwise_evalCloseFileStatement
          | apply stepwise_evalReadFileStatement
          | apply stepwise_evalWriteFileStatement
          | apply stepwise_evalTypeStatement
          | apply stepwise_evalClassStatement ].
Qed.

Lemma stepwise_evalExpression_body (expr : ast.Expression) (env_ : loc) :
  stepwise (evalExpression_body fmt_g Date_Inspect eS eE expr env_).
Proof.
  destruct expr; cbn [evalExpression_body];
    first [ apply stepwise_ret
          | apply stepwise_evalIdentifier
          | apply stepwise_evalPrefixExpression
          | apply stepwise_evalInfixExpression
          | apply stepwise_evalArrayAccess
          | apply stepwise_evalMemberAccess
          | apply stepwise_evalCallExpression
          | apply stepwise_evalNewExpression
          | apply stepwise_evalSuperExpression ].
Qed.

Lemma stepwise_Eval_from :
  forall (stmts : list ast.Statement) (result : Object),
    stepwise (Eval_from eS result stmts).
Proof.
  induction stmts as [|stmt rest IH]; intros result; cbn [Eval_from]; stepw.
Qed.

End Stepwise.

Lemma stepwise_evaluator (fmt_g : float64 -> string)
  (Date_Inspect : Z -> Z -> Z -> string) (fuel : nat) :
  (forall stmt env_, stepwise (evalStatement fmt_g Date_Inspect fuel stmt env_))
  /\ (forall expr env_,
         stepwise (evalExpression fmt_g Date_Inspect fuel expr env_)).
Proof.
  induction fuel as [|n [IHS IHE]].
  - split; intros x e i a i' H; discriminate H.
  - split; intros x e.
    + rewrite evalStatement_S. now apply stepwise_evalStatement_body.
    + rewrite evalExpression_S. now apply stepwise_evalExpression_body.
Qed.

(** X5: whatever a program, a statement or an expression does to the
    state, it does by a finite sequence of elementary steps: allocating a
    scope, binding a name, marking a constant, defining a type, allocating
    an instance, an array or a record, writing a field or an element,
    consuming input, appending a line of output, changing the open files or
    the disk. *)
Theorem evaluator_changes_state_stepwise (fmt_g : float64 -> string)
  (Date_Inspect : Z -> Z -> Z -> string) (fuel : nat) :
  (forall program, stepwise (Eval fmt_g Date_Inspect fuel program))
  /\ (forall stmt env_,
         stepwise (evalStatement fmt_g Date_Inspect fuel stmt env_))
  /\ (forall expr env_,
         stepwise (evalExpression fmt_g Date_Inspect fuel expr env_)).
Proof.
  destruct (stepwise_evaluator fmt_g Date_Inspect fuel) as [HS HE].
  split; [|split; assumption].
  intros program. unfold Eval. now apply stepwise_Eval_from.
Qed.

(** ** What no step touches *)

Lemma frame_refl (i : Interpreter) : frame i i.
Proof.
  split; [reflexivity|]. split; [reflexivity|]. split; [reflexivity|]. split.
  - intros p a Ha. now exists a.
  - intros p r Hr. now exists r.
Qed.

Lemma frame_trans (i1 i2 i3 : Interpreter) :
  frame i1 i2 -> frame i2 i3 -> frame i1 i3.
Proof.
  intros (A1 & A2 & A3 & A4 & A5) (B1 & B2 & B3 & B4 & B5).
  split; [congruence|]. split; [congruence|].
  split; [now transitivity (output i2)|]. split.
  - intros p a Ha. destruct (A4 p a Ha) as (a2 & Ha2 & Hd2).
    destruct (B4 p a2 Ha2) as (a3 & Ha3 & Hd3).
    exists a3. split; [assumption|congruence].
  - intros p r Hr. destruct (A5 p r Hr) as (r2 & Hr2 & Hn2).
    destruct (B5 p r2 Hr2) as (r3 & Hr3 & Hn3).
    exists r3. split; [assumption|congruence].
Qed.

Lemma frame_same (i i' : Interpreter) :
  builtins i' = builtins i -> env i' = env i -> output i' = output i ->
  arrays i' = arrays i -> records i' = records i -> frame i i'.
Proof.
  intros H1 H2 H3 H4 H5. unfold frame. rewrite H1, H2, H3, H4, H5.
  apply frame_refl.
Qed.

Lemma frame_arrays (i : Interpreter) (l : list ArrayVal) :
  (forall p a, arrays i !! p = Some a ->
   exists a', l !! p = Some a' /\ arr_Dimensions a' = arr_Dimensions a) ->
  frame i (set_arrays l i).
Proof.
  intros H. split; [reflexivity|]. split; [reflexivity|].
  split; [reflexivity|]. split; [exact H|].
  intros p r Hr. now exists r.
Qed.

Lemma frame_records (i : Interpreter) (l : list RecordVal) :
  (forall p r, records i !! p = Some r ->
   exists r', l !! p = Some r' /\ rec_TypeName r' = rec_TypeName r) ->
  frame i (set_records l i).
Proof.
  intros H. split; [reflexivity|]. split; [reflexivity|].
  split; [reflexivity|]. split; [|exact H].
  intros p a Ha. now exists a.
Qed.

Lemma Step_frame (i i' : Interpreter) : Step i i' -> frame i i'.
Proof.
  destruct 1 as [| | | | | | | | i dims | i p a indices v Ha | i r
                | i p r member v Hr | | i line | |];
    try (apply frame_same; reflexivity).
  - apply frame_arrays. intros q b Hb. exists b. split; [|reflexivity].
    apply lookup_app_l_Some, Hb.
  - apply frame_arrays. intros q b Hb. destruct (decide (p = q)) as [->|Hne].
    + eexists. split.
      * apply list_lookup_insert_eq. now apply lookup_lt_Some in Hb.
      * cbn. congruence.
    + exists b. now rewrite list_lookup_insert_ne.
  - apply frame_records. intros q b Hb. exists b. split; [|reflexivity].
    apply lookup_app_l_Some, Hb.
  - apply frame_records. intros q b Hb. destruct (decide (p = q)) as [->|Hne].
    + eexists. split.
      * apply list_lookup_insert_eq. now apply lookup_lt_Some in Hb.
      * cbn. congruence.
    + exists b. now rewrite list_lookup_insert_ne.
  - split; [reflexivity|]. split; [reflexivity|].
    split; [now apply prefix_app_r|]. split.
    + intros q b Hb. now exists b.
    + intros q b Hb. now exists b.
Qed.

Lemma steps_frame (i i' : Interpreter) : rtc Step i i' -> frame i i'.
Proof.
  induction 1 as [i|i i1 i2 H1 _ IH]; [apply frame_refl|].
  apply frame_trans with i1; [now apply Step_frame|assumption].
Qed.

(** X6: running a program never changes the registry of built-in
    functions nor the global scope the interpreter holds; what has been
    printed stays printed, the output only growing at its end; no array
    and no record is ever discarded, an array keeps its declared
    dimensions and a record the name of its type. *)
Theorem Eval_frame (fmt_g : float64 -> string)
  (Date_Inspect : Z -> Z -> Z -> string) (fuel : nat) (program : ast.Program)
  (i i' : Interpreter) (r : Object) :
  Eval fmt_g Date_Inspect fuel program i = Returns r i' ->
  builtins i' = builtins i
  /\ env i' = env i
  /\ (exists printed, output i' = output i ++ printed)
  /\ (forall p a, arrays i !! p = Some a ->
      exists a', arrays i' !! p = Some a'
                 /\ arr_Dimensions a' = arr_Dimensions a)
  /\ (forall p x, records i !! p = Some x ->
      exists x', records i' !! p = Some x'
                 /\ rec_TypeName x' = rec_TypeName x).
Proof.
  intros H.
  assert (Hs : rtc Step i i').
  { revert H. unfold Eval. apply stepwise_Eval_from;
      apply (stepwise_evaluator fmt_g Date_Inspect fuel). }
  destruct (steps_frame _ _ Hs) as (H1 & H2 & H3 & H4 & H5).
  repeat split; assumption.
Qed.

Lemma Eval_frame_witness :
  exists printed,
    output (state_after (Eval sample_fmt_g sample_Date_Inspect 8 Swap_program)
              (New no_input))
    = output (New no_input) ++ printed.
Proof.
  assert (H : Eval sample_fmt_g sample_Date_Inspect 8 Swap_program (New no_input)
              = Returns NullObj
                  (state_after
                     (Eval sample_fmt_g sample_Date_Inspect 8 Swap_program)
                     (New no_input))).
  { vm_compute. reflexivity. }
  exact (proj1 (proj2 (proj2 (Eval_frame _ _ _ _ _ _ _ H)))).
Defined.

(** ** The built-in EOF *)

Section Builtin_EOF.

Variable fmt_g : float64 -> string.
Variable Date_Inspect : Z -> Z -> Z -> string.

#[local] Abbreviation eE n := (evalExpression fmt_g Date_Inspect n).

(** X8: a call EOF(x) yields TRUE whatever the state of the files:
    the registered built-in answers TRUE for every single argument, and the
    table of open files, which [IsEOF] reads, is not consulted. *)
Theorem EOF_call_is_always_TRUE (n : nat) (arg : ast.Expression) (env_ : loc)
  (i i1 : Interpreter) (v : Object) :
  builtins i !! "EOF" = Some builtins.eof ->
  Get i env_ "EOF" = None ->
  eE n arg env_ i = Returns v i1 ->
  isError v = false ->
  eE (S n) (ast.CallExpression (ast.Identifier "EOF") [arg]) env_ i
  = Returns (BooleanObj true) i1.
Proof.
  intros Hreg Hget Harg Hv.
  destruct n as [|m]; [discriminate Harg|].
  assert (Hreg1 : builtins i1 !! "EOF" = Some builtins.eof).
  { pose proof (proj2 (stepwise_evaluator fmt_g Date_Inspect (S m)) _ _ _ _ _ Harg)
      as Hsteps.
    destruct (steps_frame _ _ Hsteps) as (Hb & _). now rewrite Hb. }
  assert (Hfn : eE (S m) (ast.Identifier "EOF") env_ i
                = Returns (BuiltinObj "EOF") i).
  { rewrite evalExpression_S. cbn [evalExpression_body].
    unfold evalIdentifier, bind, get_state. now rewrite Hget, Hreg. }
  assert (Hargs : evalExpressions (eE (S m)) [arg] env_ i = Returns [v] i1).
  { unfold evalExpressions. cbn [evalExpressions_from].
    rewrite (bind_Returns _ _ _ _ _ Harg), Hv. reflexivity. }
  rewrite evalExpression_S. cbn [evalExpression_body].
  unfold evalCallExpression.
  rewrite (bind_Returns _ _ _ _ _ Hfn).
  change (isError (BuiltinObj "EOF")) with false. cbv iota.
  rewrite (bind_Returns _ _ _ _ _ Hargs).
  unfold single_error. rewrite Hv.
  cbn [applyFunction]. unfold get_state, bind. cbv beta iota.
  unfold BuiltinFunction in *. now rewrite Hreg1.
Qed.

End Builtin_EOF.

Lemma EOF_call_is_always_TRUE_witness :
  IsEOF EOF_state "data.txt" = false
  /\ evalExpression sample_fmt_g sample_Date_Inspect 2
       (ast.CallExpression (ast.Identifier "EOF") [ast.StringLiteral "data.txt"])
       0%nat EOF_state
     = Returns (BooleanObj true) EOF_state.
Proof.
  split; [reflexivity|].
  apply (EOF_call_is_always_TRUE sample_fmt_g sample_Date_Inspect 1
           (ast.StringLiteral "data.txt") 0%nat EOF_state EOF_state
           (StringObj "data.txt")); reflexivity.
Defined.

(** ** Arrays *)

Lemma append_nil_l (s : string) : "" +:+ s = s.
Proof. reflexivity. Qed.

Lemma append_cons (c : ascii) (s t : string) :
  String c s +:+ t = String c (s +:+ t).
Proof. reflexivity. Qed.

Lemma pretty_N_char_not_comma (d : N) : Ascii.eqb (pretty_N_char d) "," = false.
Proof.
  destruct d as [|p]; [reflexivity|].
  do 4 (try destruct p as [p|p|]); reflexivity.
Qed.

Lemma comma_free_pretty_N_go (x : N) :
  forall s : string, comma_free s = true -> comma_free (pretty_N_go x s) = true.
Proof.
  induction x as [x IH] using (well_founded_induction N.lt_wf_0).
  intros s Hs. destruct (decide (x = 0)%N) as [->|Hx].
  - now rewrite pretty_N_go_0.
  - rewrite pretty_N_go_step by lia. apply IH; [apply N.div_lt; lia|].
    cbn [comma_free]. now rewrite pretty_N_char_not_comma, Hs.
Qed.

Lemma comma_free_pretty_N (x : N) :
  comma_free (pretty x) = true /\ pretty x <> "".
Proof.
  unfold pretty, pretty_N. destruct (decide (x = 0)%N) as [->|Hx].
  - split; [reflexivity|discriminate].
  - split; [now apply comma_free_pretty_N_go|].
    apply pretty_N_go_not_empty. lia.
Qed.

Lemma comma_free_pretty_Z (v : Z) :
  comma_free (pretty v) = true /\ pretty v <> "".
Proof.
  destruct v as [|p|p].
  - split; [reflexivity|discriminate].
  - apply (comma_free_pretty_N (N.pos p)).
  - change (pretty (Z.neg p)) with (String "-" (pretty (N.pos p))).
    split; [|discriminate]. cbn [comma_free].
    now rewrite (proj1 (comma_free_pretty_N (N.pos p))).
Qed.

(** Two strings that agree up to and including their first comma. *)
Lemma split_at_comma (p q r r' : string) :
  comma_free p = true -> comma_free q = true ->
  p +:+ String "," r = q +:+ String "," r' -> p = q /\ r = r'.
Proof.
  revert q. induction p as [|c p IH]; intros [|d q] Hp Hq H.
  - rewrite !append_nil_l in H. injection H as H. now split.
  - rewrite append_nil_l, append_cons in H. injection H as <- _.
    cbn in Hq. discriminate Hq.
  - rewrite append_nil_l, append_cons in H. injection H as -> _.
    cbn in Hp. discriminate Hp.
  - rewrite !append_cons in H. injection H as <- H.
    cbn [comma_free] in Hp, Hq.
    apply andb_true_iff in Hp as [_ Hp]. apply andb_true_iff in Hq as [_ Hq].
    destruct (IH q Hp Hq H) as [-> ->]. now split.
Qed.

Lemma comma_free_no_comma (p q r : string) :
  comma_free p = true -> p <> q +:+ String "," r.
Proof.
  revert q. induction p as [|c p IH]; intros [|d q] Hp H.
  - rewrite append_nil_l in H. discriminate H.
  - rewrite append_cons in H. discriminate H.
  - rewrite append_nil_l in H. injection H as -> _. cbn in Hp. discriminate Hp.
  - rewrite append_cons in H. injection H as <- H.
    cbn [comma_free] in Hp. apply andb_true_iff in Hp as [_ Hp].
    now apply (IH q Hp).
Qed.

Lemma Join_cons_cons (p q : string) (rest : list string) (sep : string) :
  Join (p :: q :: rest) sep = p +:+ sep +:+ Join (q :: rest) sep.
Proof. reflexivity. Qed.

Lemma Join_comma_inj (l1 l2 : list string) :
  Forall (fun p => comma_free p = true /\ p <> "") l1 ->
  Forall (fun p => comma_free p = true /\ p <> "") l2 ->
  Join l1 "," = Join l2 "," -> l1 = l2.
Proof.
  intros H1. revert l2.
  induction H1 as [|p l1 [Hp Hne] _ IH]; intros l2 H2 H.
  - destruct H2 as [|q l2 [Hq Hqe] H2]; [reflexivity|].
    destruct l2 as [|q' l2].
    + change (Join [q] ",") with q in H. cbn in H. congruence.
    + rewrite Join_cons_cons in H. change (Join [] ",") with "" in H.
      destruct q; [congruence|]. rewrite append_cons in H. discriminate H.
  - destruct H2 as [|q l2 [Hq Hqe] H2].
    + destruct l1 as [|p' l1].
      * change (Join [p] ",") with p in H. cbn in H. congruence.
      * rewrite Join_cons_cons in H. change (Join [] ",") with "" in H.
        destruct p; [congruence|]. rewrite append_cons in H. discriminate H.
    + destruct l1 as [|p' l1], l2 as [|q' l2].
      * change (Join [p] ",") with p in H. change (Join [q] ",") with q in H.
        congruence.
      * rewrite Join_cons_cons in H. change (Join [p] ",") with p in H.
        now destruct (comma_free_no_comma p q (Join (q' :: l2) ",") Hp).
      * rewrite Join_cons_cons in H. change (Join [q] ",") with q in H.
        symmetry in H.
        now destruct (comma_free_no_comma q p (Join (p' :: l1) ",") Hq).
      * rewrite !Join_cons_cons in H.
        destruct (split_at_comma _ _ _ _ Hp Hq H) as [-> Hrest].
        f_equal. now apply IH.
Qed.

(** The key of an element determines its indices: two tuples of indices
    address the same element only when they are equal. *)
Lemma GetIndex_inj (ixs ixs' : list Z) :
  GetIndex ixs = GetIndex ixs' -> ixs = ixs'.
Proof.
  unfold GetIndex. intros H.
  assert (Hok : forall l : list Z,
             Forall (fun p => comma_free p = true /\ p <> "")
               (map (fun idx : Z => pretty idx) l)).
  { intros l. apply Forall_map, Forall_forall. intros v _.
    apply comma_free_pretty_Z. }
  apply Join_comma_inj in H; [|apply Hok|apply Hok].
  revert ixs' H. induction ixs as [|v ixs IH]; intros [|v' ixs'] H;
    try discriminate H; [reflexivity|].
  cbn [map] in H. injection H as Hv H.
  apply (inj pretty) in Hv. subst v'. f_equal. now apply IH.
Qed.

Lemma Get_from_envs_instances (i j : Interpreter) (x : string) :
  envs j = envs i -> instances j = instances i ->
  forall (n : nat) (e : loc), Get_from n j e x = Get_from n i e x.
Proof.
  intros He Hi n. induction n as [|n IH]; intros e; [reflexivity|].
  cbn [Get_from]. rewrite He.
  destruct (envs i !! e) as [E|]; [|reflexivity].
  destruct (store E !! x); [reflexivity|].
  unfold instance_field. rewrite Hi.
  destruct (instance E ≫= _); [reflexivity|].
  destruct (outer E); [apply IH|reflexivity].
Qed.

Section Arrays.

Variable fmt_g : float64 -> string.
Variable Date_Inspect : Z -> Z -> Z -> string.

#[local] Abbreviation eS n := (evalStatement fmt_g Date_Inspect n).
#[local] Abbreviation eE n := (evalExpression fmt_g Date_Inspect n).

Lemma evalIdentifier_bound (n : nat) (name : string) (env_ : loc)
  (i : Interpreter) (o : Object) :
  Get i env_ name = Some o ->
  eE (S n) (ast.Identifier name) env_ i = Returns o i.
Proof.
  intros H. rewrite evalExpression_S. cbn [evalExpression_body].
  unfold evalIdentifier, bind, get_state. now rewrite H.
Qed.

(** What an assignment to an element of the array [name] does. *)
Lemma array_element_assignment (n : nat) (name : string)
  (idx : list ast.Expression) (rhs : ast.Expression) (env_ : loc)
  (i i1 i2 : Interpreter) (p : loc) (a : ArrayVal) (ixs : list Z) (v : Object) :
  eE (S n) rhs env_ i = Returns v i1 ->
  isError v = false ->
  Get i1 env_ name = Some (ArrayObj p) ->
  evalIndices (eE (S n)) [] idx env_ i1 = Returns (inr ixs) i2 ->
  arrays i2 !! p = Some a ->
  eS (S (S n))
    (ast.AssignmentStatement (ast.ArrayAccess (ast.Identifier name) idx) rhs)
    env_ i
  = Returns v
      (set_arrays
         (<[p := with_Elements (<[GetIndex ixs := v]> (arr_Elements a)) a]>
            (arrays i2)) i2).
Proof.
  intros Hrhs Hv Hget Hidx Ha.
  rewrite evalStatement_S. cbn [evalStatement_body].
  unfold evalAssignmentStatement.
  rewrite (bind_Returns _ _ _ _ _ Hrhs), Hv.
  unfold evalArrayAssignment.
  rewrite (bind_Returns _ _ _ _ _ (evalIdentifier_bound n _ _ _ _ Hget)).
  change (isError (ArrayObj p)) with false. cbv iota.
  rewrite (bind_Returns _ _ _ _ _ Hidx).
  unfold bind, update_array. now rewrite Ha.
Qed.

(** What reading an element of the array [name] gives. *)
Lemma array_element_access (n : nat) (name : string)
  (idx : list ast.Expression) (env_ : loc) (i i2 : Interpreter) (p : loc)
  (a : ArrayVal) (ixs : list Z) :
  Get i env_ name = Some (ArrayObj p) ->
  evalIndices (eE (S n)) [] idx env_ i = Returns (inr ixs) i2 ->
  arrays i2 !! p = Some a ->
  eE (S (S n)) (ast.ArrayAccess (ast.Identifier name) idx) env_ i
  = Returns (default NullObj (arr_Elements a !! GetIndex ixs)) i2.
Proof.
  intros Hget Hidx Ha.
  rewrite evalExpression_S. cbn [evalExpression_body].
  unfold evalArrayAccess.
  rewrite (bind_Returns _ _ _ _ _ (evalIdentifier_bound n _ _ _ _ Hget)).
  change (isError (ArrayObj p)) with false. cbv iota.
  rewrite (bind_Returns _ _ _ _ _ Hidx).
  unfold bind, read_array. now rewrite Ha.
Qed.

(** X9: an array is a table from tuples of Integer indices to values,
    with no check against the declared dimensions.  After [A[idx] <- rhs],
    a read [A[idx']] whose index expressions evaluate, in the state the
    assignment left, to the tuple assigned gives the value assigned; one
    whose index expressions evaluate to another tuple gives what the array
    held there before the assignment, NULL when that element was never
    assigned. *)
Theorem array_write_then_read (n : nat) (name : string)
  (idx : list ast.Expression) (rhs : ast.Expression) (env_ : loc)
  (i i1 i2 : Interpreter) (p : loc) (a : ArrayVal) (ixs : list Z)
  (v : Object) :
  eE (S n) rhs env_ i = Returns v i1 ->
  isError v = false ->
  Get i1 env_ name = Some (ArrayObj p) ->
  evalIndices (eE (S n)) [] idx env_ i1 = Returns (inr ixs) i2 ->
  Get i2 env_ name = Some (ArrayObj p) ->
  arrays i2 !! p = Some a ->
  let i3 :=
    set_arrays
      (<[p := with_Elements (<[GetIndex ixs := v]> (arr_Elements a)) a]>
         (arrays i2)) i2 in
  eS (S (S n))
    (ast.AssignmentStatement (ast.ArrayAccess (ast.Identifier name) idx) rhs)
    env_ i
  = Returns v i3
  /\ (forall (idx' : list ast.Expression) (ixs' : list Z),
        evalIndices (eE (S n)) [] idx' env_ i3 = Returns (inr ixs') i3 ->
        eE (S (S n)) (ast.ArrayAccess (ast.Identifier name) idx') env_ i3
        = Returns (if decide (ixs' = ixs) then v
                   else default NullObj (arr_Elements a !! GetIndex ixs')) i3)
  /\ (forall (idx' : list ast.Expression) (ixs' : list Z),
        evalIndices (eE (S n)) [] idx' env_ i2 = Returns (inr ixs') i2 ->
        eE (S (S n)) (ast.ArrayAccess (ast.Identifier name) idx') env_ i2
        = Returns (default NullObj (arr_Elements a !! GetIndex ixs')) i2).
Proof.
  intros Hrhs Hv Hget Hidx Hget2 Ha i3.
  set (a2 := with_Elements (<[GetIndex ixs := v]> (arr_Elements a)) a) in *.
  assert (Hget3 : Get i3 env_ name = Some (ArrayObj p)).
  { unfold Get. rewrite (Get_from_envs_instances i2 i3); auto. }
  assert (Ha3 : arrays i3 !! p = Some a2).
  { cbn. apply list_lookup_insert_eq. now apply lookup_lt_Some in Ha. }
  split; [|split].
  - now apply (array_element_assignment n name idx rhs env_ i i1 i2 p a ixs v).
  - intros idx' ixs' Hidx'.
    rewrite (array_element_access n name idx' env_ i3 i3 p a2 ixs' Hget3
               Hidx' Ha3).
    cbn [a2 arr_Elements with_Elements].
    destruct (decide (ixs' = ixs)) as [->|Hne].
    + now rewrite lookup_insert_eq.
    + rewrite lookup_insert_ne; [reflexivity|].
      intros Heq. apply Hne. symmetry. now apply GetIndex_inj.
  - intros idx' ixs' Hidx'.
    now apply (array_element_access n name idx' env_ i2 i2 p a ixs').
Qed.

Lemma SetInPlace_state_arrays (i : Interpreter) (name : string) (v : Object)
  (t : Target) :
  arrays (SetInPlace_state i name v t) = arrays i.
Proof.
  destruct t; cbn; unfold write_store, write_field;
    repeat match goal with |- context [match ?x with _ => _ end] => destruct x end;
    reflexivity.
Qed.

(** A write to one name leaves what every other name reads. *)
Lemma Get_from_other_name (i : Interpreter) (A B : string) (v : Object)
  (t : Target) :
  A <> B ->
  forall (n : nat) (e : loc),
    Get_from n (SetInPlace_state i B v t) e A = Get_from n i e A.
Proof.
  intros Hne n. induction n as [|n IH]; intros e; [reflexivity|].
  destruct t as [s|p|s]; cbn [SetInPlace_state] in *.
  - cbn [Get_from]. destruct (decide (s = e)) as [->|Hse].
    + destruct (envs i !! e) as [E|] eqn:HE.
      * rewrite (write_store_lookup_eq _ _ _ _ _ HE). cbn [store with_store].
        rewrite lookup_insert_ne by congruence.
        destruct (store E !! A); [reflexivity|].
        rewrite instance_field_write_store.
        change (instance_field i (with_store (<[B:=v]> (store E)) E) A)
          with (instance_field i E A).
        destruct (instance_field i E A); [reflexivity|].
        cbn [outer with_store]. destruct (outer E); [apply IH|reflexivity].
      * unfold write_store. now rewrite HE, HE.
    + rewrite write_store_lookup_ne by assumption.
      destruct (envs i !! e) as [E|]; [|reflexivity].
      destruct (store E !! A); [reflexivity|].
      rewrite instance_field_write_store.
      destruct (instance_field i E A); [reflexivity|].
      destruct (outer E); [apply IH|reflexivity].
  - cbn [Get_from]. rewrite write_field_envs.
    destruct (envs i !! e) as [E|]; [|reflexivity].
    destruct (store E !! A); [reflexivity|].
    assert (Hf : instance_field (write_field i p B v) E A = instance_field i E A).
    { unfold instance_field, write_field.
      destruct (instance E) as [q|]; [|reflexivity]. cbn.
      destruct (instances i !! p) as [o|] eqn:Ho; [|reflexivity]. cbn.
      destruct (decide (p = q)) as [->|Hpq].
      - rewrite list_lookup_insert_eq by now apply lookup_lt_Some in Ho.
        rewrite Ho. cbn. now rewrite lookup_insert_ne by congruence.
      - now rewrite list_lookup_insert_ne. }
    rewrite Hf. destruct (instance_field i E A); [reflexivity|].
    destruct (outer E); [apply IH|reflexivity].
  - cbn [Get_from]. destruct (decide (s = e)) as [->|Hse].
    + destruct (envs i !! e) as [E|] eqn:HE.
      * rewrite (write_store_lookup_eq _ _ _ _ _ HE). cbn [store with_store].
        rewrite lookup_insert_ne by congruence.
        destruct (store E !! A); [reflexivity|].
        rewrite instance_field_write_store.
        change (instance_field i (with_store (<[B:=v]> (store E)) E) A)
          with (instance_field i E A).
        destruct (instance_field i E A); [reflexivity|].
        cbn [outer with_store]. destruct (outer E); [apply IH|reflexivity].
      * unfold write_store. now rewrite HE, HE.
    + rewrite write_store_lookup_ne by assumption.
      destruct (envs i !! e) as [E|]; [|reflexivity].
      destruct (store E !! A); [reflexivity|].
      rewrite instance_field_write_store.
      destruct (instance_field i E A); [reflexivity|].
      destruct (outer E); [apply IH|reflexivity].
Qed.

(** X10: assigning an array to a variable copies the reference, not the
    elements: after [B <- A] both names are bound to the one array, and
    what an assignment to an element of [B] stores is read back through
    [A]. *)
Theorem array_assignment_shares_the_array (n : nat) (A B : string)
  (idx : list ast.Expression) (rhs : ast.Expression) (env_ : loc)
  (i i2 i3 : Interpreter) (p : loc) (a : ArrayVal) (ixs : list Z) (w : Object)
  (t : Target) :
  A <> B ->
  Get i env_ A = Some (ArrayObj p) ->
  Resolves i B env_ t ->
  writable i B t ->
  let i1 := SetInPlace_state i B (ArrayObj p) t in
  eE (S n) rhs env_ i1 = Returns w i2 ->
  isError w = false ->
  Get i2 env_ B = Some (ArrayObj p) ->
  evalIndices (eE (S n)) [] idx env_ i2 = Returns (inr ixs) i3 ->
  Get i3 env_ A = Some (ArrayObj p) ->
  arrays i3 !! p = Some a ->
  let i4 :=
    set_arrays
      (<[p := with_Elements (<[GetIndex ixs := w]> (arr_Elements a)) a]>
         (arrays i3)) i3 in
  eS (S (S n))
    (ast.AssignmentStatement (ast.Identifier B) (ast.Identifier A)) env_ i
  = Returns (ArrayObj p) i1
  /\ Get i1 env_ A = Some (ArrayObj p)
  /\ Get i1 env_ B = Some (ArrayObj p)
  /\ eS (S (S n))
       (ast.AssignmentStatement (ast.ArrayAccess (ast.Identifier B) idx) rhs)
       env_ i1
     = Returns w i4
  /\ forall idx' : list ast.Expression,
       evalIndices (eE (S n)) [] idx' env_ i4 = Returns (inr ixs) i4 ->
       eE (S (S n)) (ast.ArrayAccess (ast.Identifier A) idx') env_ i4
       = Returns w i4.
Proof.
  intros Hne HA Hres Hwr i1 Hrhs Hw HB2 Hidx HA3 Ha i4.
  set (a2 := with_Elements (<[GetIndex ixs := w]> (arr_Elements a)) a) in *.
  assert (HB1 : Get i1 env_ B = Some (ArrayObj p)).
  { apply Get_from_after_write; [assumption|lia]. }
  assert (HA1 : Get i1 env_ A = Some (ArrayObj p)).
  { unfold Get, i1. now rewrite Get_from_other_name. }
  split; [|split; [exact HA1|split; [exact HB1|split]]].
  - rewrite evalStatement_S. cbn [evalStatement_body].
    unfold evalAssignmentStatement.
    rewrite (bind_Returns _ _ _ _ _ (evalIdentifier_bound n _ _ _ _ HA)).
    change (isError (ArrayObj p)) with false. cbv iota.
    now apply SetInPlace_writes.
  - rewrite evalStatement_S. cbn [evalStatement_body].
    unfold evalAssignmentStatement.
    rewrite (bind_Returns _ _ _ _ _ Hrhs), Hw.
    unfold evalArrayAssignment.
    rewrite (bind_Returns _ _ _ _ _ (evalIdentifier_bound n _ _ _ _ HB2)).
    change (isError (ArrayObj p)) with false. cbv iota.
    rewrite (bind_Returns _ _ _ _ _ Hidx).
    unfold bind, update_array. now rewrite Ha.
  - intros idx' Hidx'.
    assert (HA4 : Get i4 env_ A = Some (ArrayObj p)).
    { unfold Get. rewrite (Get_from_envs_instances i3 i4); auto. }
    assert (Ha4 : arrays i4 !! p = Some a2).
    { cbn. apply list_lookup_insert_eq. now apply lookup_lt_Some in Ha. }
    rewrite (array_element_access n A idx' env_ i4 i4 p a2 ixs HA4 Hidx' Ha4).
    cbn. now rewrite lookup_insert_eq.
Qed.

End Arrays.

Lemma array_write_then_read_witness :
  exists i3 : Interpreter,
    evalStatement sample_fmt_g sample_Date_Inspect 3
      (ast.AssignmentStatement
         (ast.ArrayAccess (ast.Identifier "Grid") Grid_K_index)
         (ast.IntegerLiteral 7)) 0%nat Grid_K_state
    = Returns (IntegerObj 7) i3
    /\ evalExpression sample_fmt_g sample_Date_Inspect 3
         (ast.ArrayAccess (ast.Identifier "Grid") Grid_K_index) 0%nat i3
       = Returns (IntegerObj 7) i3
    /\ evalExpression sample_fmt_g sample_Date_Inspect 3
         (ast.ArrayAccess (ast.Identifier "Grid")
            [ast.IntegerLiteral 1; ast.Identifier "K"]) 0%nat i3
       = Returns NullObj i3.
Proof.
  destruct (array_write_then_read sample_fmt_g sample_Date_Inspect 1 "Grid"
              Grid_K_index (ast.IntegerLiteral 7) 0%nat
              Grid_K_state Grid_K_state Grid_K_state 0%nat
              {| arr_Elements := ∅;
                 arr_Dimensions := [ {| ast.Lower := 1; ast.Upper := 3 |};
                                     {| ast.Lower := 1; ast.Upper := 3 |} ] |}
              [2; 3] (IntegerObj 7)
              eq_refl eq_refl eq_refl eq_refl eq_refl eq_refl)
    as (H1 & H2 & _).
  eexists. split; [exact H1|]. split.
  - rewrite (H2 Grid_K_index [2; 3] eq_refl).
    destruct (decide ([2; 3] = [2; 3])) as [_|Hne]; [reflexivity|].
    now destruct Hne.
  - rewrite (H2 [ast.IntegerLiteral 1; ast.Identifier "K"] [1; 2] eq_refl).
    destruct (decide ([1; 2] = [2; 3])) as [Heq|_]; [discriminate Heq|].
    reflexivity.
Defined.

Lemma array_assignment_shares_the_array_witness :
  exists i1 i4 : Interpreter,
    evalStatement sample_fmt_g sample_Date_Inspect 3
      (ast.AssignmentStatement (ast.Identifier "Copy") (ast.Identifier "Grid"))
      0%nat Grid_K_state
    = Returns (ArrayObj 0%nat) i1
    /\ evalStatement sample_fmt_g sample_Date_Inspect 3
         (ast.AssignmentStatement
            (ast.ArrayAccess (ast.Identifier "Copy") Grid_K_index)
            (ast.InfixExpression (ast.Identifier "K") "*"
               (ast.IntegerLiteral 10))) 0%nat i1
       = Returns (IntegerObj 20) i4
    /\ evalExpression sample_fmt_g sample_Date_Inspect 3
         (ast.ArrayAccess (ast.Identifier "Grid") Grid_K_index) 0%nat i4
       = Returns (IntegerObj 20) i4.
Proof.
  assert (Hres : Resolves Grid_K_state "Copy" 0%nat (TStore 0%nat)).
  { eapply Resolves_store; [reflexivity|]. vm_compute. eauto. }
  assert (Hw : writable Grid_K_state "Copy" (TStore 0%nat)).
  { eexists. split; reflexivity. }
  destruct (array_assignment_shares_the_array sample_fmt_g sample_Date_Inspect
              1 "Grid" "Copy" Grid_K_index
              (ast.InfixExpression (ast.Identifier "K") "*"
                 (ast.IntegerLiteral 10)) 0%nat
              Grid_K_state
              (SetInPlace_state Grid_K_state "Copy" (ArrayObj 0%nat)
                 (TStore 0%nat))
              (SetInPlace_state Grid_K_state "Copy" (ArrayObj 0%nat)
                 (TStore 0%nat))
              0%nat
              {| arr_Elements := ∅;
                 arr_Dimensions := [ {| ast.Lower := 1; ast.Upper := 3 |};
                                     {| ast.Lower := 1; ast.Upper := 3 |} ] |}
              [2; 3] (IntegerObj 20) (TStore 0%nat)
              ltac:(discriminate) eq_refl Hres Hw
              eq_refl eq_refl eq_refl eq_refl eq_refl eq_refl)
    as (H1 & _ & _ & H2 & H3).
  eexists. eexists. split; [exact H1|]. split; [exact H2|].
  apply H3. reflexivity.
Defined.

(** ** Integer division *)

(** X11: for Integers [a] and [b <> 0], [a DIV b] and [a MOD b] are the
    quotient rounded towards zero and the remainder, which has the sign of
    [a] and is smaller than [b] in absolute value; in 64-bit arithmetic
    [(a DIV b) * b + (a MOD b)] is [a], also for the least Integer
    divided by -1, where the quotient wraps around to the least Integer.
    For [b = 0] both give the Error "division by zero". *)
Theorem DIV_MOD_identity (a b : Z) (i : Interpreter) :
  is_int64 a -> is_int64 b ->
  (b = 0 ->
   evalIntegerInfixExpression "DIV" (IntegerObj a) (IntegerObj b) i
   = Returns (ErrorObj "division by zero") i
   /\ evalIntegerInfixExpression "MOD" (IntegerObj a) (IntegerObj b) i
      = Returns (ErrorObj "division by zero") i)
  /\ (b <> 0 ->
      exists q r : Z,
        evalIntegerInfixExpression "DIV" (IntegerObj a) (IntegerObj b) i
        = Returns (IntegerObj q) i
        /\ evalIntegerInfixExpression "MOD" (IntegerObj a) (IntegerObj b) i
           = Returns (IntegerObj r) i
        /\ is_int64 q /\ is_int64 r
        /\ wrap64 (q * b + r) = a
        /\ Z.abs r < Z.abs b
        /\ 0 <= r * a
        /\ (q = Z.quot a b \/ (a = - 2 ^ 63 /\ b = - 1 /\ q = a))).
Proof.
  intros Ha Hb. split.
  - intros ->. split; reflexivity.
  - intros Hnz. exists (wrap64 (Z.quot a b)), (Z.rem a b).
    assert (Hb0 : (b =? 0) = false) by now apply Z.eqb_neq.
    split; [cbn; now rewrite Hb0|]. split; [cbn; now rewrite Hb0|].
    pose proof (Z.quot_rem' a b) as Hqr.
    pose proof (Z.rem_bound_abs a b Hnz) as Hrb.
    pose proof (Z.rem_sign_mul a b Hnz) as Hrs.
    unfold is_int64 in *.
    assert (Hq : Z.abs (Z.quot a b) <= Z.abs a).
    { rewrite <- (Z.quot_abs a b) by assumption.
      apply Z.quot_le_upper_bound; [lia|]. nia. }
    split; [apply wrap64_is_int64|].
    split; [nia|].
    destruct (decide (a = - 2 ^ 63 /\ b = - 1)) as [[-> ->]|Hedge].
    + split; [reflexivity|]. split; [lia|]. split; [reflexivity|].
      right. repeat split; reflexivity.
    + remember (Z.quot a b) as q eqn:Eq. remember (Z.rem a b) as r eqn:Er.
      assert (Hin : - 2 ^ 63 <= q < 2 ^ 63).
      { split; [lia|]. destruct (decide (q < 2 ^ 63)) as [|Hge]; [assumption|].
        assert (q = 2 ^ 63) by lia. subst q.
        assert (a = - 2 ^ 63) by lia. subst a.
        assert (r <= 0) by lia.
        assert (b <> -1) by (intros ->; now apply Hedge).
        lia. }
      rewrite (wrap64_id q) by exact Hin.
      split; [rewrite wrap64_id by (unfold is_int64; lia); lia|].
      split; [lia|]. split; [lia|]. now left.
Qed.

Lemma DIV_MOD_identity_witness :
  evalIntegerInfixExpression "DIV" (IntegerObj (- 7)) (IntegerObj 2)
    (New no_input)
  = Returns (IntegerObj (- 3)) (New no_input)
  /\ evalIntegerInfixExpression "MOD" (IntegerObj (- 7)) (IntegerObj 2)
       (New no_input)
     = Returns (IntegerObj (- 1)) (New no_input).
Proof.
  destruct (DIV_MOD_identity (- 7) 2 (New no_input)) as [_ H];
    [unfold is_int64; lia|unfold is_int64; lia|].
  destruct (H ltac:(lia)) as (q & r & Hq & Hr & _ & _ & _ & _ & _ & Hquot).
  rewrite Hq, Hr.
  destruct Hquot as [->|(Ha & _)]; [|discriminate Ha].
  split; [reflexivity|].
  revert Hr. cbn. intros Hr. injection Hr as <-. reflexivity.
Defined.

(** ** Operators on operands of different kinds *)

Section Operators.

Variable fmt_g : float64 -> string.
Variable Date_Inspect : Z -> Z -> Z -> string.

#[local] Abbreviation eS n := (evalStatement fmt_g Date_Inspect n).
#[local] Abbreviation eE n := (evalExpression fmt_g Date_Inspect n).

(** An infix expression whose operands evaluate without an Error is the
    switch on the two values. *)
Lemma evalInfixExpression_values (n : nat) (lhs rhs : ast.Expression)
  (op : string) (env_ : loc) (i i1 i2 : Interpreter) (l r : Object) :
  eE n lhs env_ i = Returns l i1 -> isError l = false ->
  eE n rhs env_ i1 = Returns r i2 -> isError r = false ->
  eE (S n) (ast.InfixExpression lhs op rhs) env_ i
  = infixSwitch fmt_g Date_Inspect op l r i2.
Proof.
  intros Hl Hle Hr Hre. rewrite evalExpression_S. cbn [evalExpression_body].
  unfold evalInfixExpression.
  rewrite (bind_Returns _ _ _ _ _ Hl), Hle.
  now rewrite (bind_Returns _ _ _ _ _ Hr), Hre.
Qed.

(** X17: [=] compares by contents only Integers, Reals, Strings, Chars
    and Booleans.  When the left operand is of another kind (NULL, an
    array, a record, an instance, ...) and the right one is not a Real,
    [=] is FALSE and [<>] is TRUE, even for an operand compared with
    itself: NULL = NULL is FALSE. *)
Theorem equality_is_FALSE_beyond_primitives (n : nat) (lhs rhs : ast.Expression)
  (env_ : loc) (i i1 i2 : Interpreter) (l r : Object) :
  eE n lhs env_ i = Returns l i1 -> isError l = false ->
  eE n rhs env_ i1 = Returns r i2 -> isError r = false ->
  has_known_type l = true -> has_known_type r = true ->
  compared_by_value l = false ->
  (forall x, r <> RealObj x) ->
  eE (S n) (ast.InfixExpression lhs "=" rhs) env_ i
  = Returns (BooleanObj false) i2
  /\ eE (S n) (ast.InfixExpression lhs "<>" rhs) env_ i
     = Returns (BooleanObj true) i2.
Proof.
  intros Hl Hle Hr Hre Hkl Hkr Hprim Hreal.
  rewrite !(evalInfixExpression_values n lhs rhs _ env_ i i1 i2 l r)
    by assumption.
  destruct l; try discriminate Hprim; try discriminate Hkl;
    try discriminate Hle;
    (destruct r; try discriminate Hkr; try discriminate Hre;
     try (now destruct (Hreal _ eq_refl)); split; reflexivity).
Qed.

(** X18: when one operand is a Real, an operand that is not a number
    counts as 0.0 in arithmetic and in comparisons, and no Error is
    raised for the mismatch; [&] with a Real operand is an Error, whereas
    with an Integer and a String it concatenates. *)
Theorem Real_with_an_operand_that_is_no_number (x : float64) (o : Object)
  (i : Interpreter) :
  has_known_type o = true ->
  is_number o = false ->
  (forall op, op ∈ numeric_operators ->
     infixSwitch fmt_g Date_Inspect op (RealObj x) o i
     = infixSwitch fmt_g Date_Inspect op (RealObj x) (RealObj f64_zero) i
     /\ infixSwitch fmt_g Date_Inspect op o (RealObj x) i
        = infixSwitch fmt_g Date_Inspect op (RealObj f64_zero) (RealObj x) i)
  /\ (exists t, Type_ o = Some t
      /\ infixSwitch fmt_g Date_Inspect "&" (RealObj x) o i
         = Returns (ErrorObj ("unknown operator: REAL & " +:+ t)) i)
  /\ (forall (v : Z) (s : string),
        infixSwitch fmt_g Date_Inspect "&" (IntegerObj v) (StringObj s) i
        = Returns (StringObj (pretty v +:+ s)) i).
Proof.
  intros Hk Hn. split; [|split].
  - intros op Hop. unfold numeric_operators in Hop.
    repeat (apply elem_of_cons in Hop as [->|Hop]);
      [..|now apply elem_of_nil in Hop];
      (destruct o; try discriminate Hk; try discriminate Hn;
       split; reflexivity).
  - destruct o; try discriminate Hk; try discriminate Hn;
      (eexists; split; [reflexivity|reflexivity]).
  - intros v s. reflexivity.
Qed.

(** X19: CASE compares the selector with a label by [objectsEqual],
    without the promotion [=] makes: an Integer selector never matches a
    Real label, even when [=] holds of the two, and the clause is passed
    over. *)
Theorem CASE_does_not_promote (n : nat) (a : Z) (x : float64)
  (body : list ast.Statement) (rest : list ast.CaseClause)
  (otherwise : option (list ast.Statement)) (env_ : loc) (i : Interpreter) :
  f64_eqb (float64_of_int64 a) x = true ->
  eE (S (S n))
    (ast.InfixExpression (ast.IntegerLiteral a) "=" (ast.RealLiteral x)) env_ i
  = Returns (BooleanObj true) i
  /\ eS (S (S n))
       (ast.CaseStatement (ast.IntegerLiteral a)
          (ast.MkCaseClause [ast.RealLiteral x] body :: rest) otherwise) env_ i
     = eS (S (S n)) (ast.CaseStatement (ast.IntegerLiteral a) rest otherwise)
         env_ i.
Proof.
  intros Heq. split.
  - rewrite (evalInfixExpression_values (S n) _ _ _ env_ i i i
               (IntegerObj a) (RealObj x)); try reflexivity.
    transitivity (Returns (BooleanObj (f64_eqb (float64_of_int64 a) x)) i);
      [reflexivity|now rewrite Heq].
  - rewrite !evalStatement_S. cbn [evalStatement_body].
    unfold evalCaseStatement.
    assert (Hsel : eE (S n) (ast.IntegerLiteral a) env_ i
                   = Returns (IntegerObj a) i) by reflexivity.
    rewrite !(bind_Returns _ _ _ _ _ Hsel).
    change (isError (IntegerObj a)) with false. cbv iota.
    cbn [evalCases matchesClause].
    assert (Hm : matchesCaseValue (eE (S n)) (IntegerObj a) (ast.RealLiteral x)
                   env_ i = Returns false i) by reflexivity.
    rewrite (bind_Returns _ _ _ _ _ (bind_Returns _ _ _ _ _ Hm)).
    reflexivity.
Qed.

End Operators.

Lemma equality_is_FALSE_beyond_primitives_witness :
  evalExpression sample_fmt_g sample_Date_Inspect 3
    (ast.InfixExpression
       (ast.ArrayAccess (ast.Identifier "Grid") [ast.IntegerLiteral 1])
       "="
       (ast.ArrayAccess (ast.Identifier "Grid") [ast.IntegerLiteral 1]))
    0%nat Grid_state
  = Returns (BooleanObj false) Grid_state.
Proof.
  apply (equality_is_FALSE_beyond_primitives sample_fmt_g sample_Date_Inspect 2
           (ast.ArrayAccess (ast.Identifier "Grid") [ast.IntegerLiteral 1])
           (ast.ArrayAccess (ast.Identifier "Grid") [ast.IntegerLiteral 1])
           0%nat Grid_state Grid_state Grid_state NullObj NullObj);
    try reflexivity.
  intros x. discriminate.
Defined.

Lemma Real_with_an_operand_that_is_no_number_witness :
  infixSwitch sample_fmt_g sample_Date_Inspect "+" (RealObj f64_2_5)
    (StringObj "abc") (New no_input)
  = Returns (RealObj f64_2_5) (New no_input)
  /\ infixSwitch sample_fmt_g sample_Date_Inspect "=" NullObj (RealObj f64_0_0)
       (New no_input)
     = Returns (BooleanObj true) (New no_input).
Proof.
  split.
  - rewrite (proj1 (proj1 (Real_with_an_operand_that_is_no_number
                             sample_fmt_g sample_Date_Inspect f64_2_5
                             (StringObj "abc") (New no_input)
                             eq_refl eq_refl) "+" ltac:(set_solver))).
    vm_compute. reflexivity.
  - rewrite (proj2 (proj1 (Real_with_an_operand_that_is_no_number
                             sample_fmt_g sample_Date_Inspect f64_0_0
                             NullObj (New no_input)
                             eq_refl eq_refl) "=" ltac:(set_solver))).
    vm_compute. reflexivity.
Defined.

Lemma CASE_does_not_promote_witness :
  evalExpression sample_fmt_g sample_Date_Inspect 2
    (ast.InfixExpression (ast.IntegerLiteral 2) "=" (ast.RealLiteral f64_2_0))
    0%nat (New no_input)
  = Returns (BooleanObj true) (New no_input)
  /\ evalStatement sample_fmt_g sample_Date_Inspect 2
       (ast.CaseStatement (ast.IntegerLiteral 2)
          [ast.MkCaseClause [ast.RealLiteral f64_2_0]
             [ast.OutputStatement [ast.StringLiteral "two"]]] None)
       0%nat (New no_input)
     = Returns NullObj (New no_input).
Proof.
  destruct (CASE_does_not_promote sample_fmt_g sample_Date_Inspect 0 2 f64_2_0
              [ast.OutputStatement [ast.StringLiteral "two"]] [] None 0%nat
              (New no_input)) as [H1 H2]; [vm_compute; reflexivity|].
  split; [exact H1|]. rewrite H2. reflexivity.
Defined.

(** ** Comparison of strings *)

(** X25: on two Strings exactly one of [<], [=] and [>] is TRUE, [<=]
    is [<] or [=], [>=] is [>] or [=], and [<>] is the negation of [=]:
    the six comparisons are those of one total order, the bytewise
    lexicographic one. *)
Theorem String_comparisons_are_a_total_order (s t : string) (i : Interpreter) :
  exists lt eq gt : bool,
    evalStringInfixExpression "<" (StringObj s) (StringObj t) i
    = Returns (BooleanObj lt) i
    /\ evalStringInfixExpression "=" (StringObj s) (StringObj t) i
       = Returns (BooleanObj eq) i
    /\ evalStringInfixExpression ">" (StringObj s) (StringObj t) i
       = Returns (BooleanObj gt) i
    /\ evalStringInfixExpression "<=" (StringObj s) (StringObj t) i
       = Returns (BooleanObj (lt || eq)) i
    /\ evalStringInfixExpression ">=" (StringObj s) (StringObj t) i
       = Returns (BooleanObj (gt || eq)) i
    /\ evalStringInfixExpression "<>" (StringObj s) (StringObj t) i
       = Returns (BooleanObj (negb eq)) i
    /\ (eq = true <-> s = t)
    /\ (lt, eq, gt) ∈ [ (true, false, false); (false, true, false);
                        (false, false, true) ].
Proof.
  exists (String.ltb s t), (String.eqb s t), (String.ltb t s).
  assert (Hrefl : forall u, String.compare u u = Eq).
  { intros u. pose proof (String.compare_antisym u u) as H.
    destruct (String.compare u u); try discriminate H; reflexivity. }
  assert (Hne : String.compare t s <> Eq -> String.eqb s t = false).
  { intros Hc. destruct (String.eqb s t) eqn:He; [|reflexivity].
    apply String.eqb_eq in He. subst. now destruct Hc. }
  unfold evalStringInfixExpression, streq, ret.
  cbn [String.eqb Ascii.eqb Bool.eqb].
  unfold String.leb, String.ltb. rewrite (String.compare_antisym s t).
  destruct (String.compare t s) eqn:Ht; cbn [CompOpp].
  - apply String.compare_eq_iff in Ht. subst t. rewrite String.eqb_refl.
    repeat split; try reflexivity. rewrite !elem_of_cons. tauto.
  - rewrite Hne by discriminate.
    repeat split; try reflexivity; try discriminate.
    + intros ->. rewrite Hrefl in Ht. discriminate Ht.
    + rewrite !elem_of_cons. tauto.
  - rewrite Hne by discriminate.
    repeat split; try reflexivity; try discriminate.
    + intros ->. rewrite Hrefl in Ht. discriminate Ht.
    + rewrite !elem_of_cons. tauto.
Qed.
(** ** AND and OR *)

Section Boolean_operators.

Variable fmt_g : float64 -> string.
Variable Date_Inspect : Z -> Z -> Z -> string.

#[local] Abbreviation eE n := (evalExpression fmt_g Date_Inspect n).

(** X27: AND and OR do not short-circuit.  With a Boolean left operand
    the right operand is always evaluated, in the state the left one
    left, and the expression ends in the state the right one leaves: an
    Error of the right operand is the result even of [FALSE AND ...] and
    of [TRUE OR ...], a panic or a run that does not end is that of the
    expression, and a right operand that is not a Boolean gives an
    Error. *)
Theorem AND_OR_do_not_short_circuit (n : nat) (lhs rhs : ast.Expression)
  (env_ : loc) (i i1 : Interpreter) (a : bool) :
  eE n lhs env_ i = Returns (BooleanObj a) i1 ->
  let AND := eE (S n) (ast.InfixExpression lhs "AND" rhs) env_ i in
  let OR := eE (S n) (ast.InfixExpression lhs "OR" rhs) env_ i in
  (forall r i2,
      eE n rhs env_ i1 = Returns r i2 ->
      (isError r = true -> AND = Returns r i2 /\ OR = Returns r i2)
      /\ (forall b : bool,
            r = BooleanObj b ->
            AND = Returns (BooleanObj (a && b)) i2
            /\ OR = Returns (BooleanObj (a || b)) i2)
      /\ (has_known_type r = true -> isError r = false ->
          (forall b : bool, r <> BooleanObj b) ->
          exists msg1 msg2,
            AND = Returns (ErrorObj msg1) i2
            /\ OR = Returns (ErrorObj msg2) i2))
  /\ (forall msg,
        eE n rhs env_ i1 = Panics msg -> AND = Panics msg /\ OR = Panics msg)
  /\ (eE n rhs env_ i1 = OutOfFuel -> AND = OutOfFuel /\ OR = OutOfFuel).
Proof.
  intros Hl AND OR. subst AND OR.
  rewrite !evalExpression_S. cbn [evalExpression_body].
  unfold evalInfixExpression, bind. rewrite Hl.
  change (isError (BooleanObj a)) with false. cbv iota.
  split; [|split].
  - intros r i2 Hr. rewrite Hr. split; [|split].
    + intros He. now rewrite He.
    + intros b ->. split; reflexivity.
    + intros Hk He Hb. rewrite He.
      destruct r; try discriminate Hk; try discriminate He;
        try (now destruct (Hb Value)); eexists; eexists; split; reflexivity.
  - intros msg Hr. now rewrite Hr.
  - intros Hr. now rewrite Hr.
Qed.

End Boolean_operators.

Lemma AND_OR_do_not_short_circuit_witness :
  evalExpression sample_fmt_g sample_Date_Inspect 4
    (ast.InfixExpression (ast.BooleanLiteral false) "AND"
       (ast.InfixExpression
          (ast.InfixExpression (ast.IntegerLiteral 1) "DIV"
             (ast.IntegerLiteral 0))
          "=" (ast.IntegerLiteral 1)))
    0%nat (New no_input)
  = Returns (ErrorObj "division by zero") (New no_input).
Proof.
  apply (proj1 (AND_OR_do_not_short_circuit sample_fmt_g sample_Date_Inspect
                  3 (ast.BooleanLiteral false)
                  (ast.InfixExpression
                     (ast.InfixExpression (ast.IntegerLiteral 1) "DIV"
                        (ast.IntegerLiteral 0))
                     "=" (ast.IntegerLiteral 1))
                  0%nat (New no_input) (New no_input) false eq_refl)
           (ErrorObj "division by zero") (New no_input) eq_refl);
    reflexivity.
Defined.

(** ** FOR loops that cannot end *)

Lemma forLoop_without_exit (eS : ast.Statement -> loc -> M Object)
  (var : string) (step stop : Z) (body : list ast.Statement) (loopEnv : loc) :
  step = 0 \/ (0 < step /\ stop = 2 ^ 63 - 1) \/ (step < 0 /\ stop = - 2 ^ 63) ->
  forall (n : nat) (current : Z) (result : Object) (j : Interpreter)
         (r : Object) (j' : Interpreter),
    is_int64 current ->
    forLoop eS n var step stop body loopEnv current result j = Returns r j' ->
    isSignal r = true.
Proof.
  intros Hstep. induction n as [|n IH];
    intros current result j r j' Hcur H; [discriminate H|].
  cbn [forLoop] in H.
  assert (H1 : (0 <? step) && (stop <? current) = false).
  { unfold is_int64 in Hcur. destruct Hstep as [->|[[Hs ->]|[Hs ->]]].
    - reflexivity.
    - rewrite (proj2 (Z.ltb_ge (2 ^ 63 - 1) current)) by lia.
      apply andb_false_r.
    - now rewrite (proj2 (Z.ltb_ge 0 step)) by lia. }
  assert (H2 : (step <? 0) && (current <? stop) = false).
  { unfold is_int64 in Hcur. destruct Hstep as [->|[[Hs ->]|[Hs ->]]].
    - reflexivity.
    - now rewrite (proj2 (Z.ltb_ge step 0)) by lia.
    - rewrite (proj2 (Z.ltb_ge current (- 2 ^ 63))) by lia.
      apply andb_false_r. }
  rewrite H1, H2 in H. unfold bind in H.
  destruct (SetInPlace loopEnv var (IntegerObj current) j) as [x j1| |];
    try discriminate H.
  destruct (evalStatements eS body loopEnv j1) as [x2 j2| |];
    try discriminate H.
  unfold isSignal.
  destruct (isError x2) eqn:He.
  { injection H as <- _. unfold isError in He. rewrite He. apply orb_true_r. }
  destruct (has_type x2 RETURN_VALUE_OBJ) eqn:Hr.
  { injection H as <- _. now rewrite Hr. }
  apply (IH _ _ _ _ _ (wrap64_is_int64 _) H).
Qed.

Section Endless.

Variable fmt_g : float64 -> string.
Variable Date_Inspect : Z -> Z -> Z -> string.

#[local] Abbreviation eS n := (evalStatement fmt_g Date_Inspect n).
#[local] Abbreviation eE n := (evalExpression fmt_g Date_Inspect n).

(** X12: a FOR loop whose step is 0 has no exit of its own, nor has one
    that counts upwards to the greatest Integer or downwards to the least
    one, the counter wrapping around: whatever its body is, and at
    whatever depth of evaluation, the only result the statement can have
    is an Error or a RETURN that its body yields. *)
Theorem FOR_without_exit (n : nat) (var : string)
  (start stop : ast.Expression) (step : option ast.Expression)
  (body : list ast.Statement) (env_ : loc) (i i1 i2 i3 i' : Interpreter)
  (a b s : Z) (r : Object) :
  eE n start env_ i = Returns (IntegerObj a) i1 ->
  eE n stop env_ i1 = Returns (IntegerObj b) i2 ->
  evalStep (eE n) step env_ i2 = Returns (inr s) i3 ->
  is_int64 a ->
  s = 0 \/ (0 < s /\ b = 2 ^ 63 - 1) \/ (s < 0 /\ b = - 2 ^ 63) ->
  eS (S n) (ast.ForStatement var start stop step body) env_ i = Returns r i' ->
  isSignal r = true.
Proof.
  intros Hstart Hstop Hstep Ha Hs H.
  rewrite evalStatement_S in H. cbn [evalStatement_body] in H.
  unfold evalForStatement in H.
  rewrite (bind_Returns _ _ _ _ _ Hstart) in H.
  change (isError (IntegerObj a)) with false in H. cbv iota in H.
  rewrite (bind_Returns _ _ _ _ _ Hstop) in H.
  change (isError (IntegerObj b)) with false in H. cbv iota in H.
  rewrite (bind_Returns _ _ _ _ _ Hstep) in H.
  rewrite (bind_Returns _ _ _ _ _ (NewEnclosedEnvironment_eq env_ i3)) in H.
  rewrite (bind_Returns _ _ _ _ _
             (Declare_fresh i3 (envs i3) _ var (IntegerObj a))) in H.
  exact (forLoop_without_exit _ _ _ _ _ _ Hs _ _ _ _ _ _ Ha H).
Qed.

End Endless.

Lemma FOR_without_exit_witness :
  match evalStatement sample_fmt_g sample_Date_Inspect 40
          (ast.ForStatement "K" (ast.IntegerLiteral 1) (ast.IntegerLiteral 3)
             (Some (ast.IntegerLiteral 0))
             [ ast.OutputStatement [ ast.Identifier "K" ] ])
          0%nat (New no_input)
  with
  | Returns r _ => isSignal r = true
  | _ => True
  end
  /\ match evalStatement sample_fmt_g sample_Date_Inspect 40
            (ast.ForStatement "K" (ast.IntegerLiteral 1) (ast.IntegerLiteral 3)
               (Some (ast.IntegerLiteral 0))
               [ ast.OutputStatement [ ast.Identifier "K" ];
                 ast.ReturnStatement (Some (ast.Identifier "K")) ])
            0%nat (New no_input)
     with
     | Returns r _ => r = ReturnValueObj (IntegerObj 1)
     | _ => False
     end.
Proof.
  split; [|vm_compute; reflexivity].
  destruct (evalStatement sample_fmt_g sample_Date_Inspect 40
              (ast.ForStatement "K" (ast.IntegerLiteral 1) (ast.IntegerLiteral 3)
                 (Some (ast.IntegerLiteral 0))
                 [ ast.OutputStatement [ ast.Identifier "K" ] ])
              0%nat (New no_input))
    as [r i'| |] eqn:H; [|exact I|exact I].
  apply (FOR_without_exit sample_fmt_g sample_Date_Inspect 39 "K"
           (ast.IntegerLiteral 1) (ast.IntegerLiteral 3)
           (Some (ast.IntegerLiteral 0))
           [ ast.OutputStatement [ ast.Identifier "K" ] ] 0%nat
           (New no_input) (New no_input) (New no_input) (New no_input) i'
           1 3 0 r eq_refl eq_refl eq_refl);
    [unfold is_int64; lia|now left|exact H].
Defined.

(** ** The rounds of a FOR loop *)

Section Rounds.

Variable eS : ast.Statement -> loc -> M Object.
Variable eE : ast.Expression -> loc -> M Object.

Lemma forLoop_rounds (var : string) (step stop : Z)
  (body : list ast.Statement) (loopEnv : loc) :
  step <> 0 ->
  forall (k : nat) (current : Z) (result : Object) (i : Interpreter)
         (r : Object) (i' : Interpreter),
    Iterates eS var step body loopEnv k current result i r i' ->
    is_int64 current ->
    is_int64 (current + Z.of_nat k * step) ->
    (k = 0%nat \/ 0 <= (stop - (current + (Z.of_nat k - 1) * step)) * step) ->
    0 < (current + Z.of_nat k * step - stop) * step ->
    forall n : nat, (k < n)%nat ->
    forLoop eS n var step stop body loopEnv current result i = Returns r i'.
Proof.
  intros Hstep k current result i r i' Hit.
  induction Hit as [current result i
                   |k current result x r1 r' i i1 i2 i' Hset Hbody He Hr _ IH];
    intros Hcur Hend Hin Hout n Hn; (destruct n as [|n]; [lia|]);
    cbn [forLoop]; unfold is_int64 in *.
  - destruct (Z.ltb_spec 0 step) as [Hpos|Hneg].
    + destruct (Z.ltb_spec stop current); [reflexivity|nia].
    + cbn [andb]. destruct (Z.ltb_spec step 0); [|lia].
      destruct (Z.ltb_spec current stop); [reflexivity|nia].
  - assert (Hfirst : 0 <= (stop - current) * step).
    { destruct Hin as [Hk|Hin]; [lia|]. nia. }
    assert (H1 : (0 <? step) && (stop <? current) = false).
    { destruct (Z.ltb_spec 0 step); [|reflexivity].
      destruct (Z.ltb_spec stop current); [nia|reflexivity]. }
    assert (H2 : (step <? 0) && (current <? stop) = false).
    { destruct (Z.ltb_spec step 0); [|reflexivity].
      destruct (Z.ltb_spec current stop); [nia|reflexivity]. }
    rewrite H1, H2.
    rewrite (bind_Returns _ _ _ _ _ Hset), (bind_Returns _ _ _ _ _ Hbody).
    rewrite He, Hr.
    assert (Hnext : is_int64 (current + step)).
    { unfold is_int64. nia. }
    rewrite (wrap64_id _ Hnext) in *.
    apply IH; unfold is_int64 in *; nia.
Qed.

(** X13: a FOR loop from [a] to [b] by a step [s <> 0] runs its body for
    the counter values [a], [a + s], ... as long as they do not pass [b],
    [b] included; the counter is set afresh from the interpreter's own
    count at the start of every round, so that an assignment to it in the
    body does not change the rounds; the statement yields what the last
    round yields. *)
Theorem FOR_runs_its_rounds (budget : nat) (var : string)
  (start stop : ast.Expression) (step : option ast.Expression)
  (body : list ast.Statement) (env_ : loc) (i i1 i2 i3 i' : Interpreter)
  (a b s : Z) (k : nat) (r : Object) :
  eE start env_ i = Returns (IntegerObj a) i1 ->
  eE stop env_ i1 = Returns (IntegerObj b) i2 ->
  evalStep eE step env_ i2 = Returns (inr s) i3 ->
  s <> 0 ->
  is_int64 a ->
  is_int64 (a + Z.of_nat k * s) ->
  (k = 0%nat \/ 0 <= (b - (a + (Z.of_nat k - 1) * s)) * s) ->
  0 < (a + Z.of_nat k * s - b) * s ->
  Iterates eS var s body (length (envs i3)) k a NilObj
    (write_store (set_envs (envs i3 ++ [fresh_scope env_]) i3)
       (length (envs i3)) var (IntegerObj a))
    r i' ->
  (k < budget)%nat ->
  evalForStatement eS eE budget var start stop step body env_ i = Returns r i'.
Proof.
  intros Hstart Hstop Hstep Hs Ha Hend Hin Hout Hit Hk.
  unfold evalForStatement.
  rewrite (bind_Returns _ _ _ _ _ Hstart).
  change (isError (IntegerObj a)) with false. cbv iota.
  rewrite (bind_Returns _ _ _ _ _ Hstop).
  change (isError (IntegerObj b)) with false. cbv iota.
  rewrite (bind_Returns _ _ _ _ _ Hstep).
  rewrite (bind_Returns _ _ _ _ _ (NewEnclosedEnvironment_eq env_ i3)).
  assert (Hfresh : envs (set_envs (envs i3 ++ [fresh_scope env_]) i3)
                     !! length (envs i3) = Some (fresh_scope env_)).
  { cbn. rewrite lookup_app_r by lia. now rewrite Nat.sub_diag. }
  rewrite (bind_Returns _ _ _ _ _
             (Declare_write_store _ _ _ var (IntegerObj a) Hfresh)).
  now apply forLoop_rounds with k.
Qed.

End Rounds.

Lemma FOR_runs_its_rounds_witness :
  exists r i',
    evalForStatement (evalStatement sample_fmt_g sample_Date_Inspect 3)
      (evalExpression sample_fmt_g sample_Date_Inspect 3) 4 "K"
      (ast.IntegerLiteral 1) (ast.IntegerLiteral 5)
      (Some (ast.IntegerLiteral 2))
      [ ast.AssignmentStatement (ast.Identifier "K") (ast.IntegerLiteral 100) ]
      0%nat (New no_input)
    = Returns r i'.
Proof.
  eexists. eexists.
  eapply (FOR_runs_its_rounds _ _ 4 "K" _ _ _ _ 0%nat (New no_input)
            (New no_input) (New no_input) (New no_input) _ 1 5 2 3%nat);
    try reflexivity; try (unfold is_int64; lia).
  do 3 (eapply Iterates_round;
        [reflexivity|reflexivity|reflexivity|reflexivity|]).
  apply Iterates_done.
Defined.
(** ** The step and the bounds of a FOR loop *)

Lemma Iterates_no_Error (eS : ast.Statement -> loc -> M Object) (var : string)
  (step : Z) (body : list ast.Statement) (loopEnv : loc) (k : nat)
  (current : Z) (result : Object) (i : Interpreter) (r : Object)
  (i' : Interpreter) :
  Iterates eS var step body loopEnv k current result i r i' ->
  isError result = false -> isError r = false.
Proof. induction 1; auto. Qed.

Section Step_and_bounds.

Variable fmt_g : float64 -> string.
Variable Date_Inspect : Z -> Z -> Z -> string.

#[local] Abbreviation eS n := (evalStatement fmt_g Date_Inspect n).
#[local] Abbreviation eE n := (evalExpression fmt_g Date_Inspect n).

(** C10: when the STEP expression of a FOR statement evaluates, without
    error, to a value that is not an Integer, the statement raises no error
    for it and runs its loop with step 1: from [a] to [b] the body runs
    once for each of the counter values [a], [a + 1], ..., [b], in rounds
    that set the counter and then run the body, and the statement yields
    what the last round yields, which is no Error.  When the start or the
    end value is not an Integer, the statement evaluates to an Error in the
    state the three expressions left: no loop scope is made and the body is
    never run. *)
Theorem C10_for_step_and_bounds
  (n : nat) (var : string) (start stop : ast.Expression)
  (body : list ast.Statement) (env_ : loc) (i i1 i2 : Interpreter) :
  (forall (stepE : ast.Expression) (a b : Z) (sv : Object) (i3 : Interpreter),
      eE n start env_ i = Returns (IntegerObj a) i1 ->
      eE n stop env_ i1 = Returns (IntegerObj b) i2 ->
      eE n stepE env_ i2 = Returns sv i3 ->
      isError sv = false ->
      (forall s : Z, sv <> IntegerObj s) ->
      eS (S n) (ast.ForStatement var start stop (Some stepE) body) env_ i
      = (do loopEnv <~ NewEnclosedEnvironment env_ ;>
         run Declare_ loopEnv var (IntegerObj a) ;>
         forLoop (eS n) n var 1 b body loopEnv a NilObj) i3)
  /\ (forall (stepE : ast.Expression) (a b : Z) (sv : Object)
          (i3 i' : Interpreter) (r : Object),
      eE n start env_ i = Returns (IntegerObj a) i1 ->
      eE n stop env_ i1 = Returns (IntegerObj b) i2 ->
      eE n stepE env_ i2 = Returns sv i3 ->
      isError sv = false ->
      (forall s : Z, sv <> IntegerObj s) ->
      is_int64 a -> is_int64 b -> b <> 2 ^ 63 - 1 ->
      let rounds := Z.to_nat (b + 1 - a) in
      Iterates (eS n) var 1 body (length (envs i3)) rounds a NilObj
        (write_store (set_envs (envs i3 ++ [fresh_scope env_]) i3)
           (length (envs i3)) var (IntegerObj a))
        r i' ->
      (rounds < n)%nat ->
      eS (S n) (ast.ForStatement var start stop (Some stepE) body) env_ i
      = Returns r i'
      /\ isError r = false)
  /\ (forall (step : option ast.Expression) (startVal endVal : Object)
        (i3 : Interpreter),
      eE n start env_ i = Returns startVal i1 -> isError startVal = false ->
      eE n stop env_ i1 = Returns endVal i2 -> isError endVal = false ->
      match step with
      | None => i3 = i2
      | Some stepE =>
          exists sv, eE n stepE env_ i2 = Returns sv i3 /\ isError sv = false
      end ->
      ((forall a : Z, startVal <> IntegerObj a) ->
       eS (S n) (ast.ForStatement var start stop step body) env_ i
       = Returns (ErrorObj "FOR loop start must be an integer") i3)
      /\ (forall a : Z, startVal = IntegerObj a ->
          (forall b : Z, endVal <> IntegerObj b) ->
          eS (S n) (ast.ForStatement var start stop step body) env_ i
          = Returns (ErrorObj "FOR loop end must be an integer") i3)).
Proof.
  split; [|split].
  - intros stepE a b sv i3 Hs He Ht Hsv Hni.
    rewrite evalStatement_S. cbn [evalStatement_body].
    unfold evalForStatement, bind. rewrite Hs. cbn [isError has_type Type_].
    cbn [ERROR_OBJ INTEGER_OBJ String.eqb Ascii.eqb Bool.eqb].
    rewrite He. cbn [isError has_type Type_].
    cbn [ERROR_OBJ INTEGER_OBJ String.eqb Ascii.eqb Bool.eqb].
    unfold evalStep, bind. rewrite Ht, Hsv.
    destruct sv; try reflexivity. now destruct (Hni Value).
  - intros stepE a b sv i3 i' r Hs He Ht Hsv Hni Ha Hb Hmax rounds Hit Hk.
    split; [|now apply (Iterates_no_Error _ _ _ _ _ _ _ _ _ _ _ Hit)].
    rewrite evalStatement_S. cbn [evalStatement_body].
    unfold evalForStatement.
    rewrite (bind_Returns _ _ _ _ _ Hs).
    change (isError (IntegerObj a)) with false. cbv iota.
    rewrite (bind_Returns _ _ _ _ _ He).
    change (isError (IntegerObj b)) with false. cbv iota.
    assert (Hstep : evalStep (eE n) (Some stepE) env_ i2 = Returns (inr 1) i3).
    { unfold evalStep, bind. rewrite Ht, Hsv.
      destruct sv; try reflexivity. now destruct (Hni Value). }
    rewrite (bind_Returns _ _ _ _ _ Hstep).
    rewrite (bind_Returns _ _ _ _ _ (NewEnclosedEnvironment_eq env_ i3)).
    assert (Hfresh : envs (set_envs (envs i3 ++ [fresh_scope env_]) i3)
                       !! length (envs i3) = Some (fresh_scope env_)).
    { cbn. rewrite lookup_app_r by lia. now rewrite Nat.sub_diag. }
    rewrite (bind_Returns _ _ _ _ _
               (Declare_write_store _ _ _ var (IntegerObj a) Hfresh)).
    unfold is_int64 in Ha, Hb.
    apply (forLoop_rounds (eS n) var 1 b body (length (envs i3)) ltac:(lia)
             rounds a NilObj _ r i' Hit);
      unfold is_int64, rounds; lia.
  - intros step startVal endVal i3 Hs Hsv He Hev Hstep.
    assert (Hst : exists st, evalStep (eE n) step env_ i2 = Returns (inr st) i3).
    { destruct step as [stepE|].
      - destruct Hstep as (sv & Ht & Hsv'). unfold evalStep, bind.
        rewrite Ht, Hsv'. destruct sv; eauto.
      - subst i3. cbn. eauto. }
    destruct Hst as [st Hst].
    split.
    + intros Hni. rewrite evalStatement_S. cbn [evalStatement_body].
      unfold evalForStatement, bind. rewrite Hs, Hsv, He, Hev.
      rewrite Hst. destruct startVal; try reflexivity. now destruct (Hni Value).
    + intros a -> Hni. rewrite evalStatement_S. cbn [evalStatement_body].
      unfold evalForStatement, bind. rewrite Hs, Hsv, He, Hev.
      rewrite Hst. destruct endVal; try reflexivity. now destruct (Hni Value).
Qed.

End Step_and_bounds.

Lemma C10_for_step_and_bounds_witness :
  (exists r i',
      evalStatement sample_fmt_g sample_Date_Inspect 6 For_string_step 0%nat
        (New no_input)
      = Returns r i'
      /\ output i' = ["1" +:+ newline; "2" +:+ newline; "3" +:+ newline])
  /\ evalStatement sample_fmt_g sample_Date_Inspect 6 For_real_start 0%nat
       (New no_input)
     = Returns (ErrorObj "FOR loop start must be an integer") (New no_input).
Proof.
  split.
  - eexists. eexists. split.
    + eapply (proj1 (proj2 (C10_for_step_and_bounds sample_fmt_g
                              sample_Date_Inspect
                              5 "i" (ast.IntegerLiteral 1) (ast.IntegerLiteral 3)
                              [ ast.OutputStatement [ ast.Identifier "i" ] ]
                              0%nat
                              (New no_input) (New no_input) (New no_input)))
                (ast.StringLiteral "x") 1 3 (StringObj "x") (New no_input));
        try reflexivity; try (unfold is_int64; lia); try (cbn; lia);
        [intros s; discriminate|].
      do 3 (eapply Iterates_round;
            [reflexivity|reflexivity|reflexivity|reflexivity|]).
      apply Iterates_done.
    + reflexivity.
  - apply (proj1 (proj2 (proj2 (C10_for_step_and_bounds sample_fmt_g
                                  sample_Date_Inspect
                                  5 "i" (ast.RealLiteral f64_2_5)
                                  (ast.IntegerLiteral 3)
                                  [ ast.OutputStatement [ ast.Identifier "i" ] ]
                                  0%nat
                                  (New no_input) (New no_input) (New no_input)))
                    None (RealObj f64_2_5) (IntegerObj 3) (New no_input)
                    eq_refl eq_refl eq_refl eq_refl eq_refl)).
    intros a; discriminate.
Defined.

(** ** Calls *)

Lemma insert_all_unbound (l : list (string * Object)) (s : gmap string Object)
  (x : string) :
  x ∉ l.*1 -> insert_all s l !! x = s !! x.
Proof.
  revert s. induction l as [|[y v] l IH]; intros s Hx; [reflexivity|].
  cbn in Hx. apply not_elem_of_cons in Hx as [Hne Hx].
  cbn. rewrite IH by assumption. now apply lookup_insert_ne.
Qed.

(** In a well-formed store of scopes, how far [Get] may walk does not
    matter once it may walk from the scope to the outermost one. *)
Lemma Get_from_enough (i : Interpreter) (x : string) (e : loc) (n : nat) :
  wf_envs i -> (e < length (envs i))%nat -> (e < n)%nat ->
  Get_from n i e x = Get i e x.
Proof.
  intros Hwf He Hn. destruct (Resolves_total i x Hwf e He) as [t Ht].
  rewrite (Get_from_Resolves _ _ _ _ Ht n Hn).
  symmetry. now apply Get_Resolves.
Qed.

(** X14: a call does not check the number of arguments.  Arguments
    beyond the parameters are ignored; a parameter without an argument is
    left unbound in the scope of the callee, where its name then reads
    whatever the scope of the definition binds it to. *)
Theorem call_arity_is_not_checked (fnEnv callerEnv : loc)
  (args extra : list Object) (params more : list ast.Param) (i : Interpreter) :
  wf_envs i ->
  (fnEnv < length (envs i))%nat ->
  length args = length params ->
  let callee := length (envs i) in
  let i1 := write_all (set_envs (envs i ++ [fresh_scope fnEnv]) i) callee
              (zip (map ast.Name params) args) in
  extendFunctionEnv fnEnv (args ++ extra) params callerEnv i = Returns callee i1
  /\ extendFunctionEnv fnEnv args (params ++ more) callerEnv i
     = Returns callee i1
  /\ (forall p : ast.Param,
        p ∈ more -> ast.Name p ∉ map ast.Name params ->
        Get i1 callee (ast.Name p) = Get i fnEnv (ast.Name p)).
Proof.
  intros Hwf Hfn Hlen callee i1. subst i1.
  set (i0 := set_envs (envs i ++ [fresh_scope fnEnv]) i).
  assert (H0 : envs i0 !! callee = Some (fresh_scope fnEnv)).
  { unfold i0, callee. cbn. rewrite lookup_app_r by lia.
    now rewrite Nat.sub_diag. }
  destruct (write_all_scope (zip (map ast.Name params) args) i0 callee _ H0)
    as (H1 & H2 & H3 & H4).
  set (i1 := write_all i0 callee (zip (map ast.Name params) args)) in *.
  assert (Hnames : length (map ast.Name params) = length args)
    by (rewrite length_map; lia).
  split; [|split].
  - unfold extendFunctionEnv, bind.
    rewrite NewEnclosedEnvironment_eq. fold i0. fold callee.
    rewrite (bindParameters_eq params (args ++ extra) 0 callee i0 _ H0).
    rewrite drop_0. unfold i1.
    assert (Hz : zip (map ast.Name params) (args ++ extra)
                 = zip (map ast.Name params) args).
    { rewrite <- (app_nil_r (map ast.Name params)) at 1.
      rewrite zip_with_app by assumption. cbn. apply app_nil_r. }
    now rewrite Hz.
  - unfold extendFunctionEnv, bind.
    rewrite NewEnclosedEnvironment_eq. fold i0. fold callee.
    rewrite (bindParameters_eq (params ++ more) args 0 callee i0 _ H0).
    rewrite drop_0. unfold i1.
    assert (Hz : zip (map ast.Name (params ++ more)) args
                 = zip (map ast.Name params) args).
    { rewrite map_app. rewrite <- (app_nil_r args) at 1.
      rewrite zip_with_app by assumption.
      now rewrite zip_with_nil_r, app_nil_r. }
    now rewrite Hz.
  - intros p _ Hp. unfold Get at 1. cbn [Get_from]. rewrite H1.
    cbn [store with_store].
    rewrite insert_all_unbound by (rewrite fst_zip by lia; exact Hp).
    cbn [store fresh_scope]. rewrite lookup_empty.
    unfold instance_field. cbn [instance with_store fresh_scope outer mbind
                                 option_bind].
    assert (Hag : Get_from callee i1 fnEnv (ast.Name p)
                  = Get_from callee i fnEnv (ast.Name p)).
    { apply Get_from_agree; [assumption|now rewrite H4|].
      intros e' He'. rewrite H2 by (unfold callee; lia).
      unfold i0. cbn. apply lookup_app_l. lia. }
    rewrite Hag. apply Get_from_enough; assumption.
Qed.

Lemma call_arity_is_not_checked_witness :
  extendFunctionEnv 0%nat [IntegerObj 1; IntegerObj 2; IntegerObj 3]
    Swap_params 0%nat (New no_input)
  = extendFunctionEnv 0%nat [IntegerObj 1; IntegerObj 2] Swap_params 0%nat
      (New no_input).
Proof.
  assert (Hlt : (0 < length (envs (New no_input)))%nat) by (cbn; lia).
  destruct (call_arity_is_not_checked 0%nat 0%nat [IntegerObj 1; IntegerObj 2]
              [IntegerObj 3] Swap_params [] (New no_input)
              (wf_envs_New no_input) Hlt eq_refl) as (H1 & H2 & _).
  rewrite app_nil_r in H2. cbn [app] in H1. now rewrite H1, H2.
Defined.

Section Arguments.

Variable eS : ast.Statement -> loc -> M Object.
Variable eE : ast.Expression -> loc -> M Object.

Lemma evalExpressions_from_Evaluated (env_ : loc) (pre : list ast.Expression)
  (i i1 : Interpreter) (vs : list Object) :
  Evaluated eE env_ pre i vs i1 ->
  forall (acc : list Object) (post : list ast.Expression),
    evalExpressions_from eE acc (pre ++ post) env_ i
    = evalExpressions_from eE (acc ++ vs) post env_ i1.
Proof.
  induction 1 as [i|e es i i1 i2 v vs He Hv _ IH]; intros acc post.
  - now rewrite app_nil_r.
  - cbn [app evalExpressions_from].
    rewrite (bind_Returns _ _ _ _ _ He), Hv.
    rewrite IH. now rewrite <- app_assoc.
Qed.

Lemma single_error_Evaluated (env_ : loc) (args : list ast.Expression)
  (i i1 : Interpreter) (vs : list Object) :
  Evaluated eE env_ args i vs i1 -> single_error vs = None.
Proof.
  destruct 1 as [i|e es i i1 i2 v vs He Hv Hes]; [reflexivity|].
  cbn. rewrite Hv. now destruct vs.
Qed.

(** X23: a call evaluates the callee first, then the arguments from left
    to right.  An Error from the callee is the result and no argument is
    evaluated; the first argument that yields an Error ends the
    evaluation, the arguments after it are not evaluated, the function is
    not applied, and that Error is the result; otherwise the function is
    applied to the values, in the state the last argument left. *)
Theorem call_evaluates_arguments_in_order (function : ast.Expression)
  (pre post : list ast.Expression) (e : ast.Expression) (env_ : loc)
  (i i0 i1 i2 : Interpreter) (fn err : Object) (vs : list Object) :
  eE function env_ i = Returns fn i0 ->
  (isError fn = true ->
   evalCallExpression eS eE function (pre ++ e :: post) env_ i = Returns fn i0)
  /\ (isError fn = false ->
      Evaluated eE env_ pre i0 vs i1 ->
      evalCallExpression eS eE function pre env_ i
      = applyFunction eS fn vs env_ i1
      /\ (eE e env_ i1 = Returns err i2 -> isError err = true ->
          evalCallExpression eS eE function (pre ++ e :: post) env_ i
          = Returns err i2)).
Proof.
  intros Hfn. split.
  - intros Herr. unfold evalCallExpression.
    now rewrite (bind_Returns _ _ _ _ _ Hfn), Herr.
  - intros Hok Hpre. split.
    + unfold evalCallExpression.
      rewrite (bind_Returns _ _ _ _ _ Hfn), Hok.
      unfold evalExpressions, bind.
      rewrite <- (app_nil_r pre) at 1.
      rewrite (evalExpressions_from_Evaluated _ _ _ _ _ Hpre [] []).
      cbn [evalExpressions_from app]. unfold ret at 1.
      now rewrite (single_error_Evaluated _ _ _ _ _ Hpre).
    + intros He Herr. unfold evalCallExpression.
      rewrite (bind_Returns _ _ _ _ _ Hfn), Hok.
      unfold evalExpressions, bind.
      rewrite (evalExpressions_from_Evaluated _ _ _ _ _ Hpre [] (e :: post)).
      cbn [evalExpressions_from app]. unfold bind.
      rewrite He, Herr. unfold ret at 1. cbn [single_error].
      now rewrite Herr.
Qed.

End Arguments.

Lemma call_evaluates_arguments_in_order_witness :
  evalCallExpression (evalStatement sample_fmt_g sample_Date_Inspect 2)
    (evalExpression sample_fmt_g sample_Date_Inspect 2)
    (ast.Identifier "EOF")
    [ ast.IntegerLiteral 1; ast.Identifier "missing";
      ast.CallExpression (ast.Identifier "EOF") [] ]
    0%nat EOF_state
  = Returns (ErrorObj "identifier not found: missing") EOF_state.
Proof.
  apply (proj2 (call_evaluates_arguments_in_order
                  (evalStatement sample_fmt_g sample_Date_Inspect 2)
                  (evalExpression sample_fmt_g sample_Date_Inspect 2)
                  (ast.Identifier "EOF") [ast.IntegerLiteral 1]
                  [ast.CallExpression (ast.Identifier "EOF") []]
                  (ast.Identifier "missing") 0%nat EOF_state EOF_state
                  EOF_state EOF_state (BuiltinObj "EOF")
                  (ErrorObj "identifier not found: missing") [IntegerObj 1]
                  eq_refl) eq_refl).
  - eapply Evaluated_cons; [reflexivity|reflexivity|apply Evaluated_nil].
  - reflexivity.
  - reflexivity.
Defined.

Section Empty_body.

Variable fmt_g : float64 -> string.
Variable Date_Inspect : Z -> Z -> Z -> string.

#[local] Abbreviation eS n := (evalStatement fmt_g Date_Inspect n).
#[local] Abbreviation eE n := (evalExpression fmt_g Date_Inspect n).

(** X24: a call of a procedure whose body is empty yields no value at
    all (the nil of Go, not NULL).  As a CALL statement this is harmless;
    inside OUTPUT, or as an operand, the interpreter panics on it. *)
Theorem call_with_empty_body_yields_nil (n : nat) (P name : string)
  (params : list ast.Param) (fnEnv env_ : loc) (i : Interpreter) :
  Get i env_ P = Some (ProcedureObj name params [] fnEnv) ->
  let call := ast.CallExpression (ast.Identifier P) [] in
  let i1 := set_envs (envs i ++ [fresh_scope fnEnv]) i in
  eE (S (S n)) call env_ i = Returns NilObj i1
  /\ eS (S (S (S n))) (ast.CallStatement (ast.Identifier P) []) env_ i
     = Returns NilObj i1
  /\ eS (S (S (S n))) (ast.OutputStatement [call]) env_ i
     = Panics nil_dereference
  /\ forall (op : string) (rhs : ast.Expression),
       eE (S (S (S n))) (ast.InfixExpression call op rhs) env_ i
       = match eE (S (S n)) rhs env_ i1 with
         | Returns r i2 => if isError r then Returns r i2
                           else Panics nil_dereference
         | Panics msg => Panics msg
         | OutOfFuel => OutOfFuel
         end.
Proof.
  intros Hget call i1.
  assert (Hbind : forall k, bindParameters (length (envs i)) [] k params i1
                            = Returns tt i1).
  { clear. generalize i1. induction params as [|p ps IH]; intros j k;
      [reflexivity|]. cbn [bindParameters]. rewrite lookup_nil.
    unfold bind, ret. apply IH. }
  assert (Hcall : forall m, eE (S (S m)) call env_ i = Returns NilObj i1).
  { intros m. unfold call. rewrite evalExpression_S.
    cbn [evalExpression_body]. unfold evalCallExpression.
    rewrite (bind_Returns _ _ _ _ _
               (evalIdentifier_bound fmt_g Date_Inspect m _ _ _ _ Hget)).
    change (isError (ProcedureObj name params [] fnEnv)) with false. cbv iota.
    unfold evalExpressions. cbn [evalExpressions_from].
    unfold bind at 1. unfold ret at 1. cbn [single_error applyFunction].
    assert (Hext : extendFunctionEnv fnEnv [] params env_ i
                   = Returns (length (envs i)) i1).
    { unfold extendFunctionEnv.
      rewrite (bind_Returns _ _ _ _ _ (NewEnclosedEnvironment_eq fnEnv i)).
      fold i1. now rewrite (bind_Returns _ _ _ _ _ (Hbind 0%nat)). }
    now rewrite (bind_Returns _ _ _ _ _ Hext). }
  split; [apply Hcall|]. split; [|split].
  - rewrite evalStatement_S. cbn [evalStatement_body].
    unfold evalCallStatement. fold call.
    change (evalCallExpression (eS (S (S n))) (eE (S (S n)))
              (ast.Identifier P) [] env_ i)
      with (evalExpression_body fmt_g Date_Inspect (eS (S (S n)))
              (eE (S (S n))) call env_ i).
    rewrite <- evalExpression_S. apply Hcall.
  - rewrite evalStatement_S. cbn [evalStatement_body].
    unfold evalOutputStatement. cbn [outputParts].
    unfold bind. rewrite (Hcall n). reflexivity.
  - intros op rhs. rewrite evalExpression_S. cbn [evalExpression_body].
    unfold evalInfixExpression.
    rewrite (bind_Returns _ _ _ _ _ (Hcall n)).
    change (isError NilObj) with false. cbv iota. unfold bind.
    destruct (eE (S (S n)) rhs env_ i1) as [r i2| |]; try reflexivity.
    destruct (isError r); reflexivity.
Qed.

End Empty_body.

Lemma call_with_empty_body_yields_nil_witness :
  evalStatement sample_fmt_g sample_Date_Inspect 3
    (ast.OutputStatement [ast.CallExpression (ast.Identifier "Nothing") []])
    0%nat Nothing_state
  = Panics nil_dereference.
Proof.
  apply (call_with_empty_body_yields_nil sample_fmt_g sample_Date_Inspect 0
           "Nothing" "Nothing" [] 0%nat 0%nat Nothing_state eq_refl).
Defined.

(** ** Instances *)

Lemma initializeInstanceFields_lookup (f : string) :
  forall (class : Class) (fields : gmap string Object),
    initializeInstanceFields class fields !! f
    = match declaredField class f with
      | Some _ => Some NullObj
      | None => fields !! f
      end.
Proof.
  fix IH 1. intros [n parent ms declared] fields.
  cbn [initializeInstanceFields declaredField].
  rewrite lookup_union, lookup_fmap.
  destruct (declared !! f) as [dt|]; cbn.
  - now destruct (_ !! f).
  - rewrite (left_id_L None (∪)). destruct parent as [c|]; [apply IH|reflexivity].
Qed.

(** X15: a new instance has exactly the fields that its class and the
    ancestors of the class declare, and every one of them holds NULL,
    whatever type the field is declared with.  For a class without a NEW
    method of its own this is the instance that NEW yields. *)
Theorem new_instance_fields_are_NULL
  (eS : ast.Statement -> loc -> M Object) (eE : ast.Expression -> loc -> M Object)
  (className : string) (arguments : list ast.Expression) (env_ : loc)
  (i : Interpreter) (class : Class) :
  Get i env_ className = Some (ClassObj class) ->
  Class_Methods class !! "NEW" = None ->
  exists (i1 : Interpreter) (o : Instance),
    evalNewExpression eS eE className arguments env_ i
    = Returns (InstanceObj (length (instances i))) i1
    /\ instances i1 !! length (instances i) = Some o
    /\ inst_Class o = class
    /\ forall f : string,
         inst_Fields o !! f
         = match declaredField class f with
           | Some _ => Some NullObj
           | None => None
           end.
Proof.
  intros Hget Hnew.
  eexists. eexists.
  split; [exact (evalNewExpression_without_own_NEW eS eE _ arguments _ _ _ Hget Hnew)|].
  split; [|split].
  - cbn. rewrite lookup_app_r by lia. now rewrite Nat.sub_diag.
  - reflexivity.
  - intros f. cbn. rewrite initializeInstanceFields_lookup.
    destruct (declaredField class f); [reflexivity|apply lookup_empty].
Qed.

Lemma new_instance_fields_are_NULL_witness :
  exists (i1 : Interpreter) (o : Instance),
    evalNewExpression (evalStatement sample_fmt_g sample_Date_Inspect 3)
      (evalExpression sample_fmt_g sample_Date_Inspect 3) "Dog"
      [ast.StringLiteral "Buddy"] 0%nat Dog_state
    = Returns (InstanceObj 0%nat) i1
    /\ instances i1 !! 0%nat = Some o
    /\ inst_Fields o !! "Name" = Some NullObj.
Proof.
  assert (H : exists class,
             Get Dog_state 0%nat "Dog" = Some (ClassObj class)
             /\ Class_Methods class !! "NEW" = None
             /\ declaredField class "Name" = Some STRING).
  { eexists. split; [vm_compute; reflexivity|].
    split; vm_compute; reflexivity. }
  destruct H as (class & Hget & Hnew & Hdecl).
  destruct (new_instance_fields_are_NULL
              (evalStatement sample_fmt_g sample_Date_Inspect 3)
              (evalExpression sample_fmt_g sample_Date_Inspect 3) "Dog"
              [ast.StringLiteral "Buddy"] 0%nat Dog_state class Hget Hnew)
    as (i1 & o & H1 & H2 & _ & H4).
  exists i1, o. split; [exact H1|]. split; [exact H2|].
  rewrite H4. now rewrite Hdecl.
Defined.

(** ** Variables *)

Section Variables.

Variable fmt_g : float64 -> string.
Variable Date_Inspect : Z -> Z -> Z -> string.

#[local] Abbreviation eS n := (evalStatement fmt_g Date_Inspect n).
#[local] Abbreviation eE n := (evalExpression fmt_g Date_Inspect n).

(** X16: after an assignment to a name that is not a constant, the name
    reads the value assigned, from the scope of the assignment, and every
    other name reads, from every scope, what it read before. *)
Theorem assignment_then_read (n : nat) (name : string) (rhs : ast.Expression)
  (e : loc) (i i1 : Interpreter) (v : Object) (t : Target) :
  eE (S n) rhs e i = Returns v i1 ->
  isError v = false ->
  Resolves i1 name e t ->
  writable i1 name t ->
  exists i2 : Interpreter,
    eS (S (S n)) (ast.AssignmentStatement (ast.Identifier name) rhs) e i
    = Returns v i2
    /\ eE (S n) (ast.Identifier name) e i2 = Returns v i2
    /\ forall (other : string) (e' : loc),
         other <> name -> Get i2 e' other = Get i1 e' other.
Proof.
  intros Hrhs Hv Hres Hwr. exists (SetInPlace_state i1 name v t).
  split; [|split].
  - rewrite evalStatement_S. cbn [evalStatement_body].
    unfold evalAssignmentStatement.
    rewrite (bind_Returns _ _ _ _ _ Hrhs), Hv.
    now apply SetInPlace_writes.
  - rewrite evalExpression_S. cbn [evalExpression_body].
    unfold evalIdentifier, bind, get_state.
    unfold Get. rewrite (Get_from_after_write _ _ _ _ _ Hres) by lia.
    reflexivity.
  - intros other e' Hne. unfold Get. now apply Get_from_other_name.
Qed.

End Variables.

Lemma assignment_then_read_witness :
  exists i2 : Interpreter,
    evalStatement sample_fmt_g sample_Date_Inspect 2
      (ast.AssignmentStatement (ast.Identifier "Total") (ast.IntegerLiteral 9))
      1%nat two_scopes
    = Returns (IntegerObj 9) i2
    /\ evalExpression sample_fmt_g sample_Date_Inspect 1
         (ast.Identifier "Total") 1%nat i2
       = Returns (IntegerObj 9) i2.
Proof.
  destruct (assignment_then_read sample_fmt_g sample_Date_Inspect 0 "Total"
              (ast.IntegerLiteral 9) 1%nat two_scopes two_scopes (IntegerObj 9)
              (TRoot 0%nat)) as (i2 & H1 & H2 & _).
  - reflexivity.
  - reflexivity.
  - eapply Resolves_outer;
      [reflexivity|reflexivity|reflexivity|reflexivity|lia|].
    now eapply Resolves_root.
  - exact I.
  - exists i2. split; assumption.
Defined.
(** ** SUPER *)

Section Super.

Variable fmt_g : float64 -> string.
Variable Date_Inspect : Z -> Z -> Z -> string.

#[local] Abbreviation eE n := (evalExpression fmt_g Date_Inspect n).

(** X28: in a method invoked on an instance, SUPER stands for the parent
    of the class of the instance, whichever class declares the method that
    runs.  When the class of the instance does not declare [m] itself but
    inherits it, [SUPER.m] in the scope of the invocation is therefore the
    very method that [m] is on the instance, not the [m] of the next
    ancestor: an inherited method that calls [SUPER.m] calls itself. *)
Theorem SUPER_starts_from_the_class_of_the_instance (n : nat)
  (inst callerEnv : loc) (i : Interpreter) (o : Instance) (parent : Class)
  (m : string) (f : Object) :
  instances i !! inst = Some o ->
  Class_Parent (inst_Class o) = Some parent ->
  Class_Methods (inst_Class o) !! "SUPER" = None ->
  Class_Methods (inst_Class o) !! m = None ->
  inst_Fields o !! m = None ->
  lookupMethod parent m = Some f ->
  let methodEnv := length (envs i) in
  let i1 := set_envs (envs i ++ [method_scope inst (inst_Class o) callerEnv]) i in
  createMethodEnv inst callerEnv i = Returns methodEnv i1
  /\ eE (S (S n)) (ast.MemberAccess ast.SuperExpression m) methodEnv i1
     = Returns (BoundMethodObj inst f) i1
  /\ forall object : ast.Expression,
       eE (S n) object methodEnv i1 = Returns (InstanceObj inst) i1 ->
       eE (S (S n)) (ast.MemberAccess object m) methodEnv i1
       = Returns (BoundMethodObj inst f) i1.
Proof.
  intros Ho Hp Hsuper Hm Hf Hl methodEnv i1.
  split; [now apply createMethodEnv_eq|].
  assert (HE : envs i1 !! methodEnv
               = Some (method_scope inst (inst_Class o) callerEnv)).
  { unfold i1, methodEnv. cbn. rewrite lookup_app_r by lia.
    now rewrite Nat.sub_diag. }
  assert (Hget : Get i1 methodEnv "SUPER" = Some (SuperObj inst (Some parent))).
  { unfold Get. cbn [Get_from]. rewrite HE. cbn [store method_scope].
    rewrite method_store_lookup, Hsuper, Hp.
    destruct (decide ("SUPER" = "this")) as [Heq|_]; [discriminate Heq|].
    destruct (decide ("SUPER" = "SUPER")) as [_|Hne]; [reflexivity|].
    now destruct Hne. }
  split.
  - rewrite evalExpression_S. cbn [evalExpression_body].
    unfold evalMemberAccess, bind.
    rewrite evalExpression_S. cbn [evalExpression_body].
    unfold evalSuperExpression, bind, get_state. rewrite Hget.
    cbn. now rewrite Hl.
  - intros object Hobj.
    rewrite evalExpression_S. cbn [evalExpression_body].
    unfold evalMemberAccess, bind. rewrite Hobj.
    change (isError (InstanceObj inst)) with false. cbv iota.
    unfold read_instance. cbn [instances i1 set_envs]. rewrite Ho, Hf.
    destruct (inst_Class o) as [name par methods fields].
    cbn [Class_Parent Class_Methods] in *. subst par.
    cbn [lookupMethod inst_Class]. now rewrite Hm, Hl.
Qed.

End Super.

Lemma SUPER_starts_from_the_class_of_the_instance_witness :
  evalExpression sample_fmt_g sample_Date_Inspect 2
    (ast.MemberAccess ast.SuperExpression "Describe") 4%nat
    (set_envs (envs Leaf_state ++ [method_scope 0%nat Leaf_class 0%nat])
       Leaf_state)
  = Returns (BoundMethodObj 0%nat
               (ProcedureObj "Describe" [] Middle_Describe 2%nat))
      (set_envs (envs Leaf_state ++ [method_scope 0%nat Leaf_class 0%nat])
         Leaf_state).
Proof.
  apply (proj1 (proj2 (SUPER_starts_from_the_class_of_the_instance
                         sample_fmt_g sample_Date_Inspect 0 0%nat 0%nat
                         Leaf_state
                         {| inst_Class := Leaf_class; inst_Fields := ∅ |}
                         Middle_class "Describe"
                         (ProcedureObj "Describe" [] Middle_Describe 2%nat)
                         eq_refl eq_refl eq_refl eq_refl eq_refl eq_refl))).
Defined.
(** ** The constructor *)

Section Constructor.

Variable fmt_g : float64 -> string.
Variable Date_Inspect : Z -> Z -> Z -> string.

#[local] Abbreviation eS n := (evalStatement fmt_g Date_Inspect n).
#[local] Abbreviation eE n := (evalExpression fmt_g Date_Inspect n).

(** The instance [evalNewExpression] has allocated is there, with its
    class, when the arguments have been evaluated. *)
Lemma instance_after_arguments (n : nat) (arguments : list ast.Expression)
  (env_ : loc) (i1 i2 : Interpreter) (args : list Object) (inst : loc)
  (o : Instance) :
  instances i1 !! inst = Some o ->
  evalExpressions (eE n) arguments env_ i1 = Returns args i2 ->
  exists o2, instances i2 !! inst = Some o2 /\ inst_Class o2 = inst_Class o.
Proof.
  intros Ho Hargs.
  destruct (monotone_evalExpressions (eE n)
              (proj2 (evaluator_monotone fmt_g Date_Inspect n))
              arguments env_ i1 args i2 Hargs) as (_ & _ & Hinst).
  destruct (Hinst inst o Ho) as (o2 & Ho2 & Hclass & _). eauto.
Qed.


End Constructor.


(** ** Records and enumerations *)

Lemma Get_store (i : Interpreter) (e : loc) (E : Environment) (x : string)
  (v : Object) :
  envs i !! e = Some E -> store E !! x = Some v -> Get i e x = Some v.
Proof. intros HE Hx. unfold Get. cbn [Get_from]. now rewrite HE, Hx. Qed.

Lemma GetType_types (i : Interpreter) (e : loc) (E : Environment) (x : string)
  (t : Object) :
  envs i !! e = Some E -> types E !! x = Some t -> GetType i e x = Some t.
Proof. intros HE Hx. unfold GetType. cbn [GetType_from]. now rewrite HE, Hx. Qed.

Section Records.

Variable fmt_g : float64 -> string.
Variable Date_Inspect : Z -> Z -> Z -> string.

#[local] Abbreviation eS n := (evalStatement fmt_g Date_Inspect n).
#[local] Abbreviation eE n := (evalExpression fmt_g Date_Inspect n).

Lemma record_field_access (n : nat) (name member : string) (env_ : loc)
  (i : Interpreter) (p : loc) (rec : RecordVal) :
  Get i env_ name = Some (RecordObj p) ->
  records i !! p = Some rec ->
  eE (S (S n)) (ast.MemberAccess (ast.Identifier name) member) env_ i
  = Returns match rec_Fields rec !! member with
            | Some val => val
            | None => ErrorObj ("field not found: " +:+ member)
            end i.
Proof.
  intros Hget Hrec. rewrite evalExpression_S. cbn [evalExpression_body].
  unfold evalMemberAccess.
  rewrite (bind_Returns _ _ _ _ _
             (evalIdentifier_bound fmt_g Date_Inspect n _ _ _ _ Hget)).
  change (isError (RecordObj p)) with false. cbv iota.
  unfold bind, read_record. rewrite Hrec.
  now destruct (rec_Fields rec !! member).
Qed.

(** X20: a record is a table from field names to values, and an
    assignment to a field does not check that the type declares it.  After
    [R.f <- rhs] the field [f] of [R] reads the value assigned, whether or
    not the record had such a field, and every other field reads what it
    read before: its value, or the Error "field not found" when the record
    does not have it. *)
Theorem record_field_write_then_read (n : nat) (name f : string)
  (rhs : ast.Expression) (env_ : loc) (i i1 : Interpreter) (p : loc)
  (rec : RecordVal) (v : Object) :
  eE (S n) rhs env_ i = Returns v i1 ->
  isError v = false ->
  Get i1 env_ name = Some (RecordObj p) ->
  records i1 !! p = Some rec ->
  exists i2 : Interpreter,
    eS (S (S n))
      (ast.AssignmentStatement (ast.MemberAccess (ast.Identifier name) f) rhs)
      env_ i
    = Returns v i2
    /\ eE (S (S n)) (ast.MemberAccess (ast.Identifier name) f) env_ i2
       = Returns v i2
    /\ forall g : string,
         g <> f ->
         eE (S (S n)) (ast.MemberAccess (ast.Identifier name) g) env_ i2
         = Returns match rec_Fields rec !! g with
                   | Some val => val
                   | None => ErrorObj ("field not found: " +:+ g)
                   end i2.
Proof.
  intros Hrhs Hv Hget Hrec.
  set (rec2 := with_rec_Fields (<[f := v]> (rec_Fields rec)) rec).
  set (i2 := set_records (<[p := rec2]> (records i1)) i1).
  assert (Hget2 : Get i2 env_ name = Some (RecordObj p)).
  { unfold Get. rewrite (Get_from_envs_instances i1 i2); auto. }
  assert (Hrec2 : records i2 !! p = Some rec2).
  { cbn. apply list_lookup_insert_eq. now apply lookup_lt_Some in Hrec. }
  exists i2. split; [|split].
  - rewrite evalStatement_S. cbn [evalStatement_body].
    unfold evalAssignmentStatement.
    rewrite (bind_Returns _ _ _ _ _ Hrhs), Hv.
    unfold evalMemberAssignment.
    rewrite (bind_Returns _ _ _ _ _
               (evalIdentifier_bound fmt_g Date_Inspect n _ _ _ _ Hget)).
    change (isError (RecordObj p)) with false. cbv iota.
    unfold bind, update_record. now rewrite Hrec.
  - rewrite (record_field_access n name f env_ i2 p rec2 Hget2 Hrec2).
    cbn. now rewrite lookup_insert_eq.
  - intros g Hg.
    rewrite (record_field_access n name g env_ i2 p rec2 Hget2 Hrec2).
    cbn. now rewrite lookup_insert_ne by congruence.
Qed.

End Records.

Lemma list_to_map_NULL (fields : list (string * ast.DataType)) (f : string) :
  (list_to_map (map (fun x : string * ast.DataType => (x.1, NullObj)) fields)
     : gmap string Object) !! f
  = if decide (f ∈ fields.*1) then Some NullObj else None.
Proof.
  induction fields as [|[g dt] fields IH]; cbn.
  - rewrite lookup_empty. destruct (decide (f ∈ [])) as [H|_]; [|reflexivity].
    now apply elem_of_nil in H.
  - destruct (decide (g = f)) as [->|Hne].
    + rewrite lookup_insert_eq.
      destruct (decide (f ∈ f :: fields.*1)) as [_|H]; [reflexivity|].
      destruct H. apply elem_of_cons. now left.
    + rewrite lookup_insert_ne by assumption. rewrite IH.
      destruct (decide (f ∈ fields.*1)) as [H|H];
        destruct (decide (f ∈ g :: fields.*1)) as [H'|H']; try reflexivity.
      * destruct H'. apply elem_of_cons. now right.
      * apply elem_of_cons in H' as [->|H']; [now destruct Hne|now destruct H].
Qed.

(** X21: [TYPE T] with a record definition followed by [DECLARE r : T]
    binds [r] to a record of its own, newly allocated, that has exactly
    the fields of the definition, each holding NULL whatever its declared
    type. *)
Theorem declared_record_is_fresh (T r : string)
  (fields : list (string * ast.DataType)) (env_ : loc) (i : Interpreter)
  (E : Environment) :
  envs i !! env_ = Some E ->
  exists (i1 i2 : Interpreter) (rec : RecordVal),
    evalTypeStatement T (ast.RecordType fields) env_ i = Returns NullObj i1
    /\ evalDeclareStatement r (ast.CustomType T) env_ i1
       = Returns (RecordObj (S (length (records i)))) i2
    /\ Get i2 env_ r = Some (RecordObj (S (length (records i))))
    /\ length (records i2) = S (S (length (records i)))
    /\ records i2 !! S (length (records i)) = Some rec
    /\ rec_TypeName rec = T
    /\ forall f : string,
         rec_Fields rec !! f
         = if decide (f ∈ fields.*1) then Some NullObj else None.
Proof.
  intros HE.
  set (template := {| rec_TypeName := T;
                      rec_Fields := list_to_map
                                      (map (fun x : string * ast.DataType =>
                                              (x.1, NullObj)) fields) |}).
  set (p := length (records i)).
  set (E1 := with_types (<[T := RecordObj p]> (types E)) E).
  set (i1 := set_envs (<[env_ := E1]> (envs i))
               (set_records (records i ++ [template]) i)).
  assert (HE1 : envs i1 !! env_ = Some E1).
  { cbn. apply list_lookup_insert_eq. now apply lookup_lt_Some in HE. }
  assert (H1 : evalTypeStatement T (ast.RecordType fields) env_ i
               = Returns NullObj i1).
  { unfold evalTypeStatement, bind, alloc_record, DefineType, update_env.
    cbn. now rewrite HE. }
  assert (Htype : GetType i1 env_ T = Some (RecordObj p)).
  { apply GetType_types with E1; [assumption|]. cbn. apply lookup_insert_eq. }
  assert (Htemplate : records i1 !! p = Some template).
  { cbn. rewrite lookup_app_r by (unfold p; lia).
    unfold p. now rewrite Nat.sub_diag. }
  set (rec := {| rec_TypeName := T;
                 rec_Fields := (fun _ : Object => NullObj) <$> rec_Fields template |}).
  set (E2 := with_store (<[r := RecordObj (S p)]> (store E1)) E1).
  set (i2 := set_envs (<[env_ := E2]> (envs i1))
               (set_records (records i1 ++ [rec]) i1)).
  exists i1, i2, rec. split; [exact H1|].
  assert (Hlen1 : length (records i1) = S p).
  { cbn. rewrite length_app. cbn. unfold p. lia. }
  split.
  { unfold evalDeclareStatement, bind, get_state. rewrite Htype.
    unfold read_record. rewrite Htemplate. unfold alloc_record, ret.
    rewrite Hlen1. unfold Declare_, bind, update_env.
    cbn [envs set_records]. rewrite HE1. reflexivity. }
  split.
  { apply Get_store with E2.
    - cbn. apply list_lookup_insert_eq. rewrite length_insert.
      now apply lookup_lt_Some in HE.
    - cbn. apply lookup_insert_eq. }
  split.
  { cbn. rewrite !length_app. cbn. unfold p. lia. }
  split.
  { cbn. rewrite lookup_app_r by (rewrite length_app; cbn; unfold p; lia).
    rewrite length_app. cbn.
    replace (S p - (length (records i) + 1))%nat with 0%nat by (unfold p; lia).
    reflexivity. }
  split; [reflexivity|].
  intros f. cbn. rewrite lookup_fmap, list_to_map_NULL.
  now destruct (decide (f ∈ fields.*1)).
Qed.

Lemma record_field_write_then_read_witness :
  exists i2 : Interpreter,
    evalStatement sample_fmt_g sample_Date_Inspect 2
      (ast.AssignmentStatement (ast.MemberAccess (ast.Identifier "P") "Z")
         (ast.IntegerLiteral 7)) 0%nat Point_state
    = Returns (IntegerObj 7) i2
    /\ evalExpression sample_fmt_g sample_Date_Inspect 2
         (ast.MemberAccess (ast.Identifier "P") "Z") 0%nat i2
       = Returns (IntegerObj 7) i2.
Proof.
  destruct (record_field_write_then_read sample_fmt_g sample_Date_Inspect 0
              "P" "Z" (ast.IntegerLiteral 7) 0%nat Point_state Point_state 1%nat
              {| rec_TypeName := "Point";
                 rec_Fields := (fun _ : Object => NullObj)
                               <$> list_to_map
                                     (map (fun x : string * ast.DataType =>
                                             (x.1, NullObj)) Point_fields) |}
              (IntegerObj 7))
    as (i2 & H1 & H2 & _);
    [reflexivity|reflexivity|reflexivity|reflexivity|].
  exists i2. split; assumption.
Defined.

Lemma declared_record_is_fresh_witness :
  exists (i1 i2 : Interpreter) (rec : RecordVal),
    evalTypeStatement "Point" (ast.RecordType Point_fields) 0%nat (New no_input)
    = Returns NullObj i1
    /\ evalDeclareStatement "P" (ast.CustomType "Point") 0%nat i1
       = Returns (RecordObj 1%nat) i2
    /\ records i2 !! 1%nat = Some rec
    /\ rec_TypeName rec = "Point".
Proof.
  destruct (declared_record_is_fresh "Point" "P" Point_fields 0%nat
              (New no_input) _ eq_refl)
    as (i1 & i2 & rec & H1 & H2 & _ & _ & H5 & H6 & _).
  exists i1, i2, rec. repeat split; assumption.
Defined.

Lemma declareEnum_spec (env_ : loc) :
  forall (values : list string) (idx : Z) (i : Interpreter) (E : Environment),
    envs i !! env_ = Some E ->
    NoDup values ->
    exists (i1 : Interpreter) (E1 : Environment),
      declareEnum env_ idx values i = Returns tt i1
      /\ rtc Step i i1
      /\ envs i1 !! env_ = Some E1
      /\ constants E1 = constants E
      /\ types E1 = types E
      /\ (forall (k : nat) (x : string),
            values !! k = Some x ->
            store E1 !! x = Some (IntegerObj (idx + Z.of_nat k)))
      /\ (forall x : string, x ∉ values -> store E1 !! x = store E !! x).
Proof.
  induction values as [|val rest IH]; intros idx i E HE Hnd.
  - exists i, E. repeat split; try assumption; try reflexivity.
    intros k x Hk. discriminate Hk.
  - apply NoDup_cons in Hnd as [Hval Hnd].
    set (E' := with_store (<[val := IntegerObj idx]> (store E)) E).
    set (i' := set_envs (<[env_ := E']> (envs i)) i).
    assert (HE' : envs i' !! env_ = Some E').
    { cbn. apply list_lookup_insert_eq. now apply lookup_lt_Some in HE. }
    destruct (IH (idx + 1) i' E' HE' Hnd)
      as (i1 & E1 & Hrun & Hsteps & HE1 & Hc & Ht & Hin & Hout).
    exists i1, E1. split; [|split; [|split; [|split; [|split; [|split]]]]].
    + cbn [declareEnum].
      rewrite (bind_Returns _ _ _ _ _ (Declare_eq i env_ E val _ HE)).
      exact Hrun.
    + apply rtc_l with i'; [now constructor|assumption].
    + exact HE1.
    + now rewrite Hc.
    + now rewrite Ht.
    + intros [|k] x Hk.
      * injection Hk as ->. rewrite (Hout x Hval). cbn.
        rewrite lookup_insert_eq. do 2 f_equal. lia.
      * rewrite (Hin k x Hk). do 2 f_equal. lia.
    + intros x Hx. apply not_elem_of_cons in Hx as [Hne Hx].
      rewrite (Hout x Hx). cbn. now apply lookup_insert_ne.
Qed.

(** X22: [TYPE T = (v0, v1, ...)] binds each value of the enumeration,
    in the scope of the statement, to the Integer of its position counted
    from 0.  The names are ordinary variables: nothing is marked constant,
    so that an assignment can change them, and the name [T] itself is not
    defined as a type. *)
Theorem enumeration_values_are_numbered_variables (T : string)
  (values : list string) (env_ : loc) (i : Interpreter) (E : Environment) :
  envs i !! env_ = Some E ->
  NoDup values ->
  exists (i1 : Interpreter) (E1 : Environment),
    evalTypeStatement T (ast.EnumType values) env_ i = Returns NullObj i1
    /\ envs i1 !! env_ = Some E1
    /\ constants E1 = constants E
    /\ types E1 = types E
    /\ forall (k : nat) (x : string),
         values !! k = Some x ->
         Get i1 env_ x = Some (IntegerObj (Z.of_nat k))
         /\ (default false (constants E !! x) = false ->
             forall v : Object,
               SetInPlace env_ x v i1 = Returns v (write_store i1 env_ x v)).
Proof.
  intros HE Hnd.
  destruct (declareEnum_spec env_ values 0 i E HE Hnd)
    as (i1 & E1 & Hrun & _ & HE1 & Hc & Ht & Hin & _).
  exists i1, E1. split; [|split; [|split; [|split]]]; try assumption.
  - unfold evalTypeStatement. now rewrite (bind_Returns _ _ _ _ _ Hrun).
  - intros k x Hk. pose proof (Hin k x Hk) as Hx. cbn in Hx. split.
    + now apply Get_store with E1.
    + intros Hnc v.
      apply (SetInPlace_writes i1 x v env_ (TStore env_)).
      * apply Resolves_store with E1; [assumption|]. rewrite Hx. eauto.
      * exists E1. split; [assumption|]. now rewrite Hc.
Qed.

Lemma enumeration_values_are_numbered_variables_witness :
  exists i1 : Interpreter,
    evalTypeStatement "Season" (ast.EnumType ["Spring"; "Summer"; "Autumn"])
      0%nat (New no_input)
    = Returns NullObj i1
    /\ Get i1 0%nat "Autumn" = Some (IntegerObj 2)
    /\ SetInPlace 0%nat "Autumn" (IntegerObj 9) i1
       = Returns (IntegerObj 9) (write_store i1 0%nat "Autumn" (IntegerObj 9)).
Proof.
  destruct (enumeration_values_are_numbered_variables "Season"
              ["Spring"; "Summer"; "Autumn"] 0%nat (New no_input) _ eq_refl)
    as (i1 & E1 & H1 & _ & _ & _ & H5).
  { apply NoDup_ListNoDup. repeat constructor; cbn; intuition discriminate. }
  destruct (H5 2%nat "Autumn" eq_refl) as [Hget Hset].
  exists i1. split; [exact H1|]. split; [exact Hget|].
  apply Hset. reflexivity.
Defined.
(** ** The evaluation depth *)

(** The depth bounds the nesting the evaluator may follow and the rounds of
    its loops.  A result obtained within one bound is the result within
    every greater bound. *)

Lemma leM_refl {A} (c : M A) : leM c c.
Proof. intros i a i' H. exact H. Qed.

Lemma leM_OutOfFuel {A} (c : M A) : leM (fun _ : Interpreter => OutOfFuel) c.
Proof. intros i a i' H. discriminate H. Qed.

Lemma leM_bind {A B} (c c' : M A) (k k' : A -> M B) :
  leM c c' -> (forall a, leM (k a) (k' a)) -> leM (bind c k) (bind c' k').
Proof.
  intros Hc Hk i b i' H. unfold bind in *.
  destruct (c i) as [a i1| |] eqn:Hci; try discriminate H.
  rewrite (Hc _ _ _ Hci). now apply Hk.
Qed.

Create HintDb fm.

#[local] Hint Resolve leM_refl leM_OutOfFuel : fm.

Ltac fm_step :=
  cbv beta;
  match goal with
  | |- leM _ _ => solve [auto with fm]
  | |- leM (bind _ _) (bind _ _) => apply leM_bind; [|intros ?]
  | |- leM (match ?x with _ => _ end) (match ?x with _ => _ end) => destruct x
  end.
Ltac fm := repeat fm_step.

Section Depth.

Variable fmt_g : float64 -> string.
Variable Date_Inspect : Z -> Z -> Z -> string.

Variable eS eS' : ast.Statement -> loc -> M Object.
Variable eE eE' : ast.Expression -> loc -> M Object.
Variable budget budget' : nat.
Hypothesis eS_le : forall stmt env_, leM (eS stmt env_) (eS' stmt env_).
Hypothesis eE_le : forall expr env_, leM (eE expr env_) (eE' expr env_).
Hypothesis budget_le : (budget <= budget')%nat.

#[local] Hint Resolve eS_le eE_le : fm.

Lemma leM_evalStatements_from (env_ : loc) :
  forall (stmts : list ast.Statement) (result : Object),
    leM (evalStatements_from eS result stmts env_)
      (evalStatements_from eS' result stmts env_).
Proof.
  induction stmts as [|stmt rest IH]; intros result;
    cbn [evalStatements_from]; fm.
Qed.

Lemma leM_evalStatements (stmts : list ast.Statement) (env_ : loc) :
  leM (evalStatements eS stmts env_)
      (evalStatements eS' stmts env_).
Proof. apply leM_evalStatements_from. Qed.

Lemma leM_evalExpressions_from (env_ : loc) :
  forall (exprs : list ast.Expression) (result : list Object),
    leM (evalExpressions_from eE result exprs env_)
      (evalExpressions_from eE' result exprs env_).
Proof.
  induction exprs as [|e rest IH]; intros result;
    cbn [evalExpressions_from]; fm.
Qed.

Lemma leM_evalExpressions (exprs : list ast.Expression) (env_ : loc) :
  leM (evalExpressions eE exprs env_)
      (evalExpressions eE' exprs env_).
Proof. apply leM_evalExpressions_from. Qed.

Lemma leM_evalIndices (env_ : loc) :
  forall (exprs : list ast.Expression) (indices : list Z),
    leM (evalIndices eE indices exprs env_)
      (evalIndices eE' indices exprs env_).
Proof.
  induction exprs as [|e rest IH]; intros indices; cbn [evalIndices]; fm.
Qed.

#[local] Hint Resolve leM_evalStatements leM_evalExpressions
  leM_evalIndices : fm.

Lemma leM_evalArrayAssignment (array : ast.Expression)
  (indices : list ast.Expression) (value : Object) (env_ : loc) :
  leM (evalArrayAssignment eE array indices value env_)
      (evalArrayAssignment eE' array indices value env_).
Proof. unfold evalArrayAssignment. fm. Qed.

Lemma leM_evalMemberAssignment (object : ast.Expression) (member : string)
  (value : Object) (env_ : loc) :
  leM (evalMemberAssignment eE object member value env_)
      (evalMemberAssignment eE' object member value env_).
Proof.
  unfold evalMemberAssignment. fm.
Qed.

#[local] Hint Resolve leM_evalArrayAssignment
  leM_evalMemberAssignment : fm.

Lemma leM_evalConstantStatement (name : string) (value : ast.Expression)
  (env_ : loc) :
  leM (evalConstantStatement eE name value env_)
      (evalConstantStatement eE' name value env_).
Proof. unfold evalConstantStatement. fm. Qed.

Lemma leM_evalAssignmentStatement (target value : ast.Expression)
  (env_ : loc) :
  leM (evalAssignmentStatement eE target value env_)
      (evalAssignmentStatement eE' target value env_).
Proof. unfold evalAssignmentStatement. fm. Qed.

Lemma leM_evalIfStatement (cond : ast.Expression)
  (consequence : list ast.Statement) (alternative : option (list ast.Statement))
  (env_ : loc) :
  leM (evalIfStatement eS eE cond consequence alternative env_)
      (evalIfStatement eS' eE' cond consequence alternative env_).
Proof. unfold evalIfStatement. fm. Qed.

Lemma leM_matchesCaseValue (value : Object) (caseValue : ast.Expression)
  (env_ : loc) :
  leM (matchesCaseValue eE value caseValue env_)
      (matchesCaseValue eE' value caseValue env_).
Proof. unfold matchesCaseValue. fm. Qed.

Lemma leM_matchesClause (value : Object) (env_ : loc) :
  forall caseValues : list ast.Expression,
    leM (matchesClause eE value caseValues env_)
      (matchesClause eE' value caseValues env_).
Proof.
  pose proof leM_matchesCaseValue.
  induction caseValues as [|caseValue rest IH]; cbn [matchesClause]; fm.
Qed.

Lemma leM_evalCases (value : Object)
  (otherwise : option (list ast.Statement)) (env_ : loc) :
  forall cases : list ast.CaseClause,
    leM (evalCases eS eE value cases otherwise env_)
      (evalCases eS' eE' value cases otherwise env_).
Proof.
  pose proof leM_matchesClause.
  induction cases as [|[caseValues body] rest IH]; cbn [evalCases]; fm.
Qed.

Lemma leM_evalCaseStatement (expr : ast.Expression)
  (cases : list ast.CaseClause) (otherwise : option (list ast.Statement))
  (env_ : loc) :
  leM (evalCaseStatement eS eE expr cases otherwise env_)
      (evalCaseStatement eS' eE' expr cases otherwise env_).
Proof.
  pose proof leM_evalCases. unfold evalCaseStatement. fm.
Qed.

Lemma leM_forLoop (var : string) (step stop : Z)
  (body : list ast.Statement) (loopEnv : loc) :
  forall (n n' : nat) (current : Z) (result : Object),
    (n <= n')%nat ->
    leM (forLoop eS n var step stop body loopEnv current result)
      (forLoop eS' n' var step stop body loopEnv current result).
Proof.
  induction n as [|n IH]; intros n' current result Hn;
    [intros i a i' H; discriminate H|].
  destruct n' as [|n']; [lia|].
  assert (Hn' : (n <= n')%nat) by lia.
  cbn [forLoop]; fm.
Qed.

Lemma leM_evalStep (step : option ast.Expression) (env_ : loc) :
  leM (evalStep eE step env_)
      (evalStep eE' step env_).
Proof. unfold evalStep. fm. Qed.

Lemma leM_evalForStatement (var : string) (start stop : ast.Expression)
  (step : option ast.Expression) (body : list ast.Statement) (env_ : loc) :
  leM (evalForStatement eS eE budget var start stop step body env_)
      (evalForStatement eS' eE' budget' var start stop step body env_).
Proof.
  pose proof leM_forLoop. pose proof leM_evalStep.
  unfold evalForStatement. fm.
Qed.

Lemma leM_whileLoop (cond : ast.Expression) (body : list ast.Statement)
  (env_ : loc) :
  forall (n n' : nat) (result : Object),
    (n <= n')%nat ->
    leM (whileLoop eS eE n cond body env_ result)
      (whileLoop eS' eE' n' cond body env_ result).
Proof.
  induction n as [|n IH]; intros n' result Hn;
    [intros i a i' H; discriminate H|].
  destruct n' as [|n']; [lia|].
  assert (Hn' : (n <= n')%nat) by lia.
  cbn [whileLoop]; fm.
Qed.

Lemma leM_repeatLoop (body : list ast.Statement) (cond : ast.Expression)
  (env_ : loc) :
  forall n n' : nat,
    (n <= n')%nat ->
    leM (repeatLoop eS eE n body cond env_)
      (repeatLoop eS' eE' n' body cond env_).
Proof.
  induction n as [|n IH]; intros n' Hn; [intros i a i' H; discriminate H|].
  destruct n' as [|n']; [lia|].
  assert (Hn' : (n <= n')%nat) by lia.
  cbn [repeatLoop]; fm.
Qed.

Lemma leM_evalReturnStatement (value : option ast.Expression)
  (env_ : loc) :
  leM (evalReturnStatement eE value env_)
      (evalReturnStatement eE' value env_).
Proof. unfold evalReturnStatement. fm. Qed.

Lemma leM_storeLine (target : ast.Expression) (line : string)
  (env_ : loc) :
  leM (storeLine eE target line env_)
      (storeLine eE' target line env_).
Proof. unfold storeLine. fm. Qed.

Lemma leM_evalInputStatement (target : ast.Expression) (env_ : loc) :
  leM (evalInputStatement eE target env_)
      (evalInputStatement eE' target env_).
Proof.
  pose proof leM_storeLine.
  unfold evalInputStatement. fm.
Qed.

Lemma leM_outputParts (env_ : loc) :
  forall (values : list ast.Expression) (parts : list string),
    leM (outputParts fmt_g Date_Inspect eE parts values env_)
      (outputParts fmt_g Date_Inspect eE' parts values env_).
Proof.
  induction values as [|expr rest IH]; intros parts; cbn [outputParts]; fm.
Qed.

Lemma leM_evalOutputStatement (values : list ast.Expression) (env_ : loc) :
  leM (evalOutputStatement fmt_g Date_Inspect eE values env_)
      (evalOutputStatement fmt_g Date_Inspect eE' values env_).
Proof.
  pose proof leM_outputParts.
  unfold evalOutputStatement. fm.
Qed.

Lemma leM_evalOpenFileStatement (filename : ast.Expression)
  (mode_ : string) (env_ : loc) :
  leM (evalOpenFileStatement eE filename mode_ env_)
      (evalOpenFileStatement eE' filename mode_ env_).
Proof.
  unfold evalOpenFileStatement. fm.
Qed.

Lemma leM_evalCloseFileStatement (filename : ast.Expression) (env_ : loc) :
  leM (evalCloseFileStatement eE filename env_)
      (evalCloseFileStatement eE' filename env_).
Proof.
  unfold evalCloseFileStatement. fm.
Qed.

Lemma leM_evalReadFileStatement (filename target : ast.Expression)
  (env_ : loc) :
  leM (evalReadFileStatement eE filename target env_)
      (evalReadFileStatement eE' filename target env_).
Proof.
  pose proof leM_storeLine.
  unfold evalReadFileStatement. fm.
Qed.

Lemma leM_evalWriteFileStatement (filename data : ast.Expression)
  (env_ : loc) :
  leM (evalWriteFileStatement fmt_g Date_Inspect eE filename data env_)
      (evalWriteFileStatement fmt_g Date_Inspect eE' filename data env_).
Proof.
  unfold evalWriteFileStatement. fm.
Qed.

Lemma leM_evalPrefixExpression (op : string) (right : ast.Expression)
  (env_ : loc) :
  leM (evalPrefixExpression eE op right env_)
      (evalPrefixExpression eE' op right env_).
Proof. unfold evalPrefixExpression. fm. Qed.

Lemma leM_evalInfixExpression (lhs : ast.Expression) (op : string)
  (rhs : ast.Expression) (env_ : loc) :
  leM (evalInfixExpression fmt_g Date_Inspect eE lhs op rhs env_)
      (evalInfixExpression fmt_g Date_Inspect eE' lhs op rhs env_).
Proof. unfold evalInfixExpression. fm. Qed.

Lemma leM_evalArrayAccess (array : ast.Expression)
  (indices : list ast.Expression) (env_ : loc) :
  leM (evalArrayAccess eE array indices env_)
      (evalArrayAccess eE' array indices env_).
Proof. unfold evalArrayAccess. fm. Qed.

Lemma leM_evalMemberAccess (object : ast.Expression) (member : string)
  (env_ : loc) :
  leM (evalMemberAccess eE object member env_)
      (evalMemberAccess eE' object member env_).
Proof. unfold evalMemberAccess. fm. Qed.

Lemma leM_applyBoundMethod (inst : loc) (method : Object)
  (args : list Object) (callerEnv : loc) :
  leM (applyBoundMethod eS inst method args callerEnv)
      (applyBoundMethod eS' inst method args callerEnv).
Proof. unfold applyBoundMethod. fm. Qed.

Lemma leM_applyFunction (fn : Object) (args : list Object)
  (callerEnv : loc) :
  leM (applyFunction eS fn args callerEnv)
      (applyFunction eS' fn args callerEnv).
Proof.
  pose proof leM_applyBoundMethod.
  unfold applyFunction. fm.
Qed.

Lemma leM_evalCallExpression (function : ast.Expression)
  (arguments : list ast.Expression) (env_ : loc) :
  leM (evalCallExpression eS eE function arguments env_)
      (evalCallExpression eS' eE' function arguments env_).
Proof.
  pose proof leM_applyFunction.
  unfold evalCallExpression. fm.
Qed.

Lemma leM_evalNewExpression (className : string)
  (arguments : list ast.Expression) (env_ : loc) :
  leM (evalNewExpression eS eE className arguments env_)
      (evalNewExpression eS' eE' className arguments env_).
Proof.
  unfold evalNewExpression. fm.
Qed.

Lemma leM_evalStatement_body (stmt : ast.Statement) (env_ : loc) :
  leM (evalStatement_body fmt_g Date_Inspect eS eE budget stmt env_)
      (evalStatement_body fmt_g Date_Inspect eS' eE' budget' stmt env_).
Proof.
  destruct stmt; cbn [evalStatement_body];
    first [ apply leM_refl
          | apply eE_le
          | apply leM_evalConstantStatement
          | apply leM_evalAssignmentStatement
          | apply leM_evalIfStatement
          | apply leM_evalCaseStatement
          | apply leM_evalForStatement
          | apply leM_whileLoop, budget_le
          | apply leM_repeatLoop, budget_le
          | apply leM_evalCallExpression
          | apply leM_evalReturnStatement
          | apply leM_evalInputStatement
          | apply leM_evalOutputStatement
          | apply leM_evalOpenFileStatement
          | apply leM_evalCloseFileStatement
          | apply leM_evalReadFileStatement
          | apply leM_evalWriteFileStatement ].
Qed.

Lemma leM_evalExpression_body (expr : ast.Expression) (env_ : loc) :
  leM (evalExpression_body fmt_g Date_Inspect eS eE expr env_)
      (evalExpression_body fmt_g Date_Inspect eS' eE' expr env_).
Proof.
  destruct expr; cbn [evalExpression_body];
    first [ apply leM_refl
          | apply leM_evalPrefixExpression
          | apply leM_evalInfixExpression
          | apply leM_evalArrayAccess
          | apply leM_evalMemberAccess
          | apply leM_evalCallExpression
          | apply leM_evalNewExpression ].
Qed.

End Depth.

Lemma evaluator_deeper_S (fmt_g : float64 -> string)
  (Date_Inspect : Z -> Z -> Z -> string) (n : nat) :
  (forall stmt env_,
      leM (evalStatement fmt_g Date_Inspect n stmt env_)
          (evalStatement fmt_g Date_Inspect (S n) stmt env_))
  /\ (forall expr env_,
         leM (evalExpression fmt_g Date_Inspect n expr env_)
             (evalExpression fmt_g Date_Inspect (S n) expr env_)).
Proof.
  induction n as [|n [IHS IHE]].
  - split; intros x e i a i' H; discriminate H.
  - split; intros x e.
    + rewrite !evalStatement_S. apply leM_evalStatement_body; auto.
    + rewrite !evalExpression_S. apply leM_evalExpression_body; auto.
Qed.

Lemma evaluator_deeper (fmt_g : float64 -> string)
  (Date_Inspect : Z -> Z -> Z -> string) (n m : nat) :
  (n <= m)%nat ->
  (forall stmt env_,
      leM (evalStatement fmt_g Date_Inspect n stmt env_)
          (evalStatement fmt_g Date_Inspect m stmt env_))
  /\ (forall expr env_,
         leM (evalExpression fmt_g Date_Inspect n expr env_)
             (evalExpression fmt_g Date_Inspect m expr env_)).
Proof.
  induction 1 as [|m Hle [IHS IHE]].
  - split; intros; apply leM_refl.
  - destruct (evaluator_deeper_S fmt_g Date_Inspect m) as [HS HE].
    split; intros x e i a i' H.
    + now apply HS, IHS.
    + now apply HE, IHE.
Qed.

(** ** REPEAT and WHILE *)

Lemma evalStatements_from_app (eS : ast.Statement -> loc -> M Object)
  (env_ : loc) (ys : list ast.Statement) :
  forall (xs : list ast.Statement) (r0 : Object) (i : Interpreter),
    isSignal r0 = false ->
    evalStatements_from eS r0 (xs ++ ys) env_ i
    = match evalStatements_from eS r0 xs env_ i with
      | Returns r i1 =>
          if isSignal r then Returns r i1
          else evalStatements_from eS r ys env_ i1
      | Panics msg => Panics msg
      | OutOfFuel => OutOfFuel
      end.
Proof.
  induction xs as [|x xs IH]; intros r0 i H0.
  - cbn. now rewrite H0.
  - cbn [app evalStatements_from]. unfold bind.
    destruct (eS x env_ i) as [r i1| |]; [|reflexivity..].
    destruct (isSignal r) eqn:Hr.
    + cbn. now rewrite Hr.
    + now apply IH.
Qed.

Lemma isSignal_tests (r : Object) :
  isSignal r = false <-> isError r = false /\ has_type r RETURN_VALUE_OBJ = false.
Proof.
  unfold isSignal, isError.
  destruct (has_type r RETURN_VALUE_OBJ), (has_type r ERROR_OBJ); cbn; intuition.
Qed.

(** A comparison yields a Boolean or an Error, whatever its operands. *)
Lemma comparison_yields_Boolean (fmt_g : float64 -> string)
  (Date_Inspect : Z -> Z -> Z -> string) (op : string) (l r v : Object)
  (i i' : Interpreter) :
  op ∈ comparison_operators ->
  infixSwitch fmt_g Date_Inspect op l r i = Returns v i' ->
  isError v = false ->
  exists b : bool, v = BooleanObj b.
Proof.
  intros Hop H Hv. unfold comparison_operators in Hop.
  repeat (apply elem_of_cons in Hop as [->|Hop]);
    [..|now apply elem_of_nil in Hop];
    unfold infixSwitch, evalOtherInfix, evalIntegerInfixExpression,
      evalRealInfixExpression, evalStringInfixExpression,
      evalBooleanInfixExpression, unknown_operator, division_by_zero,
      bind, TypeOf, error, ret, panic in H;
    cbn [streq String.eqb Ascii.eqb Bool.eqb andb] in H;
    repeat case_match; simplify_eq; try discriminate; eauto.
Qed.

Lemma whileLoop_S (eS : ast.Statement -> loc -> M Object)
  (eE : ast.Expression -> loc -> M Object) (n : nat) (cond : ast.Expression)
  (body : list ast.Statement) (env_ : loc) (result : Object) :
  whileLoop eS eE (S n) cond body env_ result
  = (do condition <~ eE cond env_ ;>
     if isError condition then ret condition
     else if negb (isTruthy condition) then ret result
     else
       do r <~ evalStatements eS body env_ ;>
       if isError r then ret r
       else if has_type r RETURN_VALUE_OBJ then ret r
       else whileLoop eS eE n cond body env_ r).
Proof. reflexivity. Qed.

Lemma repeatLoop_S (eS : ast.Statement -> loc -> M Object)
  (eE : ast.Expression -> loc -> M Object) (n : nat)
  (body : list ast.Statement) (cond : ast.Expression) (env_ : loc) :
  repeatLoop eS eE (S n) body cond env_
  = (do r <~ evalStatements eS body env_ ;>
     if isError r then ret r
     else if has_type r RETURN_VALUE_OBJ then ret r
     else
       do condition <~ eE cond env_ ;>
       if isError condition then ret condition
       else if isTruthy condition then ret r
       else repeatLoop eS eE n body cond env_).
Proof. reflexivity. Qed.

Section Repeat_and_While.

Variable eS : ast.Statement -> loc -> M Object.
Variable eE eE' : ast.Expression -> loc -> M Object.
Variable body : list ast.Statement.
Variable c : ast.Expression.
Variable env_ : loc.

#[local] Abbreviation notc := (ast.PrefixExpression "NOT" c).

Hypothesis eE'_notc :
  forall j, eE' notc env_ j = evalPrefixExpression eE "NOT" c env_ j.
Hypothesis c_Boolean :
  forall j v j',
    eE c env_ j = Returns v j' -> isError v = false ->
    exists b : bool, v = BooleanObj b.

(** What the test of the WHILE loop finds is what the test of the REPEAT
    loop finds, negated. *)
Lemma notc_cases (j : Interpreter) :
  match eE c env_ j with
  | Returns v j1 =>
      (isError v = true /\ eE' notc env_ j = Returns v j1)
      \/ (exists b, v = BooleanObj b
                    /\ eE' notc env_ j = Returns (BooleanObj (negb b)) j1)
  | Panics msg => eE' notc env_ j = Panics msg
  | OutOfFuel => eE' notc env_ j = OutOfFuel
  end.
Proof.
  rewrite eE'_notc. unfold evalPrefixExpression, bind.
  destruct (eE c env_ j) as [v j1| |] eqn:Hc; [|reflexivity..].
  destruct (isError v) eqn:Hv; [left; now split|right].
  destruct (c_Boolean _ _ _ Hc Hv) as [b ->]. exists b. split; reflexivity.
Qed.

Lemma whileLoop_to_repeatLoop :
  forall (k : nat) (res r0 r' : Object) (i0 j i' : Interpreter),
    evalStatements eS body env_ i0 = Returns r0 j ->
    isSignal r0 = false ->
    whileLoop eS eE' k notc body env_ res j = Returns r' i' ->
    exists r,
      repeatLoop eS eE (S k) body c env_ i0 = Returns r i'
      /\ (r' = r \/ (r' = res /\ r = r0)).
Proof.
  induction k as [|k IH]; intros res r0 r' i0 j i' Hbody H0 H;
    [discriminate H|].
  apply isSignal_tests in H0 as H0'. destruct H0' as [He Hr].
  cbn [whileLoop] in H. unfold bind in H.
  assert (Hunfold : repeatLoop eS eE (S (S k)) body c env_ i0
                    = match eE c env_ j with
                      | Returns v j1 =>
                          if isError v then Returns v j1
                          else if isTruthy v then Returns r0 j1
                          else repeatLoop eS eE (S k) body c env_ j1
                      | Panics msg => Panics msg
                      | OutOfFuel => OutOfFuel
                      end).
  { change (repeatLoop eS eE (S (S k)) body c env_ i0)
      with (bind (evalStatements eS body env_)
              (fun r => if isError r then ret r
                        else if has_type r RETURN_VALUE_OBJ then ret r
                        else bind (eE c env_)
                               (fun condition =>
                                  if isError condition then ret condition
                                  else if isTruthy condition then ret r
                                  else repeatLoop eS eE (S k) body c env_)) i0).
    unfold bind. rewrite Hbody, He, Hr.
    destruct (eE c env_ j) as [v j1| |]; [|reflexivity..].
    destruct (isError v); [reflexivity|]. now destruct (isTruthy v). }
  rewrite Hunfold. clear Hunfold.
  pose proof (notc_cases j) as Hn.
  destruct (eE c env_ j) as [v j1| |];
    [|rewrite Hn in H; discriminate H..].
  destruct Hn as [[Hv Hn]|(b & -> & Hn)]; rewrite Hn in H.
  - rewrite Hv in *. injection H as <- <-. exists v. split; [reflexivity|now left].
  - cbn in H. cbn [isError has_type Type_ String.eqb Ascii.eqb isTruthy].
    change (isError (BooleanObj b)) with false. cbv iota.
    destruct b; cbn in H |- *.
    + injection H as <- <-. exists r0. split; [reflexivity|now right].
    + destruct (evalStatements eS body env_ j1) as [r1 j2| |] eqn:Hb1;
        try discriminate H.
      destruct (isError r1) eqn:He1.
      * injection H as <- <-. exists r1. split; [|now left].
        cbn [repeatLoop]. unfold bind. now rewrite Hb1, He1.
      * destruct (has_type r1 RETURN_VALUE_OBJ) eqn:Hr1.
        -- injection H as <- <-. exists r1. split; [|now left].
           cbn [repeatLoop]. unfold bind. now rewrite Hb1, He1, Hr1.
        -- assert (H1 : isSignal r1 = false) by now apply isSignal_tests.
           destruct (IH r1 r1 r' j1 j2 i' Hb1 H1 H) as (r & Hrep & Hrel).
           exists r. split; [exact Hrep|]. left. now destruct Hrel as [|[]]; subst.
Qed.

Lemma repeatLoop_to_whileLoop :
  forall (k : nat) (r : Object) (i0 i' : Interpreter),
    repeatLoop eS eE (S k) body c env_ i0 = Returns r i' ->
    exists r0 j,
      evalStatements eS body env_ i0 = Returns r0 j
      /\ ((isSignal r0 = true /\ r = r0 /\ i' = j)
          \/ (isSignal r0 = false
              /\ forall res, exists r',
                   whileLoop eS eE' (S k) notc body env_ res j = Returns r' i'
                   /\ (r' = r \/ (r' = res /\ r = r0)))).
Proof.
  induction k as [|k IH]; intros r i0 i' H;
    rewrite repeatLoop_S in H; unfold bind in H;
    destruct (evalStatements eS body env_ i0) as [r0 j| |] eqn:Hbody;
    try discriminate H; exists r0, j; (split; [reflexivity|]);
    (destruct (isSignal r0) eqn:H0;
     [ left; apply isSignal_true_cases in H0;
       destruct (isError r0); [now injection H as <- <-|];
       destruct H0 as [H0|H0]; [discriminate H0|]; rewrite H0 in H;
       now injection H as <- <-
     | right; split; [reflexivity|]; intros res;
       apply isSignal_tests in H0 as [He Hr]; rewrite He, Hr in H;
       rewrite whileLoop_S; unfold bind;
       pose proof (notc_cases j) as Hn;
       destruct (eE c env_ j) as [v j1| |]; try discriminate H;
       destruct Hn as [[Hv Hn]|(b & -> & Hn)]; rewrite Hn;
       [ rewrite Hv in *; injection H as <- <-; exists v;
         split; [reflexivity|now left]
       | change (isError (BooleanObj b)) with false in H; cbv iota in H;
         change (isError (BooleanObj (negb b))) with false; cbv iota;
         destruct b; cbn [isTruthy negb] in H |- *;
         [ injection H as <- <-; exists res; split; [reflexivity|now right]
         | ] ] ]).
  - discriminate H.
  - destruct (IH r j1 i' H) as (r1 & j2 & Hb1 & Hcase).
    rewrite Hb1.
    destruct Hcase as [(H1 & -> & ->)|(H1 & Hw)].
    + exists r1. split; [|now left].
      apply isSignal_true_cases in H1.
      destruct (isError r1); [reflexivity|].
      destruct H1 as [H1|H1]; [discriminate H1|]. now rewrite H1.
    + apply isSignal_tests in H1 as [He1 Hr1]. rewrite He1, Hr1.
      destruct (Hw r1) as (r' & Hw' & Hrel).
      exists r'. split; [exact Hw'|]. left.
      now destruct Hrel as [|[]]; subst.
Qed.

End Repeat_and_While.

Section Repeat.

Variable fmt_g : float64 -> string.
Variable Date_Inspect : Z -> Z -> Z -> string.

#[local] Abbreviation eS n := (evalStatement fmt_g Date_Inspect n).
#[local] Abbreviation eE n := (evalExpression fmt_g Date_Inspect n).

Lemma deeper_statements (n m : nat) (stmts : list ast.Statement) (env_ : loc)
  (i i' : Interpreter) (r : Object) :
  (n <= m)%nat ->
  evalStatements (eS n) stmts env_ i = Returns r i' ->
  evalStatements (eS m) stmts env_ i = Returns r i'.
Proof.
  intros Hle. apply (leM_evalStatements (eS n) (eS m)).
  apply (evaluator_deeper fmt_g Date_Inspect n m Hle).
Qed.

(** X26: when the condition [c] only yields Booleans (or Errors),
    [REPEAT body UNTIL c] does what [body] followed by
    [WHILE NOT c DO body ENDWHILE] does: each of the two has a result for
    some evaluation depth exactly when the other has, in the same final
    state; an Error or a RETURN of the one is that of the other.  The
    results differ only in that the WHILE loop yields no value when it
    does not run its body, where REPEAT yields what its body yielded. *)
Theorem REPEAT_is_body_then_WHILE_NOT (body : list ast.Statement)
  (c : ast.Expression) (env_ : loc) (i i' : Interpreter) :
  (forall n j v j',
      eE n c env_ j = Returns v j' -> isError v = false ->
      exists b : bool, v = BooleanObj b) ->
  let loop := ast.WhileStatement (ast.PrefixExpression "NOT" c) body in
  (forall n r,
      eS n (ast.RepeatStatement body c) env_ i = Returns r i' ->
      exists m r',
        evalStatements (eS m) (body ++ [loop]) env_ i = Returns r' i'
        /\ (r' = r \/ (r' = NilObj /\ isSignal r = false)))
  /\ (forall n r',
        evalStatements (eS n) (body ++ [loop]) env_ i = Returns r' i' ->
        exists m r,
          eS m (ast.RepeatStatement body c) env_ i = Returns r i'
          /\ (r' = r \/ (r' = NilObj /\ isSignal r = false))).
Proof.
  intros Hbool loop. split.
  - intros n r H.
    destruct n as [|n]; [discriminate H|].
    rewrite evalStatement_S in H. cbn [evalStatement_body] in H.
    unfold evalRepeatStatement in H.
    destruct n as [|k]; [discriminate H|].
    apply (repeatLoop_to_whileLoop (eS (S k)) (eE (S k)) (eE (S (S k))))
      in H as (r0 & j & Hbody & Hcase);
      [|reflexivity|exact (Hbool (S k))].
    apply (deeper_statements (S k) (S (S (S k)))) in Hbody; [|lia].
    exists (S (S (S k))).
    unfold evalStatements in *.
    rewrite evalStatements_from_app by reflexivity. rewrite Hbody.
    destruct Hcase as [(H0 & -> & ->)|(H0 & Hw)].
    + rewrite H0. exists r0. split; [reflexivity|now left].
    + rewrite H0. destruct (Hw NilObj) as (r' & Hw' & Hrel).
      exists r'. split.
      * cbn [evalStatements_from]. unfold bind.
        assert (Hl : eS (S (S (S k))) loop env_ j = Returns r' i').
        { rewrite evalStatement_S. cbn [evalStatement_body].
          unfold evalWhileStatement.
          pose proof (leM_whileLoop (eS (S k)) (eS (S (S k)))
                        (eE (S (S k))) (eE (S (S k)))) as L.
          unfold leM in L at 3. eapply (L 0%nat 0%nat); [| |lia| |exact Hw'].
          - apply (evaluator_deeper fmt_g Date_Inspect (S k) (S (S k))). lia.
          - intros; apply leM_refl.
          - lia. }
        rewrite Hl. now destruct (isSignal r').
      * destruct Hrel as [->|[-> ->]]; [now left|right; now split].
  - intros n r' H.
    unfold evalStatements in H.
    rewrite evalStatements_from_app in H by reflexivity.
    destruct (evalStatements_from (eS n) NilObj body env_ i)
      as [r0 j| |] eqn:Hbody; try discriminate H.
    apply (deeper_statements n (S n)) in Hbody; [|lia].
    exists (S (S n)).
    rewrite evalStatement_S. cbn [evalStatement_body].
    unfold evalRepeatStatement.
    destruct (isSignal r0) eqn:H0.
    + injection H as <- <-. exists r0. split; [|now left].
      rewrite repeatLoop_S. unfold bind. rewrite Hbody.
      apply isSignal_true_cases in H0.
      destruct (isError r0); [reflexivity|].
      destruct H0 as [H0|H0]; [discriminate H0|]. now rewrite H0.
    + cbn [evalStatements_from] in H. unfold bind in H.
      destruct (eS n loop env_ j) as [r'' j''| |] eqn:Hl; try discriminate H.
      assert (r'' = r' /\ j'' = i') as [-> ->].
      { destruct (isSignal r''); now injection H as <- <-. }
      clear H.
      destruct n as [|n1]; [discriminate Hl|].
      rewrite evalStatement_S in Hl. cbn [evalStatement_body] in Hl.
      unfold evalWhileStatement in Hl.
      assert (Hw : whileLoop (eS (S (S n1))) (eE (S (S n1))) n1
                     (ast.PrefixExpression "NOT" c) body env_ NilObj j
                   = Returns r' i').
      { pose proof (leM_whileLoop (eS n1) (eS (S (S n1)))
                      (eE n1) (eE (S (S n1)))) as L.
        unfold leM in L at 3. eapply (L 0%nat 0%nat); [| |lia| |exact Hl].
        - apply (evaluator_deeper fmt_g Date_Inspect n1 (S (S n1))). lia.
        - apply (evaluator_deeper fmt_g Date_Inspect n1 (S (S n1))). lia.
        - lia. }
      destruct (whileLoop_to_repeatLoop (eS (S (S n1))) (eE (S n1))
                  (eE (S (S n1))) body c env_ (fun j => eq_refl)
                  (Hbool (S n1)) n1 NilObj r0 r' i j i' Hbody H0 Hw)
        as (r & Hrep & Hrel).
      exists r. split.
      * pose proof (leM_repeatLoop (eS (S (S n1))) (eS (S (S n1)))
                      (eE (S n1)) (eE (S (S n1)))) as L.
        unfold leM in L at 3. eapply (L 0%nat 0%nat); [| |lia| |exact Hrep].
        -- intros; apply leM_refl.
        -- apply (evaluator_deeper fmt_g Date_Inspect (S n1) (S (S n1))). lia.
        -- lia.
      * destruct Hrel as [->|[-> ->]]; [now left|right; now split].
Qed.

End Repeat.

Lemma REPEAT_is_body_then_WHILE_NOT_witness :
  exists (m : nat) (r' : Object) (i' : Interpreter),
    evalStatements (evalStatement sample_fmt_g sample_Date_Inspect m)
      [ ast.AssignmentStatement (ast.Identifier "Count")
          (ast.InfixExpression (ast.Identifier "Count") "+"
             (ast.IntegerLiteral 1));
        ast.WhileStatement
          (ast.PrefixExpression "NOT"
             (ast.InfixExpression (ast.Identifier "Count") ">="
                (ast.IntegerLiteral 3)))
          [ ast.AssignmentStatement (ast.Identifier "Count")
              (ast.InfixExpression (ast.Identifier "Count") "+"
                 (ast.IntegerLiteral 1)) ] ]
      0%nat Count_state
    = Returns r' i'
    /\ Get i' 0%nat "Count" = Some (IntegerObj 3).
Proof.
  edestruct (REPEAT_is_body_then_WHILE_NOT sample_fmt_g sample_Date_Inspect
               [ ast.AssignmentStatement (ast.Identifier "Count")
                   (ast.InfixExpression (ast.Identifier "Count") "+"
                      (ast.IntegerLiteral 1)) ]
               (ast.InfixExpression (ast.Identifier "Count") ">="
                  (ast.IntegerLiteral 3))
               0%nat Count_state) as [H _].
  - intros n j v j' Hc Hv.
    destruct n as [|n]; [discriminate Hc|].
    rewrite evalExpression_S in Hc. cbn [evalExpression_body] in Hc.
    unfold evalInfixExpression, bind in Hc.
    destruct (evalExpression _ _ n (ast.Identifier "Count") 0%nat j)
      as [l j1| |]; try discriminate Hc.
    destruct (isError l) eqn:Hl; [injection Hc as <- <-; congruence|].
    destruct (evalExpression _ _ n (ast.IntegerLiteral 3) 0%nat j1)
      as [r j2| |]; try discriminate Hc.
    destruct (isError r) eqn:Hr; [injection Hc as <- <-; congruence|].
    apply (comparison_yields_Boolean sample_fmt_g sample_Date_Inspect ">="
             l r v j2 j'); [|exact Hc|exact Hv].
    unfold comparison_operators. set_solver.
  - edestruct (H 8%nat) as (m & r' & Hrun & _); [reflexivity|].
    exists m, r'. eexists. split; [exact Hrun|reflexivity].
Defined.
